(** * Canonical sign-bytes codec: a shallow embedding of
      [proto/tendermint/types/canonical.pb.go]

    The Go file holds the generated gogoproto marshalling code of the four
    canonical messages (block id, part-set header, proposal, vote).  The
    embedding follows the Go code function by function:

    - a byte slice is a [list byte]; [len] is its Go length as an integer;
    - Go's [int] is taken to be 64 bits wide; conversions between integer
      types are the functions [uint64], [uint32], [int64], [int32] on [Z],
      written as the wrap-around they perform;
    - a function that returns [error] returns a [result]; a run-time panic
      (index or slice bound out of range) is the outcome [Panic];
    - loops are structurally recursive on a fuel counter; running out of it
      is the separate outcome [OutOfFuel], which the theorems exclude;
    - the marshalling code writes backwards into a buffer it shares with the
      nested encoders through sub-slices; a callee receives the sub-slice and
      returns its new contents, which the caller splices back. *)

From Stdlib Require Import ZArith List Lia Bool.
From coqutil Require Import Byte Word.LittleEndianList Z.bitblast.
Import ListNotations.
Local Open Scope Z_scope.

(** ** Errors and outcomes *)

Inductive error : Type :=
| ErrInvalidLengthCanonical          (* "negative length found during unmarshaling" *)
| ErrIntOverflowCanonical            (* "integer overflow" *)
| ErrUnexpectedEndOfGroupCanonical   (* "unexpected end of group" *)
| ErrUnexpectedEOF                   (* io.ErrUnexpectedEOF *)
| ErrEndGroupForNonGroup             (* "wiretype end group for non-group" *)
| ErrIllegalTag (fieldNum wire : Z)  (* "illegal tag %d (wire type %d)" *)
| ErrWrongWireType (wireType fieldNum : Z) (* "wrong wireType = %d for field ..." *)
| ErrIllegalWireType (wireType : Z)  (* "illegal wireType %d" *)
| ErrForeign.                        (* an error raised by a codec outside this file *)

Inductive result (A : Type) : Type :=
| Ok (a : A)
| Err (e : error)
| Panic
| OutOfFuel.

Arguments Ok {A} a.
Arguments Err {A} e.
Arguments Panic {A}.
Arguments OutOfFuel {A}.

Definition bind {A B : Type} (r : result A) (k : A -> result B) : result B :=
  match r with
  | Ok a => k a
  | Err e => Err e
  | Panic => Panic
  | OutOfFuel => OutOfFuel
  end.

Notation "x <- r ;; k" := (bind r (fun x => k))
  (at level 61, r at next level, right associativity).
Notation "' p <- r ;; k" := (bind r (fun x => let p := x in k))
  (at level 61, p pattern, r at next level, right associativity).

(** ** Machine integers *)

Definition uint64 (z : Z) : Z := z mod 2 ^ 64.
Definition uint32 (z : Z) : Z := z mod 2 ^ 32.
Definition int64 (z : Z) : Z := (z + 2 ^ 63) mod 2 ^ 64 - 2 ^ 63.
Definition int32 (z : Z) : Z := (z + 2 ^ 31) mod 2 ^ 32 - 2 ^ 31.
(** Go's [int] on the 64-bit targets the node is built for. *)
Definition int (z : Z) : Z := int64 z.

Definition MinInt64 : Z := - 2 ^ 63.
Definition MaxInt64 : Z := 2 ^ 63 - 1.

Definition is_int64 (z : Z) : Prop := MinInt64 <= z <= MaxInt64.
Definition is_int32 (z : Z) : Prop := - 2 ^ 31 <= z <= 2 ^ 31 - 1.
Definition is_uint32 (z : Z) : Prop := 0 <= z < 2 ^ 32.

(** [math/bits.Len64]: the number of bits needed to represent [x]. *)
Definition Len64 (x : Z) : Z := if x =? 0 then 0 else Z.log2 x + 1.

(** ** Slices *)

Definition len {A : Type} (s : list A) : Z := Z.of_nat (length s).

(** [dAtA[i]], read. *)
Definition index (dAtA : list byte) (i : Z) : result byte :=
  if (0 <=? i) && (i <? len dAtA) then
    match nth_error dAtA (Z.to_nat i) with
    | Some b => Ok b
    | None => Panic
    end
  else Panic.

(** [dAtA[i] = b]. *)
Definition store (dAtA : list byte) (i : Z) (b : byte) : result (list byte) :=
  if (0 <=? i) && (i <? len dAtA) then
    Ok (firstn (Z.to_nat i) dAtA ++ b :: skipn (S (Z.to_nat i)) dAtA)
  else Panic.

(** [dAtA[lo:]] and [dAtA[:hi]] and [dAtA[lo:hi]]. *)
Definition slice_from (dAtA : list byte) (lo : Z) : result (list byte) :=
  if (0 <=? lo) && (lo <=? len dAtA) then Ok (skipn (Z.to_nat lo) dAtA) else Panic.

Definition slice_to (dAtA : list byte) (hi : Z) : result (list byte) :=
  if (0 <=? hi) && (hi <=? len dAtA) then Ok (firstn (Z.to_nat hi) dAtA) else Panic.

Definition slice (dAtA : list byte) (lo hi : Z) : result (list byte) :=
  if (0 <=? lo) && (lo <=? hi) && (hi <=? len dAtA) then
    Ok (firstn (Z.to_nat (hi - lo)) (skipn (Z.to_nat lo) dAtA))
  else Panic.

(** [copy(dst, src)]: copies [min(len(dst), len(src))] bytes to the front of
    [dst]. *)
Definition copy (dst src : list byte) : list byte :=
  firstn (length dst) src ++ skipn (length src) dst.

(** [copy(dAtA[i:], src)], as an update of [dAtA]. *)
Definition copy_at (dAtA : list byte) (i : Z) (src : list byte) : result (list byte) :=
  dst <- slice_from dAtA i ;;
  Ok (firstn (Z.to_nat i) dAtA ++ copy dst src).

(** [encoding/binary.LittleEndian.PutUint64(b, v)]: starts with the bounds
    check [_ = b[7]]. *)
Definition PutUint64 (b : list byte) (v : Z) : result (list byte) :=
  if 8 <=? len b then Ok (le_split 8 v ++ skipn 8 b) else Panic.

(** [encoding/binary.LittleEndian.Uint64(b)]. *)
Definition Uint64 (b : list byte) : result Z :=
  if 8 <=? len b then Ok (le_combine (firstn 8 b)) else Panic.

(** ** Varints *)

(** [sovCanonical]: the number of bytes of the varint of [x]. *)
Definition sovCanonical (x : Z) : Z := (Len64 (Z.lor x 1) + 6) / 7.

(** [sozCanonical]: size of the zig-zag varint; defined by the generated code
    and used by none of the four messages. *)
Definition sozCanonical (x : Z) : Z :=
  sovCanonical (uint64 (Z.lxor (uint64 (Z.shiftl x 1)) (uint64 (Z.shiftr (int64 x) 63)))).

(** The body of [encodeVarintCanonical]: the loop [for v >= 1<<7] and the
    store that follows it. *)
Fixpoint encodeVarint_loop (fuel : nat) (dAtA : list byte) (offset v : Z)
  : result (list byte) :=
  match fuel with
  | O => OutOfFuel
  | S fuel' =>
      if 128 <=? v then
        dAtA <- store dAtA offset (byte.of_Z (Z.lor (Z.land v 0x7f) 0x80)) ;;
        encodeVarint_loop fuel' dAtA (offset + 1) (Z.shiftr v 7)
      else store dAtA offset (byte.of_Z v)
  end.

(** [encodeVarintCanonical(dAtA, offset, v)]; a [uint64] has at most ten
    groups of seven bits. *)
Definition encodeVarintCanonical (dAtA : list byte) (offset v : Z)
  : result (list byte * Z) :=
  let offset := offset - sovCanonical v in
  let base := offset in
  dAtA <- encodeVarint_loop 10 dAtA offset v ;;
  Ok (dAtA, base).

(** The varint loop the decoders inline,
    [for shift := uint(0); ; shift += 7 { ... acc |= T(b&0x7F) << shift ... }],
    with [conv] the conversion to the accumulator's type [T].  It returns
    the accumulated value and the index after the varint. *)
Fixpoint varint_loop (conv : Z -> Z) (dAtA : list byte) (fuel : nat)
  (shift acc iNdEx : Z) : result (Z * Z) :=
  match fuel with
  | O => OutOfFuel
  | S fuel' =>
      if 64 <=? shift then Err ErrIntOverflowCanonical
      else if len dAtA <=? iNdEx then Err ErrUnexpectedEOF
      else
        b <- index dAtA iNdEx ;;
        let iNdEx := iNdEx + 1 in
        let acc := Z.lor acc (conv (Z.shiftl (conv (Z.land (byte.unsigned b) 0x7F)) shift)) in
        if byte.unsigned b <? 0x80 then Ok (acc, iNdEx)
        else varint_loop conv dAtA fuel' (shift + 7) acc iNdEx
  end.

(** [shift] takes the values 0, 7, ..., 63 and the test [shift >= 64] ends
    the loop at 70: eleven rounds. *)
Definition read_varint (conv : Z -> Z) (dAtA : list byte) (iNdEx : Z) : result (Z * Z) :=
  varint_loop conv dAtA 11 0 0 iNdEx.



(** ** The messages and their encoders *)

Record CanonicalPartSetHeader : Type := {
  psh_Total : Z;             (* uint32 *)
  psh_Hash : list byte
}.

Record CanonicalBlockID : Type := {
  bid_Hash : list byte;
  bid_PartSetHeader : CanonicalPartSetHeader
}.

(** The blocks of statements the generated encoders repeat.  Each takes the
    buffer and the write index [i] and returns both. *)

(** [i = encodeVarintCanonical(dAtA, i, v); i--; dAtA[i] = tag]. *)
Definition put_varint (tag : byte) (v : Z) (dAtA : list byte) (i : Z)
  : result (list byte * Z) :=
  '(dAtA, i) <- encodeVarintCanonical dAtA i v ;;
  let i := i - 1 in
  dAtA <- store dAtA i tag ;;
  Ok (dAtA, i).

(** [i -= len(bs); copy(dAtA[i:], bs);
     i = encodeVarintCanonical(dAtA, i, uint64(len(bs))); i--; dAtA[i] = tag]. *)
Definition put_bytes (tag : byte) (bs : list byte) (dAtA : list byte) (i : Z)
  : result (list byte * Z) :=
  let i := i - len bs in
  dAtA <- copy_at dAtA i bs ;;
  put_varint tag (uint64 (len bs)) dAtA i.

(** [i -= 8; encoding_binary.LittleEndian.PutUint64(dAtA[i:], uint64(v));
     i--; dAtA[i] = tag]. *)
Definition put_fixed64 (tag : byte) (v : Z) (dAtA : list byte) (i : Z)
  : result (list byte * Z) :=
  let i := i - 8 in
  dst <- slice_from dAtA i ;;
  dst <- PutUint64 dst (uint64 v) ;;
  let dAtA := firstn (Z.to_nat i) dAtA ++ dst in
  let i := i - 1 in
  dAtA <- store dAtA i tag ;;
  Ok (dAtA, i).

(** [size, err := x.MarshalToSizedBuffer(dAtA[:i]); ...; i -= size;
     i = encodeVarintCanonical(dAtA, i, uint64(size)); i--; dAtA[i] = tag].
    The callee writes into the sub-slice, which shares its bytes with
    [dAtA]. *)
Definition put_nested (tag : byte) (marshalTo : list byte -> result (list byte * Z))
  (dAtA : list byte) (i : Z) : result (list byte * Z) :=
  sub <- slice_to dAtA i ;;
  '(sub, size) <- marshalTo sub ;;
  let dAtA := sub ++ skipn (Z.to_nat i) dAtA in
  let i := i - size in
  put_varint tag (uint64 size) dAtA i.

Definition when (c : bool) (f : list byte -> Z -> result (list byte * Z))
  (dAtA : list byte) (i : Z) : result (list byte * Z) :=
  if c then f dAtA i else Ok (dAtA, i).

(** [make([]byte, size)]. *)
Definition make (size : Z) : result (list byte) :=
  if 0 <=? size then Ok (repeat Byte.x00 (Z.to_nat size)) else Panic.

(** The body shared by the four [Marshal] methods:
    [size := m.Size(); dAtA = make([]byte, size);
     n, err := m.MarshalToSizedBuffer(dAtA[:size]); ...; return dAtA[:n], nil]. *)
Definition marshal_with (size : Z) (marshalTo : list byte -> result (list byte * Z))
  : result (list byte) :=
  dAtA <- make size ;;
  sub <- slice_to dAtA size ;;
  '(sub, n) <- marshalTo sub ;;
  let dAtA := sub ++ skipn (Z.to_nat size) dAtA in
  slice_to dAtA n.

Definition CanonicalPartSetHeader_Size (m : CanonicalPartSetHeader) : Z :=
  let n := 0 in
  let n := if negb (psh_Total m =? 0) then n + (1 + sovCanonical (uint64 (psh_Total m))) else n in
  let l := len (psh_Hash m) in
  let n := if 0 <? l then n + (1 + l + sovCanonical (uint64 l)) else n in
  n.

Definition CanonicalPartSetHeader_MarshalToSizedBuffer (m : CanonicalPartSetHeader)
  (dAtA : list byte) : result (list byte * Z) :=
  let i := len dAtA in
  '(dAtA, i) <- when (0 <? len (psh_Hash m)) (put_bytes Byte.x12 (psh_Hash m)) dAtA i ;;
  '(dAtA, i) <- when (negb (psh_Total m =? 0))
                  (put_varint Byte.x08 (uint64 (psh_Total m))) dAtA i ;;
  Ok (dAtA, len dAtA - i).

Definition CanonicalPartSetHeader_Marshal (m : CanonicalPartSetHeader) : result (list byte) :=
  marshal_with (CanonicalPartSetHeader_Size m) (CanonicalPartSetHeader_MarshalToSizedBuffer m).

Definition CanonicalBlockID_Size (m : CanonicalBlockID) : Z :=
  let n := 0 in
  let l := len (bid_Hash m) in
  let n := if 0 <? l then n + (1 + l + sovCanonical (uint64 l)) else n in
  let l := CanonicalPartSetHeader_Size (bid_PartSetHeader m) in
  let n := n + (1 + l + sovCanonical (uint64 l)) in
  n.

Definition CanonicalBlockID_MarshalToSizedBuffer (m : CanonicalBlockID)
  (dAtA : list byte) : result (list byte * Z) :=
  let i := len dAtA in
  '(dAtA, i) <- put_nested Byte.x12
                  (CanonicalPartSetHeader_MarshalToSizedBuffer (bid_PartSetHeader m)) dAtA i ;;
  '(dAtA, i) <- when (0 <? len (bid_Hash m)) (put_bytes Byte.x0a (bid_Hash m)) dAtA i ;;
  Ok (dAtA, len dAtA - i).

Definition CanonicalBlockID_Marshal (m : CanonicalBlockID) : result (list byte) :=
  marshal_with (CanonicalBlockID_Size m) (CanonicalBlockID_MarshalToSizedBuffer m).

(** ** The field skipper *)

(** The loop of [skipCanonical] for wire type 0; it reads [dAtA[iNdEx-1]]
    after the increment. *)
Fixpoint skip_varint_loop (dAtA : list byte) (fuel : nat) (shift iNdEx : Z) : result Z :=
  match fuel with
  | O => OutOfFuel
  | S fuel' =>
      if 64 <=? shift then Err ErrIntOverflowCanonical
      else if len dAtA <=? iNdEx then Err ErrUnexpectedEOF
      else
        let iNdEx := iNdEx + 1 in
        b <- index dAtA (iNdEx - 1) ;;
        if byte.unsigned b <? 0x80 then Ok iNdEx
        else skip_varint_loop dAtA fuel' (shift + 7) iNdEx
  end.

(** The [switch wireType] of [skipCanonical]: the index and the depth after
    the field's payload. *)
Definition skip_field (dAtA : list byte) (wireType iNdEx depth : Z) : result (Z * Z) :=
  match wireType with
  | 0 => iNdEx <- skip_varint_loop dAtA 11 0 iNdEx ;; Ok (iNdEx, depth)
  | 1 => Ok (int (iNdEx + 8), depth)
  | 2 =>
      '(length, iNdEx) <- read_varint int dAtA iNdEx ;;
      if length <? 0 then Err ErrInvalidLengthCanonical
      else Ok (int (iNdEx + length), depth)
  | 3 => Ok (iNdEx, depth + 1)
  | 4 =>
      if depth =? 0 then Err ErrUnexpectedEndOfGroupCanonical
      else Ok (iNdEx, depth - 1)
  | 5 => Ok (int (iNdEx + 4), depth)
  | _ => Err (ErrIllegalWireType wireType)
  end.

(** The loop [for iNdEx < l] of [skipCanonical] and the return after it. *)
Fixpoint skip_loop (fuel : nat) (dAtA : list byte) (iNdEx depth : Z) : result Z :=
  match fuel with
  | O => OutOfFuel
  | S fuel' =>
      if iNdEx <? len dAtA then
        '(wire, iNdEx) <- read_varint uint64 dAtA iNdEx ;;
        let wireType := int (Z.land wire 0x7) in
        '(iNdEx, depth) <- skip_field dAtA wireType iNdEx depth ;;
        if iNdEx <? 0 then Err ErrInvalidLengthCanonical
        else if depth =? 0 then Ok iNdEx
        else skip_loop fuel' dAtA iNdEx depth
      else Err ErrUnexpectedEOF
  end.

(** [skipCanonical]: every round consumes at least the byte of a tag, so the
    loop runs at most [len(dAtA)] times. *)
Definition skipCanonical (dAtA : list byte) : result Z :=
  skip_loop (S (length dAtA)) dAtA 0 0.

(** ** The decoders *)

(** The header of every round of an [Unmarshal] loop: the tag varint, the
    field number and the wire type, and the two checks on them. *)
Definition read_tag (dAtA : list byte) (iNdEx : Z) : result (Z * Z * Z) :=
  '(wire, iNdEx) <- read_varint uint64 dAtA iNdEx ;;
  let fieldNum := int32 (Z.shiftr wire 3) in
  let wireType := int (Z.land wire 0x7) in
  if wireType =? 4 then Err ErrEndGroupForNonGroup
  else if fieldNum <=? 0 then Err (ErrIllegalTag fieldNum wire)
  else Ok (fieldNum, wireType, iNdEx).

(** The header of a length-delimited field: the length varint accumulated in
    type [conv], its conversion [toInt] to [int], and the three checks;
    returns the index of the payload and [postIndex]. *)
Definition read_length (conv toInt : Z -> Z) (dAtA : list byte) (iNdEx : Z)
  : result (Z * Z) :=
  '(byteLen, iNdEx) <- read_varint conv dAtA iNdEx ;;
  let byteLen := toInt byteLen in
  if byteLen <? 0 then Err ErrInvalidLengthCanonical
  else
    let postIndex := int (iNdEx + byteLen) in
    if postIndex <? 0 then Err ErrInvalidLengthCanonical
    else if len dAtA <? postIndex then Err ErrUnexpectedEOF
    else Ok (iNdEx, postIndex).

(** [if (iNdEx + 8) > l { return io.ErrUnexpectedEOF };
     v = int64(encoding_binary.LittleEndian.Uint64(dAtA[iNdEx:])); iNdEx += 8]. *)
Definition read_fixed64 (dAtA : list byte) (iNdEx : Z) : result (Z * Z) :=
  if len dAtA <? iNdEx + 8 then Err ErrUnexpectedEOF
  else
    b <- slice_from dAtA iNdEx ;;
    v <- Uint64 b ;;
    Ok (int64 v, iNdEx + 8).

(** The [default] case of every [Unmarshal] loop. *)
Definition skip_unknown (dAtA : list byte) (preIndex : Z) : result Z :=
  let iNdEx := preIndex in
  rest <- slice_from dAtA iNdEx ;;
  skippy <- skipCanonical rest ;;
  if (skippy <? 0) || (int (iNdEx + skippy) <? 0) then Err ErrInvalidLengthCanonical
  else if len dAtA <? int (iNdEx + skippy) then Err ErrUnexpectedEOF
  else Ok (int (iNdEx + skippy)).

Definition CanonicalPartSetHeader_zero : CanonicalPartSetHeader :=
  {| psh_Total := 0; psh_Hash := [] |}.

Definition CanonicalBlockID_zero : CanonicalBlockID :=
  {| bid_Hash := []; bid_PartSetHeader := CanonicalPartSetHeader_zero |}.

(** The loop of every [Unmarshal] method:
    [for iNdEx < l { preIndex := iNdEx; <tag>; switch fieldNum { ... } }]
    and the check after it.  [field] is the [switch] of the message: from the
    receiver, the field number and the wire type of the tag, the buffer, the
    index of the tag and the index after it, it gives the receiver and the
    index after the field. *)
Fixpoint Unmarshal_loop {M : Type}
  (field : M -> Z -> Z -> list byte -> Z -> Z -> result (M * Z))
  (fuel : nat) (dAtA : list byte) (m : M) (iNdEx : Z) : result M :=
  match fuel with
  | O => OutOfFuel
  | S fuel' =>
      if iNdEx <? len dAtA then
        let preIndex := iNdEx in
        '(fieldNum, wireType, iNdEx) <- read_tag dAtA iNdEx ;;
        '(m, iNdEx) <- field m fieldNum wireType dAtA preIndex iNdEx ;;
        Unmarshal_loop field fuel' dAtA m iNdEx
      else if len dAtA <? iNdEx then Err ErrUnexpectedEOF
      else Ok m
  end.

(** Every round consumes at least the byte of a tag, so the loop runs at
    most [len(dAtA)] times before the test [iNdEx < l] fails. *)
Definition Unmarshal_with {M : Type}
  (field : M -> Z -> Z -> list byte -> Z -> Z -> result (M * Z))
  (m : M) (dAtA : list byte) : result M :=
  Unmarshal_loop field (S (length dAtA)) dAtA m 0.

(** The [default] case, which leaves the receiver as it is. *)
Definition field_default {M : Type} (m : M) (dAtA : list byte) (preIndex : Z)
  : result (M * Z) :=
  iNdEx <- skip_unknown dAtA preIndex ;;
  Ok (m, iNdEx).

(** The [switch fieldNum] of [(m *CanonicalPartSetHeader) Unmarshal]. *)
Definition CanonicalPartSetHeader_field (m : CanonicalPartSetHeader)
  (fieldNum wireType : Z) (dAtA : list byte) (preIndex iNdEx : Z)
  : result (CanonicalPartSetHeader * Z) :=
  match fieldNum with
  | 1 =>
      if negb (wireType =? 0) then Err (ErrWrongWireType wireType 1)
      else
        '(v, iNdEx) <- read_varint uint32 dAtA iNdEx ;;
        Ok ({| psh_Total := v; psh_Hash := psh_Hash m |}, iNdEx)
  | 2 =>
      if negb (wireType =? 2) then Err (ErrWrongWireType wireType 2)
      else
        '(iNdEx, postIndex) <- read_length int (fun z => z) dAtA iNdEx ;;
        bs <- slice dAtA iNdEx postIndex ;;
        Ok ({| psh_Total := psh_Total m; psh_Hash := bs |}, postIndex)
  | _ => field_default m dAtA preIndex
  end.

(** [(m *CanonicalPartSetHeader) Unmarshal(dAtA)]: the receiver's fields are
    overwritten by the fields found in [dAtA]. *)
Definition CanonicalPartSetHeader_Unmarshal (m : CanonicalPartSetHeader)
  (dAtA : list byte) : result CanonicalPartSetHeader :=
  Unmarshal_with CanonicalPartSetHeader_field m dAtA.

(** The [switch fieldNum] of [(m *CanonicalBlockID) Unmarshal]. *)
Definition CanonicalBlockID_field (m : CanonicalBlockID)
  (fieldNum wireType : Z) (dAtA : list byte) (preIndex iNdEx : Z)
  : result (CanonicalBlockID * Z) :=
  match fieldNum with
  | 1 =>
      if negb (wireType =? 2) then Err (ErrWrongWireType wireType 1)
      else
        '(iNdEx, postIndex) <- read_length int (fun z => z) dAtA iNdEx ;;
        bs <- slice dAtA iNdEx postIndex ;;
        Ok ({| bid_Hash := bs; bid_PartSetHeader := bid_PartSetHeader m |}, postIndex)
  | 2 =>
      if negb (wireType =? 2) then Err (ErrWrongWireType wireType 2)
      else
        '(iNdEx, postIndex) <- read_length int (fun z => z) dAtA iNdEx ;;
        sub <- slice dAtA iNdEx postIndex ;;
        h <- CanonicalPartSetHeader_Unmarshal (bid_PartSetHeader m) sub ;;
        Ok ({| bid_Hash := bid_Hash m; bid_PartSetHeader := h |}, postIndex)
  | _ => field_default m dAtA preIndex
  end.

Definition CanonicalBlockID_Unmarshal (m : CanonicalBlockID) (dAtA : list byte)
  : result CanonicalBlockID :=
  Unmarshal_with CanonicalBlockID_field m dAtA.

(** [if m.BlockID == nil { m.BlockID = &CanonicalBlockID{} };
     m.BlockID.Unmarshal(sub)]. *)
Definition unmarshal_BlockID (b : option CanonicalBlockID) (sub : list byte)
  : result (option CanonicalBlockID) :=
  let b := match b with Some b => b | None => CanonicalBlockID_zero end in
  b <- CanonicalBlockID_Unmarshal b sub ;;
  Ok (Some b).

(** ** The wire layout, written forwards

    The encoders above fill a buffer from its end.  The definitions below
    give the same bytes from the first to the last, field after field in
    ascending tag order, as the layout of the messages is documented; the
    encoders are proved to produce them. *)

(** The groups of seven bits of [v], least significant first, each but the
    last with the continuation bit. *)
Fixpoint varint_bytes (fuel : nat) (v : Z) : list byte :=
  match fuel with
  | O => []
  | S fuel' =>
      if 128 <=? v then
        byte.of_Z (Z.lor (Z.land v 0x7f) 0x80) :: varint_bytes fuel' (Z.shiftr v 7)
      else [byte.of_Z v]
  end.

Definition varint (v : Z) : list byte := varint_bytes 10 v.

(** A field that is left out when its condition fails. *)
Definition opt (c : bool) (chunk : list byte) : list byte :=
  if c then chunk else [].

Definition field_varint (tag : byte) (v : Z) : list byte := tag :: varint v.

Definition field_bytes (tag : byte) (bs : list byte) : list byte :=
  tag :: varint (uint64 (len bs)) ++ bs.

Definition field_fixed64 (tag : byte) (v : Z) : list byte :=
  tag :: le_split 8 (uint64 v).

Definition wire_PartSetHeader (m : CanonicalPartSetHeader) : list byte :=
  opt (negb (psh_Total m =? 0)) (field_varint Byte.x08 (uint64 (psh_Total m)))
  ++ opt (0 <? len (psh_Hash m)) (field_bytes Byte.x12 (psh_Hash m)).

Definition wire_BlockID (m : CanonicalBlockID) : list byte :=
  opt (0 <? len (bid_Hash m)) (field_bytes Byte.x0a (bid_Hash m))
  ++ field_bytes Byte.x12 (wire_PartSetHeader (bid_PartSetHeader m)).

Definition field_BlockID (tag : byte) (b : option CanonicalBlockID) : list byte :=
  match b with
  | Some b => field_bytes tag (wire_BlockID b)
  | None => []
  end.

(** The state of a buffer [d0] that an encoder fills from its end: the
    bytes below the write index [i] are untouched and [w] has been written
    from [i] on. *)
Definition frame (d0 : list byte) (i : Z) (w : list byte) : list byte :=
  firstn (Z.to_nat i) d0 ++ w.

(** A nested encoder that fills the end of the buffer it is given. *)
Definition fills_end (marshalTo : list byte -> result (list byte * Z)) (bs : list byte)
  : Prop :=
  forall d, len bs <= len d ->
    marshalTo d = Ok (frame d (len d - len bs) bs, len bs).

(** A conversion to a fixed-width integer type, as a map on the bits. *)
Definition bits_conv (conv : Z -> Z) : Prop :=
  conv 0 = 0
  /\ (forall a b, conv (Z.lor a b) = Z.lor (conv a) (conv b))
  /\ (forall x s, 0 <= s -> conv (Z.shiftl (conv x) s) = conv (Z.shiftl x s)).

(** The buffer [d] holds [suffix] from index [i] on. *)
Definition at_index (d : list byte) (i : Z) (suffix : list byte) : Prop :=
  exists pre, d = pre ++ suffix /\ len pre = i.

(** A decoding loop that, started at index [i] with receiver [m], ends with
    [final], whatever fuel covers the rest of the buffer. *)
Definition decodes_to {M : Type}
  (field : M -> Z -> Z -> list byte -> Z -> Z -> result (M * Z))
  (d : list byte) (final : M) (i : Z) (m : M) : Prop :=
  forall fuel, len d - i < Z.of_nat fuel -> Unmarshal_loop field fuel d m i = Ok final.

(** The outcome of a varint loop, seen through a conversion. *)
Definition conv_result (conv : Z -> Z) (r : result (Z * Z)) : result (Z * Z) :=
  match r with
  | Ok (v, j) => Ok (conv v, j)
  | Err e => Err e
  | Panic => Panic
  | OutOfFuel => OutOfFuel
  end.

(** The field number and the wire type of a one-byte tag that passes the
    checks at the head of a decoding round. *)
Definition tag_of (b : byte) : option (Z * Z) :=
  let wire := byte.unsigned b in
  let fieldNum := int32 (Z.shiftr wire 3) in
  let wireType := int (Z.land wire 0x7) in
  if (wire <? 128) && negb (wireType =? 4) && negb (fieldNum <=? 0)
  then Some (fieldNum, wireType) else None.

(** The values of the fields lie in the ranges of their Go types. *)
Definition wf_PartSetHeader (m : CanonicalPartSetHeader) : Prop :=
  is_uint32 (psh_Total m).

Definition wf_BlockID (m : CanonicalBlockID) : Prop :=
  wf_PartSetHeader (bid_PartSetHeader m).

Definition wf_option_BlockID (b : option CanonicalBlockID) : Prop :=
  match b with
  | Some b => wf_BlockID b
  | None => True
  end.

(** A byte with the continuation bit. *)
Definition continues (b : byte) : bool := 0x80 <=? byte.unsigned b.

(** The value of a tag: [(field_number << 3) | wire_type]. *)
Definition tag_value (fieldNum wireType : Z) : Z :=
  Z.lor (Z.shiftl fieldNum 3) wireType.

(** The zig-zag mapping of a signed 64-bit integer, as the wire format
    defines it for the [sint64] type: [(n << 1) ^ (n >> 63)]. *)
Definition zigzag64 (n : Z) : Z :=
  uint64 (Z.lxor (Z.shiftl n 1) (Z.shiftr n 63)).

(** The outcome of the loop of [skipCanonical] for wire type 0, from the
    outcome of the varint loop over the same bytes. *)
Definition index_result (r : result (Z * Z)) : result Z :=
  match r with
  | Ok (_, j) => Ok j
  | Err e => Err e
  | Panic => Panic
  | OutOfFuel => OutOfFuel
  end.

(** ** Concrete codecs for the examples *)

(** Modelled from the spec: the timestamp codec (gogoproto's
    [SizeOfStdTime], [StdTimeMarshalTo], [StdTimeUnmarshal]) is absent from
    src/.  A point in time is normalized to seconds and nanoseconds with the
    nanoseconds in [0, 1e9) and is encoded as a nested message of two
    fields, each left out when zero; encoding a time out of range is an
    error, and so is decoding a nanosecond remainder that is not
    normalized. *)
Record Timestamp : Type := {
  ts_Seconds : Z;   (* int64 *)
  ts_Nanos : Z      (* int32 *)
}.

(** Modelled from the spec: the range of a normalized timestamp. *)
Definition Timestamp_valid (t : Timestamp) : bool :=
  (MinInt64 <=? ts_Seconds t) && (ts_Seconds t <=? MaxInt64)
  && (0 <=? ts_Nanos t) && (ts_Nanos t <? 1000000000).

(** Modelled from the spec: the wire bytes of a timestamp, seconds under
    tag 1 and nanoseconds under tag 2. *)
Definition Timestamp_bytes (t : Timestamp) : result (list byte) :=
  if Timestamp_valid t then
    Ok (opt (negb (ts_Seconds t =? 0)) (field_varint Byte.x08 (uint64 (ts_Seconds t)))
        ++ opt (negb (ts_Nanos t =? 0)) (field_varint Byte.x10 (uint64 (ts_Nanos t))))
  else Err ErrForeign.

(** Modelled from the spec: the two fields of a timestamp, read as the
    generated decoders read a varint field. *)
Definition Timestamp_field (m : Timestamp) (fieldNum wireType : Z) (dAtA : list byte)
  (preIndex iNdEx : Z) : result (Timestamp * Z) :=
  match fieldNum with
  | 1 =>
      if negb (wireType =? 0) then Err (ErrWrongWireType wireType 1)
      else
        '(v, iNdEx) <- read_varint int64 dAtA iNdEx ;;
        Ok ({| ts_Seconds := v; ts_Nanos := ts_Nanos m |}, iNdEx)
  | 2 =>
      if negb (wireType =? 0) then Err (ErrWrongWireType wireType 2)
      else
        '(v, iNdEx) <- read_varint int32 dAtA iNdEx ;;
        Ok ({| ts_Seconds := ts_Seconds m; ts_Nanos := v |}, iNdEx)
  | _ => field_default m dAtA preIndex
  end.

(** Modelled from the spec: the zero-valued timestamp. *)
Definition Timestamp_zero : Timestamp := {| ts_Seconds := 0; ts_Nanos := 0 |}.

(** Modelled from the spec: decoding into a fresh timestamp, refused when
    the result is not normalized. *)
Definition Timestamp_Unmarshal (dAtA : list byte) : result Timestamp :=
  t <- Unmarshal_with Timestamp_field Timestamp_zero dAtA ;;
  if Timestamp_valid t then Ok t else Err ErrForeign.

(** Modelled from the spec: [VoteExtensionToSign] belongs to a generated
    file absent from src/; the spec calls the vote extension an opaque
    payload that is carried and not interpreted.  The payload is taken to be
    its own wire bytes. *)
Definition Extension : Type := list byte.

(** Modelled from the spec: the payload as it stands. *)
Definition Extension_bytes (e : Extension) : list byte := e.

(** Modelled from the spec: the bytes read are the payload. *)
Definition Extension_Unmarshal (_ : Extension) (dAtA : list byte) : result Extension :=
  Ok dAtA.

(** Modelled from the spec: the empty payload. *)
Definition Extension_zero : Extension := [].

Section Canonical.

(** The codecs the generated file calls and does not define: gogoproto's
    standard-time functions over [time.Time], and the methods of
    [VoteExtensionToSign], a message of the sibling generated file. *)

(** [time.Time]. *)
Variable Time : Type.
(** The wire bytes of the timestamp message of a time, or the error of the
    conversion when the time is out of the representable range. *)
Variable StdTimeBytes : Time -> result (list byte).
(** [StdTimeUnmarshal], which overwrites its target. *)
Variable StdTimeUnmarshal : list byte -> result Time.

Variable VoteExtensionToSign : Type.
(** The wire bytes of a vote extension. *)
Variable VoteExtensionToSign_bytes : VoteExtensionToSign -> list byte.
(** [VoteExtensionToSign.Unmarshal], which merges the fields it decodes
    into its receiver. *)
Variable VoteExtensionToSign_Unmarshal :
  VoteExtensionToSign -> list byte -> result VoteExtensionToSign.
(** [&VoteExtensionToSign{}]. *)
Variable VoteExtensionToSign_zero : VoteExtensionToSign.

(** [SizeOfStdTime]: 0 when the conversion fails. *)
Definition SizeOfStdTime (t : Time) : Z :=
  match StdTimeBytes t with
  | Ok bs => len bs
  | _ => 0
  end.

(** [StdTimeMarshalTo(t, data)]: writes the timestamp message at the front
    of [data] and returns its size. *)
Definition StdTimeMarshalTo (t : Time) (data : list byte) : result (list byte * Z) :=
  bs <- StdTimeBytes t ;;
  if len bs <=? len data then Ok (copy data bs, len bs) else Panic.

Definition VoteExtensionToSign_Size (m : VoteExtensionToSign) : Z :=
  len (VoteExtensionToSign_bytes m).

(** [VoteExtensionToSign.MarshalToSizedBuffer]: as every generated
    encoder, it fills the end of the buffer it is given. *)
Definition VoteExtensionToSign_MarshalToSizedBuffer (m : VoteExtensionToSign)
  (dAtA : list byte) : result (list byte * Z) :=
  let bs := VoteExtensionToSign_bytes m in
  dAtA <- copy_at dAtA (len dAtA - len bs) bs ;;
  Ok (dAtA, len bs).

Record CanonicalProposal : Type := {
  prop_Type : Z;           (* SignedMsgType, an int32 *)
  prop_Height : Z;         (* int64 *)
  prop_Round : Z;          (* int64 *)
  prop_POLRound : Z;       (* int64 *)
  prop_BlockID : option CanonicalBlockID;
  prop_Timestamp : Time;
  prop_ChainID : list byte (* a Go string: an immutable byte sequence *)
}.

Record CanonicalVote : Type := {
  vote_Type : Z;           (* SignedMsgType, an int32 *)
  vote_Height : Z;         (* int64 *)
  vote_Round : Z;          (* int64 *)
  vote_BlockID : option CanonicalBlockID;
  vote_Timestamp : Time;
  vote_ChainID : list byte;
  vote_VoteExtension : option VoteExtensionToSign
}.

(** [n, err := StdTimeMarshalTo(t, dAtA[i-SizeOfStdTime(t):]); ...; i -= n;
     i = encodeVarintCanonical(dAtA, i, uint64(n)); i--; dAtA[i] = tag]. *)
Definition put_time (tag : byte) (t : Time) (dAtA : list byte) (i : Z)
  : result (list byte * Z) :=
  let lo := i - SizeOfStdTime t in
  dst <- slice_from dAtA lo ;;
  '(dst, n) <- StdTimeMarshalTo t dst ;;
  let dAtA := firstn (Z.to_nat lo) dAtA ++ dst in
  let i := i - n in
  put_varint tag (uint64 n) dAtA i.

Definition put_BlockID (tag : byte) (b : option CanonicalBlockID)
  (dAtA : list byte) (i : Z) : result (list byte * Z) :=
  match b with
  | Some b => put_nested tag (CanonicalBlockID_MarshalToSizedBuffer b) dAtA i
  | None => Ok (dAtA, i)
  end.

Definition CanonicalProposal_Size (m : CanonicalProposal) : Z :=
  let n := 0 in
  let n := if negb (prop_Type m =? 0) then n + (1 + sovCanonical (uint64 (prop_Type m))) else n in
  let n := if negb (prop_Height m =? 0) then n + 9 else n in
  let n := if negb (prop_Round m =? 0) then n + 9 else n in
  let n := if negb (prop_POLRound m =? 0)
           then n + (1 + sovCanonical (uint64 (prop_POLRound m))) else n in
  let n := match prop_BlockID m with
           | Some b => let l := CanonicalBlockID_Size b in n + (1 + l + sovCanonical (uint64 l))
           | None => n
           end in
  let l := SizeOfStdTime (prop_Timestamp m) in
  let n := n + (1 + l + sovCanonical (uint64 l)) in
  let l := len (prop_ChainID m) in
  let n := if 0 <? l then n + (1 + l + sovCanonical (uint64 l)) else n in
  n.

Definition CanonicalProposal_MarshalToSizedBuffer (m : CanonicalProposal)
  (dAtA : list byte) : result (list byte * Z) :=
  let i := len dAtA in
  '(dAtA, i) <- when (0 <? len (prop_ChainID m)) (put_bytes Byte.x3a (prop_ChainID m)) dAtA i ;;
  '(dAtA, i) <- put_time Byte.x32 (prop_Timestamp m) dAtA i ;;
  '(dAtA, i) <- put_BlockID Byte.x2a (prop_BlockID m) dAtA i ;;
  '(dAtA, i) <- when (negb (prop_POLRound m =? 0))
                  (put_varint Byte.x20 (uint64 (prop_POLRound m))) dAtA i ;;
  '(dAtA, i) <- when (negb (prop_Round m =? 0)) (put_fixed64 Byte.x19 (prop_Round m)) dAtA i ;;
  '(dAtA, i) <- when (negb (prop_Height m =? 0)) (put_fixed64 Byte.x11 (prop_Height m)) dAtA i ;;
  '(dAtA, i) <- when (negb (prop_Type m =? 0))
                  (put_varint Byte.x08 (uint64 (prop_Type m))) dAtA i ;;
  Ok (dAtA, len dAtA - i).

Definition CanonicalProposal_Marshal (m : CanonicalProposal) : result (list byte) :=
  marshal_with (CanonicalProposal_Size m) (CanonicalProposal_MarshalToSizedBuffer m).

Definition CanonicalVote_Size (m : CanonicalVote) : Z :=
  let n := 0 in
  let n := if negb (vote_Type m =? 0) then n + (1 + sovCanonical (uint64 (vote_Type m))) else n in
  let n := if negb (vote_Height m =? 0) then n + 9 else n in
  let n := if negb (vote_Round m =? 0) then n + 9 else n in
  let n := match vote_BlockID m with
           | Some b => let l := CanonicalBlockID_Size b in n + (1 + l + sovCanonical (uint64 l))
           | None => n
           end in
  let l := SizeOfStdTime (vote_Timestamp m) in
  let n := n + (1 + l + sovCanonical (uint64 l)) in
  let l := len (vote_ChainID m) in
  let n := if 0 <? l then n + (1 + l + sovCanonical (uint64 l)) else n in
  let n := match vote_VoteExtension m with
           | Some e => let l := VoteExtensionToSign_Size e in n + (1 + l + sovCanonical (uint64 l))
           | None => n
           end in
  n.

Definition put_VoteExtension (tag : byte) (e : option VoteExtensionToSign)
  (dAtA : list byte) (i : Z) : result (list byte * Z) :=
  match e with
  | Some e => put_nested tag (VoteExtensionToSign_MarshalToSizedBuffer e) dAtA i
  | None => Ok (dAtA, i)
  end.

Definition CanonicalVote_MarshalToSizedBuffer (m : CanonicalVote)
  (dAtA : list byte) : result (list byte * Z) :=
  let i := len dAtA in
  '(dAtA, i) <- put_VoteExtension Byte.x3a (vote_VoteExtension m) dAtA i ;;
  '(dAtA, i) <- when (0 <? len (vote_ChainID m)) (put_bytes Byte.x32 (vote_ChainID m)) dAtA i ;;
  '(dAtA, i) <- put_time Byte.x2a (vote_Timestamp m) dAtA i ;;
  '(dAtA, i) <- put_BlockID Byte.x22 (vote_BlockID m) dAtA i ;;
  '(dAtA, i) <- when (negb (vote_Round m =? 0)) (put_fixed64 Byte.x19 (vote_Round m)) dAtA i ;;
  '(dAtA, i) <- when (negb (vote_Height m =? 0)) (put_fixed64 Byte.x11 (vote_Height m)) dAtA i ;;
  '(dAtA, i) <- when (negb (vote_Type m =? 0))
                  (put_varint Byte.x08 (uint64 (vote_Type m))) dAtA i ;;
  Ok (dAtA, len dAtA - i).

Definition CanonicalVote_Marshal (m : CanonicalVote) : result (list byte) :=
  marshal_with (CanonicalVote_Size m) (CanonicalVote_MarshalToSizedBuffer m).

(** [time.Time{}]. *)
Variable Time_zero : Time.

Definition with_prop_Type (m : CanonicalProposal) (v : Z) : CanonicalProposal :=
  {| prop_Type := v; prop_Height := prop_Height m; prop_Round := prop_Round m;
     prop_POLRound := prop_POLRound m; prop_BlockID := prop_BlockID m;
     prop_Timestamp := prop_Timestamp m; prop_ChainID := prop_ChainID m |}.
Definition with_prop_Height (m : CanonicalProposal) (v : Z) : CanonicalProposal :=
  {| prop_Type := prop_Type m; prop_Height := v; prop_Round := prop_Round m;
     prop_POLRound := prop_POLRound m; prop_BlockID := prop_BlockID m;
     prop_Timestamp := prop_Timestamp m; prop_ChainID := prop_ChainID m |}.
Definition with_prop_Round (m : CanonicalProposal) (v : Z) : CanonicalProposal :=
  {| prop_Type := prop_Type m; prop_Height := prop_Height m; prop_Round := v;
     prop_POLRound := prop_POLRound m; prop_BlockID := prop_BlockID m;
     prop_Timestamp := prop_Timestamp m; prop_ChainID := prop_ChainID m |}.
Definition with_prop_POLRound (m : CanonicalProposal) (v : Z) : CanonicalProposal :=
  {| prop_Type := prop_Type m; prop_Height := prop_Height m; prop_Round := prop_Round m;
     prop_POLRound := v; prop_BlockID := prop_BlockID m;
     prop_Timestamp := prop_Timestamp m; prop_ChainID := prop_ChainID m |}.
Definition with_prop_BlockID (m : CanonicalProposal) (v : option CanonicalBlockID)
  : CanonicalProposal :=
  {| prop_Type := prop_Type m; prop_Height := prop_Height m; prop_Round := prop_Round m;
     prop_POLRound := prop_POLRound m; prop_BlockID := v;
     prop_Timestamp := prop_Timestamp m; prop_ChainID := prop_ChainID m |}.
Definition with_prop_Timestamp (m : CanonicalProposal) (v : Time) : CanonicalProposal :=
  {| prop_Type := prop_Type m; prop_Height := prop_Height m; prop_Round := prop_Round m;
     prop_POLRound := prop_POLRound m; prop_BlockID := prop_BlockID m;
     prop_Timestamp := v; prop_ChainID := prop_ChainID m |}.
Definition with_prop_ChainID (m : CanonicalProposal) (v : list byte) : CanonicalProposal :=
  {| prop_Type := prop_Type m; prop_Height := prop_Height m; prop_Round := prop_Round m;
     prop_POLRound := prop_POLRound m; prop_BlockID := prop_BlockID m;
     prop_Timestamp := prop_Timestamp m; prop_ChainID := v |}.

Definition CanonicalProposal_zero : CanonicalProposal :=
  {| prop_Type := 0; prop_Height := 0; prop_Round := 0; prop_POLRound := 0;
     prop_BlockID := None; prop_Timestamp := Time_zero; prop_ChainID := [] |}.

(** The [switch fieldNum] of [(m *CanonicalProposal) Unmarshal]. *)
Definition CanonicalProposal_field (m : CanonicalProposal)
  (fieldNum wireType : Z) (dAtA : list byte) (preIndex iNdEx : Z)
  : result (CanonicalProposal * Z) :=
  match fieldNum with
  | 1 =>
      if negb (wireType =? 0) then Err (ErrWrongWireType wireType 1)
      else
        '(v, iNdEx) <- read_varint int32 dAtA iNdEx ;;
        Ok (with_prop_Type m v, iNdEx)
  | 2 =>
      if negb (wireType =? 1) then Err (ErrWrongWireType wireType 2)
      else
        '(v, iNdEx) <- read_fixed64 dAtA iNdEx ;;
        Ok (with_prop_Height m v, iNdEx)
  | 3 =>
      if negb (wireType =? 1) then Err (ErrWrongWireType wireType 3)
      else
        '(v, iNdEx) <- read_fixed64 dAtA iNdEx ;;
        Ok (with_prop_Round m v, iNdEx)
  | 4 =>
      if negb (wireType =? 0) then Err (ErrWrongWireType wireType 4)
      else
        '(v, iNdEx) <- read_varint int64 dAtA iNdEx ;;
        Ok (with_prop_POLRound m v, iNdEx)
  | 5 =>
      if negb (wireType =? 2) then Err (ErrWrongWireType wireType 5)
      else
        '(iNdEx, postIndex) <- read_length int (fun z => z) dAtA iNdEx ;;
        sub <- slice dAtA iNdEx postIndex ;;
        b <- unmarshal_BlockID (prop_BlockID m) sub ;;
        Ok (with_prop_BlockID m b, postIndex)
  | 6 =>
      if negb (wireType =? 2) then Err (ErrWrongWireType wireType 6)
      else
        '(iNdEx, postIndex) <- read_length int (fun z => z) dAtA iNdEx ;;
        sub <- slice dAtA iNdEx postIndex ;;
        t <- StdTimeUnmarshal sub ;;
        Ok (with_prop_Timestamp m t, postIndex)
  | 7 =>
      if negb (wireType =? 2) then Err (ErrWrongWireType wireType 7)
      else
        '(iNdEx, postIndex) <- read_length uint64 int dAtA iNdEx ;;
        s <- slice dAtA iNdEx postIndex ;;
        Ok (with_prop_ChainID m s, postIndex)
  | _ => field_default m dAtA preIndex
  end.

Definition CanonicalProposal_Unmarshal (m : CanonicalProposal) (dAtA : list byte)
  : result CanonicalProposal :=
  Unmarshal_with CanonicalProposal_field m dAtA.

Definition with_vote_Type (m : CanonicalVote) (v : Z) : CanonicalVote :=
  {| vote_Type := v; vote_Height := vote_Height m; vote_Round := vote_Round m;
     vote_BlockID := vote_BlockID m; vote_Timestamp := vote_Timestamp m;
     vote_ChainID := vote_ChainID m; vote_VoteExtension := vote_VoteExtension m |}.
Definition with_vote_Height (m : CanonicalVote) (v : Z) : CanonicalVote :=
  {| vote_Type := vote_Type m; vote_Height := v; vote_Round := vote_Round m;
     vote_BlockID := vote_BlockID m; vote_Timestamp := vote_Timestamp m;
     vote_ChainID := vote_ChainID m; vote_VoteExtension := vote_VoteExtension m |}.
Definition with_vote_Round (m : CanonicalVote) (v : Z) : CanonicalVote :=
  {| vote_Type := vote_Type m; vote_Height := vote_Height m; vote_Round := v;
     vote_BlockID := vote_BlockID m; vote_Timestamp := vote_Timestamp m;
     vote_ChainID := vote_ChainID m; vote_VoteExtension := vote_VoteExtension m |}.
Definition with_vote_BlockID (m : CanonicalVote) (v : option CanonicalBlockID)
  : CanonicalVote :=
  {| vote_Type := vote_Type m; vote_Height := vote_Height m; vote_Round := vote_Round m;
     vote_BlockID := v; vote_Timestamp := vote_Timestamp m;
     vote_ChainID := vote_ChainID m; vote_VoteExtension := vote_VoteExtension m |}.
Definition with_vote_Timestamp (m : CanonicalVote) (v : Time) : CanonicalVote :=
  {| vote_Type := vote_Type m; vote_Height := vote_Height m; vote_Round := vote_Round m;
     vote_BlockID := vote_BlockID m; vote_Timestamp := v;
     vote_ChainID := vote_ChainID m; vote_VoteExtension := vote_VoteExtension m |}.
Definition with_vote_ChainID (m : CanonicalVote) (v : list byte) : CanonicalVote :=
  {| vote_Type := vote_Type m; vote_Height := vote_Height m; vote_Round := vote_Round m;
     vote_BlockID := vote_BlockID m; vote_Timestamp := vote_Timestamp m;
     vote_ChainID := v; vote_VoteExtension := vote_VoteExtension m |}.
Definition with_vote_VoteExtension (m : CanonicalVote) (v : option VoteExtensionToSign)
  : CanonicalVote :=
  {| vote_Type := vote_Type m; vote_Height := vote_Height m; vote_Round := vote_Round m;
     vote_BlockID := vote_BlockID m; vote_Timestamp := vote_Timestamp m;
     vote_ChainID := vote_ChainID m; vote_VoteExtension := v |}.

Definition CanonicalVote_zero : CanonicalVote :=
  {| vote_Type := 0; vote_Height := 0; vote_Round := 0; vote_BlockID := None;
     vote_Timestamp := Time_zero; vote_ChainID := []; vote_VoteExtension := None |}.

(** [if m.VoteExtension == nil { m.VoteExtension = &VoteExtensionToSign{} };
     m.VoteExtension.Unmarshal(sub)]. *)
Definition unmarshal_VoteExtension (e : option VoteExtensionToSign) (sub : list byte)
  : result (option VoteExtensionToSign) :=
  let e := match e with Some e => e | None => VoteExtensionToSign_zero end in
  e <- VoteExtensionToSign_Unmarshal e sub ;;
  Ok (Some e).

(** The [switch fieldNum] of [(m *CanonicalVote) Unmarshal]. *)
Definition CanonicalVote_field (m : CanonicalVote)
  (fieldNum wireType : Z) (dAtA : list byte) (preIndex iNdEx : Z)
  : result (CanonicalVote * Z) :=
  match fieldNum with
  | 1 =>
      if negb (wireType =? 0) then Err (ErrWrongWireType wireType 1)
      else
        '(v, iNdEx) <- read_varint int32 dAtA iNdEx ;;
        Ok (with_vote_Type m v, iNdEx)
  | 2 =>
      if negb (wireType =? 1) then Err (ErrWrongWireType wireType 2)
      else
        '(v, iNdEx) <- read_fixed64 dAtA iNdEx ;;
        Ok (with_vote_Height m v, iNdEx)
  | 3 =>
      if negb (wireType =? 1) then Err (ErrWrongWireType wireType 3)
      else
        '(v, iNdEx) <- read_fixed64 dAtA iNdEx ;;
        Ok (with_vote_Round m v, iNdEx)
  | 4 =>
      if negb (wireType =? 2) then Err (ErrWrongWireType wireType 4)
      else
        '(iNdEx, postIndex) <- read_length int (fun z => z) dAtA iNdEx ;;
        sub <- slice dAtA iNdEx postIndex ;;
        b <- unmarshal_BlockID (vote_BlockID m) sub ;;
        Ok (with_vote_BlockID m b, postIndex)
  | 5 =>
      if negb (wireType =? 2) then Err (ErrWrongWireType wireType 5)
      else
        '(iNdEx, postIndex) <- read_length int (fun z => z) dAtA iNdEx ;;
        sub <- slice dAtA iNdEx postIndex ;;
        t <- StdTimeUnmarshal sub ;;
        Ok (with_vote_Timestamp m t, postIndex)
  | 6 =>
      if negb (wireType =? 2) then Err (ErrWrongWireType wireType 6)
      else
        '(iNdEx, postIndex) <- read_length uint64 int dAtA iNdEx ;;
        s <- slice dAtA iNdEx postIndex ;;
        Ok (with_vote_ChainID m s, postIndex)
  | 7 =>
      if negb (wireType =? 2) then Err (ErrWrongWireType wireType 7)
      else
        '(iNdEx, postIndex) <- read_length int (fun z => z) dAtA iNdEx ;;
        sub <- slice dAtA iNdEx postIndex ;;
        e <- unmarshal_VoteExtension (vote_VoteExtension m) sub ;;
        Ok (with_vote_VoteExtension m e, postIndex)
  | _ => field_default m dAtA preIndex
  end.

Definition CanonicalVote_Unmarshal (m : CanonicalVote) (dAtA : list byte)
  : result CanonicalVote :=
  Unmarshal_with CanonicalVote_field m dAtA.

Definition field_VoteExtension (tag : byte) (e : option VoteExtensionToSign) : list byte :=
  match e with
  | Some e => field_bytes tag (VoteExtensionToSign_bytes e)
  | None => []
  end.

(** [ts] stands for the wire bytes of the timestamp. *)
Definition wire_Proposal (m : CanonicalProposal) (ts : list byte) : list byte :=
  opt (negb (prop_Type m =? 0)) (field_varint Byte.x08 (uint64 (prop_Type m)))
  ++ opt (negb (prop_Height m =? 0)) (field_fixed64 Byte.x11 (prop_Height m))
  ++ opt (negb (prop_Round m =? 0)) (field_fixed64 Byte.x19 (prop_Round m))
  ++ opt (negb (prop_POLRound m =? 0)) (field_varint Byte.x20 (uint64 (prop_POLRound m)))
  ++ field_BlockID Byte.x2a (prop_BlockID m)
  ++ field_bytes Byte.x32 ts
  ++ opt (0 <? len (prop_ChainID m)) (field_bytes Byte.x3a (prop_ChainID m)).

Definition wire_Vote (m : CanonicalVote) (ts : list byte) : list byte :=
  opt (negb (vote_Type m =? 0)) (field_varint Byte.x08 (uint64 (vote_Type m)))
  ++ opt (negb (vote_Height m =? 0)) (field_fixed64 Byte.x11 (vote_Height m))
  ++ opt (negb (vote_Round m =? 0)) (field_fixed64 Byte.x19 (vote_Round m))
  ++ field_BlockID Byte.x22 (vote_BlockID m)
  ++ field_bytes Byte.x2a ts
  ++ opt (0 <? len (vote_ChainID m)) (field_bytes Byte.x32 (vote_ChainID m))
  ++ field_VoteExtension Byte.x3a (vote_VoteExtension m).

Definition wf_Proposal (m : CanonicalProposal) : Prop :=
  is_int32 (prop_Type m) /\ is_int64 (prop_Height m) /\ is_int64 (prop_Round m)
  /\ is_int64 (prop_POLRound m) /\ wf_option_BlockID (prop_BlockID m).

Definition wf_Vote (m : CanonicalVote) : Prop :=
  is_int32 (vote_Type m) /\ is_int64 (vote_Height m) /\ is_int64 (vote_Round m)
  /\ wf_option_BlockID (vote_BlockID m).


(** ** The methods that write into a buffer of the caller *)

(** A slice of the caller together with the bytes of its backing array
    that lie beyond its length: [len(s)] is the length of [visible] and
    [cap(s)] adds the length of [spare]. *)
Record buffer : Type := {
  visible : list byte;
  spare : list byte
}.

Definition cap (b : buffer) : Z := len (visible b) + len (spare b).

(** The bytes of the backing array from the start of the slice on. *)
Definition backing (b : buffer) : list byte := visible b ++ spare b.

(** [b[:hi]]: a slice expression may extend a slice up to its capacity. *)
Definition reslice_to (b : buffer) (hi : Z) : result buffer :=
  if (0 <=? hi) && (hi <=? cap b) then
    Ok {| visible := firstn (Z.to_nat hi) (backing b);
          spare := skipn (Z.to_nat hi) (backing b) |}
  else Panic.

(** The body shared by the four [MarshalTo] methods:
    [size := m.Size(); return m.MarshalToSizedBuffer(dAtA[:size])].
    The callee writes through the sub-slice into the backing array of
    [dAtA]; the buffer of the caller after the call is returned with the
    count. *)
Definition marshalTo_with (size : Z) (marshalTo : list byte -> result (list byte * Z))
  (dAtA : buffer) : result (buffer * Z) :=
  sub <- reslice_to dAtA size ;;
  '(bs, n) <- marshalTo (visible sub) ;;
  let all := bs ++ spare sub in
  Ok ({| visible := firstn (length (visible dAtA)) all;
         spare := skipn (length (visible dAtA)) all |}, n).

Definition CanonicalPartSetHeader_MarshalTo (m : CanonicalPartSetHeader) (dAtA : buffer)
  : result (buffer * Z) :=
  marshalTo_with (CanonicalPartSetHeader_Size m)
    (CanonicalPartSetHeader_MarshalToSizedBuffer m) dAtA.

Definition CanonicalBlockID_MarshalTo (m : CanonicalBlockID) (dAtA : buffer)
  : result (buffer * Z) :=
  marshalTo_with (CanonicalBlockID_Size m) (CanonicalBlockID_MarshalToSizedBuffer m) dAtA.

Definition CanonicalProposal_MarshalTo (m : CanonicalProposal) (dAtA : buffer)
  : result (buffer * Z) :=
  marshalTo_with (CanonicalProposal_Size m) (CanonicalProposal_MarshalToSizedBuffer m) dAtA.

Definition CanonicalVote_MarshalTo (m : CanonicalVote) (dAtA : buffer)
  : result (buffer * Z) :=
  marshalTo_with (CanonicalVote_Size m) (CanonicalVote_MarshalToSizedBuffer m) dAtA.

(** The body shared by the four [XXX_Marshal] methods.  With
    [deterministic] the call goes to the message info of the proto
    library, [info]; without it,
    [b = b[:cap(b)]; n, err := m.MarshalToSizedBuffer(b); ...;
     return b[:n], nil].  The result is the contents of the slice
    returned. *)
Definition XXX_Marshal_with (marshalTo : list byte -> result (list byte * Z))
  (info : buffer -> bool -> result (list byte)) (b : buffer) (deterministic : bool)
  : result (list byte) :=
  if deterministic then info b deterministic
  else
    b <- reslice_to b (cap b) ;;
    '(bs, n) <- marshalTo (visible b) ;;
    slice_to bs n.

Definition CanonicalPartSetHeader_XXX_Marshal (m : CanonicalPartSetHeader) :=
  XXX_Marshal_with (CanonicalPartSetHeader_MarshalToSizedBuffer m).

Definition CanonicalBlockID_XXX_Marshal (m : CanonicalBlockID) :=
  XXX_Marshal_with (CanonicalBlockID_MarshalToSizedBuffer m).

Definition CanonicalProposal_XXX_Marshal (m : CanonicalProposal) :=
  XXX_Marshal_with (CanonicalProposal_MarshalToSizedBuffer m).

Definition CanonicalVote_XXX_Marshal (m : CanonicalVote) :=
  XXX_Marshal_with (CanonicalVote_MarshalToSizedBuffer m).

(** ** Outcomes *)

(** The call returns to its caller, with a value or an error: it neither
    panics nor runs forever. *)
Definition returns {A : Type} (r : result A) : Prop :=
  match r with
  | Ok _ | Err _ => True
  | Panic | OutOfFuel => False
  end.

(** ** Complete fields *)

(** The bytes that follow the tag of a complete field of wire type 0, 1, 2
    or 5: a varint, eight bytes, a length and so many bytes, four bytes. *)
Inductive payload_of : Z -> list byte -> Prop :=
| payload_varint v : 0 <= v < 2 ^ 64 -> payload_of 0 (varint v)
| payload_fixed64 bs : len bs = 8 -> payload_of 1 bs
| payload_delimited bs : payload_of 2 (varint (uint64 (len bs)) ++ bs)
| payload_fixed32 bs : len bs = 4 -> payload_of 5 bs.

(** The outcome of a reader that started at index [i] of a buffer of [hi]
    bytes: it returns, and when it succeeds the index it gives lies
    after [i] and inside the buffer. *)
Definition advances {A : Type} (i hi : Z) (r : result (A * Z)) : Prop :=
  match r with
  | Ok (_, j) => i < j <= hi
  | Err _ => True
  | Panic | OutOfFuel => False
  end.

(** A switch of a decoder reads the bytes of the field it decodes and no
    others: a successful case gives the same result, with the indices
    shifted, when the buffer [d] stands between other bytes. *)
Definition embeds {M : Type}
  (field : M -> Z -> Z -> list byte -> Z -> Z -> result (M * Z)) : Prop :=
  forall p d s m fieldNum wireType pre i m' j,
    len (p ++ d ++ s) <= MaxInt64 -> 1 <= fieldNum -> 0 <= pre < i -> i <= len d ->
    field m fieldNum wireType d pre i = Ok (m', j) ->
    field m fieldNum wireType (p ++ d ++ s) (len p + pre) (len p + i) = Ok (m', len p + j).
(** * Proofs *)

(** ** Lengths and slices *)

Lemma len_nonneg {A} (s : list A) : 0 <= len s.
Proof. unfold len. lia. Qed.

Lemma len_nil {A} : len (@nil A) = 0.
Proof. reflexivity. Qed.

Lemma len_cons {A} (x : A) s : len (x :: s) = 1 + len s.
Proof. unfold len. cbn [length]. lia. Qed.

Lemma len_app {A} (s t : list A) : len (s ++ t) = len s + len t.
Proof. unfold len. rewrite length_app. lia. Qed.

Lemma len_firstn {A} (s : list A) k : 0 <= k <= len s -> len (firstn (Z.to_nat k) s) = k.
Proof. unfold len. intros. rewrite length_firstn. lia. Qed.

Lemma len_skipn {A} (s : list A) k : 0 <= k <= len s -> len (skipn (Z.to_nat k) s) = len s - k.
Proof. unfold len. intros. rewrite length_skipn. lia. Qed.

Lemma len_le_split n v : len (le_split n v) = Z.of_nat n.
Proof. unfold len. now rewrite length_le_split. Qed.

Lemma len_repeat {A} (x : A) n : len (repeat x n) = Z.of_nat n.
Proof. unfold len. now rewrite repeat_length. Qed.

Lemma len_to_nat {A} (s : list A) : Z.to_nat (len s) = length s.
Proof. unfold len. lia. Qed.

Create Rewrite HintDb len.
Hint Rewrite @len_nil @len_cons @len_app len_le_split @len_repeat : len.

Ltac len_simpl := autorewrite with len in *.

Lemma firstn_len_app {A} (s t : list A) : firstn (Z.to_nat (len s)) (s ++ t) = s.
Proof.
  rewrite len_to_nat, firstn_app, Nat.sub_diag, firstn_all. cbn. apply app_nil_r.
Qed.

Lemma skipn_len_app {A} (s t : list A) : skipn (Z.to_nat (len s)) (s ++ t) = t.
Proof.
  rewrite len_to_nat, skipn_app, Nat.sub_diag, skipn_all. reflexivity.
Qed.

Lemma andb_range_true a b c : a <= b -> b < c -> (a <=? b) && (b <? c) = true.
Proof. intros. apply andb_true_intro; split; [apply Z.leb_le | apply Z.ltb_lt]; lia. Qed.

Lemma andb_range_le_true a b c : a <= b -> b <= c -> (a <=? b) && (b <=? c) = true.
Proof. intros. apply andb_true_intro; split; apply Z.leb_le; lia. Qed.

(** Reading and writing inside a buffer split as [pre ++ _ ++ post]. *)

Lemma index_app pre b post : index (pre ++ b :: post) (len pre) = Ok b.
Proof.
  unfold index. rewrite andb_range_true.
  - rewrite len_to_nat, nth_error_app2, Nat.sub_diag by lia. reflexivity.
  - apply len_nonneg.
  - len_simpl. pose proof (len_nonneg post). lia.
Qed.

Lemma store_app pre x post b : store (pre ++ x :: post) (len pre) b = Ok (pre ++ b :: post).
Proof.
  unfold store. rewrite andb_range_true.
  - rewrite firstn_len_app. f_equal. f_equal. f_equal.
    change (S (Z.to_nat (len pre))) with (1 + Z.to_nat (len pre))%nat.
    rewrite <- skipn_skipn, skipn_len_app. reflexivity.
  - apply len_nonneg.
  - len_simpl. pose proof (len_nonneg post). lia.
Qed.

Lemma slice_from_app pre post : slice_from (pre ++ post) (len pre) = Ok post.
Proof.
  unfold slice_from. rewrite andb_range_le_true.
  - now rewrite skipn_len_app.
  - apply len_nonneg.
  - len_simpl. pose proof (len_nonneg post). lia.
Qed.

Lemma slice_to_app pre post : slice_to (pre ++ post) (len pre) = Ok pre.
Proof.
  unfold slice_to. rewrite andb_range_le_true.
  - now rewrite firstn_len_app.
  - apply len_nonneg.
  - len_simpl. pose proof (len_nonneg post). lia.
Qed.

Lemma slice_to_all d : slice_to d (len d) = Ok d.
Proof.
  rewrite <- (app_nil_r d) at 1. rewrite slice_to_app. reflexivity.
Qed.

Lemma slice_app pre mid post :
  slice (pre ++ mid ++ post) (len pre) (len pre + len mid) = Ok mid.
Proof.
  unfold slice.
  pose proof (len_nonneg pre). pose proof (len_nonneg mid). pose proof (len_nonneg post).
  replace ((0 <=? len pre) && (len pre <=? len pre + len mid)
           && (len pre + len mid <=? len (pre ++ mid ++ post))) with true.
  - rewrite skipn_len_app. replace (len pre + len mid - len pre) with (len mid) by lia.
    now rewrite firstn_len_app.
  - symmetry. len_simpl. rewrite !andb_true_iff, !Z.leb_le. lia.
Qed.

Lemma copy_same_length mid src post :
  length mid = length src -> copy (mid ++ post) src = src ++ post.
Proof.
  intros E. unfold copy. rewrite firstn_all2 by (rewrite length_app; lia).
  rewrite <- E, skipn_app, Nat.sub_diag, skipn_all. reflexivity.
Qed.

Lemma copy_at_app pre mid post src :
  length mid = length src ->
  copy_at (pre ++ mid ++ post) (len pre) src = Ok (pre ++ src ++ post).
Proof.
  intros E. unfold copy_at. rewrite slice_from_app. cbn [bind].
  now rewrite firstn_len_app, copy_same_length.
Qed.

(** A frame with room for [k] more bytes, split at the place they go. *)
Lemma frame_room d0 i w k :
  0 <= k <= i -> i <= len d0 ->
  exists mid, len mid = k /\
    frame d0 i w = firstn (Z.to_nat (i - k)) d0 ++ mid ++ w /\
    len (firstn (Z.to_nat (i - k)) d0) = i - k.
Proof.
  intros Hk Hi.
  exists (firstn (Z.to_nat k) (skipn (Z.to_nat (i - k)) d0)). split; [|split].
  - rewrite len_firstn; [reflexivity|]. rewrite len_skipn by lia. lia.
  - unfold frame. rewrite app_assoc. f_equal.
    rewrite <- (firstn_skipn (Z.to_nat (i - k)) (firstn (Z.to_nat i) d0)).
    f_equal.
    + rewrite firstn_firstn. f_equal. lia.
    + rewrite skipn_firstn_comm. f_equal. lia.
  - apply len_firstn. lia.
Qed.

Lemma frame_all d0 : frame d0 (len d0) [] = d0.
Proof. unfold frame. rewrite len_to_nat, firstn_all. apply app_nil_r. Qed.

Lemma len_frame d0 i w : 0 <= i <= len d0 -> len (frame d0 i w) = i + len w.
Proof. intros. unfold frame. rewrite len_app, len_firstn by lia. reflexivity. Qed.

Lemma store_frame d0 i w b :
  1 <= i <= len d0 ->
  store (frame d0 i w) (i - 1) b = Ok (frame d0 (i - 1) (b :: w)).
Proof.
  intros H. destruct (frame_room d0 i w 1) as (mid & Hm & -> & Hp); try lia.
  destruct mid as [|x [|y mid]]; len_simpl;
    try (pose proof (len_nonneg mid)); try lia.
  rewrite <- Hp at 2. cbn [app]. rewrite store_app. reflexivity.
Qed.

Lemma copy_at_frame d0 i w bs :
  len bs <= i <= len d0 ->
  copy_at (frame d0 i w) (i - len bs) bs = Ok (frame d0 (i - len bs) (bs ++ w)).
Proof.
  intros H. pose proof (len_nonneg bs).
  destruct (frame_room d0 i w (len bs)) as (mid & Hm & -> & Hp); try lia.
  rewrite <- Hp at 2. rewrite copy_at_app; [reflexivity|].
  unfold len in Hm. lia.
Qed.

(** ** Machine integers *)

Lemma uint64_range z : 0 <= uint64 z < 2 ^ 64.
Proof. unfold uint64. apply Z.mod_pos_bound. lia. Qed.

Lemma uint64_small z : 0 <= z < 2 ^ 64 -> uint64 z = z.
Proof. unfold uint64. apply Z.mod_small. Qed.

Lemma int64_small z : is_int64 z -> int64 z = z.
Proof.
  unfold is_int64, MinInt64, MaxInt64, int64. intros H.
  rewrite Z.mod_small; lia.
Qed.

Lemma int_small z : is_int64 z -> int z = z.
Proof. apply int64_small. Qed.

(** ** The size and the bytes of a varint *)

Lemma sovCanonical_log2 v : 0 <= v -> sovCanonical v = (Z.log2 v + 7) / 7.
Proof.
  intros Hv. unfold sovCanonical, Len64.
  assert (H1 : 0 < Z.lor v 1).
  { assert (0 <= Z.lor v 1) by (apply Z.lor_nonneg; lia).
    assert (Z.lor v 1 <> 0); [|lia].
    intros E. apply Z.lor_eq_0_iff in E. lia. }
  destruct (Z.eqb_spec (Z.lor v 1) 0) as [E|_]; [lia|].
  rewrite Z.log2_lor by lia. change (Z.log2 1) with 0.
  rewrite Z.max_l by apply Z.log2_nonneg. f_equal. lia.
Qed.

Lemma sovCanonical_small v : 0 <= v < 128 -> sovCanonical v = 1.
Proof.
  intros H. rewrite sovCanonical_log2 by lia.
  assert (Z.log2 v < 7).
  { destruct (Z.eq_dec v 0) as [->|]; [cbn; lia|]. apply Z.log2_lt_pow2; lia. }
  pose proof (Z.log2_nonneg v).
  symmetry. apply Z.div_unique with (r := Z.log2 v); lia.
Qed.

Lemma sovCanonical_step v : 128 <= v -> sovCanonical v = 1 + sovCanonical (Z.shiftr v 7).
Proof.
  intros H.
  assert (0 <= Z.shiftr v 7) by (apply Z.shiftr_nonneg; lia).
  rewrite !sovCanonical_log2 by lia.
  rewrite Z.log2_shiftr by lia.
  assert (7 <= Z.log2 v) by (apply Z.log2_le_pow2; lia).
  rewrite Z.max_r by lia.
  replace (Z.log2 v + 7) with (Z.log2 v - 7 + 7 + 1 * 7) by lia.
  rewrite Z.div_add by lia. lia.
Qed.

Lemma sovCanonical_pos v : 0 <= v -> 1 <= sovCanonical v.
Proof.
  intros H. rewrite sovCanonical_log2 by lia.
  pose proof (Z.log2_nonneg v).
  apply Z.div_le_lower_bound; lia.
Qed.

Lemma shiftr7_bound v n : 0 <= v < 2 ^ (7 * Z.of_nat (S n)) -> 0 <= Z.shiftr v 7 < 2 ^ (7 * Z.of_nat n).
Proof.
  intros [H0 H1]. rewrite Z.shiftr_div_pow2 by lia. split.
  - apply Z.div_pos; lia.
  - apply Z.div_lt_upper_bound; [lia|].
    rewrite <- Z.pow_add_r by lia.
    replace (7 + 7 * Z.of_nat n) with (7 * Z.of_nat (S n)) by lia. exact H1.
Qed.

Lemma len_varint_bytes fuel v :
  (0 < fuel)%nat -> 0 <= v < 2 ^ (7 * Z.of_nat fuel) ->
  len (varint_bytes fuel v) = sovCanonical v.
Proof.
  revert v. induction fuel as [|fuel IH]; intros v Hf Hv; [lia|].
  cbn [varint_bytes]. destruct (Z.leb_spec 128 v) as [Hge|Hlt].
  - rewrite len_cons, IH.
    + now rewrite (sovCanonical_step v).
    + destruct fuel; [|lia]. change (2 ^ (7 * Z.of_nat 1)) with 128 in Hv. lia.
    + apply shiftr7_bound; exact Hv.
  - rewrite sovCanonical_small by lia. reflexivity.
Qed.

Lemma len_varint v : 0 <= v < 2 ^ 64 -> len (varint v) = sovCanonical v.
Proof.
  intros H. apply len_varint_bytes; [lia|]. change (7 * Z.of_nat 10) with 70. lia.
Qed.

Lemma len_varint_uint64 z : len (varint (uint64 z)) = sovCanonical (uint64 z).
Proof. apply len_varint, uint64_range. Qed.

Lemma varint_bytes_nonempty fuel v : (0 < fuel)%nat -> varint_bytes fuel v <> [].
Proof.
  destruct fuel; [lia|]. intros _. cbn [varint_bytes].
  destruct (128 <=? v); discriminate.
Qed.

(** ** The encoder's steps on a frame *)

Lemma Ok_frame_eq d0 i j (w w' : list byte) :
  i = j -> w = w' -> @Ok (list byte * Z) (frame d0 i w, i) = Ok (frame d0 j w', j).
Proof. intros -> ->. reflexivity. Qed.

Lemma encodeVarint_loop_app fuel v pre mid post :
  0 <= v < 2 ^ (7 * Z.of_nat fuel) -> (0 < fuel)%nat ->
  length mid = length (varint_bytes fuel v) ->
  encodeVarint_loop fuel (pre ++ mid ++ post) (len pre) v
  = Ok (pre ++ varint_bytes fuel v ++ post).
Proof.
  revert v pre mid. induction fuel as [|fuel IH]; intros v pre mid Hv Hf Hm; [lia|].
  cbn [encodeVarint_loop varint_bytes] in *.
  destruct (Z.leb_spec 128 v) as [Hge|Hlt].
  - destruct mid as [|x mid]; [discriminate|]. cbn [length] in Hm.
    cbn [app]. rewrite store_app. cbn [bind].
    assert (Hf' : (0 < fuel)%nat).
    { destruct fuel; [|lia]. change (2 ^ (7 * Z.of_nat 1)) with 128 in Hv. lia. }
    replace (pre ++ byte.of_Z (Z.lor (Z.land v 127) 128) :: mid ++ post)
      with ((pre ++ [byte.of_Z (Z.lor (Z.land v 127) 128)]) ++ mid ++ post)
      by (rewrite <- app_assoc; reflexivity).
    replace (len pre + 1) with (len (pre ++ [byte.of_Z (Z.lor (Z.land v 127) 128)]))
      by (len_simpl; lia).
    rewrite IH; [| apply shiftr7_bound; exact Hv | exact Hf' | lia].
    rewrite <- app_assoc. reflexivity.
  - destruct mid as [|x [|y mid]]; try discriminate.
    cbn [app]. apply store_app.
Qed.

Lemma encodeVarintCanonical_frame d0 i w v :
  0 <= v < 2 ^ 64 -> sovCanonical v <= i <= len d0 ->
  encodeVarintCanonical (frame d0 i w) i v
  = Ok (frame d0 (i - sovCanonical v) (varint v ++ w), i - sovCanonical v).
Proof.
  intros Hv Hi. pose proof (sovCanonical_pos v ltac:(lia)).
  destruct (frame_room d0 i w (sovCanonical v)) as (mid & Hm & E & Hp); try lia.
  pose proof (encodeVarint_loop_app 10 v (firstn (Z.to_nat (i - sovCanonical v)) d0) mid w)
    as L.
  rewrite Hp in L. unfold encodeVarintCanonical. cbv zeta. rewrite E, L.
  - reflexivity.
  - change (7 * Z.of_nat 10) with 70. lia.
  - lia.
  - rewrite <- len_varint in Hm by lia. unfold len, varint in Hm. lia.
Qed.

Lemma put_varint_frame tag d0 i w v :
  0 <= v < 2 ^ 64 -> len (field_varint tag v) <= i <= len d0 ->
  put_varint tag v (frame d0 i w) i
  = Ok (frame d0 (i - len (field_varint tag v)) (field_varint tag v ++ w),
        i - len (field_varint tag v)).
Proof.
  unfold field_varint. rewrite len_cons. intros Hv Hi.
  rewrite len_varint in * by lia.
  pose proof (sovCanonical_pos v ltac:(lia)).
  unfold put_varint. rewrite encodeVarintCanonical_frame by lia. cbn [bind].
  rewrite store_frame by lia. cbn [bind].
  apply Ok_frame_eq; [lia | reflexivity].
Qed.

Lemma put_bytes_frame tag d0 i w bs :
  len (field_bytes tag bs) <= i <= len d0 ->
  put_bytes tag bs (frame d0 i w) i
  = Ok (frame d0 (i - len (field_bytes tag bs)) (field_bytes tag bs ++ w),
        i - len (field_bytes tag bs)).
Proof.
  unfold field_bytes. rewrite len_cons, len_app. intros Hi.
  pose proof (uint64_range (len bs)). pose proof (len_nonneg bs).
  pose proof (len_nonneg (varint (uint64 (len bs)))).
  unfold put_bytes. rewrite copy_at_frame by lia. cbn [bind].
  rewrite put_varint_frame by (unfold field_varint; rewrite ?len_cons; lia).
  unfold field_varint. rewrite len_cons.
  apply Ok_frame_eq; [lia | cbn [app]; now rewrite <- app_assoc].
Qed.

Lemma len_field_fixed64 tag v : len (field_fixed64 tag v) = 9.
Proof. unfold field_fixed64. now rewrite len_cons, len_le_split. Qed.

Lemma put_fixed64_frame tag d0 i w v :
  len (field_fixed64 tag v) <= i <= len d0 ->
  put_fixed64 tag v (frame d0 i w) i
  = Ok (frame d0 (i - len (field_fixed64 tag v)) (field_fixed64 tag v ++ w),
        i - len (field_fixed64 tag v)).
Proof.
  rewrite len_field_fixed64. intros Hi. unfold put_fixed64. cbv zeta.
  destruct (frame_room d0 i w 8) as (mid & Hm & E & Hp); try lia.
  pose proof (slice_from_app (firstn (Z.to_nat (i - 8)) d0) (mid ++ w)) as L.
  rewrite Hp in L. rewrite E, L. cbn [bind].
  unfold PutUint64. pose proof (len_nonneg w).
  destruct (Z.leb_spec 8 (len (mid ++ w))) as [_|Hlt]; [|len_simpl; lia].
  cbn [bind].
  replace (firstn (Z.to_nat (i - 8)) (firstn (Z.to_nat (i - 8)) d0 ++ mid ++ w))
    with (firstn (Z.to_nat (i - 8)) d0).
  2:{ rewrite <- Hp at 2. now rewrite firstn_len_app. }
  replace (skipn 8 (mid ++ w)) with w.
  2:{ replace 8%nat with (Z.to_nat (len mid)) by lia. now rewrite skipn_len_app. }
  change (firstn (Z.to_nat (i - 8)) d0 ++ le_split 8 (uint64 v) ++ w)
    with (frame d0 (i - 8) (le_split 8 (uint64 v) ++ w)).
  rewrite store_frame by lia. cbn [bind]. unfold field_fixed64.
  apply Ok_frame_eq; [lia | reflexivity].
Qed.

Lemma put_nested_frame tag marshalTo bs d0 i w :
  fills_end marshalTo bs ->
  len (field_bytes tag bs) <= i <= len d0 ->
  put_nested tag marshalTo (frame d0 i w) i
  = Ok (frame d0 (i - len (field_bytes tag bs)) (field_bytes tag bs ++ w),
        i - len (field_bytes tag bs)).
Proof.
  intros Hf. unfold field_bytes. rewrite len_cons, len_app. intros Hi.
  pose proof (uint64_range (len bs)). pose proof (len_nonneg bs).
  pose proof (len_nonneg (varint (uint64 (len bs)))).
  unfold put_nested.
  assert (Hl : len (firstn (Z.to_nat i) d0) = i) by (apply len_firstn; lia).
  unfold frame at 1. rewrite <- Hl at 2. rewrite slice_to_app. cbn [bind].
  rewrite Hf by lia. cbn [bind]. rewrite Hl.
  unfold frame at 2. rewrite <- Hl at 3. rewrite skipn_len_app.
  replace (frame (firstn (Z.to_nat i) d0) (i - len bs) bs ++ w)
    with (frame d0 (i - len bs) (bs ++ w)).
  2:{ unfold frame. rewrite firstn_firstn, app_assoc. do 3 f_equal. lia. }
  rewrite put_varint_frame by (unfold field_varint; rewrite ?len_cons; lia).
  unfold field_varint. rewrite len_cons.
  apply Ok_frame_eq; [lia | cbn [app]; now rewrite <- app_assoc].
Qed.

Lemma when_frame c f chunk d0 i w :
  (c = true ->
   f (frame d0 i w) i = Ok (frame d0 (i - len chunk) (chunk ++ w), i - len chunk)) ->
  when c f (frame d0 i w) i
  = Ok (frame d0 (i - len (opt c chunk)) (opt c chunk ++ w), i - len (opt c chunk)).
Proof.
  intros H. unfold when, opt. destruct c.
  - now apply H.
  - rewrite len_nil, Z.sub_0_r. reflexivity.
Qed.

(** ** The encoders fill their buffer with the forward layout *)

Ltac len_pos :=
  repeat match goal with
    | |- context [len ?x] =>
        lazymatch goal with
        | H : 0 <= len x |- _ => fail
        | _ => pose proof (len_nonneg x)
        end
    | H : context [len ?x] |- _ =>
        lazymatch goal with
        | H : 0 <= len x |- _ => fail
        | _ => pose proof (len_nonneg x)
        end
    end.

(** One conditional step of an encoder: the side conditions are lengths. *)
Ltac when_step chunk lemma :=
  rewrite (when_frame _ _ chunk);
  [ cbn [bind]
  | let Hc := fresh "Hc" in
    intros Hc; rewrite ?Hc in *; cbn [opt] in *; apply lemma;
    try apply uint64_range; len_pos; lia ].

Lemma marshal_with_fills size marshalTo bs :
  fills_end marshalTo bs -> len bs = size -> marshal_with size marshalTo = Ok bs.
Proof.
  intros Hf <-. unfold marshal_with, make.
  pose proof (len_nonneg bs) as Hn. destruct (Z.leb_spec 0 (len bs)); [|lia].
  cbn [bind].
  set (dAtA := repeat Byte.x00 (Z.to_nat (len bs))).
  assert (Hl : len dAtA = len bs) by (subst dAtA; rewrite len_repeat; lia).
  rewrite <- Hl at 1. rewrite slice_to_all. cbn [bind].
  rewrite Hf by lia. cbn [bind]. rewrite Hl, Z.sub_diag.
  unfold frame. cbn [Z.to_nat firstn app].
  rewrite <- Hl at 1. rewrite len_to_nat, skipn_all, app_nil_r.
  apply slice_to_all.
Qed.

Lemma len_wire_PartSetHeader m :
  len (wire_PartSetHeader m) = CanonicalPartSetHeader_Size m.
Proof.
  unfold wire_PartSetHeader, CanonicalPartSetHeader_Size, opt, field_varint, field_bytes.
  destruct (psh_Total m =? 0), (0 <? len (psh_Hash m)); cbn [negb];
    len_simpl; rewrite ?len_varint_uint64; lia.
Qed.

Lemma CanonicalPartSetHeader_fills m :
  fills_end (CanonicalPartSetHeader_MarshalToSizedBuffer m) (wire_PartSetHeader m).
Proof.
  intros d Hd. unfold CanonicalPartSetHeader_MarshalToSizedBuffer. cbv zeta.
  unfold wire_PartSetHeader in *. rewrite len_app in Hd.
  rewrite <- (frame_all d) at 1.
  when_step (field_bytes Byte.x12 (psh_Hash m)) put_bytes_frame.
  when_step (field_varint Byte.x08 (uint64 (psh_Total m))) put_varint_frame.
  rewrite len_frame by (len_pos; lia). rewrite app_nil_r, len_app.
  f_equal. f_equal; [f_equal|]; lia.
Qed.

Lemma len_wire_BlockID m : len (wire_BlockID m) = CanonicalBlockID_Size m.
Proof.
  unfold wire_BlockID, CanonicalBlockID_Size, opt, field_bytes.
  destruct (0 <? len (bid_Hash m));
    len_simpl; rewrite ?len_varint_uint64, ?len_wire_PartSetHeader; lia.
Qed.

Lemma CanonicalBlockID_fills m :
  fills_end (CanonicalBlockID_MarshalToSizedBuffer m) (wire_BlockID m).
Proof.
  intros d Hd. unfold CanonicalBlockID_MarshalToSizedBuffer. cbv zeta.
  unfold wire_BlockID in *. rewrite len_app in Hd.
  rewrite <- (frame_all d) at 1.
  rewrite (put_nested_frame _ _ _ _ _ _ (CanonicalPartSetHeader_fills _))
    by (len_pos; lia).
  cbn [bind].
  when_step (field_bytes Byte.x0a (bid_Hash m)) put_bytes_frame.
  rewrite len_frame by (len_pos; lia). rewrite app_nil_r, len_app.
  f_equal. f_equal; [f_equal|]; lia.
Qed.

Lemma VoteExtensionToSign_fills e :
  fills_end (VoteExtensionToSign_MarshalToSizedBuffer e) (VoteExtensionToSign_bytes e).
Proof.
  intros d Hd. unfold VoteExtensionToSign_MarshalToSizedBuffer. cbv zeta.
  rewrite <- (frame_all d) at 1. rewrite copy_at_frame by (len_pos; lia).
  cbn [bind]. now rewrite app_nil_r.
Qed.

Lemma put_BlockID_frame tag b d0 i w :
  len (field_BlockID tag b) <= i <= len d0 ->
  put_BlockID tag b (frame d0 i w) i
  = Ok (frame d0 (i - len (field_BlockID tag b)) (field_BlockID tag b ++ w),
        i - len (field_BlockID tag b)).
Proof.
  destruct b as [b|]; cbn [put_BlockID field_BlockID]; intros H.
  - apply put_nested_frame; [apply CanonicalBlockID_fills | exact H].
  - rewrite len_nil, Z.sub_0_r. reflexivity.
Qed.

Lemma put_VoteExtension_frame tag e d0 i w :
  len (field_VoteExtension tag e) <= i <= len d0 ->
  put_VoteExtension tag e (frame d0 i w) i
  = Ok (frame d0 (i - len (field_VoteExtension tag e)) (field_VoteExtension tag e ++ w),
        i - len (field_VoteExtension tag e)).
Proof.
  destruct e as [e|]; cbn [put_VoteExtension field_VoteExtension]; intros H.
  - apply put_nested_frame; [apply VoteExtensionToSign_fills | exact H].
  - rewrite len_nil, Z.sub_0_r. reflexivity.
Qed.

Lemma put_time_frame tag t ts d0 i w :
  StdTimeBytes t = Ok ts ->
  len (field_bytes tag ts) <= i <= len d0 ->
  put_time tag t (frame d0 i w) i
  = Ok (frame d0 (i - len (field_bytes tag ts)) (field_bytes tag ts ++ w),
        i - len (field_bytes tag ts)).
Proof.
  intros Ht. unfold field_bytes. rewrite len_cons, len_app. intros Hi.
  pose proof (uint64_range (len ts)). len_pos.
  unfold put_time, SizeOfStdTime, StdTimeMarshalTo. rewrite Ht. cbv zeta. cbn [bind].
  destruct (frame_room d0 i w (len ts)) as (mid & Hm & E & Hp); try lia.
  pose proof (slice_from_app (firstn (Z.to_nat (i - len ts)) d0) (mid ++ w)) as L.
  rewrite Hp in L. rewrite E, L. cbn [bind].
  destruct (Z.leb_spec (len ts) (len (mid ++ w))) as [_|Hlt]; [|len_simpl; len_pos; lia].
  cbn [bind].
  replace (firstn (Z.to_nat (i - len ts)) (firstn (Z.to_nat (i - len ts)) d0 ++ mid ++ w))
    with (firstn (Z.to_nat (i - len ts)) d0).
  2:{ rewrite <- Hp at 2. now rewrite firstn_len_app. }
  rewrite copy_same_length by (unfold len in Hm; lia).
  change (firstn (Z.to_nat (i - len ts)) d0 ++ ts ++ w)
    with (frame d0 (i - len ts) (ts ++ w)).
  rewrite put_varint_frame by (unfold field_varint; rewrite ?len_cons; lia).
  unfold field_varint. rewrite len_cons.
  apply Ok_frame_eq; [lia | cbn [app]; now rewrite <- app_assoc].
Qed.

Lemma len_field_BlockID tag b :
  len (field_BlockID tag b)
  = match b with
    | Some b => 1 + CanonicalBlockID_Size b + sovCanonical (uint64 (CanonicalBlockID_Size b))
    | None => 0
    end.
Proof.
  destruct b as [b|]; cbn [field_BlockID]; [|reflexivity].
  unfold field_bytes. len_simpl. rewrite len_varint_uint64, len_wire_BlockID. lia.
Qed.

Lemma len_field_bytes tag bs :
  len (field_bytes tag bs) = 1 + len bs + sovCanonical (uint64 (len bs)).
Proof. unfold field_bytes. len_simpl. rewrite len_varint_uint64. lia. Qed.

Lemma len_field_varint tag z :
  len (field_varint tag (uint64 z)) = 1 + sovCanonical (uint64 z).
Proof. unfold field_varint. len_simpl. now rewrite len_varint_uint64. Qed.

Lemma len_wire_Proposal m ts :
  StdTimeBytes (prop_Timestamp m) = Ok ts ->
  len (wire_Proposal m ts) = CanonicalProposal_Size m.
Proof.
  intros Ht. unfold wire_Proposal, CanonicalProposal_Size, SizeOfStdTime. rewrite Ht.
  rewrite !len_app, len_field_BlockID, len_field_bytes. unfold opt.
  destruct (prop_Type m =? 0), (prop_Height m =? 0), (prop_Round m =? 0),
    (prop_POLRound m =? 0), (prop_BlockID m), (0 <? len (prop_ChainID m));
    cbn [negb]; rewrite ?len_field_varint, ?len_field_fixed64, ?len_field_bytes;
    len_simpl; lia.
Qed.

Lemma CanonicalProposal_fills m ts :
  StdTimeBytes (prop_Timestamp m) = Ok ts ->
  fills_end (CanonicalProposal_MarshalToSizedBuffer m) (wire_Proposal m ts).
Proof.
  intros Ht d Hd. unfold CanonicalProposal_MarshalToSizedBuffer. cbv zeta.
  unfold wire_Proposal in *. rewrite !len_app in Hd.
  rewrite <- (frame_all d) at 1.
  when_step (field_bytes Byte.x3a (prop_ChainID m)) put_bytes_frame.
  rewrite (put_time_frame _ _ ts) by (try exact Ht; len_pos; lia). cbn [bind].
  rewrite put_BlockID_frame by (len_pos; lia). cbn [bind].
  when_step (field_varint Byte.x20 (uint64 (prop_POLRound m))) put_varint_frame.
  when_step (field_fixed64 Byte.x19 (prop_Round m)) put_fixed64_frame.
  when_step (field_fixed64 Byte.x11 (prop_Height m)) put_fixed64_frame.
  when_step (field_varint Byte.x08 (uint64 (prop_Type m))) put_varint_frame.
  rewrite len_frame by (rewrite ?len_field_fixed64; len_pos; lia).
  rewrite app_nil_r, !len_app.
  f_equal. f_equal; [f_equal|]; rewrite ?len_field_fixed64; lia.
Qed.

Lemma len_field_VoteExtension tag e :
  len (field_VoteExtension tag e)
  = match e with
    | Some e => 1 + VoteExtensionToSign_Size e + sovCanonical (uint64 (VoteExtensionToSign_Size e))
    | None => 0
    end.
Proof.
  destruct e as [e|]; cbn [field_VoteExtension]; [|reflexivity].
  rewrite len_field_bytes. reflexivity.
Qed.

Lemma len_wire_Vote m ts :
  StdTimeBytes (vote_Timestamp m) = Ok ts ->
  len (wire_Vote m ts) = CanonicalVote_Size m.
Proof.
  intros Ht. unfold wire_Vote, CanonicalVote_Size, SizeOfStdTime. rewrite Ht.
  rewrite !len_app, len_field_BlockID, len_field_VoteExtension, len_field_bytes. unfold opt.
  destruct (vote_Type m =? 0), (vote_Height m =? 0), (vote_Round m =? 0),
    (vote_BlockID m), (0 <? len (vote_ChainID m)), (vote_VoteExtension m);
    cbn [negb]; rewrite ?len_field_varint, ?len_field_fixed64, ?len_field_bytes;
    len_simpl; lia.
Qed.

Lemma CanonicalVote_fills m ts :
  StdTimeBytes (vote_Timestamp m) = Ok ts ->
  fills_end (CanonicalVote_MarshalToSizedBuffer m) (wire_Vote m ts).
Proof.
  intros Ht d Hd. unfold CanonicalVote_MarshalToSizedBuffer. cbv zeta.
  unfold wire_Vote in *. rewrite !len_app in Hd.
  rewrite <- (frame_all d) at 1.
  rewrite put_VoteExtension_frame by (len_pos; lia). cbn [bind].
  when_step (field_bytes Byte.x32 (vote_ChainID m)) put_bytes_frame.
  rewrite (put_time_frame _ _ ts) by (try exact Ht; len_pos; lia). cbn [bind].
  rewrite put_BlockID_frame by (len_pos; lia). cbn [bind].
  when_step (field_fixed64 Byte.x19 (vote_Round m)) put_fixed64_frame.
  when_step (field_fixed64 Byte.x11 (vote_Height m)) put_fixed64_frame.
  when_step (field_varint Byte.x08 (uint64 (vote_Type m))) put_varint_frame.
  rewrite len_frame by (len_pos; lia).
  rewrite !app_nil_r, <- ?app_assoc, !len_app.
  f_equal. f_equal; [f_equal|]; lia.
Qed.

(** [Marshal] returns the forward layout. *)

Lemma CanonicalPartSetHeader_Marshal_wire m :
  CanonicalPartSetHeader_Marshal m = Ok (wire_PartSetHeader m).
Proof.
  apply marshal_with_fills; [apply CanonicalPartSetHeader_fills | apply len_wire_PartSetHeader].
Qed.

Lemma CanonicalBlockID_Marshal_wire m :
  CanonicalBlockID_Marshal m = Ok (wire_BlockID m).
Proof.
  apply marshal_with_fills; [apply CanonicalBlockID_fills | apply len_wire_BlockID].
Qed.

Lemma CanonicalProposal_Marshal_wire m ts :
  StdTimeBytes (prop_Timestamp m) = Ok ts ->
  CanonicalProposal_Marshal m = Ok (wire_Proposal m ts).
Proof.
  intros Ht.
  apply marshal_with_fills; [now apply CanonicalProposal_fills | now apply len_wire_Proposal].
Qed.

Lemma CanonicalVote_Marshal_wire m ts :
  StdTimeBytes (vote_Timestamp m) = Ok ts ->
  CanonicalVote_Marshal m = Ok (wire_Vote m ts).
Proof.
  intros Ht.
  apply marshal_with_fills; [now apply CanonicalVote_fills | now apply len_wire_Vote].
Qed.

(** When the conversion of the time fails, so does the encoder. *)

Lemma put_time_Ok_inv tag t d i r :
  put_time tag t d i = Ok r -> exists ts, StdTimeBytes t = Ok ts.
Proof.
  unfold put_time, StdTimeMarshalTo. cbv zeta.
  destruct (slice_from d (i - SizeOfStdTime t)) as [dst| | |]; cbn [bind]; try discriminate.
  destruct (StdTimeBytes t) as [ts| | |]; cbn [bind]; try discriminate.
  intros _. now exists ts.
Qed.

Lemma marshal_with_Ok_inv size marshalTo bs :
  marshal_with size marshalTo = Ok bs -> exists d r, marshalTo d = Ok r.
Proof.
  unfold marshal_with.
  destruct (make size) as [d| | |]; cbn [bind]; try discriminate.
  destruct (slice_to d size) as [sub| | |]; cbn [bind]; try discriminate.
  destruct (marshalTo sub) as [r| | |] eqn:E; cbn [bind]; try discriminate.
  intros _. now exists sub, r.
Qed.

Lemma CanonicalProposal_Marshal_Ok_inv m bs :
  CanonicalProposal_Marshal m = Ok bs ->
  exists ts, StdTimeBytes (prop_Timestamp m) = Ok ts /\ bs = wire_Proposal m ts.
Proof.
  intros H. assert (exists ts, StdTimeBytes (prop_Timestamp m) = Ok ts) as [ts Ht].
  { apply marshal_with_Ok_inv in H. destruct H as (d & r & H).
    unfold CanonicalProposal_MarshalToSizedBuffer in H. cbv zeta in H.
    destruct (when _ _ d (len d)) as [[d1 i1]| | |]; cbn [bind] in H; try discriminate.
    destruct (put_time _ _ d1 i1) as [r1| | |] eqn:E; cbn [bind] in H; try discriminate.
    now apply put_time_Ok_inv in E. }
  exists ts. split; [exact Ht|].
  rewrite (CanonicalProposal_Marshal_wire m ts Ht) in H. now injection H.
Qed.

Lemma CanonicalVote_Marshal_Ok_inv m bs :
  CanonicalVote_Marshal m = Ok bs ->
  exists ts, StdTimeBytes (vote_Timestamp m) = Ok ts /\ bs = wire_Vote m ts.
Proof.
  intros H. assert (exists ts, StdTimeBytes (vote_Timestamp m) = Ok ts) as [ts Ht].
  { apply marshal_with_Ok_inv in H. destruct H as (d & r & H).
    unfold CanonicalVote_MarshalToSizedBuffer in H. cbv zeta in H.
    destruct (put_VoteExtension _ _ d (len d)) as [[d0 i0]| | |]; cbn [bind] in H;
      try discriminate.
    destruct (when _ _ d0 i0) as [[d1 i1]| | |]; cbn [bind] in H; try discriminate.
    destruct (put_time _ _ d1 i1) as [r1| | |] eqn:E; cbn [bind] in H; try discriminate.
    now apply put_time_Ok_inv in E. }
  exists ts. split; [exact Ht|].
  rewrite (CanonicalVote_Marshal_wire m ts Ht) in H. now injection H.
Qed.

(** ** Conversions as maps on bits *)

Lemma testbit_signed_wrap w z i :
  0 < w -> 0 <= i ->
  Z.testbit ((z + 2 ^ (w - 1)) mod 2 ^ w - 2 ^ (w - 1)) i = Z.testbit z (Z.min i (w - 1)).
Proof.
  intros Hw Hi.
  assert (E : (z + 2 ^ (w - 1)) mod 2 ^ w - 2 ^ (w - 1)
              = z mod 2 ^ (w - 1) - 2 ^ (w - 1) * Z.b2z (Z.testbit z (w - 1))).
  { rewrite Z.testbit_spec' by lia.
    replace (2 ^ w) with (2 ^ (w - 1) * 2).
    2:{ rewrite Z.mul_comm, <- Z.pow_succ_r by lia. f_equal. lia. }
    rewrite Z.rem_mul_r by lia.
    replace (z + 2 ^ (w - 1)) with (z + 1 * 2 ^ (w - 1)) by lia.
    rewrite Z.mod_add, Z.div_add by lia.
    set (q := z / 2 ^ (w - 1)).
    assert (Hq : (q + 1) mod 2 = 1 - q mod 2).
    { pose proof (Z.mod_pos_bound q 2 ltac:(lia)).
      pose proof (Z.mod_pos_bound (q + 1) 2 ltac:(lia)).
      pose proof (Z.div_mod q 2 ltac:(lia)).
      pose proof (Z.div_mod (q + 1) 2 ltac:(lia)). lia. }
    rewrite Hq. lia. }
  rewrite E.
  assert (Hneg : - 2 ^ (w - 1) = Z.shiftl (-1) (w - 1))
    by (rewrite Z.shiftl_mul_pow2; lia).
  destruct (Z.testbit z (w - 1)) eqn:Hs; cbn [Z.b2z].
  - rewrite Z.mul_1_r.
    replace (z mod 2 ^ (w - 1) - 2 ^ (w - 1))
      with (Z.lor (z mod 2 ^ (w - 1)) (- 2 ^ (w - 1))).
    2:{ rewrite <- Z.lxor_lor.
        - rewrite <- Z.add_nocarry_lxor; [lia|]. Z.bitblast.
        - Z.bitblast. }
    rewrite Z.lor_spec, Z.testbit_mod_pow2, Hneg by lia.
    destruct (Z.ltb_spec i (w - 1)).
    + rewrite Z.min_l, Z.shiftl_spec_low by lia. apply orb_false_r.
    + rewrite Z.min_r, Z.shiftl_spec, Z.testbit_minus1 by lia. now rewrite Hs.
  - rewrite Z.mul_0_r, Z.sub_0_r, Z.testbit_mod_pow2 by lia.
    destruct (Z.ltb_spec i (w - 1)).
    + rewrite Z.min_l by lia. reflexivity.
    + rewrite Z.min_r by lia. now rewrite Hs.
Qed.

Lemma bits_conv_signed w :
  0 < w -> bits_conv (fun z => (z + 2 ^ (w - 1)) mod 2 ^ w - 2 ^ (w - 1)).
Proof.
  intros Hw. split; [|split].
  - rewrite Z.add_0_l, Z.mod_small; [lia|].
    split; [lia|]. apply Z.pow_lt_mono_r; lia.
  - intros a b. apply Z.bits_inj'. intros i Hi.
    now rewrite Z.lor_spec, !testbit_signed_wrap, Z.lor_spec by lia.
  - intros x s Hs. apply Z.bits_inj'. intros i Hi.
    rewrite !testbit_signed_wrap by lia.
    destruct (Z.ltb_spec (Z.min i (w - 1)) s).
    + now rewrite !Z.shiftl_spec_low by lia.
    + rewrite !Z.shiftl_spec, testbit_signed_wrap by lia. f_equal. lia.
Qed.

Lemma bits_conv_unsigned w : 0 < w -> bits_conv (fun z => z mod 2 ^ w).
Proof.
  intros Hw. split; [|split].
  - now rewrite Z.mod_0_l by lia.
  - intros a b. Z.bitblast.
  - intros x s Hs. Z.bitblast.
Qed.

Lemma bits_conv_id : bits_conv (fun z => z).
Proof. now repeat split. Qed.

Lemma bits_conv_uint64 : bits_conv uint64.
Proof. apply (bits_conv_unsigned 64). lia. Qed.

Lemma bits_conv_uint32 : bits_conv uint32.
Proof. apply (bits_conv_unsigned 32). lia. Qed.

Lemma bits_conv_int64 : bits_conv int64.
Proof. apply (bits_conv_signed 64). lia. Qed.

Lemma bits_conv_int32 : bits_conv int32.
Proof. apply (bits_conv_signed 32). lia. Qed.

Lemma bits_conv_int : bits_conv int.
Proof. apply bits_conv_int64. Qed.

Lemma int64_uint64 z : int64 (uint64 z) = int64 z.
Proof.
  unfold int64, uint64. f_equal.
  rewrite Zplus_mod_idemp_l. reflexivity.
Qed.

Lemma mod32_mod64 z k : (z mod 2 ^ 64 + k) mod 2 ^ 32 = (z + k) mod 2 ^ 32.
Proof.
  pose proof (Z.div_mod z (2 ^ 64) ltac:(lia)) as E.
  replace (z mod 2 ^ 64 + k) with (z + k + (- (z / 2 ^ 64) * 2 ^ 32) * 2 ^ 32) by lia.
  now rewrite Z.mod_add by lia.
Qed.

Lemma int32_uint64 z : int32 (uint64 z) = int32 z.
Proof. unfold int32, uint64. now rewrite mod32_mod64. Qed.

Lemma uint32_uint64 z : uint32 (uint64 z) = uint32 z.
Proof.
  unfold uint32, uint64. pose proof (mod32_mod64 z 0) as E.
  now rewrite !Z.add_0_r in E.
Qed.

Lemma int32_small z : is_int32 z -> int32 z = z.
Proof. unfold is_int32, int32. intros H. rewrite Z.mod_small; lia. Qed.

Lemma uint32_small z : is_uint32 z -> uint32 z = z.
Proof. unfold is_uint32, uint32. apply Z.mod_small. Qed.

(** ** Bytes of a varint *)

Lemma unsigned_of_Z_small x : 0 <= x < 256 -> byte.unsigned (byte.of_Z x) = x.
Proof. intros H. rewrite byte.unsigned_of_Z. unfold byte.wrap. apply Z.mod_small. lia. Qed.

Lemma land_127 v : Z.land v 127 = v mod 128.
Proof. change 127 with (Z.ones 7). rewrite Z.land_ones by lia. reflexivity. Qed.

Lemma group_byte v :
  Z.lor (Z.land v 127) 128 = v mod 128 + 128.
Proof.
  rewrite land_127. apply Z.or_to_plus.
  change 128 with (2 ^ 7) at 2. change 128 with (2 ^ 7).
  Z.bitblast.
  destruct (Z.eqb_spec 7 i); [lia|]. now rewrite andb_false_r.
Qed.

Lemma group_byte_low v : Z.land (Z.lor (Z.land v 127) 128) 127 = Z.land v 127.
Proof.
  rewrite group_byte, !land_127.
  replace (v mod 128 + 128) with (v mod 128 + 1 * 128) by lia.
  rewrite Z.mod_add, Z.mod_mod by lia. reflexivity.
Qed.

Lemma regroup v s acc :
  0 <= s ->
  Z.lor (Z.lor acc (Z.shiftl (Z.land v 127) s)) (Z.shiftl (Z.shiftr v 7) (s + 7))
  = Z.lor acc (Z.shiftl v s).
Proof.
  intros Hs. rewrite <- Z.lor_assoc. f_equal.
  change 127 with (Z.ones 7). Z.bitblast.
  match goal with |- context [Z.testbit v ?l] => rewrite (Z.testbit_neg_r v l) by lia end.
  reflexivity.
Qed.

(** ** Reading at an index *)

Lemma at_index_start d : at_index d 0 d.
Proof. now exists []. Qed.

Lemma at_index_app d i a b : at_index d i (a ++ b) -> at_index d (i + len a) b.
Proof.
  intros (pre & -> & <-). exists (pre ++ a). split.
  - now rewrite app_assoc.
  - apply len_app.
Qed.

Lemma at_index_cons d i a b : at_index d i (a :: b) -> at_index d (i + 1) b.
Proof.
  intros H. apply (at_index_app d i [a] b) in H. exact H.
Qed.

Lemma at_index_len d i suffix : at_index d i suffix -> 0 <= i /\ len d = i + len suffix.
Proof.
  intros (pre & -> & <-). split; [apply len_nonneg | apply len_app].
Qed.

Lemma index_at d i b post : at_index d i (b :: post) -> index d i = Ok b.
Proof. intros (pre & -> & <-). apply index_app. Qed.

Lemma slice_at d i mid post : at_index d i (mid ++ post) -> slice d i (i + len mid) = Ok mid.
Proof. intros (pre & -> & <-). apply slice_app. Qed.

Lemma slice_from_at d i suffix : at_index d i suffix -> slice_from d i = Ok suffix.
Proof. intros (pre & -> & <-). apply slice_from_app. Qed.

Lemma varint_loop_conv conv :
  bits_conv conv ->
  forall fuel d shift acc i, 0 <= shift ->
    varint_loop conv d fuel shift (conv acc) i
    = conv_result conv (varint_loop (fun z => z) d fuel shift acc i).
Proof.
  intros (H0 & Hor & Hsh). induction fuel as [|fuel IH]; intros d shift acc i Hs.
  - reflexivity.
  - cbn [varint_loop].
    destruct (64 <=? shift); [reflexivity|].
    destruct (len d <=? i); [reflexivity|].
    destruct (index d i) as [b| | |]; cbn [bind]; try reflexivity.
    rewrite Hsh, <- Hor by lia.
    destruct (byte.unsigned b <? 128); [reflexivity|].
    apply IH. lia.
Qed.

Lemma read_varint_conv conv d i :
  bits_conv conv ->
  read_varint conv d i = conv_result conv (read_varint (fun z => z) d i).
Proof.
  intros H. unfold read_varint.
  pose proof (varint_loop_conv conv H 11 d 0 0 i ltac:(lia)) as E.
  destruct H as (H0 & _). rewrite H0 in E. exact E.
Qed.

Lemma Ok_pair_eq {A B} (a a' : A) (b b' : B) :
  a = a' -> b = b' -> @Ok (A * B) (a, b) = Ok (a', b').
Proof. now intros -> ->. Qed.

Lemma varint_loop_bytes n :
  forall fuel v shift acc pre post,
    (n <= fuel)%nat -> (0 < n)%nat -> 0 <= v < 2 ^ (7 * Z.of_nat n) ->
    0 <= shift -> shift + 7 * Z.of_nat n <= 70 ->
    varint_loop (fun z => z) (pre ++ varint_bytes n v ++ post) fuel shift acc (len pre)
    = Ok (Z.lor acc (Z.shiftl v shift), len pre + len (varint_bytes n v)).
Proof.
  induction n as [|n IH]; intros fuel v shift acc pre post Hf Hn Hv Hs Hsh; [lia|].
  destruct fuel as [|fuel]; [lia|].
  cbn [varint_loop varint_bytes].
  destruct (Z.leb_spec 64 shift); [lia|].
  destruct (Z.leb_spec 128 v) as [Hge|Hlt].
  - set (b := byte.of_Z (Z.lor (Z.land v 127) 128)).
    assert (Hb : byte.unsigned b = v mod 128 + 128).
    { subst b. rewrite unsigned_of_Z_small; rewrite group_byte; [reflexivity|].
      pose proof (Z.mod_pos_bound v 128 ltac:(lia)). lia. }
    cbn [app].
    destruct (Z.leb_spec (len (pre ++ b :: varint_bytes n (Z.shiftr v 7) ++ post)) (len pre)).
    { len_simpl. len_pos. lia. }
    rewrite index_app. cbn [bind]. rewrite Hb.
    pose proof (Z.mod_pos_bound v 128 ltac:(lia)).
    destruct (Z.ltb_spec (v mod 128 + 128) 128); [lia|].
    assert (Hn' : (0 < n)%nat).
    { destruct n; [|lia]. change (2 ^ (7 * Z.of_nat 1)) with 128 in Hv. lia. }
    replace (pre ++ b :: varint_bytes n (Z.shiftr v 7) ++ post)
      with ((pre ++ [b]) ++ varint_bytes n (Z.shiftr v 7) ++ post)
      by (rewrite <- app_assoc; reflexivity).
    replace (len pre + 1) with (len (pre ++ [b])) by (len_simpl; lia).
    rewrite IH; try lia; [| apply shiftr7_bound; exact Hv].
    apply Ok_pair_eq.
    + rewrite <- Hb. subst b.
      rewrite unsigned_of_Z_small by (rewrite group_byte; lia).
      rewrite group_byte_low. apply regroup. lia.
    + len_simpl. lia.
  - cbn [app].
    destruct (Z.leb_spec (len (pre ++ byte.of_Z v :: post)) (len pre)).
    { len_simpl. len_pos. lia. }
    rewrite index_app. cbn [bind]. rewrite unsigned_of_Z_small by lia.
    destruct (Z.ltb_spec v 128); [|lia].
    apply Ok_pair_eq.
    + rewrite land_127, Z.mod_small by lia. reflexivity.
    + len_simpl. lia.
Qed.

Lemma read_varint_at conv d i v post :
  bits_conv conv -> 0 <= v < 2 ^ 64 ->
  at_index d i (varint v ++ post) ->
  read_varint conv d i = Ok (conv v, i + len (varint v)).
Proof.
  intros Hc Hv (pre & -> & <-).
  rewrite read_varint_conv by exact Hc. unfold read_varint, varint.
  rewrite varint_loop_bytes
    by (first [lia | change (7 * Z.of_nat 10) with 70; lia]).
  cbn [conv_result]. now rewrite Z.lor_0_l, Z.shiftl_0_r.
Qed.

Lemma varint_small v : 0 <= v < 128 -> varint v = [byte.of_Z v].
Proof.
  intros H. unfold varint. cbn [varint_bytes].
  destruct (Z.leb_spec 128 v); [lia | reflexivity].
Qed.

(** A tag that fits one byte. *)
Lemma read_tag_byte d i b post :
  at_index d i (b :: post) -> byte.unsigned b < 128 ->
  read_tag d i
  = let wire := byte.unsigned b in
    let fieldNum := int32 (Z.shiftr wire 3) in
    let wireType := int (Z.land wire 0x7) in
    if wireType =? 4 then Err ErrEndGroupForNonGroup
    else if fieldNum <=? 0 then Err (ErrIllegalTag fieldNum wire)
    else Ok (fieldNum, wireType, i + 1).
Proof.
  intros Hat Hb. pose proof (byte.unsigned_range b) as Hr.
  unfold read_tag.
  rewrite (read_varint_at uint64 d i (byte.unsigned b) post).
  - cbn [bind]. rewrite uint64_small by lia.
    rewrite varint_small by lia. reflexivity.
  - apply bits_conv_uint64.
  - lia.
  - rewrite varint_small, byte.of_Z_unsigned by lia. exact Hat.
Qed.

Lemma read_length_at conv toInt d i L post :
  bits_conv conv -> toInt (conv (uint64 L)) = L ->
  0 <= L <= len post -> len d <= MaxInt64 ->
  at_index d i (varint (uint64 L) ++ post) ->
  read_length conv toInt d i
  = Ok (i + len (varint (uint64 L)), i + len (varint (uint64 L)) + L).
Proof.
  intros Hc Hconv HL Hd Hat.
  pose proof (at_index_len _ _ _ Hat) as [Hi Hlen]. rewrite len_app in Hlen.
  unfold read_length.
  rewrite (read_varint_at conv d i (uint64 L) post Hc (uint64_range L) Hat).
  cbn [bind]. rewrite Hconv.
  destruct (Z.ltb_spec L 0); [lia|].
  len_pos. unfold MaxInt64 in Hd.
  rewrite int_small by (unfold is_int64, MinInt64, MaxInt64; lia).
  destruct (Z.ltb_spec (i + len (varint (uint64 L)) + L) 0); [lia|].
  destruct (Z.ltb_spec (len d) (i + len (varint (uint64 L)) + L)); [lia|].
  reflexivity.
Qed.

Lemma int_uint64_len L : 0 <= L <= MaxInt64 -> int (uint64 L) = L.
Proof.
  intros H. unfold int. rewrite int64_uint64. apply int64_small.
  unfold is_int64, MinInt64, MaxInt64 in *. lia.
Qed.

Lemma int_int_uint64_len L : 0 <= L <= MaxInt64 -> int (int (uint64 L)) = L.
Proof.
  intros H. rewrite int_uint64_len by exact H. apply int_small.
  unfold is_int64, MinInt64, MaxInt64 in *. lia.
Qed.

Lemma int_uint64_uint64_len L : 0 <= L <= MaxInt64 -> int (uint64 (uint64 L)) = L.
Proof.
  intros H. rewrite (uint64_small (uint64 L)) by apply uint64_range.
  now apply int_uint64_len.
Qed.

Lemma firstn_app_exact {A} n (a b : list A) : length a = n -> firstn n (a ++ b) = a.
Proof.
  intros <-. rewrite firstn_app, Nat.sub_diag, firstn_all. cbn [firstn]. apply app_nil_r.
Qed.

Lemma read_fixed64_at d i v post :
  is_int64 v ->
  at_index d i (le_split 8 (uint64 v) ++ post) ->
  read_fixed64 d i = Ok (v, i + 8).
Proof.
  intros Hv Hat. pose proof (at_index_len _ _ _ Hat) as [Hi Hlen].
  rewrite len_app, len_le_split in Hlen. len_pos.
  unfold read_fixed64.
  destruct (Z.ltb_spec (len d) (i + 8)); [lia|].
  rewrite (slice_from_at _ _ _ Hat). cbn [bind]. unfold Uint64.
  destruct (Z.leb_spec 8 (len (le_split 8 (uint64 v) ++ post))).
  2:{ rewrite len_app, len_le_split in *. lia. }
  cbn [bind].
  replace (firstn 8 (le_split 8 (uint64 v) ++ post)) with (le_split 8 (uint64 v)).
  2:{ symmetry. apply firstn_app_exact, length_le_split. }
  rewrite le_combine_split.
  change (uint64 v mod 2 ^ (Z.of_nat 8 * 8)) with (uint64 (uint64 v)).
  rewrite (uint64_small (uint64 v)) by apply uint64_range.
  now rewrite int64_uint64, int64_small.
Qed.

(** ** Decoding rounds *)

Lemma read_tag_const d i b post fieldNum wireType :
  at_index d i (b :: post) -> tag_of b = Some (fieldNum, wireType) ->
  read_tag d i = Ok (fieldNum, wireType, i + 1).
Proof.
  intros Hat Ht. unfold tag_of in Ht. cbv zeta in Ht.
  destruct (Z.ltb_spec (byte.unsigned b) 128) as [Hb|]; [|discriminate].
  rewrite (read_tag_byte d i b post Hat Hb). cbv zeta.
  destruct (int (Z.land (byte.unsigned b) 7) =? 4); [discriminate|].
  destruct (int32 (Z.shiftr (byte.unsigned b) 3) <=? 0); [discriminate|].
  cbn [andb negb] in Ht. now injection Ht as -> ->.
Qed.

Lemma read_bytes_at conv toInt d j bs post :
  bits_conv conv -> toInt (conv (uint64 (len bs))) = len bs ->
  len d <= MaxInt64 ->
  at_index d j (varint (uint64 (len bs)) ++ bs ++ post) ->
  let k := len (varint (uint64 (len bs))) in
  read_length conv toInt d j = Ok (j + k, j + k + len bs)
  /\ slice d (j + k) (j + k + len bs) = Ok bs.
Proof.
  intros Hc Hconv Hd Hat k. subst k.
  pose proof (at_index_app _ _ _ _ Hat) as Hat1.
  split.
  - apply read_length_at with (post := bs ++ post); try assumption.
    rewrite len_app. len_pos. lia.
  - now apply slice_at with (post := post).
Qed.

Lemma decodes_to_end {M} (field : M -> Z -> Z -> list byte -> Z -> Z -> result (M * Z))
  d i m :
  at_index d i [] -> decodes_to field d m i m.
Proof.
  intros Hat fuel Hf. apply at_index_len in Hat.
  change (len (@nil byte)) with 0 in Hat.
  destruct fuel as [|fuel]; [lia|]. cbn [Unmarshal_loop].
  destruct (Z.ltb_spec i (len d)); [lia|].
  destruct (Z.ltb_spec (len d) i); [lia|]. reflexivity.
Qed.

Lemma decodes_to_step {M} (field : M -> Z -> Z -> list byte -> Z -> Z -> result (M * Z))
  d final i m fieldNum wireType i1 m' i' :
  i < len d -> i < i' ->
  read_tag d i = Ok (fieldNum, wireType, i1) ->
  field m fieldNum wireType d i i1 = Ok (m', i') ->
  decodes_to field d final i' m' ->
  decodes_to field d final i m.
Proof.
  intros Hi Hi' Ht Hfield Hrest fuel Hf.
  destruct fuel as [|fuel]; [lia|]. cbn [Unmarshal_loop].
  destruct (Z.ltb_spec i (len d)); [|lia].
  cbv zeta. rewrite Ht. cbn [bind]. rewrite Hfield. cbn [bind].
  apply Hrest. lia.
Qed.

Lemma Unmarshal_with_decodes {M}
  (field : M -> Z -> Z -> list byte -> Z -> Z -> result (M * Z)) d final m :
  decodes_to field d final 0 m -> Unmarshal_with field m d = Ok final.
Proof.
  intros H. apply H. unfold len. lia.
Qed.

(** A present field, from the tag on: [body] is what the case of the
    switch computes. *)
Lemma decodes_to_field {M} (field : M -> Z -> Z -> list byte -> Z -> Z -> result (M * Z))
  d final i m tag rest fieldNum wireType m' i' :
  at_index d i (tag :: rest) ->
  tag_of tag = Some (fieldNum, wireType) ->
  i < i' ->
  field m fieldNum wireType d i (i + 1) = Ok (m', i') ->
  decodes_to field d final i' m' ->
  decodes_to field d final i m.
Proof.
  intros Hat Ht Hi' Hf Hrest.
  pose proof (at_index_len _ _ _ Hat) as [H0 Hl]. rewrite len_cons in Hl.
  apply decodes_to_step with (fieldNum := fieldNum) (wireType := wireType)
                             (i1 := i + 1) (m' := m') (i' := i'); try assumption.
  - len_pos. lia.
  - now apply read_tag_const with (b := tag) (post := rest).
Qed.

(** ** The four kinds of fields, for any message

    [field] is the switch of the message; the first hypothesis of each
    lemma is the case of the switch that the tag selects. *)

Section Steps.
Context {M : Type}.
Variable field : M -> Z -> Z -> list byte -> Z -> Z -> result (M * Z).
Variables (d : list byte) (final : M).

Lemma step_opt (c : bool) chunk i m m' :
  (c = true -> decodes_to field d final (i + len chunk) m' ->
   decodes_to field d final i m) ->
  (c = false -> m' = m) ->
  decodes_to field d final (i + len (opt c chunk)) m' ->
  decodes_to field d final i m.
Proof.
  destruct c; cbn [opt]; intros Hp Ha Hrest.
  - now apply Hp.
  - change (len (@nil byte)) with 0 in Hrest. rewrite Z.add_0_r in Hrest.
    now rewrite <- Ha.
Qed.

Lemma step_varint conv tag fieldNum (set : M -> Z -> M) i m v post :
  (forall m j,
      field m fieldNum 0 d i j
      = ('(v, j) <- read_varint conv d j ;; Ok (set m v, j))) ->
  tag_of tag = Some (fieldNum, 0) ->
  bits_conv conv -> conv (uint64 v) = v ->
  at_index d i (field_varint tag (uint64 v) ++ post) ->
  decodes_to field d final (i + len (field_varint tag (uint64 v))) (set m v) ->
  decodes_to field d final i m.
Proof.
  intros Hfield Htag Hc Hv Hat Hrest.
  unfold field_varint in *. cbn [app] in Hat.
  pose proof (at_index_cons _ _ _ _ Hat) as Hat1.
  apply decodes_to_field with (tag := tag) (rest := varint (uint64 v) ++ post)
    (fieldNum := fieldNum) (wireType := 0) (m' := set m v)
    (i' := i + len (tag :: varint (uint64 v))); try assumption.
  - rewrite len_cons. len_pos. lia.
  - rewrite Hfield.
    rewrite (read_varint_at conv d (i + 1) (uint64 v) post Hc (uint64_range v) Hat1).
    cbn [bind]. rewrite Hv, len_cons. apply Ok_pair_eq; [reflexivity | lia].
Qed.

Lemma step_fixed64 tag fieldNum (set : M -> Z -> M) i m v post :
  (forall m j,
      field m fieldNum 1 d i j
      = ('(v, j) <- read_fixed64 d j ;; Ok (set m v, j))) ->
  tag_of tag = Some (fieldNum, 1) ->
  is_int64 v ->
  at_index d i (field_fixed64 tag v ++ post) ->
  decodes_to field d final (i + len (field_fixed64 tag v)) (set m v) ->
  decodes_to field d final i m.
Proof.
  intros Hfield Htag Hv Hat Hrest.
  rewrite len_field_fixed64 in Hrest.
  unfold field_fixed64 in *. cbn [app] in Hat.
  pose proof (at_index_cons _ _ _ _ Hat) as Hat1.
  apply decodes_to_field with (tag := tag) (rest := le_split 8 (uint64 v) ++ post)
    (fieldNum := fieldNum) (wireType := 1) (m' := set m v) (i' := i + 9);
    try assumption.
  - lia.
  - rewrite Hfield, (read_fixed64_at d (i + 1) v post Hv Hat1).
    cbn [bind]. apply Ok_pair_eq; [reflexivity | lia].
Qed.

Lemma step_delimited {X} conv toInt tag fieldNum
  (dec : M -> list byte -> result X) (set : M -> X -> M) i m bs x post :
  (forall m j,
      field m fieldNum 2 d i j
      = ('(j, postIndex) <- read_length conv toInt d j ;;
         sub <- slice d j postIndex ;;
         x <- dec m sub ;;
         Ok (set m x, postIndex))) ->
  tag_of tag = Some (fieldNum, 2) ->
  bits_conv conv -> (forall L, 0 <= L <= MaxInt64 -> toInt (conv (uint64 L)) = L) ->
  len d <= MaxInt64 ->
  dec m bs = Ok x ->
  at_index d i (field_bytes tag bs ++ post) ->
  decodes_to field d final (i + len (field_bytes tag bs)) (set m x) ->
  decodes_to field d final i m.
Proof.
  intros Hfield Htag Hc Hconv Hd Hdec Hat Hrest.
  unfold field_bytes in *. cbn [app] in Hat. rewrite <- app_assoc in Hat.
  pose proof (at_index_cons _ _ _ _ Hat) as Hat1.
  pose proof (at_index_len _ _ _ Hat) as [Hi0 Hl].
  assert (HL : 0 <= len bs <= MaxInt64).
  { rewrite len_cons, !len_app in Hl. len_pos. lia. }
  destruct (read_bytes_at conv toInt d (i + 1) bs post Hc (Hconv _ HL) Hd Hat1)
    as (Hrl & Hsl).
  apply decodes_to_field with (tag := tag)
    (rest := varint (uint64 (len bs)) ++ bs ++ post)
    (fieldNum := fieldNum) (wireType := 2) (m' := set m x)
    (i' := i + len (tag :: varint (uint64 (len bs)) ++ bs)); try assumption.
  - rewrite len_cons. len_pos. lia.
  - rewrite Hfield, Hrl. cbn [bind]. rewrite Hsl. cbn [bind]. rewrite Hdec. cbn [bind].
    rewrite len_cons, len_app. apply Ok_pair_eq; [reflexivity | lia].
Qed.

End Steps.

Lemma len_zero_nil {A} (s : list A) : len s <= 0 -> s = [].
Proof. destruct s; [reflexivity|]. rewrite len_cons. pose proof (len_nonneg s). lia. Qed.

(** ** Round trip of the part-set header and of the block id *)

Lemma CanonicalPartSetHeader_roundtrip m :
  wf_PartSetHeader m -> len (wire_PartSetHeader m) <= MaxInt64 ->
  CanonicalPartSetHeader_Unmarshal CanonicalPartSetHeader_zero (wire_PartSetHeader m) = Ok m.
Proof.
  intros Hwf Hlen. destruct m as [total hash]. unfold wf_PartSetHeader in Hwf.
  cbn [psh_Total psh_Hash] in *.
  apply Unmarshal_with_decodes.
  set (d := wire_PartSetHeader _) in *.
  pose proof (at_index_start d) as H0. unfold d at 2 in H0. unfold wire_PartSetHeader in H0.
  cbn [psh_Total psh_Hash] in H0.
  pose proof (at_index_app _ _ _ _ H0) as H1.
  rewrite <- (app_nil_r (opt (0 <? len hash) _)) in H1.
  pose proof (at_index_app _ _ _ _ H1) as H2.
  (* total *)
  apply step_opt with (m' := {| psh_Total := total; psh_Hash := [] |})
                      (c := negb (total =? 0))
                      (chunk := field_varint Byte.x08 (uint64 total)).
  - intros Hc Hrest. rewrite Hc in H0. cbn [opt] in H0.
    apply step_varint with (conv := uint32) (tag := Byte.x08) (fieldNum := 1)
      (set := fun m v => {| psh_Total := v; psh_Hash := psh_Hash m |}) (v := total)
      (post := opt (0 <? len hash) (field_bytes Byte.x12 hash));
      try assumption; try reflexivity;
      [apply bits_conv_uint32 | now rewrite uint32_uint64, uint32_small].
  - intros Hc. apply negb_false_iff, Z.eqb_eq in Hc. now subst.
  - (* hash *)
    apply step_opt with (m' := {| psh_Total := total; psh_Hash := hash |})
                        (c := 0 <? len hash) (chunk := field_bytes Byte.x12 hash).
    + intros Hc Hrest. rewrite Hc in H1. cbn [opt] in H1.
      apply step_delimited with (conv := int) (toInt := fun z => z) (tag := Byte.x12)
        (fieldNum := 2) (dec := fun (_ : CanonicalPartSetHeader) sub => Ok sub)
        (set := fun m bs => {| psh_Total := psh_Total m; psh_Hash := bs |})
        (bs := hash) (x := hash) (post := []);
        try assumption; try reflexivity;
        [apply bits_conv_int | apply int_uint64_len].
    + intros Hc. apply Z.ltb_ge in Hc. now rewrite (len_zero_nil hash Hc).
    + apply decodes_to_end. exact H2.
Qed.

Lemma CanonicalBlockID_roundtrip m :
  wf_BlockID m -> len (wire_BlockID m) <= MaxInt64 ->
  CanonicalBlockID_Unmarshal CanonicalBlockID_zero (wire_BlockID m) = Ok m.
Proof.
  intros Hwf Hlen. destruct m as [hash psh]. unfold wf_BlockID in Hwf.
  cbn [bid_Hash bid_PartSetHeader] in *.
  apply Unmarshal_with_decodes.
  set (d := wire_BlockID _) in *.
  pose proof (at_index_start d) as H0. unfold d at 2 in H0. unfold wire_BlockID in H0.
  cbn [bid_Hash bid_PartSetHeader] in H0.
  pose proof (at_index_app _ _ _ _ H0) as H1.
  rewrite <- (app_nil_r (field_bytes Byte.x12 _)) in H1.
  pose proof (at_index_app _ _ _ _ H1) as H2.
  assert (Hpsh : len (wire_PartSetHeader psh) <= MaxInt64).
  { apply at_index_len in H1. unfold field_bytes in H1.
    rewrite !len_app, len_cons, len_app in H1. len_pos. lia. }
  apply step_opt with (m' := {| bid_Hash := hash; bid_PartSetHeader := CanonicalPartSetHeader_zero |})
                      (c := 0 <? len hash) (chunk := field_bytes Byte.x0a hash).
  - intros Hc Hrest. rewrite Hc in H0. cbn [opt] in H0.
    apply step_delimited with (conv := int) (toInt := fun z => z) (tag := Byte.x0a)
      (fieldNum := 1) (dec := fun (_ : CanonicalBlockID) sub => Ok sub)
      (set := fun m bs => {| bid_Hash := bs; bid_PartSetHeader := bid_PartSetHeader m |})
      (bs := hash) (x := hash) (post := field_bytes Byte.x12 (wire_PartSetHeader psh));
      try assumption; try reflexivity;
      [apply bits_conv_int | apply int_uint64_len].
  - intros Hc. apply Z.ltb_ge in Hc. now rewrite (len_zero_nil hash Hc).
  - apply step_delimited with (conv := int) (toInt := fun z => z) (tag := Byte.x12)
      (fieldNum := 2)
      (dec := fun (m : CanonicalBlockID) sub =>
                CanonicalPartSetHeader_Unmarshal (bid_PartSetHeader m) sub)
      (set := fun m h => {| bid_Hash := bid_Hash m; bid_PartSetHeader := h |})
      (bs := wire_PartSetHeader psh) (x := psh) (post := []);
      try assumption; try reflexivity;
      [apply bits_conv_int | apply int_uint64_len
      | now apply CanonicalPartSetHeader_roundtrip | ].
    apply decodes_to_end. exact H2.
Qed.

Lemma unmarshal_BlockID_roundtrip b :
  wf_BlockID b -> len (wire_BlockID b) <= MaxInt64 ->
  unmarshal_BlockID None (wire_BlockID b) = Ok (Some b).
Proof.
  intros Hwf Hlen. unfold unmarshal_BlockID.
  now rewrite CanonicalBlockID_roundtrip.
Qed.

(** ** Round trip of the proposal and of the vote *)

Lemma step_field_BlockID {M} (field : M -> Z -> Z -> list byte -> Z -> Z -> result (M * Z))
  d final tag fieldNum (get : M -> option CanonicalBlockID)
  (set : M -> option CanonicalBlockID -> M) i m b post :
  (forall m j,
      field m fieldNum 2 d i j
      = ('(j, postIndex) <- read_length int (fun z => z) d j ;;
         sub <- slice d j postIndex ;;
         x <- unmarshal_BlockID (get m) sub ;;
         Ok (set m x, postIndex))) ->
  tag_of tag = Some (fieldNum, 2) ->
  len d <= MaxInt64 ->
  get m = None -> set m None = m -> wf_option_BlockID b ->
  at_index d i (field_BlockID tag b ++ post) ->
  decodes_to field d final (i + len (field_BlockID tag b)) (set m b) ->
  decodes_to field d final i m.
Proof.
  intros Hfield Htag Hd Hget Hset Hwf Hat Hrest.
  destruct b as [b|]; cbn [field_BlockID wf_option_BlockID] in *.
  - assert (Hb : len (wire_BlockID b) <= MaxInt64).
    { apply at_index_len in Hat. unfold field_bytes in Hat.
      rewrite !len_app, len_cons, len_app in Hat. len_pos. lia. }
    apply step_delimited with (conv := int) (toInt := fun z => z) (tag := tag)
      (fieldNum := fieldNum) (dec := fun m sub => unmarshal_BlockID (get m) sub)
      (set := set) (bs := wire_BlockID b) (x := Some b) (post := post);
      try assumption; [apply bits_conv_int | apply int_uint64_len |].
    rewrite Hget. now apply unmarshal_BlockID_roundtrip.
  - change (len (@nil byte)) with 0 in Hrest. rewrite Z.add_0_r, Hset in Hrest.
    exact Hrest.
Qed.

Lemma step_field_VoteExtension {M}
  (field : M -> Z -> Z -> list byte -> Z -> Z -> result (M * Z))
  d final tag fieldNum (get : M -> option VoteExtensionToSign)
  (set : M -> option VoteExtensionToSign -> M) i m e post :
  (forall m j,
      field m fieldNum 2 d i j
      = ('(j, postIndex) <- read_length int (fun z => z) d j ;;
         sub <- slice d j postIndex ;;
         x <- unmarshal_VoteExtension (get m) sub ;;
         Ok (set m x, postIndex))) ->
  tag_of tag = Some (fieldNum, 2) ->
  len d <= MaxInt64 ->
  get m = None -> set m None = m ->
  (forall e', e = Some e' ->
              VoteExtensionToSign_Unmarshal VoteExtensionToSign_zero
                (VoteExtensionToSign_bytes e') = Ok e') ->
  at_index d i (field_VoteExtension tag e ++ post) ->
  decodes_to field d final (i + len (field_VoteExtension tag e)) (set m e) ->
  decodes_to field d final i m.
Proof.
  intros Hfield Htag Hd Hget Hset Hrt Hat Hrest.
  destruct e as [e|]; cbn [field_VoteExtension] in *.
  - apply step_delimited with (conv := int) (toInt := fun z => z) (tag := tag)
      (fieldNum := fieldNum) (dec := fun m sub => unmarshal_VoteExtension (get m) sub)
      (set := set) (bs := VoteExtensionToSign_bytes e) (x := Some e) (post := post);
      try assumption; [apply bits_conv_int | apply int_uint64_len |].
    rewrite Hget. unfold unmarshal_VoteExtension. now rewrite (Hrt e eq_refl).
  - change (len (@nil byte)) with 0 in Hrest. rewrite Z.add_0_r, Hset in Hrest.
    exact Hrest.
Qed.

Ltac absent_varint Hc := apply negb_false_iff, Z.eqb_eq in Hc; subst; reflexivity.
Ltac absent_bytes Hc s :=
  apply Z.ltb_ge in Hc; rewrite (len_zero_nil s Hc); reflexivity.

Lemma CanonicalProposal_roundtrip m ts :
  wf_Proposal m ->
  StdTimeBytes (prop_Timestamp m) = Ok ts ->
  StdTimeUnmarshal ts = Ok (prop_Timestamp m) ->
  len (wire_Proposal m ts) <= MaxInt64 ->
  CanonicalProposal_Unmarshal CanonicalProposal_zero (wire_Proposal m ts) = Ok m.
Proof.
  intros Hwf Hts Hrt Hlen.
  destruct m as [type height round pol bid time chain].
  destruct Hwf as (Hty & Hh & Hr & Hp & Hb). cbn [prop_Type prop_Height prop_Round
    prop_POLRound prop_BlockID prop_Timestamp prop_ChainID] in *.
  apply Unmarshal_with_decodes.
  set (d := wire_Proposal _ _) in *.
  pose proof (at_index_start d) as H0. unfold d at 2 in H0. unfold wire_Proposal in H0.
  cbn [prop_Type prop_Height prop_Round prop_POLRound prop_BlockID prop_Timestamp
       prop_ChainID] in H0.
  pose proof (at_index_app _ _ _ _ H0) as H1.
  pose proof (at_index_app _ _ _ _ H1) as H2.
  pose proof (at_index_app _ _ _ _ H2) as H3.
  pose proof (at_index_app _ _ _ _ H3) as H4.
  pose proof (at_index_app _ _ _ _ H4) as H5.
  pose proof (at_index_app _ _ _ _ H5) as H6.
  rewrite <- (app_nil_r (opt (0 <? len chain) _)) in H6.
  pose proof (at_index_app _ _ _ _ H6) as H7.
  (* type *)
  eapply step_opt with (c := negb (type =? 0));
    [ intros Hc Hrest; rewrite Hc in H0; cbn [opt] in H0;
      eapply step_varint with (conv := int32) (tag := Byte.x08) (fieldNum := 1) (set := with_prop_Type)
        (v := type);
      [ reflexivity | reflexivity | apply bits_conv_int32
      | now rewrite int32_uint64, int32_small | exact H0 | exact Hrest ]
    | intros Hc; absent_varint Hc | ].
  (* height *)
  eapply step_opt with (c := negb (height =? 0));
    [ intros Hc Hrest; rewrite Hc in H1; cbn [opt] in H1;
      eapply step_fixed64 with (tag := Byte.x11) (fieldNum := 2) (set := with_prop_Height) (v := height);
      [ reflexivity | reflexivity | exact Hh | exact H1 | exact Hrest ]
    | intros Hc; absent_varint Hc | ].
  (* round *)
  eapply step_opt with (c := negb (round =? 0));
    [ intros Hc Hrest; rewrite Hc in H2; cbn [opt] in H2;
      eapply step_fixed64 with (tag := Byte.x19) (fieldNum := 3) (set := with_prop_Round) (v := round);
      [ reflexivity | reflexivity | exact Hr | exact H2 | exact Hrest ]
    | intros Hc; absent_varint Hc | ].
  (* pol_round *)
  eapply step_opt with (c := negb (pol =? 0));
    [ intros Hc Hrest; rewrite Hc in H3; cbn [opt] in H3;
      eapply step_varint with (conv := int64) (tag := Byte.x20) (fieldNum := 4) (set := with_prop_POLRound)
        (v := pol);
      [ reflexivity | reflexivity | apply bits_conv_int64
      | now rewrite int64_uint64, int64_small | exact H3 | exact Hrest ]
    | intros Hc; absent_varint Hc | ].
  (* block_id *)
  eapply step_field_BlockID with (tag := Byte.x2a) (fieldNum := 5) (get := prop_BlockID)
    (set := with_prop_BlockID) (b := bid);
    [ reflexivity | reflexivity | exact Hlen | reflexivity | reflexivity | exact Hb
    | exact H4 | ].
  (* timestamp *)
  eapply step_delimited with (conv := int) (toInt := fun z => z) (tag := Byte.x32) (fieldNum := 6)
    (dec := fun (_ : CanonicalProposal) sub => StdTimeUnmarshal sub)
    (set := with_prop_Timestamp) (bs := ts) (x := time);
    [ reflexivity | reflexivity | apply bits_conv_int | apply int_uint64_len | exact Hlen
    | exact Hrt | exact H5 | ].
  (* chain_id *)
  eapply step_opt with (c := 0 <? len chain);
    [ intros Hc Hrest; rewrite Hc in H6; cbn [opt] in H6;
      eapply step_delimited with (conv := uint64) (toInt := int) (tag := Byte.x3a) (fieldNum := 7)
        (dec := fun (_ : CanonicalProposal) sub => Ok sub)
        (set := with_prop_ChainID) (bs := chain) (x := chain);
      [ reflexivity | reflexivity | apply bits_conv_uint64 | apply int_uint64_uint64_len
      | exact Hlen | reflexivity | exact H6 | exact Hrest ]
    | intros Hc; absent_bytes Hc chain | ].
  apply decodes_to_end. exact H7.
Qed.

Lemma CanonicalVote_roundtrip m ts :
  wf_Vote m ->
  StdTimeBytes (vote_Timestamp m) = Ok ts ->
  StdTimeUnmarshal ts = Ok (vote_Timestamp m) ->
  (forall e, vote_VoteExtension m = Some e ->
             VoteExtensionToSign_Unmarshal VoteExtensionToSign_zero
               (VoteExtensionToSign_bytes e) = Ok e) ->
  len (wire_Vote m ts) <= MaxInt64 ->
  CanonicalVote_Unmarshal CanonicalVote_zero (wire_Vote m ts) = Ok m.
Proof.
  intros Hwf Hts Hrt Hve Hlen.
  destruct m as [type height round bid time chain ext].
  destruct Hwf as (Hty & Hh & Hr & Hb). cbn [vote_Type vote_Height vote_Round
    vote_BlockID vote_Timestamp vote_ChainID vote_VoteExtension] in *.
  apply Unmarshal_with_decodes.
  set (d := wire_Vote _ _) in *.
  pose proof (at_index_start d) as H0. unfold d at 2 in H0. unfold wire_Vote in H0.
  cbn [vote_Type vote_Height vote_Round vote_BlockID vote_Timestamp vote_ChainID
       vote_VoteExtension] in H0.
  pose proof (at_index_app _ _ _ _ H0) as H1.
  pose proof (at_index_app _ _ _ _ H1) as H2.
  pose proof (at_index_app _ _ _ _ H2) as H3.
  pose proof (at_index_app _ _ _ _ H3) as H4.
  pose proof (at_index_app _ _ _ _ H4) as H5.
  pose proof (at_index_app _ _ _ _ H5) as H6.
  rewrite <- (app_nil_r (field_VoteExtension _ _)) in H6.
  pose proof (at_index_app _ _ _ _ H6) as H7.
  (* type *)
  eapply step_opt with (c := negb (type =? 0));
    [ intros Hc Hrest; rewrite Hc in H0; cbn [opt] in H0;
      eapply step_varint with (conv := int32) (tag := Byte.x08) (fieldNum := 1)
        (set := with_vote_Type) (v := type);
      [ reflexivity | reflexivity | apply bits_conv_int32
      | now rewrite int32_uint64, int32_small | exact H0 | exact Hrest ]
    | intros Hc; absent_varint Hc | ].
  (* height *)
  eapply step_opt with (c := negb (height =? 0));
    [ intros Hc Hrest; rewrite Hc in H1; cbn [opt] in H1;
      eapply step_fixed64 with (tag := Byte.x11) (fieldNum := 2)
        (set := with_vote_Height) (v := height);
      [ reflexivity | reflexivity | exact Hh | exact H1 | exact Hrest ]
    | intros Hc; absent_varint Hc | ].
  (* round *)
  eapply step_opt with (c := negb (round =? 0));
    [ intros Hc Hrest; rewrite Hc in H2; cbn [opt] in H2;
      eapply step_fixed64 with (tag := Byte.x19) (fieldNum := 3)
        (set := with_vote_Round) (v := round);
      [ reflexivity | reflexivity | exact Hr | exact H2 | exact Hrest ]
    | intros Hc; absent_varint Hc | ].
  (* block_id *)
  eapply step_field_BlockID with (tag := Byte.x22) (fieldNum := 4) (get := vote_BlockID)
    (set := with_vote_BlockID) (b := bid);
    [ reflexivity | reflexivity | exact Hlen | reflexivity | reflexivity | exact Hb
    | exact H3 | ].
  (* timestamp *)
  eapply step_delimited with (conv := int) (toInt := fun z => z) (tag := Byte.x2a)
    (fieldNum := 5) (dec := fun (_ : CanonicalVote) sub => StdTimeUnmarshal sub)
    (set := with_vote_Timestamp) (bs := ts) (x := time);
    [ reflexivity | reflexivity | apply bits_conv_int | apply int_uint64_len | exact Hlen
    | exact Hrt | exact H4 | ].
  (* chain_id *)
  eapply step_opt with (c := 0 <? len chain);
    [ intros Hc Hrest; rewrite Hc in H5; cbn [opt] in H5;
      eapply step_delimited with (conv := uint64) (toInt := int) (tag := Byte.x32)
        (fieldNum := 6) (dec := fun (_ : CanonicalVote) sub => Ok sub)
        (set := with_vote_ChainID) (bs := chain) (x := chain);
      [ reflexivity | reflexivity | apply bits_conv_uint64 | apply int_uint64_uint64_len
      | exact Hlen | reflexivity | exact H5 | exact Hrest ]
    | intros Hc; absent_bytes Hc chain | ].
  (* vote_extension *)
  eapply step_field_VoteExtension with (tag := Byte.x3a) (fieldNum := 7)
    (get := vote_VoteExtension) (set := with_vote_VoteExtension) (e := ext);
    [ reflexivity | reflexivity | exact Hlen | reflexivity | reflexivity | exact Hve
    | exact H6 | ].
  apply decodes_to_end. exact H7.
Qed.

(** ** Varints that overflow or end too early *)

Lemma skip_varint_loop_varint_loop d fuel shift acc i :
  skip_varint_loop d fuel shift i
  = index_result (varint_loop (fun z => z) d fuel shift acc i).
Proof.
  revert shift acc i. induction fuel as [|fuel IH]; intros shift acc i; [reflexivity|].
  cbn [skip_varint_loop varint_loop].
  destruct (64 <=? shift); [reflexivity|].
  destruct (len d <=? i); [reflexivity|].
  replace (i + 1 - 1) with i by lia.
  destruct (index d i) as [b| | |]; cbn [bind]; try reflexivity.
  destruct (byte.unsigned b <? 128); [reflexivity|].
  apply IH.
Qed.

Lemma varint_loop_overflow conv d conts :
  forall fuel shift acc i rest,
    forallb continues conts = true ->
    64 <= shift + 7 * len conts -> (length conts < fuel)%nat ->
    at_index d i (conts ++ rest) ->
    varint_loop conv d fuel shift acc i = Err ErrIntOverflowCanonical.
Proof.
  induction conts as [|b conts IH]; intros fuel shift acc i rest Hc Hs Hf Hat;
    (destruct fuel as [|fuel]; [cbn [length] in Hf; lia|]); cbn [varint_loop].
  - change (len (@nil byte)) with 0 in Hs.
    destruct (Z.leb_spec 64 shift); [reflexivity | lia].
  - destruct (Z.leb_spec 64 shift); [reflexivity|].
    cbn [forallb] in Hc. apply andb_true_iff in Hc. destruct Hc as [Hb Hc].
    cbn [app] in Hat. pose proof (at_index_len _ _ _ Hat) as [Hi Hl].
    rewrite len_cons in Hl. len_pos.
    destruct (Z.leb_spec (len d) i); [lia|].
    rewrite (index_at _ _ _ _ Hat). cbn [bind].
    unfold continues in Hb. apply Z.leb_le in Hb.
    destruct (Z.ltb_spec (byte.unsigned b) 128); [lia|].
    apply IH with (rest := rest); try assumption.
    + rewrite len_cons in Hs. lia.
    + cbn [length] in Hf. lia.
    + now apply at_index_cons in Hat.
Qed.

Lemma varint_loop_truncated conv d conts :
  forall fuel shift acc i,
    forallb continues conts = true ->
    shift + 7 * len conts < 64 -> (length conts < fuel)%nat ->
    at_index d i conts ->
    varint_loop conv d fuel shift acc i = Err ErrUnexpectedEOF.
Proof.
  induction conts as [|b conts IH]; intros fuel shift acc i Hc Hs Hf Hat;
    (destruct fuel as [|fuel]; [cbn [length] in Hf; lia|]); cbn [varint_loop];
    pose proof (at_index_len _ _ _ Hat) as [Hi Hl].
  - change (len (@nil byte)) with 0 in *.
    destruct (Z.leb_spec 64 shift); [lia|].
    destruct (Z.leb_spec (len d) i); [reflexivity | lia].
  - rewrite len_cons in *. len_pos.
    destruct (Z.leb_spec 64 shift); [lia|].
    cbn [forallb] in Hc. apply andb_true_iff in Hc. destruct Hc as [Hb Hc].
    destruct (Z.leb_spec (len d) i); [lia|].
    rewrite (index_at _ _ _ _ Hat). cbn [bind].
    unfold continues in Hb. apply Z.leb_le in Hb.
    destruct (Z.ltb_spec (byte.unsigned b) 128); [lia|].
    apply IH; try assumption.
    + lia.
    + cbn [length] in Hf. lia.
    + now apply at_index_cons in Hat.
Qed.

Lemma read_varint_overflow conv d i conts rest :
  length conts = 10%nat -> forallb continues conts = true ->
  at_index d i (conts ++ rest) ->
  read_varint conv d i = Err ErrIntOverflowCanonical.
Proof.
  intros Hn Hc Hat. unfold read_varint.
  apply varint_loop_overflow with (conts := conts) (rest := rest); try assumption.
  - unfold len. lia.
  - lia.
Qed.

Lemma read_varint_truncated conv d i conts :
  (length conts < 10)%nat -> forallb continues conts = true ->
  at_index d i conts ->
  read_varint conv d i = Err ErrUnexpectedEOF.
Proof.
  intros Hn Hc Hat. unfold read_varint.
  apply varint_loop_truncated with (conts := conts); try assumption.
  - unfold len. lia.
  - lia.
Qed.

(** A decoder whose first tag is such a varint. *)

Lemma Unmarshal_with_tag_error {M}
  (field : M -> Z -> Z -> list byte -> Z -> Z -> result (M * Z)) m d e :
  d <> [] -> read_varint uint64 d 0 = Err e -> Unmarshal_with field m d = Err e.
Proof.
  intros Hd Hr. unfold Unmarshal_with. cbn [Unmarshal_loop].
  destruct (Z.ltb_spec 0 (len d)) as [_|H].
  - cbv zeta. unfold read_tag. rewrite Hr. reflexivity.
  - apply len_zero_nil in H. contradiction.
Qed.

Lemma skipCanonical_tag_error d e :
  d <> [] -> read_varint uint64 d 0 = Err e -> skipCanonical d = Err e.
Proof.
  intros Hd Hr. unfold skipCanonical. cbn [skip_loop].
  destruct (Z.ltb_spec 0 (len d)) as [_|H].
  - rewrite Hr. reflexivity.
  - apply len_zero_nil in H. contradiction.
Qed.

(** ** The skipper, one round at a time *)

Lemma skip_loop_round fuel d i depth wire i1 :
  i < len d -> read_varint uint64 d i = Ok (wire, i1) ->
  skip_loop (S fuel) d i depth
  = ('(j, depth') <- skip_field d (int (Z.land wire 0x7)) i1 depth ;;
     if j <? 0 then Err ErrInvalidLengthCanonical
     else if depth' =? 0 then Ok j
     else skip_loop fuel d j depth').
Proof.
  intros Hi Hr. cbn [skip_loop].
  destruct (Z.ltb_spec i (len d)); [|lia].
  rewrite Hr. reflexivity.
Qed.


Lemma len_varint_pos v : 0 <= v < 2 ^ 64 -> 1 <= len (varint v).
Proof. intros H. rewrite len_varint by exact H. apply sovCanonical_pos. lia. Qed.

Lemma len_varint_le v : 0 <= v < 2 ^ 64 -> len (varint v) <= 10.
Proof.
  intros H. rewrite len_varint by exact H. rewrite sovCanonical_log2 by lia.
  assert (Z.log2 v < 64).
  { destruct (Z.eq_dec v 0) as [->|]; [cbn; lia|]. apply Z.log2_lt_pow2; lia. }
  apply Z.div_le_upper_bound; lia.
Qed.


Lemma land7_range w : 0 <= Z.land w 7 < 8.
Proof.
  change 7 with (Z.ones 3). rewrite Z.land_ones by lia. apply Z.mod_pos_bound. lia.
Qed.

Lemma int_land7 w : int (Z.land w 7) = Z.land w 7.
Proof.
  pose proof (land7_range w). apply int_small.
  unfold is_int64, MinInt64, MaxInt64. lia.
Qed.

Lemma skip_loop_tagged fuel d i depth wire rest :
  0 <= wire < 2 ^ 64 -> at_index d i (varint wire ++ rest) ->
  skip_loop (S fuel) d i depth
  = ('(j, depth') <- skip_field d (Z.land wire 0x7) (i + len (varint wire)) depth ;;
     if j <? 0 then Err ErrInvalidLengthCanonical
     else if depth' =? 0 then Ok j
     else skip_loop fuel d j depth').
Proof.
  intros Hw Hat. pose proof (at_index_len _ _ _ Hat) as [Hi Hl].
  rewrite len_app in Hl. pose proof (len_varint_pos wire Hw). len_pos.
  rewrite (skip_loop_round fuel d i depth wire (i + len (varint wire))).
  - now rewrite int_land7.
  - lia.
  - rewrite (read_varint_at uint64 d i wire rest bits_conv_uint64 Hw Hat).
    now rewrite uint64_small.
Qed.

Lemma skip_varint_at d i v post :
  0 <= v < 2 ^ 64 -> at_index d i (varint v ++ post) ->
  skip_varint_loop d 11 0 i = Ok (i + len (varint v)).
Proof.
  intros Hv Hat. rewrite (skip_varint_loop_varint_loop d 11 0 0 i).
  change (varint_loop (fun z => z) d 11 0 0 i) with (read_varint (fun z => z) d i).
  now rewrite (read_varint_at (fun z => z) d i v post bits_conv_id Hv Hat).
Qed.

(** Wire type 2, the length within the range of [int]. *)
Lemma skip_field_delimited d i L rest depth :
  0 <= L -> i + len (varint L) + L <= MaxInt64 ->
  at_index d i (varint L ++ rest) ->
  skip_field d 2 i depth = Ok (i + len (varint L) + L, depth).
Proof.
  intros HL Hmax Hat. pose proof (at_index_len _ _ _ Hat) as [Hi _]. len_pos.
  unfold MaxInt64 in Hmax.
  assert (Hv : 0 <= L < 2 ^ 64) by lia.
  cbn [skip_field].
  rewrite (read_varint_at int d i L rest bits_conv_int Hv Hat). cbn [bind].
  rewrite !int_small by (unfold is_int64, MinInt64, MaxInt64; lia).
  destruct (Z.ltb_spec L 0); [lia | reflexivity].
Qed.

(** ** An unknown field longer than the buffer *)

Lemma tag_value_plus fieldNum wireType :
  0 <= wireType < 8 -> tag_value fieldNum wireType = 8 * fieldNum + wireType.
Proof.
  intros Hw. unfold tag_value.
  assert (E : wireType = Z.land wireType (Z.ones 3))
    by (rewrite Z.land_ones, Z.mod_small; lia).
  rewrite Z.or_to_plus.
  - rewrite Z.shiftl_mul_pow2 by lia. lia.
  - rewrite E. Z.bitblast.
    match goal with
    | |- context [Z.testbit fieldNum ?l] => rewrite (Z.testbit_neg_r fieldNum l) by lia
    end.
    reflexivity.
Qed.

Lemma tag_value_parts fieldNum wireType :
  0 <= wireType < 8 ->
  Z.land (tag_value fieldNum wireType) 7 = wireType
  /\ Z.shiftr (tag_value fieldNum wireType) 3 = fieldNum.
Proof.
  intros Hw. rewrite tag_value_plus by exact Hw. split.
  - change 7 with (Z.ones 3). rewrite Z.land_ones by lia.
    rewrite Z.add_comm, Z.mul_comm, Z.mod_add by lia. apply Z.mod_small. lia.
  - rewrite Z.shiftr_div_pow2 by lia. change (2 ^ 3) with 8.
    rewrite Z.add_comm, Z.mul_comm, Z.div_add by lia.
    rewrite Z.div_small by lia. lia.
Qed.

Lemma read_tag_unknown d i fieldNum rest :
  1 <= fieldNum <= 2 ^ 31 - 1 ->
  at_index d i (varint (tag_value fieldNum 2) ++ rest) ->
  read_tag d i = Ok (fieldNum, 2, i + len (varint (tag_value fieldNum 2))).
Proof.
  intros Hf Hat.
  destruct (tag_value_parts fieldNum 2 ltac:(lia)) as [Hland Hshr].
  assert (Hw : 0 <= tag_value fieldNum 2 < 2 ^ 64)
    by (rewrite tag_value_plus by lia; lia).
  unfold read_tag.
  rewrite (read_varint_at uint64 d i _ rest bits_conv_uint64 Hw Hat). cbn [bind].
  rewrite uint64_small by exact Hw. rewrite Hland, Hshr.
  rewrite int32_small by (unfold is_int32; lia).
  change (int 2 =? 4) with false. cbv iota.
  destruct (Z.leb_spec fieldNum 0); [lia | reflexivity].
Qed.

Lemma skip_unknown_truncated d i fieldNum L rest :
  1 <= fieldNum <= 2 ^ 31 - 1 -> 0 <= L ->
  i + len (varint (tag_value fieldNum 2)) + len (varint L) + L <= MaxInt64 ->
  len rest < L ->
  at_index d i (varint (tag_value fieldNum 2) ++ varint L ++ rest) ->
  skip_unknown d i = Err ErrUnexpectedEOF.
Proof.
  intros Hf HL Hmax Hrest Hat.
  destruct (tag_value_parts fieldNum 2 ltac:(lia)) as [Hland _].
  assert (Hw : 0 <= tag_value fieldNum 2 < 2 ^ 64)
    by (rewrite tag_value_plus by lia; lia).
  pose proof (at_index_len _ _ _ Hat) as [Hi Hl]. rewrite !len_app in Hl.
  pose proof (len_varint_pos _ Hw). len_pos.
  unfold skip_unknown. cbv zeta. rewrite (slice_from_at _ _ _ Hat). cbn [bind].
  set (s := varint (tag_value fieldNum 2) ++ varint L ++ rest).
  assert (Hs : skipCanonical s
               = Ok (len (varint (tag_value fieldNum 2)) + len (varint L) + L)).
  { unfold skipCanonical.
    rewrite (skip_loop_tagged _ s 0 0 _ (varint L ++ rest) Hw (at_index_start s)).
    rewrite Hland.
    rewrite (skip_field_delimited s _ L rest 0);
      [| lia | lia | apply (at_index_app s 0 _ _ (at_index_start s)) ].
    cbn [bind].
    destruct (Z.ltb_spec (0 + len (varint (tag_value fieldNum 2)) + len (varint L) + L) 0);
      [lia|].
    cbn [Z.eqb]. do 2 f_equal. }
  rewrite Hs. cbn [bind]. unfold MaxInt64 in Hmax.
  set (k := len (varint (tag_value fieldNum 2)) + len (varint L) + L) in *.
  rewrite !int_small by (unfold is_int64, MinInt64, MaxInt64; lia).
  destruct (Z.ltb_spec k 0); [lia|].
  destruct (Z.ltb_spec (i + k) 0); [lia|]. cbn [orb].
  destruct (Z.ltb_spec (len d) (i + k)); [reflexivity | lia].
Qed.

Lemma Unmarshal_loop_unknown_truncated {M}
  (field : M -> Z -> Z -> list byte -> Z -> Z -> result (M * Z))
  fuel d m i fieldNum L rest :
  (forall m j, field m fieldNum 2 d i j = field_default m d i) ->
  1 <= fieldNum <= 2 ^ 31 - 1 -> 0 <= L ->
  i + len (varint (tag_value fieldNum 2)) + len (varint L) + L <= MaxInt64 ->
  len rest < L ->
  at_index d i (varint (tag_value fieldNum 2) ++ varint L ++ rest) ->
  Unmarshal_loop field (S fuel) d m i = Err ErrUnexpectedEOF.
Proof.
  intros Hdef Hf HL Hmax Hrest Hat.
  pose proof (at_index_len _ _ _ Hat) as [Hi Hl]. rewrite len_app in Hl.
  assert (Hw : 0 <= tag_value fieldNum 2 < 2 ^ 64)
    by (rewrite tag_value_plus by lia; lia).
  pose proof (len_varint_pos _ Hw). len_pos.
  cbn [Unmarshal_loop]. destruct (Z.ltb_spec i (len d)); [|lia]. cbv zeta.
  rewrite (read_tag_unknown d i fieldNum _ Hf Hat). cbn [bind].
  rewrite Hdef. unfold field_default.
  now rewrite (skip_unknown_truncated d i fieldNum L rest).
Qed.

(** Field numbers that the switches send to their default case. *)

Lemma CanonicalPartSetHeader_field_default m fieldNum wireType d i j :
  3 <= fieldNum ->
  CanonicalPartSetHeader_field m fieldNum wireType d i j = field_default m d i.
Proof.
  intros H. destruct fieldNum as [|p|p]; try lia.
  destruct p as [[p|p|]|[p|p|]|]; try lia; reflexivity.
Qed.

Lemma CanonicalBlockID_field_default m fieldNum wireType d i j :
  3 <= fieldNum ->
  CanonicalBlockID_field m fieldNum wireType d i j = field_default m d i.
Proof.
  intros H. destruct fieldNum as [|p|p]; try lia.
  destruct p as [[p|p|]|[p|p|]|]; try lia; reflexivity.
Qed.

Lemma CanonicalProposal_field_default m fieldNum wireType d i j :
  8 <= fieldNum ->
  CanonicalProposal_field m fieldNum wireType d i j = field_default m d i.
Proof.
  intros H. destruct fieldNum as [|p|p]; try lia.
  destruct p as [[[p|p|]|[p|p|]|]|[[p|p|]|[p|p|]|]|]; try lia; reflexivity.
Qed.

Lemma CanonicalVote_field_default m fieldNum wireType d i j :
  8 <= fieldNum ->
  CanonicalVote_field m fieldNum wireType d i j = field_default m d i.
Proof.
  intros H. destruct fieldNum as [|p|p]; try lia.
  destruct p as [[[p|p|]|[p|p|]|]|[[p|p|]|[p|p|]|]|]; try lia; reflexivity.
Qed.

Lemma skipCanonical_one_field d wire rest j :
  0 <= wire < 2 ^ 64 -> at_index d 0 (varint wire ++ rest) ->
  skip_field d (Z.land wire 0x7) (len (varint wire)) 0 = Ok (j, 0) -> 0 <= j ->
  skipCanonical d = Ok j.
Proof.
  intros Hw Hat Hf Hj. unfold skipCanonical.
  rewrite (skip_loop_tagged _ d 0 0 wire rest Hw Hat), Z.add_0_l, Hf. cbn [bind].
  destruct (Z.ltb_spec j 0); [lia | reflexivity].
Qed.


(** * The properties of the specification *)

(** ** Encoding *)


(** C3. In the output of the encoders the timestamp of a proposal (tag 6,
    byte 0x32) and of a vote (tag 5, byte 0x2a) and the part-set header of
    a block id (tag 2, byte 0x12) stand without a condition, also when
    their payload is empty, while the type, height, round, pol_round and
    chain id, the total and hash of a part-set header and the hash of a
    block id are left out when zero or empty; an absent block id or vote
    extension is left out as well.  [ts] is the encoding of the
    timestamp. *)
Theorem always_and_conditionally_emitted_fields :
  (forall m : CanonicalPartSetHeader,
      CanonicalPartSetHeader_Marshal m
      = Ok (opt (negb (psh_Total m =? 0)) (field_varint Byte.x08 (uint64 (psh_Total m)))
            ++ opt (0 <? len (psh_Hash m)) (field_bytes Byte.x12 (psh_Hash m))))
  /\ (forall (m : CanonicalBlockID) h,
      CanonicalPartSetHeader_Marshal (bid_PartSetHeader m) = Ok h ->
      CanonicalBlockID_Marshal m
      = Ok (opt (0 <? len (bid_Hash m)) (field_bytes Byte.x0a (bid_Hash m))
            ++ Byte.x12 :: varint (uint64 (len h)) ++ h))
  /\ (forall (m : CanonicalProposal) ts,
      StdTimeBytes (prop_Timestamp m) = Ok ts ->
      CanonicalProposal_Marshal m
      = Ok (opt (negb (prop_Type m =? 0)) (field_varint Byte.x08 (uint64 (prop_Type m)))
            ++ opt (negb (prop_Height m =? 0)) (field_fixed64 Byte.x11 (prop_Height m))
            ++ opt (negb (prop_Round m =? 0)) (field_fixed64 Byte.x19 (prop_Round m))
            ++ opt (negb (prop_POLRound m =? 0))
                 (field_varint Byte.x20 (uint64 (prop_POLRound m)))
            ++ field_BlockID Byte.x2a (prop_BlockID m)
            ++ (Byte.x32 :: varint (uint64 (len ts)) ++ ts)
            ++ opt (0 <? len (prop_ChainID m)) (field_bytes Byte.x3a (prop_ChainID m))))
  /\ (forall (m : CanonicalVote) ts,
      StdTimeBytes (vote_Timestamp m) = Ok ts ->
      CanonicalVote_Marshal m
      = Ok (opt (negb (vote_Type m =? 0)) (field_varint Byte.x08 (uint64 (vote_Type m)))
            ++ opt (negb (vote_Height m =? 0)) (field_fixed64 Byte.x11 (vote_Height m))
            ++ opt (negb (vote_Round m =? 0)) (field_fixed64 Byte.x19 (vote_Round m))
            ++ field_BlockID Byte.x22 (vote_BlockID m)
            ++ (Byte.x2a :: varint (uint64 (len ts)) ++ ts)
            ++ opt (0 <? len (vote_ChainID m)) (field_bytes Byte.x32 (vote_ChainID m))
            ++ field_VoteExtension Byte.x3a (vote_VoteExtension m))).
Proof.
  repeat split.
  - intros m. apply CanonicalPartSetHeader_Marshal_wire.
  - intros m h Hh. rewrite CanonicalPartSetHeader_Marshal_wire in Hh. injection Hh as <-.
    apply CanonicalBlockID_Marshal_wire.
  - intros m ts Ht. now apply CanonicalProposal_Marshal_wire.
  - intros m ts Ht. now apply CanonicalVote_Marshal_wire.
Qed.

(** C5. A proposal with type, height, round and pol_round zero, no block
    id, a chain id that is not empty and any timestamp whose encoding is
    [ts] (the zero timestamp among them) is encoded as two fields: the
    timestamp under tag 6 and then the chain id under tag 7. *)
Theorem Proposal_presence_rule (t : Time) (ts chain : list byte) :
  StdTimeBytes t = Ok ts -> chain <> [] ->
  CanonicalProposal_Marshal
    {| prop_Type := 0; prop_Height := 0; prop_Round := 0; prop_POLRound := 0;
       prop_BlockID := None; prop_Timestamp := t; prop_ChainID := chain |}
  = Ok ((Byte.x32 :: varint (uint64 (len ts)) ++ ts)
        ++ (Byte.x3a :: varint (uint64 (len chain)) ++ chain)).
Proof.
  intros Ht Hc.
  rewrite (CanonicalProposal_Marshal_wire _ ts) by exact Ht. unfold wire_Proposal.
  cbn [prop_Type prop_Height prop_Round prop_POLRound prop_BlockID prop_ChainID
       Z.eqb negb opt field_BlockID app].
  destruct (Z.ltb_spec 0 (len chain)) as [_|Hz]; [reflexivity|].
  now apply len_zero_nil in Hz.
Qed.

(** C6. In the encoding of a proposal and of a vote the height and the
    round are fixed64 fields under the tags 2 and 3: the tag byte
    [(field << 3) | 1] followed by the eight bytes of the value in
    little-endian order, whatever its sign and magnitude, and nothing at
    all when the value is zero.  They follow the type field. *)
Theorem height_round_fixed64 :
  let little_endian v :=
    map (fun k => byte.of_Z (Z.shiftr (uint64 v) (8 * k))) [0; 1; 2; 3; 4; 5; 6; 7] in
  let fixed64 fieldNum v :=
    if v =? 0 then [] else byte.of_Z (tag_value fieldNum 1) :: little_endian v in
  (forall v, len (little_endian v) = 8 /\ le_combine (little_endian v) = uint64 v)
  /\ (forall (m : CanonicalProposal) bs,
        CanonicalProposal_Marshal m = Ok bs ->
        exists rest,
          bs = opt (negb (prop_Type m =? 0)) (field_varint Byte.x08 (uint64 (prop_Type m)))
               ++ fixed64 2 (prop_Height m) ++ fixed64 3 (prop_Round m) ++ rest)
  /\ (forall (m : CanonicalVote) bs,
        CanonicalVote_Marshal m = Ok bs ->
        exists rest,
          bs = opt (negb (vote_Type m =? 0)) (field_varint Byte.x08 (uint64 (vote_Type m)))
               ++ fixed64 2 (vote_Height m) ++ fixed64 3 (vote_Round m) ++ rest).
Proof.
  intros little_endian fixed64.
  assert (Hle : forall v, little_endian v = le_split 8 (uint64 v)).
  { intros v. subst little_endian. cbv [le_split map].
    rewrite !Z.shiftr_shiftr by lia. reflexivity. }
  assert (Hf : forall fieldNum tag v,
             byte.of_Z (tag_value fieldNum 1) = tag ->
             fixed64 fieldNum v = opt (negb (v =? 0)) (field_fixed64 tag v)).
  { intros fieldNum tag v <-. subst fixed64. cbv beta. rewrite Hle.
    destruct (v =? 0); reflexivity. }
  split; [|split].
  - intros v. rewrite Hle. split; [apply len_le_split|].
    rewrite le_combine_split.
    change (uint64 v mod 2 ^ (Z.of_nat 8 * 8)) with (uint64 (uint64 v)).
    apply uint64_small, uint64_range.
  - intros m bs H. apply CanonicalProposal_Marshal_Ok_inv in H.
    destruct H as (ts & Ht & ->). unfold wire_Proposal.
    rewrite (Hf 2 Byte.x11), (Hf 3 Byte.x19) by reflexivity.
    eexists. reflexivity.
  - intros m bs H. apply CanonicalVote_Marshal_Ok_inv in H.
    destruct H as (ts & Ht & ->). unfold wire_Vote.
    rewrite (Hf 2 Byte.x11), (Hf 3 Byte.x19) by reflexivity.
    eexists. reflexivity.
Qed.

(** C4. Two votes that differ only in that one has no vote extension and
    the other has one are encoded to byte strings of different lengths,
    hence different: the one with the extension is longer by the tag,
    the length varint and the bytes of the extension. *)
Theorem vote_extension_changes_length (m : CanonicalVote) (e : VoteExtensionToSign)
  (b b' : list byte) :
  vote_VoteExtension m = None ->
  CanonicalVote_Marshal m = Ok b ->
  CanonicalVote_Marshal (with_vote_VoteExtension m (Some e)) = Ok b' ->
  len b' = len b + 1 + sovCanonical (uint64 (VoteExtensionToSign_Size e))
           + VoteExtensionToSign_Size e
  /\ len b <> len b' /\ b <> b'.
Proof.
  intros Hnone Hb Hb'.
  apply CanonicalVote_Marshal_Ok_inv in Hb. destruct Hb as (ts & Ht & ->).
  apply CanonicalVote_Marshal_Ok_inv in Hb'. destruct Hb' as (ts' & Ht' & ->).
  cbn [with_vote_VoteExtension vote_Timestamp] in Ht'.
  rewrite Ht in Ht'. injection Ht' as <-.
  assert (E : len (wire_Vote (with_vote_VoteExtension m (Some e)) ts)
              = len (wire_Vote m ts) + 1
                + sovCanonical (uint64 (VoteExtensionToSign_Size e))
                + VoteExtensionToSign_Size e).
  { unfold wire_Vote.
    cbn [with_vote_VoteExtension vote_Type vote_Height vote_Round vote_BlockID
         vote_Timestamp vote_ChainID vote_VoteExtension].
    rewrite Hnone. cbn [field_VoteExtension].
    rewrite !len_app, !len_field_bytes. unfold VoteExtensionToSign_Size.
    change (len (@nil byte)) with 0. lia. }
  pose proof (sovCanonical_pos (uint64 (VoteExtensionToSign_Size e))
                (proj1 (uint64_range _))).
  assert (0 <= VoteExtensionToSign_Size e) by apply len_nonneg.
  split; [exact E|]. split; [lia|].
  intros Heq. rewrite <- Heq in E. lia.
Qed.

(** ** Decoding *)

(** C1. Decoding the encoding of a block id, a proposal or a vote into a
    fresh message gives the value back.  The hypotheses are the ranges of
    the Go types of the fields (which the invariants of the data model
    imply), a size that fits Go's [int], and that the outside codecs of
    the timestamp and of the vote extension decode what they encode. *)
Theorem decode_encode_roundtrip :
  (forall x : CanonicalBlockID,
      wf_BlockID x -> CanonicalBlockID_Size x <= MaxInt64 ->
      (bs <- CanonicalBlockID_Marshal x ;;
       CanonicalBlockID_Unmarshal CanonicalBlockID_zero bs) = Ok x)
  /\ (forall (x : CanonicalProposal) ts,
      wf_Proposal x -> CanonicalProposal_Size x <= MaxInt64 ->
      StdTimeBytes (prop_Timestamp x) = Ok ts ->
      StdTimeUnmarshal ts = Ok (prop_Timestamp x) ->
      (bs <- CanonicalProposal_Marshal x ;;
       CanonicalProposal_Unmarshal CanonicalProposal_zero bs) = Ok x)
  /\ (forall (x : CanonicalVote) ts,
      wf_Vote x -> CanonicalVote_Size x <= MaxInt64 ->
      StdTimeBytes (vote_Timestamp x) = Ok ts ->
      StdTimeUnmarshal ts = Ok (vote_Timestamp x) ->
      (forall e, vote_VoteExtension x = Some e ->
                 VoteExtensionToSign_Unmarshal VoteExtensionToSign_zero
                   (VoteExtensionToSign_bytes e) = Ok e) ->
      (bs <- CanonicalVote_Marshal x ;;
       CanonicalVote_Unmarshal CanonicalVote_zero bs) = Ok x).
Proof.
  split; [|split].
  - intros x Hwf Hsize. rewrite CanonicalBlockID_Marshal_wire. cbn [bind].
    apply CanonicalBlockID_roundtrip; [exact Hwf|]. now rewrite len_wire_BlockID.
  - intros x ts Hwf Hsize Hts Hrt.
    rewrite (CanonicalProposal_Marshal_wire x ts Hts). cbn [bind].
    apply CanonicalProposal_roundtrip; try assumption.
    now rewrite len_wire_Proposal.
  - intros x ts Hwf Hsize Hts Hrt Hve.
    rewrite (CanonicalVote_Marshal_wire x ts Hts). cbn [bind].
    apply CanonicalVote_roundtrip; try assumption.
    now rewrite len_wire_Vote.
Qed.

(** C2, as amended.  The pol_round of a proposal is encoded under tag 4
    (byte 0x20) as the plain varint of its 64-bit two's complement value,
    with no zig-zag mapping, after the type, height and round fields, and
    is left out when zero; the value -1 takes the ten bytes
    ff ff ff ff ff ff ff ff ff 01, and a proposal with pol_round -1 is
    decoded from its encoding unchanged. *)
Theorem pol_round_plain_varint :
  (forall (m : CanonicalProposal) bs,
      CanonicalProposal_Marshal m = Ok bs ->
      exists rest,
        bs = opt (negb (prop_Type m =? 0)) (field_varint Byte.x08 (uint64 (prop_Type m)))
             ++ opt (negb (prop_Height m =? 0)) (field_fixed64 Byte.x11 (prop_Height m))
             ++ opt (negb (prop_Round m =? 0)) (field_fixed64 Byte.x19 (prop_Round m))
             ++ (if prop_POLRound m =? 0 then []
                 else byte.of_Z (tag_value 4 0) :: varint (uint64 (prop_POLRound m)))
             ++ rest)
  /\ varint (uint64 (-1))
     = [Byte.xff; Byte.xff; Byte.xff; Byte.xff; Byte.xff;
        Byte.xff; Byte.xff; Byte.xff; Byte.xff; Byte.x01]
  /\ (forall (x : CanonicalProposal) ts,
        prop_POLRound x = -1 ->
        is_int32 (prop_Type x) -> is_int64 (prop_Height x) -> is_int64 (prop_Round x) ->
        wf_option_BlockID (prop_BlockID x) ->
        CanonicalProposal_Size x <= MaxInt64 ->
        StdTimeBytes (prop_Timestamp x) = Ok ts ->
        StdTimeUnmarshal ts = Ok (prop_Timestamp x) ->
        (bs <- CanonicalProposal_Marshal x ;;
         CanonicalProposal_Unmarshal CanonicalProposal_zero bs) = Ok x).
Proof.
  split; [|split].
  - intros m bs H. apply CanonicalProposal_Marshal_Ok_inv in H.
    destruct H as (ts & Ht & ->). unfold wire_Proposal.
    change (byte.of_Z (tag_value 4 0)) with Byte.x20.
    replace (if prop_POLRound m =? 0 then []
             else Byte.x20 :: varint (uint64 (prop_POLRound m)))
      with (opt (negb (prop_POLRound m =? 0))
              (field_varint Byte.x20 (uint64 (prop_POLRound m))))
      by (destruct (prop_POLRound m =? 0); reflexivity).
    eexists. reflexivity.
  - vm_compute. reflexivity.
  - intros x ts Hpol Hty Hh Hr Hb Hsize Hts Hrt.
    rewrite (CanonicalProposal_Marshal_wire x ts Hts). cbn [bind].
    apply CanonicalProposal_roundtrip; try assumption.
    + unfold wf_Proposal. rewrite Hpol.
      repeat (split; try assumption); unfold MinInt64, MaxInt64; lia.
    + now rewrite len_wire_Proposal.
Qed.

(** C8. A varint read by a decoder fails with the overflow error when its
    first ten bytes all carry the continuation bit, and with the
    unexpected-end error when the buffer ends after fewer than ten bytes
    that all carry it.  This holds for the loop that every decoder
    inlines, for the loop of the skipper for wire type 0, and so for the
    skipper and the four [Unmarshal] methods on their first tag. *)
Theorem varint_overflow_and_truncation :
  (forall conv d i conts rest,
      at_index d i (conts ++ rest) ->
      length conts = 10%nat -> forallb continues conts = true ->
      read_varint conv d i = Err ErrIntOverflowCanonical
      /\ skip_varint_loop d 11 0 i = Err ErrIntOverflowCanonical)
  /\ (forall conv d i conts,
      at_index d i conts ->
      (length conts < 10)%nat -> forallb continues conts = true ->
      read_varint conv d i = Err ErrUnexpectedEOF
      /\ skip_varint_loop d 11 0 i = Err ErrUnexpectedEOF)
  /\ (forall conts rest mh mb mp mv,
      length conts = 10%nat -> forallb continues conts = true ->
      skipCanonical (conts ++ rest) = Err ErrIntOverflowCanonical
      /\ CanonicalPartSetHeader_Unmarshal mh (conts ++ rest) = Err ErrIntOverflowCanonical
      /\ CanonicalBlockID_Unmarshal mb (conts ++ rest) = Err ErrIntOverflowCanonical
      /\ CanonicalProposal_Unmarshal mp (conts ++ rest) = Err ErrIntOverflowCanonical
      /\ CanonicalVote_Unmarshal mv (conts ++ rest) = Err ErrIntOverflowCanonical)
  /\ (forall conts mh mb mp mv,
      (0 < length conts < 10)%nat -> forallb continues conts = true ->
      skipCanonical conts = Err ErrUnexpectedEOF
      /\ CanonicalPartSetHeader_Unmarshal mh conts = Err ErrUnexpectedEOF
      /\ CanonicalBlockID_Unmarshal mb conts = Err ErrUnexpectedEOF
      /\ CanonicalProposal_Unmarshal mp conts = Err ErrUnexpectedEOF
      /\ CanonicalVote_Unmarshal mv conts = Err ErrUnexpectedEOF).
Proof.
  split; [|split; [|split]].
  - intros conv d i conts rest Hat Hn Hc. split.
    + now apply read_varint_overflow with (conts := conts) (rest := rest).
    + rewrite (skip_varint_loop_varint_loop d 11 0 0 i).
      change (varint_loop (fun z => z) d 11 0 0 i) with (read_varint (fun z => z) d i).
      now rewrite (read_varint_overflow (fun z => z) d i conts rest).
  - intros conv d i conts Hat Hn Hc. split.
    + now apply read_varint_truncated with (conts := conts).
    + rewrite (skip_varint_loop_varint_loop d 11 0 0 i).
      change (varint_loop (fun z => z) d 11 0 0 i) with (read_varint (fun z => z) d i).
      now rewrite (read_varint_truncated (fun z => z) d i conts).
  - intros conts rest mh mb mp mv Hn Hc.
    assert (Hne : conts ++ rest <> []) by (destruct conts; [discriminate Hn | discriminate]).
    pose proof (read_varint_overflow uint64 (conts ++ rest) 0 conts rest Hn Hc
                  (at_index_start _)) as Hr.
    repeat split;
      first [ now apply skipCanonical_tag_error | now apply Unmarshal_with_tag_error ].
  - intros conts mh mb mp mv Hn Hc.
    assert (Hne : conts <> []) by (destruct conts; [cbn in Hn; lia | discriminate]).
    pose proof (read_varint_truncated uint64 conts 0 conts (proj2 Hn) Hc
                  (at_index_start _)) as Hr.
    repeat split;
      first [ now apply skipCanonical_tag_error | now apply Unmarshal_with_tag_error ].
Qed.


(** * Further properties of the generated code *)

(** ** The size and the writer of a varint *)

Lemma log2_lt_pow2_nonneg v k : 0 <= v -> 0 < k -> (Z.log2 v < k <-> v < 2 ^ k).
Proof.
  intros Hv Hk. destruct (Z.eq_dec v 0) as [->|Hne].
  - cbn [Z.log2]. split; intros _; [apply Z.pow_pos_nonneg; lia | lia].
  - symmetry. apply Z.log2_lt_pow2. lia.
Qed.

Lemma sovCanonical_le_iff v k :
  0 <= v -> 1 <= k -> (sovCanonical v <= k <-> v < 2 ^ (7 * k)).
Proof.
  intros Hv Hk. rewrite sovCanonical_log2 by lia.
  rewrite <- (log2_lt_pow2_nonneg v (7 * k)) by lia.
  pose proof (Z.log2_nonneg v).
  pose proof (Z.div_mod (Z.log2 v + 7) 7 ltac:(lia)).
  pose proof (Z.mod_pos_bound (Z.log2 v + 7) 7 ltac:(lia)).
  split; intros; nia.
Qed.

(** X1. [sovCanonical v] is the least number [k >= 1] of groups of seven
    bits that hold [v]: it is at most [k] exactly when [v < 2^(7k)]; so it
    lies between 1 and 10 for every [uint64]. *)
Theorem sovCanonical_least (v k : Z) :
  0 <= v < 2 ^ 64 -> 1 <= k ->
  (sovCanonical v <= k <-> v < 2 ^ (7 * k)) /\ 1 <= sovCanonical v <= 10.
Proof.
  intros Hv Hk. split; [apply sovCanonical_le_iff; lia|]. split.
  - apply sovCanonical_pos. lia.
  - apply (sovCanonical_le_iff v 10); [lia | lia |].
    change (2 ^ (7 * 10)) with (2 ^ 64 * 64). lia.
Qed.

Lemma lxor_ones64 a : 0 <= a < 2 ^ 64 -> Z.lxor a (2 ^ 64 - 1) = 2 ^ 64 - 1 - a.
Proof.
  intros Ha. change (2 ^ 64 - 1) with (Z.ones 64).
  rewrite Z.sub_nocarry_ldiff.
  - Z.bitblast. rewrite <- (Z.mod_small a (2 ^ 64)) by lia.
    rewrite Z.mod_pow2_bits_high by lia. reflexivity.
  - rewrite Z.ldiff_ones_r by lia.
    rewrite Z.shiftr_div_pow2, Z.div_small by lia. reflexivity.
Qed.

(** The argument of [sovCanonical] in [sozCanonical] is the zig-zag value
    of the signed number. *)
Lemma sozCanonical_argument n :
  is_int64 n ->
  uint64 (Z.lxor (uint64 (Z.shiftl (uint64 n) 1)) (uint64 (Z.shiftr (int64 (uint64 n)) 63)))
  = if 0 <=? n then 2 * n else - 2 * n - 1.
Proof.
  unfold is_int64, MinInt64, MaxInt64. intros Hn.
  rewrite int64_uint64, int64_small by (unfold is_int64, MinInt64, MaxInt64; lia).
  rewrite Z.shiftl_mul_pow2, Z.shiftr_div_pow2 by lia. change (2 ^ 1) with 2.
  unfold uint64 at 3. destruct (Z.leb_spec 0 n) as [Hpos|Hneg].
  - rewrite (Z.mod_small n) by lia. rewrite (Z.div_small n) by lia.
    rewrite (uint64_small (n * 2)), (uint64_small 0) by lia.
    rewrite Z.lxor_0_r, uint64_small by lia. lia.
  - replace (n mod 2 ^ 64) with (n + 2 ^ 64).
    2:{ apply Z.mod_unique with (q := -1); lia. }
    replace (n / 2 ^ 63) with (-1).
    2:{ apply Z.div_unique with (r := n + 2 ^ 63); lia. }
    replace (uint64 ((n + 2 ^ 64) * 2)) with (2 * n + 2 ^ 64).
    2:{ unfold uint64. apply Z.mod_unique with (q := 1); lia. }
    replace (uint64 (-1)) with (2 ^ 64 - 1) by reflexivity.
    rewrite lxor_ones64, uint64_small by lia. lia.
Qed.

(** X3. [sozCanonical], on the 64 bits of a signed number [n], is the
    size of the varint of its zig-zag value, [2n] for [n >= 0] and
    [-2n - 1] for [n < 0]: one byte for [-64 <= n < 64].  [sovCanonical]
    on the same bits is ten bytes for every negative [n]; it is the one
    that the encoders of this file call. *)
Theorem sozCanonical_is_the_zigzag_size (n : Z) :
  is_int64 n ->
  sozCanonical (uint64 n) = sovCanonical (if 0 <=? n then 2 * n else - 2 * n - 1)
  /\ (- 64 <= n < 64 -> sozCanonical (uint64 n) = 1)
  /\ (n < 0 -> sovCanonical (uint64 n) = 10).
Proof.
  intros Hn. pose proof Hn as Hr. unfold is_int64, MinInt64, MaxInt64 in Hr.
  assert (E : sozCanonical (uint64 n)
              = sovCanonical (if 0 <=? n then 2 * n else - 2 * n - 1)).
  { unfold sozCanonical. now rewrite sozCanonical_argument. }
  split; [exact E|]. split.
  - intros Hsmall. rewrite E. apply sovCanonical_small.
    destruct (Z.leb_spec 0 n); lia.
  - intros Hneg.
    assert (Hu : uint64 n = n + 2 ^ 64).
    { unfold uint64. symmetry. apply Z.mod_unique with (q := -1); lia. }
    pose proof (sovCanonical_le_iff (uint64 n) 9 ltac:(lia) ltac:(lia)) as H9.
    pose proof (sovCanonical_le_iff (uint64 n) 10 ltac:(lia) ltac:(lia)) as H10.
    change (2 ^ (7 * 9)) with (2 ^ 63) in H9.
    change (2 ^ (7 * 10)) with (2 ^ 64 * 64) in H10. lia.
Qed.

Lemma store_len d i b d' : store d i b = Ok d' -> len d' = len d.
Proof.
  unfold store. destruct ((0 <=? i) && (i <? len d)) eqn:E; [|discriminate].
  intros H. apply andb_true_iff in E. destruct E as [E1 E2].
  apply Z.leb_le in E1. apply Z.ltb_lt in E2.
  apply (f_equal (fun r => match r with Ok x => len x | _ => 0 end)) in H.
  cbv beta iota in H. rewrite <- H.
  replace (S (Z.to_nat i)) with (Z.to_nat (i + 1)) by lia.
  rewrite len_app, len_cons, len_firstn, len_skipn by lia. lia.
Qed.

Lemma store_outside d i b : i < 0 \/ len d <= i -> store d i b = Panic.
Proof.
  intros H. unfold store.
  destruct (Z.leb_spec 0 i); destruct (Z.ltb_spec i (len d)); cbn [andb]; try reflexivity.
  lia.
Qed.

Lemma store_Ok_or_Panic d i b : (exists d', store d i b = Ok d') \/ store d i b = Panic.
Proof.
  unfold store. destruct ((0 <=? i) && (i <? len d)); [left; eexists; reflexivity | now right].
Qed.

(** The writer panics when the bytes of the varint do not lie inside the
    buffer. *)
Lemma encodeVarint_loop_outside fuel :
  forall d o v,
    (0 < fuel)%nat -> 0 <= v < 2 ^ (7 * Z.of_nat fuel) ->
    o < 0 \/ len d < o + len (varint_bytes fuel v) ->
    encodeVarint_loop fuel d o v = Panic.
Proof.
  induction fuel as [|fuel IH]; intros d o v Hf Hv; [lia|].
  cbn [encodeVarint_loop varint_bytes].
  destruct (Z.leb_spec 128 v) as [Hge|Hlt]; intros Ho.
  - rewrite len_cons in Ho.
    destruct (store_Ok_or_Panic d o (byte.of_Z (Z.lor (Z.land v 127) 128)))
      as [[d' E]|E]; rewrite E; [|reflexivity].
    pose proof E as E'. cbn [bind]. apply IH.
    + destruct fuel; [|lia]. change (2 ^ (7 * Z.of_nat 1)) with 128 in Hv. lia.
    + apply shiftr7_bound; exact Hv.
    + apply store_len in E'. rewrite E'.
      destruct Ho as [Ho|Ho]; [|lia].
      rewrite store_outside in E by lia. discriminate.
  - apply store_outside. change (len [byte.of_Z v]) with 1 in Ho. lia.
Qed.

(** X2. [encodeVarintCanonical(dAtA, offset, v)] writes the [sovCanonical(v)]
    bytes of the varint of [v] so that they end just before [offset],
    changes no other byte, and returns the index of the first one; the
    varint loop of the decoders reads [v] back from there and stops at
    [offset].  When the varint does not fit below [offset], or [offset]
    lies beyond the buffer, the writer panics. *)
Theorem encodeVarintCanonical_writes (dAtA : list byte) (offset v : Z) :
  0 <= v < 2 ^ 64 ->
  (sovCanonical v <= offset <= len dAtA ->
   exists pre mid post,
     dAtA = pre ++ mid ++ post
     /\ len pre = offset - sovCanonical v /\ len mid = sovCanonical v
     /\ encodeVarintCanonical dAtA offset v
        = Ok (pre ++ varint v ++ post, offset - sovCanonical v)
     /\ read_varint uint64 (pre ++ varint v ++ post) (offset - sovCanonical v)
        = Ok (v, offset))
  /\ (offset < sovCanonical v \/ len dAtA < offset ->
      encodeVarintCanonical dAtA offset v = Panic).
Proof.
  intros Hv. pose proof (sovCanonical_pos v ltac:(lia)) as Hpos.
  pose proof (len_varint v Hv) as Hlen. split.
  - intros Ho.
    remember (firstn (Z.to_nat (offset - sovCanonical v)) dAtA) as pre eqn:Epre.
    remember (firstn (Z.to_nat (sovCanonical v))
                (skipn (Z.to_nat (offset - sovCanonical v)) dAtA)) as mid eqn:Emid.
    remember (skipn (Z.to_nat offset) dAtA) as post eqn:Epost.
    assert (Hpre : len pre = offset - sovCanonical v) by (subst pre; apply len_firstn; lia).
    assert (Hmid : len mid = sovCanonical v).
    { subst mid. apply len_firstn. rewrite len_skipn by lia. lia. }
    assert (Hd : dAtA = pre ++ mid ++ post).
    { subst pre mid post.
      rewrite <- (firstn_skipn (Z.to_nat (offset - sovCanonical v)) dAtA) at 1.
      f_equal.
      rewrite <- (firstn_skipn (Z.to_nat (sovCanonical v))
                    (skipn (Z.to_nat (offset - sovCanonical v)) dAtA)) at 1.
      f_equal. rewrite skipn_skipn. f_equal. lia. }
    clear Epre Emid Epost.
    exists pre, mid, post.
    split; [exact Hd|]. split; [exact Hpre|]. split; [exact Hmid|]. split.
    + pose proof (encodeVarint_loop_app 10 v pre mid post) as L.
      rewrite Hpre, <- Hd in L. fold (varint v) in L.
      unfold encodeVarintCanonical. cbv zeta. rewrite L;
        [reflexivity | change (7 * Z.of_nat 10) with 70; lia | lia |].
      apply Nat2Z.inj. change (len mid = len (varint v)). lia.
    + rewrite (read_varint_at uint64 _ (offset - sovCanonical v) v post
                 bits_conv_uint64 Hv).
      * rewrite uint64_small by exact Hv. apply Ok_pair_eq; [reflexivity | lia].
      * exists pre. split; [reflexivity | exact Hpre].
  - intros Ho. unfold encodeVarintCanonical.
    rewrite encodeVarint_loop_outside;
      [reflexivity | lia | change (7 * Z.of_nat 10) with 70; lia |].
    fold (varint v). lia.
Qed.

(** ** Writing into a buffer of the caller *)

Lemma reslice_to_Ok b hi :
  0 <= hi <= cap b ->
  reslice_to b hi
  = Ok {| visible := firstn (Z.to_nat hi) (backing b);
          spare := skipn (Z.to_nat hi) (backing b) |}.
Proof. intros H. unfold reslice_to. now rewrite andb_range_le_true by lia. Qed.

Lemma len_backing b : len (backing b) = cap b.
Proof. unfold backing, cap. apply len_app. Qed.

Lemma frame_whole d bs : len d = len bs -> frame d (len d - len bs) bs = bs.
Proof. intros E. unfold frame. now rewrite E, Z.sub_diag. Qed.

Lemma marshalTo_with_fills size marshalTo bs dAtA :
  fills_end marshalTo bs -> len bs = size ->
  (size <= cap dAtA ->
   exists b',
     marshalTo_with size marshalTo dAtA = Ok (b', size)
     /\ backing b' = bs ++ skipn (Z.to_nat size) (backing dAtA)
     /\ len (visible b') = len (visible dAtA))
  /\ (cap dAtA < size -> marshalTo_with size marshalTo dAtA = Panic).
Proof.
  intros Hfill Hlen. pose proof (len_nonneg bs) as Hn.
  pose proof (len_nonneg (visible dAtA)) as Hv. pose proof (len_nonneg (spare dAtA)) as Hs.
  split; intros Hcap.
  - unfold marshalTo_with. rewrite reslice_to_Ok by lia. cbn [bind visible spare].
    assert (Hsub : len (firstn (Z.to_nat size) (backing dAtA)) = size).
    { apply len_firstn. rewrite len_backing. lia. }
    rewrite (Hfill (firstn (Z.to_nat size) (backing dAtA))) by lia.
    rewrite frame_whole by lia. cbn [bind]. rewrite Hlen.
    eexists. split; [reflexivity|]. cbn [visible spare]. unfold backing at 1.
    cbn [visible spare]. rewrite firstn_skipn. split; [reflexivity|].
    rewrite <- len_to_nat. apply len_firstn. rewrite len_app, len_skipn.
    + unfold cap in Hcap. rewrite len_backing. unfold cap. lia.
    + rewrite len_backing. lia.
  - unfold marshalTo_with, reslice_to.
    destruct (Z.leb_spec size (cap dAtA)); [lia|]. now rewrite andb_false_r.
Qed.

(** X10. [MarshalTo] of each of the four messages, given a slice whose
    capacity holds [Size()] bytes, writes the bytes that [Marshal] returns
    at the front of the backing array, changes no byte after them, leaves
    the length of the slice as it is and returns [Size()]; this holds also
    when the length of the slice is below [Size()].  Given a slice of
    smaller capacity it panics. *)
Theorem MarshalTo_writes_Marshal (dAtA : buffer) :
  let writes (r : result (buffer * Z)) (size : Z) (bs : list byte) :=
    (size <= cap dAtA ->
     exists b', r = Ok (b', size)
                /\ backing b' = bs ++ skipn (Z.to_nat size) (backing dAtA)
                /\ len (visible b') = len (visible dAtA))
    /\ (cap dAtA < size -> r = Panic) in
  (forall (m : CanonicalPartSetHeader) bs,
      CanonicalPartSetHeader_Marshal m = Ok bs ->
      writes (CanonicalPartSetHeader_MarshalTo m dAtA) (CanonicalPartSetHeader_Size m) bs)
  /\ (forall (m : CanonicalBlockID) bs,
      CanonicalBlockID_Marshal m = Ok bs ->
      writes (CanonicalBlockID_MarshalTo m dAtA) (CanonicalBlockID_Size m) bs)
  /\ (forall (m : CanonicalProposal) bs,
      CanonicalProposal_Marshal m = Ok bs ->
      writes (CanonicalProposal_MarshalTo m dAtA) (CanonicalProposal_Size m) bs)
  /\ (forall (m : CanonicalVote) bs,
      CanonicalVote_Marshal m = Ok bs ->
      writes (CanonicalVote_MarshalTo m dAtA) (CanonicalVote_Size m) bs).
Proof.
  intros writes. subst writes. cbv beta.
  split; [|split; [|split]]; intros m bs H.
  - rewrite CanonicalPartSetHeader_Marshal_wire in H. injection H as <-.
    apply marshalTo_with_fills;
      [apply CanonicalPartSetHeader_fills | apply len_wire_PartSetHeader].
  - rewrite CanonicalBlockID_Marshal_wire in H. injection H as <-.
    apply marshalTo_with_fills; [apply CanonicalBlockID_fills | apply len_wire_BlockID].
  - apply CanonicalProposal_Marshal_Ok_inv in H. destruct H as (ts & Ht & ->).
    apply marshalTo_with_fills;
      [now apply CanonicalProposal_fills | now apply len_wire_Proposal].
  - apply CanonicalVote_Marshal_Ok_inv in H. destruct H as (ts & Ht & ->).
    apply marshalTo_with_fills; [now apply CanonicalVote_fills | now apply len_wire_Vote].
Qed.

Lemma XXX_Marshal_with_fills marshalTo info bs b :
  fills_end marshalTo bs -> len bs <= cap b ->
  XXX_Marshal_with marshalTo info b false
  = Ok (firstn (Z.to_nat (len bs))
          (firstn (Z.to_nat (cap b - len bs)) (backing b) ++ bs)).
Proof.
  intros Hfill Hcap. pose proof (len_nonneg bs) as Hn.
  unfold XXX_Marshal_with. rewrite reslice_to_Ok by lia. cbn [bind visible].
  assert (Hall : firstn (Z.to_nat (cap b)) (backing b) = backing b).
  { apply firstn_all2. rewrite <- len_to_nat, len_backing. lia. }
  rewrite Hall, (Hfill (backing b)) by (rewrite len_backing; lia).
  cbn [bind]. rewrite len_backing. unfold frame, slice_to.
  rewrite andb_range_le_true; [reflexivity | lia |].
  rewrite len_app, len_firstn by (rewrite len_backing; lia). lia.
Qed.

(** X11. [XXX_Marshal(b, false)] of each of the four messages writes the
    encoding at the end of the capacity of [b] and returns the first
    [Size()] bytes of [b]: the result is the encoding that [Marshal]
    returns when the capacity of [b] is exactly [Size()], and in general
    the first [Size()] bytes of what the capacity holds before the
    encoding, followed by the encoding. *)
Theorem XXX_Marshal_needs_exact_capacity
  (info : buffer -> bool -> result (list byte)) (b : buffer) :
  let front (bs : list byte) :=
    firstn (Z.to_nat (len bs)) (firstn (Z.to_nat (cap b - len bs)) (backing b) ++ bs) in
  let spec (r : result (list byte)) (bs : list byte) :=
    (len bs <= cap b -> r = Ok (front bs)) /\ (len bs = cap b -> r = Ok bs) in
  (forall (m : CanonicalPartSetHeader) bs,
      CanonicalPartSetHeader_Marshal m = Ok bs ->
      spec (CanonicalPartSetHeader_XXX_Marshal m info b false) bs)
  /\ (forall (m : CanonicalBlockID) bs,
      CanonicalBlockID_Marshal m = Ok bs ->
      spec (CanonicalBlockID_XXX_Marshal m info b false) bs)
  /\ (forall (m : CanonicalProposal) bs,
      CanonicalProposal_Marshal m = Ok bs ->
      spec (CanonicalProposal_XXX_Marshal m info b false) bs)
  /\ (forall (m : CanonicalVote) bs,
      CanonicalVote_Marshal m = Ok bs ->
      spec (CanonicalVote_XXX_Marshal m info b false) bs).
Proof.
  intros front spec.
  assert (Hspec : forall marshalTo bs,
             fills_end marshalTo bs -> spec (XXX_Marshal_with marshalTo info b false) bs).
  { intros marshalTo bs Hfill. subst spec front. cbv beta. split; intros Hcap.
    - now apply XXX_Marshal_with_fills.
    - rewrite (XXX_Marshal_with_fills marshalTo info bs b Hfill) by lia.
      rewrite <- Hcap, Z.sub_diag. cbn [Z.to_nat firstn app].
      rewrite len_to_nat. now rewrite firstn_all. }
  split; [|split; [|split]]; intros m bs H.
  - rewrite CanonicalPartSetHeader_Marshal_wire in H. injection H as <-.
    apply Hspec, CanonicalPartSetHeader_fills.
  - rewrite CanonicalBlockID_Marshal_wire in H. injection H as <-.
    apply Hspec, CanonicalBlockID_fills.
  - apply CanonicalProposal_Marshal_Ok_inv in H. destruct H as (ts & Ht & ->).
    now apply Hspec, CanonicalProposal_fills.
  - apply CanonicalVote_Marshal_Ok_inv in H. destruct H as (ts & Ht & ->).
    now apply Hspec, CanonicalVote_fills.
Qed.

(** ** The errors of [Marshal] *)

Lemma put_time_fails tag t d0 i w :
  (forall ts, StdTimeBytes t <> Ok ts) -> 0 <= i <= len d0 ->
  put_time tag t (frame d0 i w) i = (ts <- StdTimeBytes t ;; Panic).
Proof.
  intros Hno Hi. unfold put_time, SizeOfStdTime, StdTimeMarshalTo.
  destruct (StdTimeBytes t) as [ts| e | |] eqn:E; [now destruct (Hno ts) | | |];
    cbv zeta; rewrite Z.sub_0_r; unfold frame;
    pose proof (slice_from_app (firstn (Z.to_nat i) d0) w) as L;
    rewrite len_firstn in L by lia; rewrite L; reflexivity.
Qed.

Lemma marshal_with_fails {A} size marshalTo (r : result A) :
  0 <= size -> (forall a, r <> Ok a) ->
  (forall d, len d = size -> marshalTo d = (a <- r ;; Panic)) ->
  marshal_with size marshalTo = (a <- r ;; Panic).
Proof.
  intros Hs Hno Hm. unfold marshal_with, make.
  destruct (Z.leb_spec 0 size); [|lia]. cbn [bind].
  set (dAtA := repeat Byte.x00 (Z.to_nat size)).
  assert (Hl : len dAtA = size) by (subst dAtA; rewrite len_repeat; lia).
  rewrite <- Hl at 1. rewrite slice_to_all. cbn [bind]. rewrite (Hm dAtA Hl).
  destruct r as [a| e | |]; [now destruct (Hno a) | reflexivity..].
Qed.

Lemma sov_uint64_pos z : 1 <= sovCanonical (uint64 z).
Proof. apply sovCanonical_pos, uint64_range. Qed.

Lemma CanonicalBlockID_Size_nonneg b : 0 <= CanonicalBlockID_Size b.
Proof. rewrite <- len_wire_BlockID. apply len_nonneg. Qed.

Lemma CanonicalProposal_Marshal_fails m :
  (forall ts, StdTimeBytes (prop_Timestamp m) <> Ok ts) ->
  CanonicalProposal_Marshal m = (ts <- StdTimeBytes (prop_Timestamp m) ;; Panic).
Proof.
  intros Hno.
  assert (E : SizeOfStdTime (prop_Timestamp m) = 0).
  { unfold SizeOfStdTime. destruct (StdTimeBytes (prop_Timestamp m)) as [ts| | |];
      [now destruct (Hno ts) | reflexivity..]. }
  assert (Hchain : 0 <= len (opt (0 <? len (prop_ChainID m))
                               (field_bytes Byte.x3a (prop_ChainID m)))
                   <= CanonicalProposal_Size m).
  { split; [apply len_nonneg|].
    unfold CanonicalProposal_Size, opt. rewrite E.
    pose proof (sov_uint64_pos (prop_Type m)).
    pose proof (sov_uint64_pos (prop_POLRound m)).
    pose proof (sov_uint64_pos 0).
    pose proof (sov_uint64_pos (len (prop_ChainID m))).
    assert (0 <= match prop_BlockID m with
                 | Some b => 1 + CanonicalBlockID_Size b
                             + sovCanonical (uint64 (CanonicalBlockID_Size b))
                 | None => 0
                 end).
    { destruct (prop_BlockID m) as [b|]; [|lia].
      pose proof (CanonicalBlockID_Size_nonneg b).
      pose proof (sov_uint64_pos (CanonicalBlockID_Size b)). lia. }
    destruct (prop_Type m =? 0), (prop_Height m =? 0), (prop_Round m =? 0),
      (prop_POLRound m =? 0), (prop_BlockID m), (0 <? len (prop_ChainID m));
      cbn [negb]; rewrite ?len_field_bytes; change (len (@nil byte)) with 0;
      len_pos; lia. }
  apply marshal_with_fails; [lia | exact Hno |].
  intros d Hd. unfold CanonicalProposal_MarshalToSizedBuffer. cbv zeta.
  rewrite <- (frame_all d) at 1.
  rewrite (when_frame _ _ (field_bytes Byte.x3a (prop_ChainID m))).
  - cbn [bind]. rewrite put_time_fails by (try exact Hno; lia).
    now destruct (StdTimeBytes (prop_Timestamp m)).
  - intros Hc. rewrite Hc in Hchain. cbn [opt] in Hchain.
    apply put_bytes_frame. lia.
Qed.

Lemma CanonicalProposal_Marshal_bind m :
  CanonicalProposal_Marshal m
  = (ts <- StdTimeBytes (prop_Timestamp m) ;; Ok (wire_Proposal m ts)).
Proof.
  destruct (StdTimeBytes (prop_Timestamp m)) as [ts| e | |] eqn:E;
    [now apply CanonicalProposal_Marshal_wire | ..];
    rewrite CanonicalProposal_Marshal_fails by (rewrite E; discriminate);
    now rewrite E.
Qed.

Lemma CanonicalVote_Marshal_fails m :
  (forall ts, StdTimeBytes (vote_Timestamp m) <> Ok ts) ->
  CanonicalVote_Marshal m = (ts <- StdTimeBytes (vote_Timestamp m) ;; Panic).
Proof.
  intros Hno.
  assert (E : SizeOfStdTime (vote_Timestamp m) = 0).
  { unfold SizeOfStdTime. destruct (StdTimeBytes (vote_Timestamp m)) as [ts| | |];
      [now destruct (Hno ts) | reflexivity..]. }
  assert (Hroom : 0 <= len (field_VoteExtension Byte.x3a (vote_VoteExtension m))
                  /\ 0 <= len (opt (0 <? len (vote_ChainID m))
                                 (field_bytes Byte.x32 (vote_ChainID m)))
                  /\ len (field_VoteExtension Byte.x3a (vote_VoteExtension m))
                     + len (opt (0 <? len (vote_ChainID m))
                              (field_bytes Byte.x32 (vote_ChainID m)))
                     <= CanonicalVote_Size m).
  { split; [apply len_nonneg|]. split; [apply len_nonneg|].
    unfold CanonicalVote_Size, opt. rewrite E, len_field_VoteExtension.
    pose proof (sov_uint64_pos (vote_Type m)).
    pose proof (sov_uint64_pos 0).
    pose proof (sov_uint64_pos (len (vote_ChainID m))).
    assert (0 <= match vote_BlockID m with
                 | Some b => 1 + CanonicalBlockID_Size b
                             + sovCanonical (uint64 (CanonicalBlockID_Size b))
                 | None => 0
                 end).
    { destruct (vote_BlockID m) as [b|]; [|lia].
      pose proof (CanonicalBlockID_Size_nonneg b).
      pose proof (sov_uint64_pos (CanonicalBlockID_Size b)). lia. }
    destruct (vote_Type m =? 0), (vote_Height m =? 0), (vote_Round m =? 0),
      (vote_BlockID m), (0 <? len (vote_ChainID m)), (vote_VoteExtension m);
      cbn [negb]; rewrite ?len_field_bytes; change (len (@nil byte)) with 0;
      len_pos; lia. }
  destruct Hroom as (He & Hc0 & Hroom).
  apply marshal_with_fails; [lia | exact Hno |].
  intros d Hd. unfold CanonicalVote_MarshalToSizedBuffer. cbv zeta.
  rewrite <- (frame_all d) at 1.
  rewrite put_VoteExtension_frame by lia. cbn [bind].
  rewrite (when_frame _ _ (field_bytes Byte.x32 (vote_ChainID m))).
  - cbn [bind]. rewrite put_time_fails by (try exact Hno; lia).
    now destruct (StdTimeBytes (vote_Timestamp m)).
  - intros Hc. rewrite Hc in Hroom, Hc0. cbn [opt] in Hroom, Hc0.
    apply put_bytes_frame. lia.
Qed.

Lemma CanonicalVote_Marshal_bind m :
  CanonicalVote_Marshal m
  = (ts <- StdTimeBytes (vote_Timestamp m) ;; Ok (wire_Vote m ts)).
Proof.
  destruct (StdTimeBytes (vote_Timestamp m)) as [ts| e | |] eqn:E;
    [now apply CanonicalVote_Marshal_wire | ..];
    rewrite CanonicalVote_Marshal_fails by (rewrite E; discriminate);
    now rewrite E.
Qed.

(** X5. [Marshal] of a proposal or of a vote returns an error exactly when
    the conversion of the timestamp does, and then that error: the buffer,
    which [Size()] dimensions with a timestamp of size 0 in that case, is
    still large enough for the fields written before the timestamp, so
    that no write falls outside it.  When the conversion returns, [Marshal]
    returns. *)
Theorem Marshal_fails_as_the_timestamp :
  (forall (m : CanonicalProposal) e,
      CanonicalProposal_Marshal m = Err e <-> StdTimeBytes (prop_Timestamp m) = Err e)
  /\ (forall m : CanonicalProposal,
      returns (StdTimeBytes (prop_Timestamp m)) -> returns (CanonicalProposal_Marshal m))
  /\ (forall (m : CanonicalVote) e,
      CanonicalVote_Marshal m = Err e <-> StdTimeBytes (vote_Timestamp m) = Err e)
  /\ (forall m : CanonicalVote,
      returns (StdTimeBytes (vote_Timestamp m)) -> returns (CanonicalVote_Marshal m)).
Proof.
  split; [|split; [|split]].
  - intros m e. rewrite CanonicalProposal_Marshal_bind.
    destruct (StdTimeBytes (prop_Timestamp m)); cbn [bind]; split; congruence.
  - intros m. rewrite CanonicalProposal_Marshal_bind.
    now destruct (StdTimeBytes (prop_Timestamp m)).
  - intros m e. rewrite CanonicalVote_Marshal_bind.
    destruct (StdTimeBytes (vote_Timestamp m)); cbn [bind]; split; congruence.
  - intros m. rewrite CanonicalVote_Marshal_bind.
    now destruct (StdTimeBytes (vote_Timestamp m)).
Qed.

(** ** Distinct messages have distinct encodings *)

(** X6. [Marshal] is injective on the messages whose fields lie in the
    ranges of their Go types: two part-set headers, block ids, proposals
    or votes with the same encoding are equal.  For the proposal and the
    vote the outside codecs are supposed to decode what they encode for
    the two messages. *)
Theorem Marshal_injective :
  (forall x y : CanonicalPartSetHeader,
      wf_PartSetHeader x -> wf_PartSetHeader y ->
      CanonicalPartSetHeader_Size x <= MaxInt64 ->
      CanonicalPartSetHeader_Marshal x = CanonicalPartSetHeader_Marshal y -> x = y)
  /\ (forall x y : CanonicalBlockID,
      wf_BlockID x -> wf_BlockID y -> CanonicalBlockID_Size x <= MaxInt64 ->
      CanonicalBlockID_Marshal x = CanonicalBlockID_Marshal y -> x = y)
  /\ (forall (x y : CanonicalProposal) bs,
      wf_Proposal x -> wf_Proposal y -> len bs <= MaxInt64 ->
      (forall ts, StdTimeBytes (prop_Timestamp x) = Ok ts ->
                  StdTimeUnmarshal ts = Ok (prop_Timestamp x)) ->
      (forall ts, StdTimeBytes (prop_Timestamp y) = Ok ts ->
                  StdTimeUnmarshal ts = Ok (prop_Timestamp y)) ->
      CanonicalProposal_Marshal x = Ok bs -> CanonicalProposal_Marshal y = Ok bs ->
      x = y)
  /\ (forall (x y : CanonicalVote) bs,
      wf_Vote x -> wf_Vote y -> len bs <= MaxInt64 ->
      (forall ts, StdTimeBytes (vote_Timestamp x) = Ok ts ->
                  StdTimeUnmarshal ts = Ok (vote_Timestamp x)) ->
      (forall ts, StdTimeBytes (vote_Timestamp y) = Ok ts ->
                  StdTimeUnmarshal ts = Ok (vote_Timestamp y)) ->
      (forall e, vote_VoteExtension x = Some e \/ vote_VoteExtension y = Some e ->
                 VoteExtensionToSign_Unmarshal VoteExtensionToSign_zero
                   (VoteExtensionToSign_bytes e) = Ok e) ->
      CanonicalVote_Marshal x = Ok bs -> CanonicalVote_Marshal y = Ok bs ->
      x = y).
Proof.
  split; [|split; [|split]].
  - intros x y Hx Hy Hs E. rewrite !CanonicalPartSetHeader_Marshal_wire in E.
    injection E as E. rewrite <- len_wire_PartSetHeader in Hs.
    pose proof (CanonicalPartSetHeader_roundtrip x Hx Hs) as Rx.
    rewrite E in Rx, Hs. pose proof (CanonicalPartSetHeader_roundtrip y Hy Hs) as Ry.
    congruence.
  - intros x y Hx Hy Hs E. rewrite !CanonicalBlockID_Marshal_wire in E.
    injection E as E. rewrite <- len_wire_BlockID in Hs.
    pose proof (CanonicalBlockID_roundtrip x Hx Hs) as Rx.
    rewrite E in Rx, Hs. pose proof (CanonicalBlockID_roundtrip y Hy Hs) as Ry.
    congruence.
  - intros x y bs Hx Hy Hs Tx Ty Ex Ey.
    apply CanonicalProposal_Marshal_Ok_inv in Ex. destruct Ex as (tx & Htx & ->).
    apply CanonicalProposal_Marshal_Ok_inv in Ey. destruct Ey as (ty & Hty & E).
    pose proof (CanonicalProposal_roundtrip x tx Hx Htx (Tx _ Htx) Hs) as Rx.
    rewrite E in Rx, Hs.
    pose proof (CanonicalProposal_roundtrip y ty Hy Hty (Ty _ Hty) Hs) as Ry.
    congruence.
  - intros x y bs Hx Hy Hs Tx Ty He Ex Ey.
    apply CanonicalVote_Marshal_Ok_inv in Ex. destruct Ex as (tx & Htx & ->).
    apply CanonicalVote_Marshal_Ok_inv in Ey. destruct Ey as (ty & Hty & E).
    pose proof (CanonicalVote_roundtrip x tx Hx Htx (Tx _ Htx)
                  (fun e H => He e (or_introl H)) Hs) as Rx.
    rewrite E in Rx, Hs.
    pose proof (CanonicalVote_roundtrip y ty Hy Hty (Ty _ Hty)
                  (fun e H => He e (or_intror H)) Hs) as Ry.
    congruence.
Qed.

(** ** The checks of a decoding round on the tag *)

Lemma read_tag_at d i wire rest :
  0 <= wire < 2 ^ 64 -> at_index d i (varint wire ++ rest) ->
  read_tag d i
  = (let fieldNum := int32 (Z.shiftr wire 3) in
     let wireType := int (Z.land wire 0x7) in
     if wireType =? 4 then Err ErrEndGroupForNonGroup
     else if fieldNum <=? 0 then Err (ErrIllegalTag fieldNum wire)
     else Ok (fieldNum, wireType, i + len (varint wire))).
Proof.
  intros Hw Hat. unfold read_tag.
  rewrite (read_varint_at uint64 d i wire rest bits_conv_uint64 Hw Hat). cbn [bind].
  now rewrite uint64_small by exact Hw.
Qed.

Lemma read_tag_value d i fieldNum wireType rest :
  1 <= fieldNum <= 2 ^ 31 - 1 -> 0 <= wireType < 8 -> wireType <> 4 ->
  at_index d i (varint (tag_value fieldNum wireType) ++ rest) ->
  read_tag d i = Ok (fieldNum, wireType, i + len (varint (tag_value fieldNum wireType))).
Proof.
  intros Hf Hw H4 Hat.
  destruct (tag_value_parts fieldNum wireType Hw) as [Hland Hshr].
  assert (Hr : 0 <= tag_value fieldNum wireType < 2 ^ 64)
    by (rewrite tag_value_plus by lia; lia).
  rewrite (read_tag_at d i _ rest Hr Hat). cbv zeta.
  rewrite Hland, Hshr, int_small, int32_small
    by (unfold is_int32, is_int64, MinInt64, MaxInt64; lia).
  destruct (Z.eqb_spec wireType 4); [contradiction|].
  destruct (Z.leb_spec fieldNum 0); [lia | reflexivity].
Qed.

(** The first round of a decoder on a buffer that starts with a tag. *)
Lemma Unmarshal_with_first_round {M}
  (field : M -> Z -> Z -> list byte -> Z -> Z -> result (M * Z)) m wire rest :
  0 <= wire < 2 ^ 64 ->
  Unmarshal_with field m (varint wire ++ rest)
  = ('(fieldNum, wireType, i) <- read_tag (varint wire ++ rest) 0 ;;
     '(m, i) <- field m fieldNum wireType (varint wire ++ rest) 0 i ;;
     Unmarshal_loop field (length (varint wire ++ rest)) (varint wire ++ rest) m i).
Proof.
  intros Hw. unfold Unmarshal_with. cbn [Unmarshal_loop].
  pose proof (len_varint_pos wire Hw). pose proof (len_nonneg rest).
  destruct (Z.ltb_spec 0 (len (varint wire ++ rest))) as [_|H']; [reflexivity|].
  rewrite len_app in H'. lia.
Qed.

(** X7. A decoding round rejects a tag of wire type 4 with the error
    "wiretype end group for non-group" and, for any other wire type, a
    tag whose field number, converted to [int32], is zero or negative
    with the error "illegal tag": so the field number 0, and a field
    number with bit 31 set.  This holds for the four decoders, at the
    first tag of a buffer. *)
Theorem tags_are_validated (wire : Z) (rest : list byte) :
  0 <= wire < 2 ^ 64 ->
  let d := varint wire ++ rest in
  let fieldNum := int32 (Z.shiftr wire 3) in
  (Z.land wire 7 = 4 ->
   forall mh mb mp mv,
     CanonicalPartSetHeader_Unmarshal mh d = Err ErrEndGroupForNonGroup
     /\ CanonicalBlockID_Unmarshal mb d = Err ErrEndGroupForNonGroup
     /\ CanonicalProposal_Unmarshal mp d = Err ErrEndGroupForNonGroup
     /\ CanonicalVote_Unmarshal mv d = Err ErrEndGroupForNonGroup)
  /\ (Z.land wire 7 <> 4 -> fieldNum <= 0 ->
      forall mh mb mp mv,
        CanonicalPartSetHeader_Unmarshal mh d = Err (ErrIllegalTag fieldNum wire)
        /\ CanonicalBlockID_Unmarshal mb d = Err (ErrIllegalTag fieldNum wire)
        /\ CanonicalProposal_Unmarshal mp d = Err (ErrIllegalTag fieldNum wire)
        /\ CanonicalVote_Unmarshal mv d = Err (ErrIllegalTag fieldNum wire)).
Proof.
  intros Hw d fieldNum.
  assert (Htag : read_tag d 0
                 = if Z.land wire 7 =? 4 then Err ErrEndGroupForNonGroup
                   else if fieldNum <=? 0 then Err (ErrIllegalTag fieldNum wire)
                   else Ok (fieldNum, Z.land wire 7, len (varint wire))).
  { rewrite (read_tag_at d 0 wire rest Hw (at_index_start _)). cbv zeta.
    now rewrite int_land7. }
  assert (Hall : forall e, read_tag d 0 = Err e ->
                           forall mh mb mp mv,
                             CanonicalPartSetHeader_Unmarshal mh d = Err e
                             /\ CanonicalBlockID_Unmarshal mb d = Err e
                             /\ CanonicalProposal_Unmarshal mp d = Err e
                             /\ CanonicalVote_Unmarshal mv d = Err e).
  { intros e He mh mb mp mv.
    unfold CanonicalPartSetHeader_Unmarshal, CanonicalBlockID_Unmarshal,
      CanonicalProposal_Unmarshal, CanonicalVote_Unmarshal.
    subst d. rewrite !Unmarshal_with_first_round by exact Hw. rewrite He.
    repeat split; reflexivity. }
  split.
  - intros H4. apply Hall. rewrite Htag, H4. reflexivity.
  - intros H4 Hf. apply Hall. rewrite Htag.
    destruct (Z.eqb_spec (Z.land wire 7) 4); [contradiction|].
    destruct (Z.leb_spec fieldNum 0); [reflexivity | lia].
Qed.

(** X8. A field of the message that arrives with another wire type than
    the one of its declaration is an error, "wrong wireType", for each of
    the four decoders: the tables give the wire type of every field
    number. *)
Theorem wrong_wire_type_is_an_error (fieldNum wireType expected : Z) (rest : list byte) :
  0 <= wireType < 8 -> wireType <> 4 -> wireType <> expected ->
  let d := varint (tag_value fieldNum wireType) ++ rest in
  (In (fieldNum, expected) [(1, 0); (2, 2)] ->
   forall m, CanonicalPartSetHeader_Unmarshal m d = Err (ErrWrongWireType wireType fieldNum))
  /\ (In (fieldNum, expected) [(1, 2); (2, 2)] ->
      forall m, CanonicalBlockID_Unmarshal m d = Err (ErrWrongWireType wireType fieldNum))
  /\ (In (fieldNum, expected) [(1, 0); (2, 1); (3, 1); (4, 0); (5, 2); (6, 2); (7, 2)] ->
      forall m, CanonicalProposal_Unmarshal m d = Err (ErrWrongWireType wireType fieldNum))
  /\ (In (fieldNum, expected) [(1, 0); (2, 1); (3, 1); (4, 2); (5, 2); (6, 2); (7, 2)] ->
      forall m, CanonicalVote_Unmarshal m d = Err (ErrWrongWireType wireType fieldNum)).
Proof.
  intros Hw H4 Hne d.
  assert (Hround : forall M (field : M -> Z -> Z -> list byte -> Z -> Z -> result (M * Z)) m,
             1 <= fieldNum <= 7 ->
             (forall i, field m fieldNum wireType d 0 i
                        = Err (ErrWrongWireType wireType fieldNum)) ->
             Unmarshal_with field m d = Err (ErrWrongWireType wireType fieldNum)).
  { intros M field m Hf Hfield. subst d.
    assert (Hr : 0 <= tag_value fieldNum wireType < 2 ^ 64)
      by (rewrite tag_value_plus by lia; lia).
    rewrite Unmarshal_with_first_round by exact Hr.
    rewrite (read_tag_value _ 0 fieldNum wireType rest) by
      (try apply at_index_start; lia).
    cbn [bind]. now rewrite Hfield. }
  assert (Hwrong : forall e, expected = e -> negb (wireType =? e) = true).
  { intros e <-. apply negb_true_iff, Z.eqb_neq. exact Hne. }
  repeat apply conj; intros Hin m; cbn [In] in Hin;
    repeat (destruct Hin as [Hin|Hin]; [injection Hin as <- He | ]); try contradiction;
    (apply Hround; [lia|]; intros i;
     cbn [CanonicalPartSetHeader_field CanonicalBlockID_field
          CanonicalProposal_field CanonicalVote_field];
     now rewrite (Hwrong _ (eq_sym He))).
Qed.

(** ** Fields that the message does not know *)

Lemma payload_of_wireType wireType payload :
  payload_of wireType payload -> 0 <= wireType < 8 /\ wireType <> 4.
Proof. destruct 1; lia. Qed.

Lemma skipCanonical_complete fieldNum wireType payload rest :
  payload_of wireType payload ->
  1 <= fieldNum <= 2 ^ 31 - 1 ->
  len (varint (tag_value fieldNum wireType) ++ payload) <= MaxInt64 ->
  skipCanonical (varint (tag_value fieldNum wireType) ++ payload ++ rest)
  = Ok (len (varint (tag_value fieldNum wireType) ++ payload)).
Proof.
  intros Hp Hf Hmax. pose proof (payload_of_wireType _ _ Hp) as [Hw H4].
  destruct (tag_value_parts fieldNum wireType Hw) as [Hland _].
  assert (Hr : 0 <= tag_value fieldNum wireType < 2 ^ 64)
    by (rewrite tag_value_plus by lia; lia).
  set (tag := varint (tag_value fieldNum wireType)) in *.
  set (s := tag ++ payload ++ rest).
  pose proof (at_index_start s) as Hat.
  pose proof (at_index_app s 0 tag (payload ++ rest) Hat) as Hat1.
  rewrite Z.add_0_l in Hat1. rewrite len_app in *.
  pose proof (len_varint_pos _ Hr). fold tag in H. len_pos.
  apply skipCanonical_one_field with (wire := tag_value fieldNum wireType)
                                     (rest := payload ++ rest);
    [exact Hr | exact Hat | | lia].
  rewrite Hland. fold tag. unfold MaxInt64 in Hmax.
  destruct Hp as [v Hv | bs Hbs | bs | bs Hbs].
  - cbn [skip_field]. now rewrite (skip_varint_at s (len tag) v rest Hv Hat1).
  - cbn [skip_field]. rewrite int_small by (unfold is_int64, MinInt64, MaxInt64; lia).
    now rewrite Hbs.
  - rewrite <- app_assoc in Hat1. rewrite len_app in *.
    pose proof (len_nonneg bs). pose proof (len_nonneg (varint (uint64 (len bs)))).
    assert (Hlb : uint64 (len bs) = len bs) by (apply uint64_small; lia).
    rewrite Hlb in *.
    rewrite (skip_field_delimited s (len tag) (len bs) (bs ++ rest) 0);
      [| lia | unfold MaxInt64; lia | exact Hat1].
    apply Ok_pair_eq; [lia | reflexivity].
  - cbn [skip_field]. rewrite int_small by (unfold is_int64, MinInt64, MaxInt64; lia).
    now rewrite Hbs.
Qed.

Lemma skip_unknown_complete d i fieldNum wireType payload rest :
  payload_of wireType payload -> 1 <= fieldNum <= 2 ^ 31 - 1 -> len d <= MaxInt64 ->
  at_index d i (varint (tag_value fieldNum wireType) ++ payload ++ rest) ->
  skip_unknown d i = Ok (i + len (varint (tag_value fieldNum wireType) ++ payload)).
Proof.
  intros Hp Hf Hd Hat.
  pose proof (at_index_len _ _ _ Hat) as [Hi Hl].
  rewrite app_assoc, len_app in Hl. len_pos.
  unfold skip_unknown. cbv zeta. rewrite (slice_from_at _ _ _ Hat). cbn [bind].
  rewrite skipCanonical_complete by (try assumption; lia). cbn [bind].
  set (k := len (varint (tag_value fieldNum wireType) ++ payload)) in *.
  unfold MaxInt64 in Hd.
  rewrite !int_small by (unfold is_int64, MinInt64, MaxInt64; lia).
  destruct (Z.ltb_spec k 0); [lia|].
  destruct (Z.ltb_spec (i + k) 0); [lia|]. cbn [orb].
  destruct (Z.ltb_spec (len d) (i + k)); [lia | reflexivity].
Qed.

Lemma Unmarshal_loop_unknown_complete {M}
  (field : M -> Z -> Z -> list byte -> Z -> Z -> result (M * Z))
  fuel d m i fieldNum wireType payload rest :
  (forall m j, field m fieldNum wireType d i j = field_default m d i) ->
  payload_of wireType payload -> 1 <= fieldNum <= 2 ^ 31 - 1 -> len d <= MaxInt64 ->
  at_index d i (varint (tag_value fieldNum wireType) ++ payload ++ rest) ->
  Unmarshal_loop field (S fuel) d m i
  = Unmarshal_loop field fuel d m
      (i + len (varint (tag_value fieldNum wireType) ++ payload)).
Proof.
  intros Hdef Hp Hf Hd Hat.
  pose proof (payload_of_wireType _ _ Hp) as [Hw H4].
  pose proof (at_index_len _ _ _ Hat) as [Hi Hl]. rewrite len_app in Hl.
  assert (Hr : 0 <= tag_value fieldNum wireType < 2 ^ 64)
    by (rewrite tag_value_plus by lia; lia).
  pose proof (len_varint_pos _ Hr). len_pos.
  cbn [Unmarshal_loop]. destruct (Z.ltb_spec i (len d)); [|lia]. cbv zeta.
  rewrite (read_tag_value d i fieldNum wireType (payload ++ rest)) by assumption.
  cbn [bind]. rewrite Hdef. unfold field_default.
  rewrite (skip_unknown_complete d i fieldNum wireType payload rest) by assumption.
  reflexivity.
Qed.

Lemma Unmarshal_loop_at_end {M}
  (field : M -> Z -> Z -> list byte -> Z -> Z -> result (M * Z)) fuel d m :
  Unmarshal_loop field (S fuel) d m (len d) = Ok m.
Proof.
  cbn [Unmarshal_loop]. now rewrite Z.ltb_irrefl.
Qed.

(** X9. A decoding round that meets a complete field whose number the
    message does not know, of wire type 0, 1, 2 or 5, leaves the receiver
    as it is and goes on after the field; a buffer that holds nothing but
    such a field is decoded with success into the receiver unchanged.
    The unknown numbers are those from 3 on for the part-set header and
    the block id, from 8 on for the proposal and the vote. *)
Theorem unknown_fields_are_skipped (d : list byte) (i fieldNum wireType : Z)
  (payload rest : list byte) :
  payload_of wireType payload -> len d <= MaxInt64 ->
  at_index d i (varint (tag_value fieldNum wireType) ++ payload ++ rest) ->
  let next := i + len (varint (tag_value fieldNum wireType) ++ payload) in
  (3 <= fieldNum <= 2 ^ 31 - 1 ->
   (forall fuel mh mb,
       Unmarshal_loop CanonicalPartSetHeader_field (S fuel) d mh i
       = Unmarshal_loop CanonicalPartSetHeader_field fuel d mh next
       /\ Unmarshal_loop CanonicalBlockID_field (S fuel) d mb i
          = Unmarshal_loop CanonicalBlockID_field fuel d mb next)
   /\ (i = 0 -> rest = [] ->
       forall mh mb,
         CanonicalPartSetHeader_Unmarshal mh d = Ok mh
         /\ CanonicalBlockID_Unmarshal mb d = Ok mb))
  /\ (8 <= fieldNum <= 2 ^ 31 - 1 ->
      (forall fuel mp mv,
          Unmarshal_loop CanonicalProposal_field (S fuel) d mp i
          = Unmarshal_loop CanonicalProposal_field fuel d mp next
          /\ Unmarshal_loop CanonicalVote_field (S fuel) d mv i
             = Unmarshal_loop CanonicalVote_field fuel d mv next)
      /\ (i = 0 -> rest = [] ->
          forall mp mv,
            CanonicalProposal_Unmarshal mp d = Ok mp
            /\ CanonicalVote_Unmarshal mv d = Ok mv)).
Proof.
  intros Hp Hd Hat next.
  assert (Hstep : forall M (field : M -> Z -> Z -> list byte -> Z -> Z -> result (M * Z)),
             1 <= fieldNum <= 2 ^ 31 - 1 ->
             (forall m j, field m fieldNum wireType d i j = field_default m d i) ->
             forall fuel m,
               Unmarshal_loop field (S fuel) d m i = Unmarshal_loop field fuel d m next).
  { intros M field Hf Hdef fuel m.
    now apply Unmarshal_loop_unknown_complete with (rest := rest). }
  assert (Hwhole : forall M (field : M -> Z -> Z -> list byte -> Z -> Z -> result (M * Z)),
             1 <= fieldNum <= 2 ^ 31 - 1 ->
             (forall m j, field m fieldNum wireType d i j = field_default m d i) ->
             i = 0 -> rest = [] -> forall m, Unmarshal_with field m d = Ok m).
  { intros M field Hf Hdef Hi Hrest m. unfold Unmarshal_with.
    pose proof (Hstep M field Hf Hdef (length d) m) as L.
    rewrite Hi in L. rewrite L. clear L.
    pose proof (at_index_len _ _ _ Hat) as [_ Hl].
    rewrite Hrest, app_nil_r in Hl. subst next. rewrite <- Hl.
    pose proof (payload_of_wireType _ _ Hp) as [Hw _].
    assert (Hr : 0 <= tag_value fieldNum wireType < 2 ^ 64)
      by (rewrite tag_value_plus by lia; lia).
    pose proof (len_varint_pos _ Hr). rewrite len_app in Hl. len_pos.
    assert (Hpos : 0 < len d) by lia.
    destruct (length d) eqn:E; [unfold len in Hpos; rewrite E in Hpos; lia|].
    apply Unmarshal_loop_at_end. }
  split; intros Hf; (split; [intros fuel m1 m2 | intros Hi Hrest m1 m2]).
  - split; apply Hstep; try lia; intros m j.
    + apply CanonicalPartSetHeader_field_default. lia.
    + apply CanonicalBlockID_field_default. lia.
  - split; apply Hwhole; try assumption; try lia; intros m j.
    + apply CanonicalPartSetHeader_field_default. lia.
    + apply CanonicalBlockID_field_default. lia.
  - split; apply Hstep; try lia; intros m j.
    + apply CanonicalProposal_field_default. lia.
    + apply CanonicalVote_field_default. lia.
  - split; apply Hwhole; try assumption; try lia; intros m j.
    + apply CanonicalProposal_field_default. lia.
    + apply CanonicalVote_field_default. lia.
Qed.

(** ** Varint fields are not range-checked *)

Lemma Unmarshal_single_varint {M}
  (field : M -> Z -> Z -> list byte -> Z -> Z -> result (M * Z))
  conv tag fieldNum (set : M -> Z -> M) m v :
  (forall m d i j,
      field m fieldNum 0 d i j = ('(v, j) <- read_varint conv d j ;; Ok (set m v, j))) ->
  tag_of tag = Some (fieldNum, 0) -> bits_conv conv -> 0 <= v < 2 ^ 64 ->
  Unmarshal_with field m (field_varint tag v) = Ok (set m (conv v)).
Proof.
  intros Hfield Htag Hc Hv. apply Unmarshal_with_decodes.
  set (d := field_varint tag v).
  assert (Hat : at_index d 0 (tag :: varint v ++ [])).
  { rewrite app_nil_r. apply at_index_start. }
  pose proof (at_index_cons _ _ _ _ Hat) as Hat1.
  pose proof (at_index_app _ _ _ _ Hat1) as Hat2.
  pose proof (len_varint_pos v Hv).
  apply decodes_to_field with (tag := tag) (rest := varint v ++ [])
    (fieldNum := fieldNum) (wireType := 0) (m' := set m (conv v))
    (i' := 0 + 1 + len (varint v)); try assumption; [lia | |].
  - rewrite Hfield, (read_varint_at conv d (0 + 1) v [] Hc Hv Hat1). reflexivity.
  - apply decodes_to_end. exact Hat2.
Qed.

(** X14. A varint field is stored as the low bits of the varint it
    arrives with, with no range error: the total of a part-set header is
    the varint modulo 2^32, the type of a proposal or of a vote is the
    varint wrapped to [int32], the pol_round is the varint wrapped to
    [int64].  The other fields of the receiver stay as they are. *)
Theorem varint_fields_are_wrapped (v : Z) :
  0 <= v < 2 ^ 64 ->
  (forall m,
      CanonicalPartSetHeader_Unmarshal m (field_varint Byte.x08 v)
      = Ok {| psh_Total := v mod 2 ^ 32; psh_Hash := psh_Hash m |})
  /\ (forall m,
      CanonicalProposal_Unmarshal m (field_varint Byte.x08 v)
      = Ok (with_prop_Type m ((v + 2 ^ 31) mod 2 ^ 32 - 2 ^ 31)))
  /\ (forall m,
      CanonicalProposal_Unmarshal m (field_varint Byte.x20 v)
      = Ok (with_prop_POLRound m ((v + 2 ^ 63) mod 2 ^ 64 - 2 ^ 63)))
  /\ (forall m,
      CanonicalVote_Unmarshal m (field_varint Byte.x08 v)
      = Ok (with_vote_Type m ((v + 2 ^ 31) mod 2 ^ 32 - 2 ^ 31))).
Proof.
  intros Hv. split; [|split; [|split]]; intros m.
  - apply (Unmarshal_single_varint CanonicalPartSetHeader_field uint32 Byte.x08 1
             (fun m v => {| psh_Total := v; psh_Hash := psh_Hash m |}));
      [reflexivity | reflexivity | apply bits_conv_uint32 | exact Hv].
  - apply (Unmarshal_single_varint CanonicalProposal_field int32 Byte.x08 1 with_prop_Type);
      [reflexivity | reflexivity | apply bits_conv_int32 | exact Hv].
  - apply (Unmarshal_single_varint CanonicalProposal_field int64 Byte.x20 4
             with_prop_POLRound);
      [reflexivity | reflexivity | apply bits_conv_int64 | exact Hv].
  - apply (Unmarshal_single_varint CanonicalVote_field int32 Byte.x08 1 with_vote_Type);
      [reflexivity | reflexivity | apply bits_conv_int32 | exact Hv].
Qed.

(** ** The part-set header *)

(** X4. Decoding the encoding of a part-set header [x] into a receiver [m]
    overwrites the fields that [x] sets and keeps those of [m] for the
    fields that the encoding leaves out (a zero total, an empty hash); so
    decoding into a fresh message gives [x] back. *)
Theorem PartSetHeader_decode_encode (x m : CanonicalPartSetHeader) :
  wf_PartSetHeader x -> CanonicalPartSetHeader_Size x <= MaxInt64 ->
  (bs <- CanonicalPartSetHeader_Marshal x ;; CanonicalPartSetHeader_Unmarshal m bs)
  = Ok {| psh_Total := if psh_Total x =? 0 then psh_Total m else psh_Total x;
          psh_Hash := if 0 <? len (psh_Hash x) then psh_Hash x else psh_Hash m |}
  /\ (bs <- CanonicalPartSetHeader_Marshal x ;;
      CanonicalPartSetHeader_Unmarshal CanonicalPartSetHeader_zero bs) = Ok x.
Proof.
  intros Hwf Hsize.
  assert (Hgen : forall m,
             CanonicalPartSetHeader_Unmarshal m (wire_PartSetHeader x)
             = Ok {| psh_Total := if psh_Total x =? 0 then psh_Total m else psh_Total x;
                     psh_Hash := if 0 <? len (psh_Hash x) then psh_Hash x
                                 else psh_Hash m |}).
  { clear m. intros m. rewrite <- len_wire_PartSetHeader in Hsize.
    destruct x as [total hash]. destruct m as [total0 hash0].
    unfold wf_PartSetHeader in Hwf. cbn [psh_Total psh_Hash] in *.
    apply Unmarshal_with_decodes.
    set (d := wire_PartSetHeader _) in *.
    pose proof (at_index_start d) as H0. unfold d at 2 in H0.
    unfold wire_PartSetHeader in H0. cbn [psh_Total psh_Hash] in H0.
    pose proof (at_index_app _ _ _ _ H0) as H1.
    rewrite <- (app_nil_r (opt (0 <? len hash) _)) in H1.
    pose proof (at_index_app _ _ _ _ H1) as H2.
    apply step_opt with
      (m' := {| psh_Total := if total =? 0 then total0 else total; psh_Hash := hash0 |})
      (c := negb (total =? 0)) (chunk := field_varint Byte.x08 (uint64 total)).
    - intros Hc Hrest. rewrite Hc in H0. cbn [opt] in H0.
      apply negb_true_iff in Hc. rewrite Hc in Hrest |- *. cbv iota in Hrest |- *.
      apply step_varint with (conv := uint32) (tag := Byte.x08) (fieldNum := 1)
        (set := fun m v => {| psh_Total := v; psh_Hash := psh_Hash m |}) (v := total)
        (post := opt (0 <? len hash) (field_bytes Byte.x12 hash));
        try assumption; try reflexivity;
        [apply bits_conv_uint32 | now rewrite uint32_uint64, uint32_small].
    - intros Hc. apply negb_false_iff in Hc. now rewrite Hc.
    - apply step_opt with
        (m' := {| psh_Total := if total =? 0 then total0 else total;
                  psh_Hash := if 0 <? len hash then hash else hash0 |})
        (c := 0 <? len hash) (chunk := field_bytes Byte.x12 hash).
      + intros Hc Hrest. rewrite Hc in H1. cbn [opt] in H1. rewrite Hc in Hrest |- *.
        cbv iota in Hrest |- *.
        apply step_delimited with (conv := int) (toInt := fun z => z) (tag := Byte.x12)
          (fieldNum := 2) (dec := fun (_ : CanonicalPartSetHeader) sub => Ok sub)
          (set := fun m bs => {| psh_Total := psh_Total m; psh_Hash := bs |})
          (bs := hash) (x := hash) (post := []);
          try assumption; try reflexivity;
          [apply bits_conv_int | apply int_uint64_len].
      + intros Hc. now rewrite Hc.
      + apply decodes_to_end. exact H2. }
  rewrite CanonicalPartSetHeader_Marshal_wire. cbn [bind]. split; [apply Hgen|].
  rewrite Hgen. cbn [CanonicalPartSetHeader_zero psh_Total psh_Hash].
  destruct x as [total hash]. cbn [psh_Total psh_Hash]. f_equal. f_equal.
  - destruct (Z.eqb_spec total 0); congruence.
  - destruct (Z.ltb_spec 0 (len hash)) as [|Hz]; [reflexivity|].
    now rewrite (len_zero_nil hash Hz).
Qed.

(** ** The decoders return on every input *)

Lemma advances_returns {A} i hi (r : result (A * Z)) : advances i hi r -> returns r.
Proof. destruct r as [[a j]| | |]; cbn; tauto. Qed.

Lemma advances_bind {A B} i i0 hi (r : result (A * Z)) (k : A * Z -> result (B * Z)) :
  advances i hi r ->
  (forall a j, r = Ok (a, j) -> i < j <= hi -> advances i0 hi (k (a, j))) ->
  advances i0 hi (bind r k).
Proof.
  destruct r as [[a j]| | |]; cbn [advances bind]; intros H Hk; try tauto.
  now apply Hk.
Qed.

Lemma advances_weaken {A} i i' hi (r : result (A * Z)) :
  i' <= i -> advances i hi r -> advances i' hi r.
Proof. destruct r as [[a j]| | |]; cbn; intros; try tauto; lia. Qed.

Lemma index_Ok d i : 0 <= i < len d -> exists b, index d i = Ok b.
Proof.
  intros H. unfold index. rewrite andb_range_true by lia.
  destruct (nth_error d (Z.to_nat i)) as [b|] eqn:E; [now exists b|].
  apply nth_error_None in E. unfold len in H. lia.
Qed.

Lemma varint_loop_advances conv d :
  forall fuel shift acc i,
    0 <= i -> (0 < fuel)%nat -> 64 <= shift + 7 * (Z.of_nat fuel - 1) ->
    advances i (len d) (varint_loop conv d fuel shift acc i).
Proof.
  induction fuel as [|fuel IH]; intros shift acc i Hi Hf Hs; [lia|].
  cbn [varint_loop].
  destruct (Z.leb_spec 64 shift); [exact I|].
  destruct (Z.leb_spec (len d) i); [exact I|].
  destruct (index_Ok d i ltac:(lia)) as [b ->]. cbn [bind]. cbv zeta.
  destruct (byte.unsigned b <? 128); [cbn; lia|].
  eapply advances_weaken; [|apply IH; lia]. lia.
Qed.

Lemma read_varint_advances conv d i :
  0 <= i -> advances i (len d) (read_varint conv d i).
Proof. intros Hi. apply varint_loop_advances; lia. Qed.

(** The value a varint loop accumulates is a value of the accumulator's
    type. *)
Lemma bits_conv_idem conv : bits_conv conv -> forall x, conv (conv x) = conv x.
Proof.
  intros (_ & _ & H3) x. specialize (H3 x 0 ltac:(lia)).
  now rewrite !Z.shiftl_0_r in H3.
Qed.

Lemma varint_loop_image conv d :
  bits_conv conv ->
  forall fuel shift acc i v j,
    conv acc = acc ->
    varint_loop conv d fuel shift acc i = Ok (v, j) -> conv v = v.
Proof.
  intros Hc. pose proof (bits_conv_idem conv Hc) as Hidem.
  destruct Hc as (_ & Hlor & _).
  induction fuel as [|fuel IH]; intros shift acc i v j Hacc H; [discriminate|].
  cbn [varint_loop] in H.
  destruct (64 <=? shift); [discriminate|].
  destruct (len d <=? i); [discriminate|].
  destruct (index d i) as [b| | |]; try discriminate. cbn [bind] in H. cbv zeta in H.
  assert (Hacc' : conv (Z.lor acc (conv (Z.shiftl (conv (Z.land (byte.unsigned b) 127)) shift)))
                  = Z.lor acc (conv (Z.shiftl (conv (Z.land (byte.unsigned b) 127)) shift))).
  { now rewrite Hlor, Hidem, Hacc. }
  destruct (byte.unsigned b <? 128).
  - injection H as <- <-. exact Hacc'.
  - now apply (IH _ _ _ _ _ Hacc' H).
Qed.

Lemma read_varint_image conv d i v j :
  bits_conv conv -> read_varint conv d i = Ok (v, j) -> conv v = v.
Proof.
  intros Hc H. apply (varint_loop_image conv d Hc 11 0 0 i v j); [|exact H].
  now destruct Hc.
Qed.

Lemma int64_range z : is_int64 (int64 z).
Proof.
  unfold is_int64, int64, MinInt64, MaxInt64.
  pose proof (Z.mod_pos_bound (z + 2 ^ 63) (2 ^ 64) ltac:(lia)). lia.
Qed.

Lemma int_range z : is_int64 (int z).
Proof. apply int64_range. Qed.

(** An offset that is not negative after the conversion to [int] has not
    wrapped around, when its two terms fit [int]. *)
Lemma int_sum_nonneg a b :
  0 <= a <= MaxInt64 -> 0 <= b <= MaxInt64 -> 0 <= int (a + b) -> int (a + b) = a + b.
Proof.
  unfold int, int64, MaxInt64. intros Ha Hb H.
  destruct (Z.le_gt_cases (2 ^ 63) (a + b)) as [Hge|Hlt].
  - exfalso. replace (a + b + 2 ^ 63) with (a + b - 2 ^ 63 + 1 * 2 ^ 64) in H by lia.
    rewrite Z.mod_add, Z.mod_small in H by lia. lia.
  - rewrite Z.mod_small by lia. lia.
Qed.

Lemma read_tag_advances d i : 0 <= i -> advances i (len d) (read_tag d i).
Proof.
  intros Hi. unfold read_tag.
  pose proof (read_varint_advances uint64 d i Hi) as H.
  destruct (read_varint uint64 d i) as [[wire j]| | |]; cbn [advances bind] in *; try tauto.
  cbv zeta. destruct (int (Z.land wire 7) =? 4); [exact I|].
  destruct (int32 (Z.shiftr wire 3) <=? 0); [exact I | exact H].
Qed.

(** The header of a length-delimited field gives a payload inside the
    buffer. *)
Lemma read_length_inside conv toInt d i :
  (forall z, is_int64 (toInt (conv z))) -> bits_conv conv ->
  0 <= i -> len d <= MaxInt64 ->
  match read_length conv toInt d i with
  | Ok (j, postIndex) => i < j <= postIndex /\ postIndex <= len d
  | Err _ => True
  | Panic | OutOfFuel => False
  end.
Proof.
  intros Hrange Hc Hi Hd. unfold read_length.
  pose proof (read_varint_advances conv d i Hi) as H.
  destruct (read_varint conv d i) as [[v j]| | |] eqn:E;
    cbn [advances bind] in *; try tauto.
  cbv zeta. pose proof (read_varint_image conv d i v j Hc E) as Hv.
  pose proof (Hrange v) as Hr. rewrite Hv in Hr. unfold is_int64 in Hr.
  destruct (Z.ltb_spec (toInt v) 0); [exact I|].
  destruct (Z.ltb_spec (int (j + toInt v)) 0); [exact I|].
  destruct (Z.ltb_spec (len d) (int (j + toInt v))); [exact I|].
  rewrite int_sum_nonneg in * by lia. lia.
Qed.

Lemma slice_Ok d i j : 0 <= i <= j -> j <= len d -> exists bs, slice d i j = Ok bs /\ len bs = j - i.
Proof.
  intros H1 H2. unfold slice.
  destruct (Z.leb_spec 0 i); [|lia]. destruct (Z.leb_spec i j); [|lia].
  destruct (Z.leb_spec j (len d)); [|lia]. cbn [andb].
  eexists. split; [reflexivity|]. rewrite len_firstn; [lia|].
  rewrite len_skipn by lia. lia.
Qed.

Lemma read_fixed64_advances d i : 0 <= i -> advances i (len d) (read_fixed64 d i).
Proof.
  intros Hi. unfold read_fixed64.
  destruct (Z.ltb_spec (len d) (i + 8)); [exact I|].
  unfold slice_from. rewrite andb_range_le_true by lia. cbn [bind]. unfold Uint64.
  destruct (Z.leb_spec 8 (len (skipn (Z.to_nat i) d))) as [_|Hlt].
  - cbn [bind advances]. lia.
  - rewrite len_skipn in Hlt by lia. lia.
Qed.

Lemma skip_varint_loop_range d i :
  0 <= i ->
  match skip_varint_loop d 11 0 i with
  | Ok j => i < j <= len d
  | Err _ => True
  | Panic | OutOfFuel => False
  end.
Proof.
  intros Hi. rewrite (skip_varint_loop_varint_loop d 11 0 0 i).
  pose proof (varint_loop_advances (fun z => z) d 11 0 0 i Hi ltac:(lia) ltac:(lia)) as H.
  now destruct (varint_loop (fun z => z) d 11 0 0 i) as [[v j]| | |].
Qed.

(** The index after a field that [skipCanonical] accepts, as the test
    [iNdEx < 0] leaves it. *)
Lemma skip_field_range d wireType i depth :
  0 <= i <= len d -> len d <= MaxInt64 -> 0 <= wireType < 8 ->
  match skip_field d wireType i depth with
  | Ok (j, _) => j < 0 \/ i <= j <= MaxInt64
  | Err _ => True
  | Panic | OutOfFuel => False
  end.
Proof.
  intros Hi Hd Hw. unfold MaxInt64 in Hd.
  assert (Hfix : forall k, 0 <= k <= 8 -> int (i + k) < 0 \/ i <= int (i + k) <= MaxInt64).
  { intros k Hk. destruct (Z.lt_ge_cases (int (i + k)) 0) as [|Hge]; [now left | right].
    rewrite int_sum_nonneg by (unfold MaxInt64; lia). unfold MaxInt64.
    pose proof (int_range (i + k)) as R. unfold is_int64, MaxInt64 in R.
    rewrite int_sum_nonneg in R by (unfold MaxInt64; lia). lia. }
  assert (Hcases : wireType = 0 \/ wireType = 1 \/ wireType = 2 \/ wireType = 3
                   \/ wireType = 4 \/ wireType = 5 \/ wireType = 6 \/ wireType = 7) by lia.
  destruct Hcases as [->|[->|[->|[->|[->|[->|[->| ->]]]]]]]; cbn [skip_field].
  - pose proof (skip_varint_loop_range d i ltac:(lia)) as H.
    destruct (skip_varint_loop d 11 0 i); cbn [bind]; try tauto. unfold MaxInt64. lia.
  - apply Hfix. lia.
  - pose proof (read_varint_advances int d i ltac:(lia)) as H.
    destruct (read_varint int d i) as [[length j]| | |] eqn:E;
      cbn [advances bind] in *; try tauto.
    pose proof (read_varint_image int d i length j bits_conv_int E) as Hl.
    pose proof (int_range length) as R. rewrite Hl in R. unfold is_int64, MaxInt64 in R.
    destruct (Z.ltb_spec length 0); [exact I|].
    destruct (Z.lt_ge_cases (int (j + length)) 0) as [|Hge]; [now left | right].
    pose proof (int_range (j + length)) as R'. unfold is_int64 in R'.
    rewrite int_sum_nonneg in * by (unfold MaxInt64; lia). lia.
  - unfold MaxInt64. lia.
  - destruct (depth =? 0); [exact I|]. unfold MaxInt64. lia.
  - apply Hfix. lia.
  - exact I.
  - exact I.
Qed.

(** Every round of the skipper that goes on has advanced. *)
Lemma skip_field_forward d wireType i0 i depth :
  0 <= i0 -> i0 < i <= len d -> len d <= MaxInt64 -> 0 <= wireType < 8 ->
  match skip_field d wireType i depth with
  | Ok (j, _) => j < 0 \/ i0 < j <= MaxInt64
  | Err _ => True
  | Panic | OutOfFuel => False
  end.
Proof.
  intros Hi0 Hi Hd Hw.
  pose proof (skip_field_range d wireType i depth ltac:(lia) Hd Hw) as H.
  destruct (skip_field d wireType i depth) as [[j dep]| | |]; try tauto. lia.
Qed.

Lemma skip_loop_range d :
  len d <= MaxInt64 ->
  forall fuel i depth,
    0 <= i -> len d - i < Z.of_nat fuel -> (0 < fuel)%nat ->
    match skip_loop fuel d i depth with
    | Ok n => i < n <= MaxInt64
    | Err _ => True
    | Panic | OutOfFuel => False
    end.
Proof.
  intros Hd. induction fuel as [|fuel IH]; intros i depth Hi Hf Hpos; [lia|].
  cbn [skip_loop]. destruct (Z.ltb_spec i (len d)) as [Hlt|]; [|exact I].
  pose proof (read_varint_advances uint64 d i Hi) as Hr.
  destruct (read_varint uint64 d i) as [[wire i1]| | |]; cbn [advances bind] in *; try tauto.
  cbv zeta. rewrite int_land7.
  pose proof (skip_field_forward d (Z.land wire 7) i i1 depth Hi ltac:(lia) Hd
                (land7_range wire)) as Hs.
  destruct (skip_field d (Z.land wire 7) i1 depth) as [[j dep]| | |];
    cbn [bind]; try tauto.
  destruct (Z.ltb_spec j 0); [exact I|].
  destruct Hs as [Hs|Hs]; [lia|].
  destruct (dep =? 0); [lia|].
  specialize (IH j dep ltac:(lia) ltac:(lia) ltac:(lia)).
  destruct (skip_loop fuel d j dep); try tauto. lia.
Qed.

Lemma skipCanonical_range d :
  len d <= MaxInt64 ->
  match skipCanonical d with
  | Ok n => 0 < n <= MaxInt64
  | Err _ => True
  | Panic | OutOfFuel => False
  end.
Proof.
  intros Hd. unfold skipCanonical.
  apply (skip_loop_range d Hd (S (length d)) 0 0); unfold len; lia.
Qed.

Lemma skip_unknown_advances d preIndex :
  0 <= preIndex <= len d -> len d <= MaxInt64 ->
  match skip_unknown d preIndex with
  | Ok j => preIndex < j <= len d
  | Err _ => True
  | Panic | OutOfFuel => False
  end.
Proof.
  intros Hi Hd. unfold skip_unknown. cbv zeta.
  unfold slice_from. rewrite andb_range_le_true by lia. cbn [bind].
  assert (Hr : len (skipn (Z.to_nat preIndex) d) <= MaxInt64).
  { rewrite len_skipn by lia. lia. }
  pose proof (skipCanonical_range _ Hr) as H.
  destruct (skipCanonical (skipn (Z.to_nat preIndex) d)) as [n| | |]; cbn [bind]; try tauto.
  destruct (Z.ltb_spec n 0); [exact I|].
  destruct (Z.ltb_spec (int (preIndex + n)) 0); [exact I|]. cbn [orb].
  destruct (Z.ltb_spec (len d) (int (preIndex + n))); [exact I|].
  rewrite int_sum_nonneg in * by lia. lia.
Qed.

Lemma field_default_advances {M} (m : M) d preIndex :
  0 <= preIndex <= len d -> len d <= MaxInt64 ->
  advances preIndex (len d) (field_default m d preIndex).
Proof.
  intros Hi Hd. unfold field_default.
  pose proof (skip_unknown_advances d preIndex Hi Hd) as H.
  destruct (skip_unknown d preIndex); cbn [bind advances]; tauto.
Qed.

(** The three kinds of cases of the switch of a decoder. *)
Lemma case_varint_advances {M} conv (set : Z -> M) d pre i :
  0 <= pre < i ->
  advances pre (len d) ('(v, j) <- read_varint conv d i ;; Ok (set v, j)).
Proof.
  intros Hi. eapply advances_bind; [apply (read_varint_advances conv d i); lia|].
  intros v j _ Hj. cbn [advances]. lia.
Qed.

Lemma case_fixed64_advances {M} (set : Z -> M) d pre i :
  0 <= pre < i ->
  advances pre (len d) ('(v, j) <- read_fixed64 d i ;; Ok (set v, j)).
Proof.
  intros Hi. eapply advances_bind; [apply (read_fixed64_advances d i); lia|].
  intros v j _ Hj. cbn [advances]. lia.
Qed.

Lemma case_delimited_advances {M X} conv toInt (dec : list byte -> result X)
  (set : X -> M) d pre i :
  (forall z, is_int64 (toInt (conv z))) -> bits_conv conv ->
  0 <= pre < i -> len d <= MaxInt64 ->
  (forall sub, len sub <= len d -> returns (dec sub)) ->
  advances pre (len d)
    ('(j, postIndex) <- read_length conv toInt d i ;;
     sub <- slice d j postIndex ;;
     x <- dec sub ;;
     Ok (set x, postIndex)).
Proof.
  intros Hrange Hc Hi Hd Hdec.
  pose proof (read_length_inside conv toInt d i Hrange Hc ltac:(lia) Hd) as H.
  destruct (read_length conv toInt d i) as [[j postIndex]| | |]; cbn [bind advances];
    try tauto.
  destruct (slice_Ok d j postIndex) as (sub & -> & Hsub); try lia. cbn [bind].
  specialize (Hdec sub ltac:(lia)).
  destruct (dec sub); cbn [bind advances returns] in *; try tauto. lia.
Qed.

Lemma is_int64_int_id z : is_int64 ((fun z => z) (int z)).
Proof. apply int_range. Qed.

Lemma is_int64_int_uint64 z : is_int64 (int (uint64 z)).
Proof. apply int_range. Qed.

Lemma returns_Ok {A} (a : A) : returns (Ok a).
Proof. exact I. Qed.

Lemma read_tag_fieldNum d i fieldNum wireType j :
  read_tag d i = Ok (fieldNum, wireType, j) -> 1 <= fieldNum.
Proof.
  unfold read_tag. destruct (read_varint uint64 d i) as [[wire i1]| | |]; try discriminate.
  cbn [bind]. cbv zeta. destruct (int (Z.land wire 7) =? 4); [discriminate|].
  destruct (Z.leb_spec (int32 (Z.shiftr wire 3)) 0); [discriminate|].
  intros [= <- _ _]. lia.
Qed.

(** A decoding loop whose switch advances inside the buffer returns. *)
Lemma Unmarshal_loop_returns {M}
  (field : M -> Z -> Z -> list byte -> Z -> Z -> result (M * Z)) d :
  (forall m fieldNum wireType pre i,
      1 <= fieldNum -> 0 <= pre < i -> i <= len d ->
      advances pre (len d) (field m fieldNum wireType d pre i)) ->
  forall fuel m i,
    0 <= i <= len d -> len d - i < Z.of_nat fuel ->
    returns (Unmarshal_loop field fuel d m i).
Proof.
  intros Hfield. induction fuel as [|fuel IH]; intros m i Hi Hf; [lia|].
  cbn [Unmarshal_loop]. destruct (Z.ltb_spec i (len d)) as [Hlt|Hge].
  - cbv zeta. pose proof (read_tag_advances d i ltac:(lia)) as Ht.
    destruct (read_tag d i) as [[[fieldNum wireType] i1]| | |] eqn:E;
      cbn [advances bind returns] in *; try tauto.
    apply read_tag_fieldNum in E.
    specialize (Hfield m fieldNum wireType i i1 E ltac:(lia) ltac:(lia)).
    destruct (field m fieldNum wireType d i i1) as [[m' j]| | |];
      cbn [advances bind returns] in *; try tauto.
    apply IH; lia.
  - destruct (len d <? i); exact I.
Qed.

Lemma Unmarshal_with_returns {M}
  (field : M -> Z -> Z -> list byte -> Z -> Z -> result (M * Z)) d m :
  (forall m fieldNum wireType pre i,
      1 <= fieldNum -> 0 <= pre < i -> i <= len d ->
      advances pre (len d) (field m fieldNum wireType d pre i)) ->
  returns (Unmarshal_with field m d).
Proof.
  intros Hfield. unfold Unmarshal_with. apply Unmarshal_loop_returns; [exact Hfield| |].
  - pose proof (len_nonneg d). lia.
  - unfold len. lia.
Qed.

Lemma CanonicalPartSetHeader_field_advances m fieldNum wireType d pre i :
  len d <= MaxInt64 -> 1 <= fieldNum -> 0 <= pre < i -> i <= len d ->
  advances pre (len d) (CanonicalPartSetHeader_field m fieldNum wireType d pre i).
Proof.
  intros Hd Hf Hi Hl.
  assert (Hcases : fieldNum = 1 \/ fieldNum = 2 \/ 3 <= fieldNum) by lia.
  destruct Hcases as [->|[->|H3]].
  - cbn [CanonicalPartSetHeader_field]. destruct (negb (wireType =? 0)); [exact I|].
    now apply case_varint_advances.
  - cbn [CanonicalPartSetHeader_field]. destruct (negb (wireType =? 2)); [exact I|].
    apply (case_delimited_advances int (fun z => z) (fun sub => Ok sub)
             (fun bs => {| psh_Total := psh_Total m; psh_Hash := bs |}));
      try assumption; [apply is_int64_int_id | apply bits_conv_int | intros; exact I].
  - rewrite CanonicalPartSetHeader_field_default by exact H3.
    apply field_default_advances; lia.
Qed.

Lemma CanonicalPartSetHeader_Unmarshal_returns m d :
  len d <= MaxInt64 -> returns (CanonicalPartSetHeader_Unmarshal m d).
Proof.
  intros Hd. apply Unmarshal_with_returns. intros.
  now apply CanonicalPartSetHeader_field_advances.
Qed.

Lemma CanonicalBlockID_field_advances m fieldNum wireType d pre i :
  len d <= MaxInt64 -> 1 <= fieldNum -> 0 <= pre < i -> i <= len d ->
  advances pre (len d) (CanonicalBlockID_field m fieldNum wireType d pre i).
Proof.
  intros Hd Hf Hi Hl.
  assert (Hcases : fieldNum = 1 \/ fieldNum = 2 \/ 3 <= fieldNum) by lia.
  destruct Hcases as [->|[->|H3]].
  - cbn [CanonicalBlockID_field]. destruct (negb (wireType =? 2)); [exact I|].
    apply (case_delimited_advances int (fun z => z) (fun sub => Ok sub)
             (fun bs => {| bid_Hash := bs; bid_PartSetHeader := bid_PartSetHeader m |}));
      try assumption; [apply is_int64_int_id | apply bits_conv_int | intros; exact I].
  - cbn [CanonicalBlockID_field]. destruct (negb (wireType =? 2)); [exact I|].
    apply (case_delimited_advances int (fun z => z)
             (fun sub => CanonicalPartSetHeader_Unmarshal (bid_PartSetHeader m) sub)
             (fun h => {| bid_Hash := bid_Hash m; bid_PartSetHeader := h |}));
      try assumption; [apply is_int64_int_id | apply bits_conv_int |].
    intros sub Hsub. apply CanonicalPartSetHeader_Unmarshal_returns. lia.
  - rewrite CanonicalBlockID_field_default by exact H3.
    apply field_default_advances; lia.
Qed.

Lemma CanonicalBlockID_Unmarshal_returns m d :
  len d <= MaxInt64 -> returns (CanonicalBlockID_Unmarshal m d).
Proof.
  intros Hd. apply Unmarshal_with_returns. intros.
  now apply CanonicalBlockID_field_advances.
Qed.

Lemma unmarshal_BlockID_returns b d :
  len d <= MaxInt64 -> returns (unmarshal_BlockID b d).
Proof.
  intros Hd. unfold unmarshal_BlockID. cbv zeta.
  pose proof (CanonicalBlockID_Unmarshal_returns
                match b with Some b => b | None => CanonicalBlockID_zero end d Hd) as H.
  now destruct (CanonicalBlockID_Unmarshal _ d).
Qed.

Lemma CanonicalProposal_field_advances m fieldNum wireType d pre i :
  (forall bs, len bs <= len d -> returns (StdTimeUnmarshal bs)) ->
  len d <= MaxInt64 -> 1 <= fieldNum -> 0 <= pre < i -> i <= len d ->
  advances pre (len d) (CanonicalProposal_field m fieldNum wireType d pre i).
Proof.
  intros Htime Hd Hf Hi Hl.
  assert (Hcases : fieldNum = 1 \/ fieldNum = 2 \/ fieldNum = 3 \/ fieldNum = 4
                   \/ fieldNum = 5 \/ fieldNum = 6 \/ fieldNum = 7 \/ 8 <= fieldNum) by lia.
  destruct Hcases as [->|[->|[->|[->|[->|[->|[->|H8]]]]]]].
  - cbn [CanonicalProposal_field]. destruct (negb (wireType =? 0)); [exact I|].
    now apply case_varint_advances.
  - cbn [CanonicalProposal_field]. destruct (negb (wireType =? 1)); [exact I|].
    now apply case_fixed64_advances.
  - cbn [CanonicalProposal_field]. destruct (negb (wireType =? 1)); [exact I|].
    now apply case_fixed64_advances.
  - cbn [CanonicalProposal_field]. destruct (negb (wireType =? 0)); [exact I|].
    now apply case_varint_advances.
  - cbn [CanonicalProposal_field]. destruct (negb (wireType =? 2)); [exact I|].
    apply (case_delimited_advances int (fun z => z)
             (fun sub => unmarshal_BlockID (prop_BlockID m) sub) (with_prop_BlockID m));
      try assumption; [apply is_int64_int_id | apply bits_conv_int |].
    intros sub Hsub. apply unmarshal_BlockID_returns. lia.
  - cbn [CanonicalProposal_field]. destruct (negb (wireType =? 2)); [exact I|].
    apply (case_delimited_advances int (fun z => z) StdTimeUnmarshal
             (with_prop_Timestamp m));
      try assumption; [apply is_int64_int_id | apply bits_conv_int].
  - cbn [CanonicalProposal_field]. destruct (negb (wireType =? 2)); [exact I|].
    apply (case_delimited_advances uint64 int (fun sub => Ok sub) (with_prop_ChainID m));
      try assumption; [apply is_int64_int_uint64 | apply bits_conv_uint64 | intros; exact I].
  - rewrite CanonicalProposal_field_default by exact H8.
    apply field_default_advances; lia.
Qed.

Lemma unmarshal_VoteExtension_returns e d :
  (forall e, returns (VoteExtensionToSign_Unmarshal e d)) ->
  returns (unmarshal_VoteExtension e d).
Proof.
  intros Hext. unfold unmarshal_VoteExtension. cbv zeta.
  pose proof (Hext match e with Some e => e | None => VoteExtensionToSign_zero end) as H.
  now destruct (VoteExtensionToSign_Unmarshal _ d).
Qed.

Lemma CanonicalVote_field_advances m fieldNum wireType d pre i :
  (forall bs, len bs <= len d -> returns (StdTimeUnmarshal bs)) ->
  (forall e bs, len bs <= len d -> returns (VoteExtensionToSign_Unmarshal e bs)) ->
  len d <= MaxInt64 -> 1 <= fieldNum -> 0 <= pre < i -> i <= len d ->
  advances pre (len d) (CanonicalVote_field m fieldNum wireType d pre i).
Proof.
  intros Htime Hext Hd Hf Hi Hl.
  assert (Hcases : fieldNum = 1 \/ fieldNum = 2 \/ fieldNum = 3 \/ fieldNum = 4
                   \/ fieldNum = 5 \/ fieldNum = 6 \/ fieldNum = 7 \/ 8 <= fieldNum) by lia.
  destruct Hcases as [->|[->|[->|[->|[->|[->|[->|H8]]]]]]].
  - cbn [CanonicalVote_field]. destruct (negb (wireType =? 0)); [exact I|].
    now apply case_varint_advances.
  - cbn [CanonicalVote_field]. destruct (negb (wireType =? 1)); [exact I|].
    now apply case_fixed64_advances.
  - cbn [CanonicalVote_field]. destruct (negb (wireType =? 1)); [exact I|].
    now apply case_fixed64_advances.
  - cbn [CanonicalVote_field]. destruct (negb (wireType =? 2)); [exact I|].
    apply (case_delimited_advances int (fun z => z)
             (fun sub => unmarshal_BlockID (vote_BlockID m) sub) (with_vote_BlockID m));
      try assumption; [apply is_int64_int_id | apply bits_conv_int |].
    intros sub Hsub. apply unmarshal_BlockID_returns. lia.
  - cbn [CanonicalVote_field]. destruct (negb (wireType =? 2)); [exact I|].
    apply (case_delimited_advances int (fun z => z) StdTimeUnmarshal
             (with_vote_Timestamp m));
      try assumption; [apply is_int64_int_id | apply bits_conv_int].
  - cbn [CanonicalVote_field]. destruct (negb (wireType =? 2)); [exact I|].
    apply (case_delimited_advances uint64 int (fun sub => Ok sub) (with_vote_ChainID m));
      try assumption; [apply is_int64_int_uint64 | apply bits_conv_uint64 | intros; exact I].
  - cbn [CanonicalVote_field]. destruct (negb (wireType =? 2)); [exact I|].
    apply (case_delimited_advances int (fun z => z)
             (fun sub => unmarshal_VoteExtension (vote_VoteExtension m) sub)
             (with_vote_VoteExtension m));
      try assumption; [apply is_int64_int_id | apply bits_conv_int |].
    intros sub Hsub. apply unmarshal_VoteExtension_returns. intros e. now apply Hext.
  - rewrite CanonicalVote_field_default by exact H8.
    apply field_default_advances; lia.
Qed.

(** X12. On every buffer, of a length that fits [int], [skipCanonical] and
    the four decoders return with a value or an error: no index or slice
    expression is out of range, whatever the bytes, and the loops end.
    For the proposal and the vote the outside decoders of the timestamp
    and of the vote extension are supposed to return on the buffers that
    are not longer than this one.  The offset that [skipCanonical]
    returns is positive. *)
Theorem decoders_return_on_every_input (d : list byte) :
  len d <= MaxInt64 ->
  (returns (skipCanonical d) /\ forall n, skipCanonical d = Ok n -> 0 < n)
  /\ (forall m, returns (CanonicalPartSetHeader_Unmarshal m d))
  /\ (forall m, returns (CanonicalBlockID_Unmarshal m d))
  /\ ((forall bs, len bs <= len d -> returns (StdTimeUnmarshal bs)) ->
      forall m, returns (CanonicalProposal_Unmarshal m d))
  /\ ((forall bs, len bs <= len d -> returns (StdTimeUnmarshal bs)) ->
      (forall e bs, len bs <= len d -> returns (VoteExtensionToSign_Unmarshal e bs)) ->
      forall m, returns (CanonicalVote_Unmarshal m d)).
Proof.
  intros Hd. split; [|split; [|split; [|split]]].
  - pose proof (skipCanonical_range d Hd) as H.
    destruct (skipCanonical d) as [n| | |]; cbn [returns]; try tauto;
      (split; [exact I|]); intros n' [= <-]. lia.
  - intros m. now apply CanonicalPartSetHeader_Unmarshal_returns.
  - intros m. now apply CanonicalBlockID_Unmarshal_returns.
  - intros Htime m. apply Unmarshal_with_returns. intros.
    now apply CanonicalProposal_field_advances.
  - intros Htime Hext m. apply Unmarshal_with_returns. intros.
    now apply CanonicalVote_field_advances.
Qed.

(** ** Decoding a concatenation *)

Lemma at_index_skipn d i : 0 <= i <= len d -> at_index d i (skipn (Z.to_nat i) d).
Proof.
  intros Hi. exists (firstn (Z.to_nat i) d). split.
  - symmetry. apply firstn_skipn.
  - apply len_firstn. exact Hi.
Qed.

Lemma at_index_embed p d s i suffix :
  at_index d i suffix -> at_index (p ++ d ++ s) (len p + i) (suffix ++ s).
Proof.
  intros (pre & -> & Hl). exists (p ++ pre). split.
  - now rewrite <- !app_assoc.
  - rewrite len_app. lia.
Qed.

Lemma skipn_nonempty (d : list byte) i :
  0 <= i < len d -> exists b post, skipn (Z.to_nat i) d = b :: post.
Proof.
  intros Hi. destruct (skipn (Z.to_nat i) d) as [|b post] eqn:E; [|now exists b, post].
  pose proof (len_skipn d i ltac:(lia)) as L. rewrite E in L.
  change (len (@nil byte)) with 0 in L. lia.
Qed.

Lemma index_embed p d s i :
  0 <= i < len d -> index (p ++ d ++ s) (len p + i) = index d i.
Proof.
  intros Hi. destruct (skipn_nonempty d i Hi) as (b & post & E).
  pose proof (at_index_skipn d i ltac:(lia)) as Hat. rewrite E in Hat.
  rewrite (index_at d i b post Hat).
  apply (index_at _ _ b (post ++ s)). apply (at_index_embed p d s i (b :: post) Hat).
Qed.

Lemma slice_from_embed p d s i :
  0 <= i <= len d ->
  slice_from (p ++ d ++ s) (len p + i) = Ok (skipn (Z.to_nat i) d ++ s).
Proof.
  intros Hi. apply slice_from_at. apply at_index_embed. now apply at_index_skipn.
Qed.

Lemma firstn_app_short {A} n (a b : list A) :
  (n <= length a)%nat -> firstn n (a ++ b) = firstn n a.
Proof.
  intros H. rewrite firstn_app. replace (n - length a)%nat with 0%nat by lia.
  cbn [firstn]. apply app_nil_r.
Qed.

Lemma slice_embed p d s i j :
  0 <= i <= j -> j <= len d ->
  slice (p ++ d ++ s) (len p + i) (len p + j) = slice d i j.
Proof.
  intros Hi Hj. pose proof (len_nonneg p). pose proof (len_nonneg s).
  unfold slice. rewrite !len_app.
  destruct (Z.leb_spec 0 i); [|lia]. destruct (Z.leb_spec i j); [|lia].
  destruct (Z.leb_spec j (len d)); [|lia].
  destruct (Z.leb_spec 0 (len p + i)); [|lia].
  destruct (Z.leb_spec (len p + i) (len p + j)); [|lia].
  destruct (Z.leb_spec (len p + j) (len p + (len d + len s))); [|lia].
  cbn [andb]. f_equal.
  replace (len p + j - (len p + i)) with (j - i) by lia.
  replace (Z.to_nat (len p + i)) with (length p + Z.to_nat i)%nat by (unfold len; lia).
  rewrite skipn_app, skipn_all2 by lia.
  replace (length p + Z.to_nat i - length p)%nat with (Z.to_nat i) by lia.
  cbn [app]. rewrite skipn_app. apply firstn_app_short.
  rewrite length_skipn. unfold len in *. lia.
Qed.

Lemma varint_loop_embed conv p d s :
  forall fuel shift acc i v j,
    0 <= i -> varint_loop conv d fuel shift acc i = Ok (v, j) ->
    varint_loop conv (p ++ d ++ s) fuel shift acc (len p + i) = Ok (v, len p + j).
Proof.
  pose proof (len_nonneg p). pose proof (len_nonneg s).
  induction fuel as [|fuel IH]; intros shift acc i v j Hi H'; [discriminate|].
  cbn [varint_loop] in *.
  destruct (64 <=? shift); [discriminate|].
  destruct (Z.leb_spec (len d) i); [discriminate|].
  destruct (Z.leb_spec (len (p ++ d ++ s)) (len p + i)) as [Hle|_];
    [rewrite !len_app in Hle; lia|].
  rewrite index_embed by lia.
  destruct (index d i) as [b| | |]; try discriminate. cbn [bind] in *. cbv zeta in *.
  destruct (byte.unsigned b <? 128).
  - injection H' as <- <-. apply Ok_pair_eq; [reflexivity | lia].
  - replace (len p + i + 1) with (len p + (i + 1)) by lia. apply IH; [lia | exact H'].
Qed.

Lemma read_varint_embed conv p d s i v j :
  0 <= i -> read_varint conv d i = Ok (v, j) ->
  read_varint conv (p ++ d ++ s) (len p + i) = Ok (v, len p + j).
Proof. apply varint_loop_embed. Qed.

Lemma read_tag_embed p d s i fieldNum wireType j :
  0 <= i -> read_tag d i = Ok (fieldNum, wireType, j) ->
  read_tag (p ++ d ++ s) (len p + i) = Ok (fieldNum, wireType, len p + j).
Proof.
  intros Hi. unfold read_tag.
  destruct (read_varint uint64 d i) as [[wire i1]| | |] eqn:E; try discriminate.
  rewrite (read_varint_embed uint64 p d s i wire i1 Hi E). cbn [bind]. cbv zeta.
  destruct (int (Z.land wire 7) =? 4); [discriminate|].
  destruct (int32 (Z.shiftr wire 3) <=? 0); [discriminate|].
  now intros [= <- <- <-].
Qed.

Lemma read_length_embed conv toInt p d s i j postIndex :
  (forall z, is_int64 (toInt (conv z))) -> bits_conv conv ->
  0 <= i -> len (p ++ d ++ s) <= MaxInt64 ->
  read_length conv toInt d i = Ok (j, postIndex) ->
  read_length conv toInt (p ++ d ++ s) (len p + i) = Ok (len p + j, len p + postIndex).
Proof.
  intros Hrange Hc Hi Hd. pose proof (len_nonneg p). pose proof (len_nonneg s).
  pose proof Hd as Hd'. rewrite !len_app in Hd'. unfold read_length.
  pose proof (read_varint_advances conv d i Hi) as Ha.
  destruct (read_varint conv d i) as [[v i1]| | |] eqn:E; try discriminate.
  cbn [advances] in Ha.
  rewrite (read_varint_embed conv p d s i v i1 Hi E). cbn [bind]. cbv zeta.
  pose proof (read_varint_image conv d i v i1 Hc E) as Hv.
  pose proof (Hrange v) as Hr. rewrite Hv in Hr. unfold is_int64 in Hr.
  destruct (Z.ltb_spec (toInt v) 0); [discriminate|].
  destruct (Z.ltb_spec (int (i1 + toInt v)) 0); [discriminate|].
  destruct (Z.ltb_spec (len d) (int (i1 + toInt v))); [discriminate|].
  intros [= <- <-].
  assert (Heq : int (i1 + toInt v) = i1 + toInt v) by (apply int_sum_nonneg; lia).
  rewrite Heq in *.
  replace (len p + i1 + toInt v) with (len p + (i1 + toInt v)) by lia.
  rewrite int_small by (unfold is_int64, MinInt64, MaxInt64 in *; lia).
  destruct (Z.ltb_spec (len p + (i1 + toInt v)) 0); [lia|].
  destruct (Z.ltb_spec (len (p ++ d ++ s)) (len p + (i1 + toInt v))) as [Hlt|_];
    [rewrite !len_app in Hlt; lia | reflexivity].
Qed.

Lemma read_fixed64_embed p d s i v j :
  0 <= i -> read_fixed64 d i = Ok (v, j) ->
  read_fixed64 (p ++ d ++ s) (len p + i) = Ok (v, len p + j).
Proof.
  intros Hi. pose proof (len_nonneg p). pose proof (len_nonneg s). unfold read_fixed64.
  destruct (Z.ltb_spec (len d) (i + 8)); [discriminate|].
  destruct (Z.ltb_spec (len (p ++ d ++ s)) (len p + i + 8)) as [Hlt|_];
    [rewrite !len_app in Hlt; lia|].
  rewrite slice_from_embed by lia.
  unfold slice_from. rewrite andb_range_le_true by lia. cbn [bind]. unfold Uint64.
  assert (Hl : len (skipn (Z.to_nat i) d) = len d - i) by (apply len_skipn; lia).
  destruct (Z.leb_spec 8 (len (skipn (Z.to_nat i) d))); [|lia].
  destruct (Z.leb_spec 8 (len (skipn (Z.to_nat i) d ++ s))) as [_|Hlt];
    [|rewrite len_app in Hlt; lia].
  cbn [bind]. rewrite firstn_app_short by (unfold len in *; lia).
  intros [= <- <-]. apply Ok_pair_eq; [reflexivity | lia].
Qed.

Lemma skip_varint_loop_embed p d s i j :
  0 <= i -> skip_varint_loop d 11 0 i = Ok j ->
  skip_varint_loop (p ++ d ++ s) 11 0 (len p + i) = Ok (len p + j).
Proof.
  intros Hi. rewrite (skip_varint_loop_varint_loop d 11 0 0 i).
  rewrite (skip_varint_loop_varint_loop (p ++ d ++ s) 11 0 0 (len p + i)).
  destruct (varint_loop (fun z => z) d 11 0 0 i) as [[v j']| | |] eqn:E; try discriminate.
  cbn [index_result]. intros [= <-].
  now rewrite (varint_loop_embed (fun z => z) p d s 11 0 0 i v j' Hi E).
Qed.

Lemma skip_field_embed p d s wireType i depth j depth' :
  len (p ++ d ++ s) <= MaxInt64 -> 0 <= wireType < 8 ->
  0 <= i <= len d -> 0 <= j <= len d ->
  skip_field d wireType i depth = Ok (j, depth') ->
  skip_field (p ++ d ++ s) wireType (len p + i) depth = Ok (len p + j, depth').
Proof.
  intros Hd Hw Hi Hj. pose proof (len_nonneg p). pose proof (len_nonneg s).
  rewrite !len_app in Hd. unfold MaxInt64 in Hd.
  assert (Hfix : forall k, 0 <= k <= 8 -> int (i + k) = j ->
                           int (len p + i + k) = len p + j).
  { intros k Hk E.
    assert (E' : int (i + k) = i + k)
      by (apply int_sum_nonneg; unfold MaxInt64; lia).
    rewrite int_small by (unfold is_int64, MinInt64, MaxInt64; lia). lia. }
  assert (Hcases : wireType = 0 \/ wireType = 1 \/ wireType = 2 \/ wireType = 3
                   \/ wireType = 4 \/ wireType = 5 \/ wireType = 6 \/ wireType = 7) by lia.
  destruct Hcases as [->|[->|[->|[->|[->|[->|[->| ->]]]]]]]; cbn [skip_field];
    try discriminate.
  - destruct (skip_varint_loop d 11 0 i) as [j'| | |] eqn:E; try discriminate.
    cbn [bind]. intros [= <- <-].
    now rewrite (skip_varint_loop_embed p d s i j' ltac:(lia) E).
  - intros [= E <-]. now rewrite (Hfix 8) by lia.
  - pose proof (read_varint_advances int d i ltac:(lia)) as Ha.
    destruct (read_varint int d i) as [[length i1]| | |] eqn:E; try discriminate.
    cbn [advances] in Ha.
    rewrite (read_varint_embed int p d s i length i1 ltac:(lia) E). cbn [bind].
    pose proof (read_varint_image int d i length i1 bits_conv_int E) as Hl.
    pose proof (int_range length) as R. rewrite Hl in R. unfold is_int64, MaxInt64 in R.
    destruct (Z.ltb_spec length 0); [discriminate|].
    intros [= E' <-].
    assert (Heq : int (i1 + length) = i1 + length)
      by (apply int_sum_nonneg; unfold MaxInt64; lia).
    replace (len p + i1 + length) with (len p + (i1 + length)) by lia.
    rewrite int_small by (unfold is_int64, MinInt64, MaxInt64; lia).
    apply Ok_pair_eq; [lia | reflexivity].
  - now intros [= <- <-].
  - destruct (depth =? 0); [discriminate|]. now intros [= <- <-].
  - intros [= E <-]. now rewrite (Hfix 4) by lia.
Qed.

Lemma skip_loop_embed p d s :
  len (p ++ d ++ s) <= MaxInt64 ->
  forall fuel i depth n,
    0 <= i -> n <= len d ->
    skip_loop fuel d i depth = Ok n ->
    skip_loop fuel (p ++ d ++ s) (len p + i) depth = Ok (len p + n).
Proof.
  intros Hd. pose proof (len_nonneg p). pose proof (len_nonneg s).
  pose proof Hd as Hd'. rewrite !len_app in Hd'.
  induction fuel as [|fuel IH]; intros i depth n Hi Hn H'; [discriminate|].
  cbn [skip_loop] in *.
  destruct (Z.ltb_spec i (len d)); [|discriminate].
  destruct (Z.ltb_spec (len p + i) (len (p ++ d ++ s))) as [_|Hge];
    [|rewrite !len_app in Hge; lia].
  pose proof (read_varint_advances uint64 d i Hi) as Ha.
  destruct (read_varint uint64 d i) as [[wire i1]| | |] eqn:E; try discriminate.
  cbn [advances] in Ha.
  rewrite (read_varint_embed uint64 p d s i wire i1 Hi E). cbn [bind] in *.
  cbv zeta in *. rewrite int_land7 in *.
  destruct (skip_field d (Z.land wire 7) i1 depth) as [[j dep]| | |] eqn:Ef;
    try discriminate.
  cbn [bind] in *.
  destruct (Z.ltb_spec j 0); [discriminate|].
  assert (Hj : j <= len d).
  { destruct (dep =? 0); [injection H' as <-; lia|].
    destruct fuel as [|fuel']; [discriminate|]. cbn [skip_loop] in H'.
    destruct (Z.ltb_spec j (len d)); [lia | discriminate]. }
  rewrite (skip_field_embed p d s (Z.land wire 7) i1 depth j dep Hd (land7_range wire)
             ltac:(lia) ltac:(lia) Ef).
  cbn [bind]. destruct (Z.ltb_spec (len p + j) 0); [lia|].
  destruct (dep =? 0).
  - now injection H' as <-.
  - apply IH; [lia | lia | exact H'].
Qed.

Lemma skip_loop_more_fuel d :
  forall fuel fuel' i depth n,
    (fuel <= fuel')%nat -> skip_loop fuel d i depth = Ok n ->
    skip_loop fuel' d i depth = Ok n.
Proof.
  induction fuel as [|fuel IH]; intros fuel' i depth n Hf H'; [discriminate|].
  destruct fuel' as [|fuel']; [lia|]. cbn [skip_loop] in *.
  destruct (i <? len d); [|discriminate].
  destruct (read_varint uint64 d i) as [[wire i1]| | |]; try discriminate.
  cbn [bind] in *. cbv zeta in *.
  destruct (skip_field d (int (Z.land wire 7)) i1 depth) as [[j dep]| | |];
    try discriminate.
  cbn [bind] in *. destruct (j <? 0); [discriminate|].
  destruct (dep =? 0); [exact H'|]. apply (IH fuel'); [lia | exact H'].
Qed.

(** [skipCanonical] on a buffer that goes on after the field it skips. *)
Lemma skipCanonical_extend r s n :
  len (r ++ s) <= MaxInt64 -> n <= len r ->
  skipCanonical r = Ok n -> skipCanonical (r ++ s) = Ok n.
Proof.
  intros Hd Hn H'. unfold skipCanonical in *.
  pose proof (skip_loop_embed [] r s Hd (S (length r)) 0 0 n ltac:(lia) Hn H') as L.
  cbn [app] in L. change (len (@nil byte) + 0) with 0 in L.
  change (len (@nil byte) + n) with n in L.
  apply (skip_loop_more_fuel _ (S (length r))); [|exact L].
  rewrite length_app. lia.
Qed.

Lemma skip_unknown_embed p d s preIndex j :
  len (p ++ d ++ s) <= MaxInt64 -> 0 <= preIndex <= len d ->
  skip_unknown d preIndex = Ok j ->
  skip_unknown (p ++ d ++ s) (len p + preIndex) = Ok (len p + j).
Proof.
  intros Hd Hi. pose proof (len_nonneg p). pose proof (len_nonneg s).
  pose proof Hd as Hd'. rewrite !len_app in Hd'. unfold skip_unknown. cbv zeta.
  rewrite slice_from_embed by lia.
  unfold slice_from. rewrite andb_range_le_true by lia. cbn [bind].
  set (r := skipn (Z.to_nat preIndex) d).
  assert (Hr : len r = len d - preIndex) by (apply len_skipn; lia).
  pose proof (skipCanonical_range r ltac:(lia)) as Hrange.
  destruct (skipCanonical r) as [n| | |] eqn:E; try discriminate. cbn [bind].
  destruct (Z.ltb_spec n 0); [discriminate|].
  destruct (Z.ltb_spec (int (preIndex + n)) 0); [discriminate|]. cbn [orb].
  destruct (Z.ltb_spec (len d) (int (preIndex + n))); [discriminate|].
  intros [= <-].
  assert (Heq : int (preIndex + n) = preIndex + n) by (apply int_sum_nonneg; lia).
  rewrite Heq in *.
  rewrite (skipCanonical_extend r s n) by (try assumption; rewrite ?len_app; lia).
  cbn [bind].
  replace (len p + preIndex + n) with (len p + (preIndex + n)) by lia.
  rewrite int_small by (unfold is_int64, MinInt64, MaxInt64 in *; lia).
  destruct (Z.ltb_spec n 0); [lia|].
  destruct (Z.ltb_spec (len p + (preIndex + n)) 0); [lia|]. cbn [orb].
  destruct (Z.ltb_spec (len (p ++ d ++ s)) (len p + (preIndex + n))) as [Hlt|_];
    [rewrite !len_app in Hlt; lia | reflexivity].
Qed.

Lemma field_default_embed {M} p d s (m m' : M) preIndex j :
  len (p ++ d ++ s) <= MaxInt64 -> 0 <= preIndex <= len d ->
  field_default m d preIndex = Ok (m', j) ->
  field_default m (p ++ d ++ s) (len p + preIndex) = Ok (m', len p + j).
Proof.
  intros Hd Hi. unfold field_default.
  destruct (skip_unknown d preIndex) as [j'| | |] eqn:E; try discriminate.
  cbn [bind]. intros [= <- <-].
  now rewrite (skip_unknown_embed p d s preIndex j' Hd Hi E).
Qed.

Lemma case_varint_embed {M} conv (set : Z -> M) p d s i m' j :
  0 <= i ->
  ('(v, j) <- read_varint conv d i ;; Ok (set v, j)) = Ok (m', j) ->
  ('(v, j) <- read_varint conv (p ++ d ++ s) (len p + i) ;; Ok (set v, j))
  = Ok (m', len p + j).
Proof.
  intros Hi. destruct (read_varint conv d i) as [[v j']| | |] eqn:E; try discriminate.
  rewrite (read_varint_embed conv p d s i v j' Hi E). cbn [bind].
  now intros [= <- <-].
Qed.

Lemma case_fixed64_embed {M} (set : Z -> M) p d s i m' j :
  0 <= i ->
  ('(v, j) <- read_fixed64 d i ;; Ok (set v, j)) = Ok (m', j) ->
  ('(v, j) <- read_fixed64 (p ++ d ++ s) (len p + i) ;; Ok (set v, j))
  = Ok (m', len p + j).
Proof.
  intros Hi. destruct (read_fixed64 d i) as [[v j']| | |] eqn:E; try discriminate.
  rewrite (read_fixed64_embed p d s i v j' Hi E). cbn [bind].
  now intros [= <- <-].
Qed.

Lemma case_delimited_embed {M X} conv toInt (dec : list byte -> result X)
  (set : X -> M) p d s i m' j :
  (forall z, is_int64 (toInt (conv z))) -> bits_conv conv ->
  0 <= i -> len (p ++ d ++ s) <= MaxInt64 ->
  ('(j, postIndex) <- read_length conv toInt d i ;;
   sub <- slice d j postIndex ;;
   x <- dec sub ;;
   Ok (set x, postIndex)) = Ok (m', j) ->
  ('(j, postIndex) <- read_length conv toInt (p ++ d ++ s) (len p + i) ;;
   sub <- slice (p ++ d ++ s) j postIndex ;;
   x <- dec sub ;;
   Ok (set x, postIndex)) = Ok (m', len p + j).
Proof.
  intros Hrange Hc Hi Hd.
  assert (Hd' : len d <= MaxInt64).
  { rewrite !len_app in Hd. pose proof (len_nonneg p). pose proof (len_nonneg s). lia. }
  pose proof (read_length_inside conv toInt d i Hrange Hc Hi Hd') as Hin.
  destruct (read_length conv toInt d i) as [[j' postIndex]| | |] eqn:E; try discriminate.
  rewrite (read_length_embed conv toInt p d s i j' postIndex Hrange Hc Hi Hd E).
  cbn [bind]. rewrite slice_embed by lia.
  destruct (slice d j' postIndex) as [sub| | |]; try discriminate. cbn [bind].
  destruct (dec sub) as [x| | |]; try discriminate. cbn [bind].
  now intros [= <- <-].
Qed.

Lemma CanonicalPartSetHeader_field_embeds : embeds CanonicalPartSetHeader_field.
Proof.
  intros p d s m fieldNum wireType pre i m' j Hd Hf Hi Hl.
  assert (Hcases : fieldNum = 1 \/ fieldNum = 2 \/ 3 <= fieldNum) by lia.
  destruct Hcases as [->|[->|H3]].
  - cbn [CanonicalPartSetHeader_field]. destruct (negb (wireType =? 0)); [discriminate|].
    apply case_varint_embed. lia.
  - cbn [CanonicalPartSetHeader_field]. destruct (negb (wireType =? 2)); [discriminate|].
    apply (case_delimited_embed int (fun z => z) (fun sub => Ok sub)
             (fun bs => {| psh_Total := psh_Total m; psh_Hash := bs |}));
      [apply is_int64_int_id | apply bits_conv_int | lia | exact Hd].
  - rewrite !CanonicalPartSetHeader_field_default by exact H3.
    apply field_default_embed; [exact Hd | lia].
Qed.

Lemma CanonicalBlockID_field_embeds : embeds CanonicalBlockID_field.
Proof.
  intros p d s m fieldNum wireType pre i m' j Hd Hf Hi Hl.
  assert (Hcases : fieldNum = 1 \/ fieldNum = 2 \/ 3 <= fieldNum) by lia.
  destruct Hcases as [->|[->|H3]].
  - cbn [CanonicalBlockID_field]. destruct (negb (wireType =? 2)); [discriminate|].
    apply (case_delimited_embed int (fun z => z) (fun sub => Ok sub)
             (fun bs => {| bid_Hash := bs; bid_PartSetHeader := bid_PartSetHeader m |}));
      [apply is_int64_int_id | apply bits_conv_int | lia | exact Hd].
  - cbn [CanonicalBlockID_field]. destruct (negb (wireType =? 2)); [discriminate|].
    apply (case_delimited_embed int (fun z => z)
             (fun sub => CanonicalPartSetHeader_Unmarshal (bid_PartSetHeader m) sub)
             (fun h => {| bid_Hash := bid_Hash m; bid_PartSetHeader := h |}));
      [apply is_int64_int_id | apply bits_conv_int | lia | exact Hd].
  - rewrite !CanonicalBlockID_field_default by exact H3.
    apply field_default_embed; [exact Hd | lia].
Qed.

Lemma CanonicalProposal_field_embeds : embeds CanonicalProposal_field.
Proof.
  intros p d s m fieldNum wireType pre i m' j Hd Hf Hi Hl.
  assert (Hcases : fieldNum = 1 \/ fieldNum = 2 \/ fieldNum = 3 \/ fieldNum = 4
                   \/ fieldNum = 5 \/ fieldNum = 6 \/ fieldNum = 7 \/ 8 <= fieldNum) by lia.
  destruct Hcases as [->|[->|[->|[->|[->|[->|[->|H8]]]]]]].
  - cbn [CanonicalProposal_field]. destruct (negb (wireType =? 0)); [discriminate|].
    apply case_varint_embed. lia.
  - cbn [CanonicalProposal_field]. destruct (negb (wireType =? 1)); [discriminate|].
    apply case_fixed64_embed. lia.
  - cbn [CanonicalProposal_field]. destruct (negb (wireType =? 1)); [discriminate|].
    apply case_fixed64_embed. lia.
  - cbn [CanonicalProposal_field]. destruct (negb (wireType =? 0)); [discriminate|].
    apply case_varint_embed. lia.
  - cbn [CanonicalProposal_field]. destruct (negb (wireType =? 2)); [discriminate|].
    apply (case_delimited_embed int (fun z => z)
             (fun sub => unmarshal_BlockID (prop_BlockID m) sub) (with_prop_BlockID m));
      [apply is_int64_int_id | apply bits_conv_int | lia | exact Hd].
  - cbn [CanonicalProposal_field]. destruct (negb (wireType =? 2)); [discriminate|].
    apply (case_delimited_embed int (fun z => z) StdTimeUnmarshal (with_prop_Timestamp m));
      [apply is_int64_int_id | apply bits_conv_int | lia | exact Hd].
  - cbn [CanonicalProposal_field]. destruct (negb (wireType =? 2)); [discriminate|].
    apply (case_delimited_embed uint64 int (fun sub => Ok sub) (with_prop_ChainID m));
      [apply is_int64_int_uint64 | apply bits_conv_uint64 | lia | exact Hd].
  - rewrite !CanonicalProposal_field_default by exact H8.
    apply field_default_embed; [exact Hd | lia].
Qed.

Lemma CanonicalVote_field_embeds : embeds CanonicalVote_field.
Proof.
  intros p d s m fieldNum wireType pre i m' j Hd Hf Hi Hl.
  assert (Hcases : fieldNum = 1 \/ fieldNum = 2 \/ fieldNum = 3 \/ fieldNum = 4
                   \/ fieldNum = 5 \/ fieldNum = 6 \/ fieldNum = 7 \/ 8 <= fieldNum) by lia.
  destruct Hcases as [->|[->|[->|[->|[->|[->|[->|H8]]]]]]].
  - cbn [CanonicalVote_field]. destruct (negb (wireType =? 0)); [discriminate|].
    apply case_varint_embed. lia.
  - cbn [CanonicalVote_field]. destruct (negb (wireType =? 1)); [discriminate|].
    apply case_fixed64_embed. lia.
  - cbn [CanonicalVote_field]. destruct (negb (wireType =? 1)); [discriminate|].
    apply case_fixed64_embed. lia.
  - cbn [CanonicalVote_field]. destruct (negb (wireType =? 2)); [discriminate|].
    apply (case_delimited_embed int (fun z => z)
             (fun sub => unmarshal_BlockID (vote_BlockID m) sub) (with_vote_BlockID m));
      [apply is_int64_int_id | apply bits_conv_int | lia | exact Hd].
  - cbn [CanonicalVote_field]. destruct (negb (wireType =? 2)); [discriminate|].
    apply (case_delimited_embed int (fun z => z) StdTimeUnmarshal (with_vote_Timestamp m));
      [apply is_int64_int_id | apply bits_conv_int | lia | exact Hd].
  - cbn [CanonicalVote_field]. destruct (negb (wireType =? 2)); [discriminate|].
    apply (case_delimited_embed uint64 int (fun sub => Ok sub) (with_vote_ChainID m));
      [apply is_int64_int_uint64 | apply bits_conv_uint64 | lia | exact Hd].
  - cbn [CanonicalVote_field]. destruct (negb (wireType =? 2)); [discriminate|].
    apply (case_delimited_embed int (fun z => z)
             (fun sub => unmarshal_VoteExtension (vote_VoteExtension m) sub)
             (with_vote_VoteExtension m));
      [apply is_int64_int_id | apply bits_conv_int | lia | exact Hd].
  - rewrite !CanonicalVote_field_default by exact H8.
    apply field_default_embed; [exact Hd | lia].
Qed.

Lemma read_varint_negative conv d i : i < 0 -> read_varint conv d i = Panic.
Proof.
  intros Hi. unfold read_varint. cbn [varint_loop].
  pose proof (len_nonneg d). destruct (Z.leb_spec (len d) i); [lia|].
  unfold index. destruct (Z.leb_spec 0 i); [lia | reflexivity].
Qed.

(** A decoding loop that succeeds has started inside the buffer. *)
Lemma Unmarshal_loop_Ok_index {M}
  (field : M -> Z -> Z -> list byte -> Z -> Z -> result (M * Z)) fuel d m i m' :
  Unmarshal_loop field fuel d m i = Ok m' -> 0 <= i <= len d.
Proof.
  destruct fuel as [|fuel]; [discriminate|]. cbn [Unmarshal_loop].
  pose proof (len_nonneg d).
  destruct (Z.ltb_spec i (len d)).
  - cbv zeta. destruct (Z.lt_ge_cases i 0) as [Hneg|]; [|lia].
    unfold read_tag. rewrite read_varint_negative by exact Hneg. discriminate.
  - destruct (Z.ltb_spec (len d) i); [discriminate | lia].
Qed.

Lemma Unmarshal_loop_more_fuel {M}
  (field : M -> Z -> Z -> list byte -> Z -> Z -> result (M * Z)) d :
  forall fuel fuel' m i m',
    (fuel <= fuel')%nat -> Unmarshal_loop field fuel d m i = Ok m' ->
    Unmarshal_loop field fuel' d m i = Ok m'.
Proof.
  induction fuel as [|fuel IH]; intros fuel' m i m' Hf H'; [discriminate|].
  destruct fuel' as [|fuel']; [lia|]. cbn [Unmarshal_loop] in *.
  destruct (i <? len d); [|exact H']. cbv zeta in *.
  destruct (read_tag d i) as [[[fieldNum wireType] i1]| | |]; try discriminate.
  cbn [bind] in *.
  destruct (field m fieldNum wireType d i i1) as [[m1 j]| | |]; try discriminate.
  cbn [bind] in *. apply (IH fuel'); [lia | exact H'].
Qed.

(** The rounds of a successful loop over [b], when [b] stands after other
    bytes. *)
Lemma Unmarshal_loop_shift {M}
  (field : M -> Z -> Z -> list byte -> Z -> Z -> result (M * Z)) a b :
  embeds field -> len (a ++ b) <= MaxInt64 ->
  forall fuel m i m',
    Unmarshal_loop field fuel b m i = Ok m' ->
    Unmarshal_loop field fuel (a ++ b) m (len a + i) = Ok m'.
Proof.
  intros He Hd. pose proof (len_nonneg a).
  induction fuel as [|fuel IH]; intros m i m' H'; [discriminate|].
  pose proof (Unmarshal_loop_Ok_index _ _ _ _ _ _ H') as Hi.
  cbn [Unmarshal_loop] in *. rewrite len_app.
  destruct (Z.ltb_spec i (len b)).
  - destruct (Z.ltb_spec (len a + i) (len a + len b)); [|lia]. cbv zeta in *.
    pose proof (read_tag_advances b i ltac:(lia)) as Ha.
    destruct (read_tag b i) as [[[fieldNum wireType] i1]| | |] eqn:Et; try discriminate.
    cbn [advances bind] in *.
    pose proof (read_tag_embed a b [] i fieldNum wireType i1 ltac:(lia) Et) as Lt.
    rewrite app_nil_r in Lt. rewrite Lt. cbn [bind].
    destruct (field m fieldNum wireType b i i1) as [[m1 j]| | |] eqn:Ef; try discriminate.
    cbn [bind] in *.
    pose proof (He a b [] m fieldNum wireType i i1 m1 j) as Lf.
    rewrite app_nil_r in Lf.
    rewrite Lf; [| exact Hd | now apply read_tag_fieldNum in Et | lia | lia | exact Ef].
    cbn [bind]. now apply IH.
  - assert (i = len b) by lia. subst i.
    rewrite Z.ltb_irrefl. destruct (Z.ltb_spec (len b) (len b)); [lia|].
    exact H'.
Qed.

(** The rounds of a successful loop over [a], when other bytes follow
    [a]: the loop goes on with them. *)
Lemma Unmarshal_loop_prefix {M}
  (field : M -> Z -> Z -> list byte -> Z -> Z -> result (M * Z)) a b :
  embeds field -> len (a ++ b) <= MaxInt64 ->
  forall fuel m i m',
    Unmarshal_loop field (S fuel) a m i = Ok m' ->
    forall g m'',
      Unmarshal_loop field g (a ++ b) m' (len a) = Ok m'' ->
      Unmarshal_loop field (fuel + g) (a ++ b) m i = Ok m''.
Proof.
  intros He Hd. pose proof (len_nonneg a). pose proof (len_nonneg b).
  induction fuel as [|fuel IH]; intros m i m' H' g m'' Hg;
    pose proof (Unmarshal_loop_Ok_index _ _ _ _ _ _ H') as Hi;
    cbn [Unmarshal_loop] in H';
    (destruct (Z.ltb_spec i (len a)) as [Hlt|Hge];
     [ cbv zeta in H';
       pose proof (read_tag_advances a i ltac:(lia)) as Ha;
       destruct (read_tag a i) as [[[fieldNum wireType] i1]| | |] eqn:Et;
       try discriminate; cbn [advances bind] in *;
       destruct (field m fieldNum wireType a i i1) as [[m1 j]| | |] eqn:Ef;
       try discriminate; cbn [bind] in H'
     | assert (i = len a) by lia; subst i;
       destruct (Z.ltb_spec (len a) (len a)); [lia|]; injection H' as <-;
       apply (Unmarshal_loop_more_fuel field (a ++ b) g); [lia | exact Hg] ]).
  change (S fuel + g)%nat with (S (fuel + g)). cbn [Unmarshal_loop].
    destruct (Z.ltb_spec i (len (a ++ b))) as [_|Hge]; [|rewrite len_app in Hge; lia].
    cbv zeta.
    pose proof (read_tag_embed [] a b i fieldNum wireType i1 ltac:(lia) Et) as Lt.
    cbn [app] in Lt. change (len (@nil byte)) with 0 in Lt. rewrite !Z.add_0_l in Lt.
    rewrite Lt. cbn [bind].
    pose proof (He [] a b m fieldNum wireType i i1 m1 j) as Lf.
    cbn [app] in Lf. change (len (@nil byte)) with 0 in Lf. rewrite !Z.add_0_l in Lf.
    rewrite Lf; [| exact Hd | now apply read_tag_fieldNum in Et | lia | lia | exact Ef].
    cbn [bind]. now apply (IH m1 j m').
Qed.

Lemma Unmarshal_with_app {M}
  (field : M -> Z -> Z -> list byte -> Z -> Z -> result (M * Z)) a b m m' m'' :
  embeds field -> len (a ++ b) <= MaxInt64 ->
  Unmarshal_with field m a = Ok m' -> Unmarshal_with field m' b = Ok m'' ->
  Unmarshal_with field m (a ++ b) = Ok m''.
Proof.
  intros He Hd Ha Hb. unfold Unmarshal_with in *.
  apply (Unmarshal_loop_shift field a b He Hd) in Hb. rewrite Z.add_0_r in Hb.
  pose proof (Unmarshal_loop_prefix field a b He Hd (length a) m 0 m' Ha _ _ Hb) as L.
  replace (S (length (a ++ b))) with (length a + S (length b))%nat
    by (rewrite length_app; lia).
  exact L.
Qed.

(** X13. Decoding is sequential: when the buffer [a] is decoded with
    success into the receiver [m], giving [m'], and [b] is decoded with
    success into [m'], giving [m''], the concatenation of [a] and [b] is
    decoded into [m] with success and gives [m''].  So the fields of a
    later encoding are merged over those of an earlier one.  This holds
    for the four decoders. *)
Theorem Unmarshal_of_a_concatenation (a b : list byte) :
  len (a ++ b) <= MaxInt64 ->
  (forall m m' m'',
      CanonicalPartSetHeader_Unmarshal m a = Ok m' ->
      CanonicalPartSetHeader_Unmarshal m' b = Ok m'' ->
      CanonicalPartSetHeader_Unmarshal m (a ++ b) = Ok m'')
  /\ (forall m m' m'',
      CanonicalBlockID_Unmarshal m a = Ok m' ->
      CanonicalBlockID_Unmarshal m' b = Ok m'' ->
      CanonicalBlockID_Unmarshal m (a ++ b) = Ok m'')
  /\ (forall m m' m'',
      CanonicalProposal_Unmarshal m a = Ok m' ->
      CanonicalProposal_Unmarshal m' b = Ok m'' ->
      CanonicalProposal_Unmarshal m (a ++ b) = Ok m'')
  /\ (forall m m' m'',
      CanonicalVote_Unmarshal m a = Ok m' ->
      CanonicalVote_Unmarshal m' b = Ok m'' ->
      CanonicalVote_Unmarshal m (a ++ b) = Ok m'').
Proof.
  intros Hd. split; [|split; [|split]]; intros m m' m''.
  - apply Unmarshal_with_app; [apply CanonicalPartSetHeader_field_embeds | exact Hd].
  - apply Unmarshal_with_app; [apply CanonicalBlockID_field_embeds | exact Hd].
  - apply Unmarshal_with_app; [apply CanonicalProposal_field_embeds | exact Hd].
  - apply Unmarshal_with_app; [apply CanonicalVote_field_embeds | exact Hd].
Qed.

(** ** Length-delimited fields: replaced or merged *)

Lemma Unmarshal_single_delimited {M X}
  (field : M -> Z -> Z -> list byte -> Z -> Z -> result (M * Z))
  conv toInt tag fieldNum (dec : M -> list byte -> result X) (set : M -> X -> M) m bs :
  (forall m d i j,
      field m fieldNum 2 d i j
      = ('(j, postIndex) <- read_length conv toInt d j ;;
         sub <- slice d j postIndex ;;
         x <- dec m sub ;;
         Ok (set m x, postIndex))) ->
  tag_of tag = Some (fieldNum, 2) ->
  bits_conv conv -> (forall L, 0 <= L <= MaxInt64 -> toInt (conv (uint64 L)) = L) ->
  len (field_bytes tag bs) <= MaxInt64 ->
  Unmarshal_with field m (field_bytes tag bs) = (x <- dec m bs ;; Ok (set m x)).
Proof.
  intros Hfield Htag Hc Hconv Hd. set (d := field_bytes tag bs) in *.
  assert (Hat : at_index d 0 (tag :: varint (uint64 (len bs)) ++ bs ++ [])).
  { rewrite app_nil_r. apply at_index_start. }
  pose proof (at_index_cons _ _ _ _ Hat) as Hat1.
  pose proof (at_index_len _ _ _ Hat) as [_ Hl].
  rewrite len_cons, !len_app in Hl. change (len (@nil byte)) with 0 in Hl. len_pos.
  destruct (read_bytes_at conv toInt d (0 + 1) bs [] Hc (Hconv (len bs) ltac:(lia)) Hd Hat1)
    as (Hrl & Hsl).
  unfold Unmarshal_with. cbn [Unmarshal_loop].
  destruct (Z.ltb_spec 0 (len d)); [|lia]. cbv zeta.
  rewrite (read_tag_const d 0 tag _ fieldNum 2 Hat Htag). cbn [bind].
  rewrite Hfield, Hrl. cbn [bind]. rewrite Hsl. cbn [bind].
  destruct (dec m bs) as [x| e | |]; cbn [bind]; try reflexivity.
  replace (0 + 1 + len (varint (uint64 (len bs))) + len bs) with (len d) by lia.
  destruct (length d) eqn:E; [unfold len in H2; rewrite E in H2; lia|].
  apply Unmarshal_loop_at_end.
Qed.

Lemma len_field_bytes_le tag bs : len (field_bytes tag bs) <= len bs + 11.
Proof.
  rewrite len_field_bytes.
  pose proof (sovCanonical_le_iff (uint64 (len bs)) 10
                ltac:(apply uint64_range) ltac:(lia)) as H.
  pose proof (uint64_range (len bs)).
  change (2 ^ (7 * 10)) with (2 ^ 64 * 64) in H. lia.
Qed.

(** X15. A buffer that holds one length-delimited field of the message
    is decoded as follows.  A bytes field (the hashes, the chain id)
    replaces the field of the receiver with the payload.  A timestamp is
    what the outside decoder gives for the payload.  A nested message
    (the part-set header of a block id, the block id and the vote
    extension of a proposal or a vote) decodes the payload into the
    nested message that the receiver has, or into a fresh one when it
    has none, so that its fields are merged.  An error of the nested
    decoder is the error of the outer one. *)
Theorem delimited_fields_replace_or_merge (bs : list byte) :
  len bs + 11 <= MaxInt64 ->
  (forall m,
      CanonicalPartSetHeader_Unmarshal m (field_bytes Byte.x12 bs)
      = Ok {| psh_Total := psh_Total m; psh_Hash := bs |})
  /\ (forall m,
      CanonicalBlockID_Unmarshal m (field_bytes Byte.x0a bs)
      = Ok {| bid_Hash := bs; bid_PartSetHeader := bid_PartSetHeader m |})
  /\ (forall m,
      CanonicalBlockID_Unmarshal m (field_bytes Byte.x12 bs)
      = (h <- CanonicalPartSetHeader_Unmarshal (bid_PartSetHeader m) bs ;;
         Ok {| bid_Hash := bid_Hash m; bid_PartSetHeader := h |}))
  /\ (forall m,
      CanonicalProposal_Unmarshal m (field_bytes Byte.x2a bs)
      = (b <- CanonicalBlockID_Unmarshal
                match prop_BlockID m with Some b => b | None => CanonicalBlockID_zero end
                bs ;;
         Ok (with_prop_BlockID m (Some b))))
  /\ (forall m,
      CanonicalProposal_Unmarshal m (field_bytes Byte.x32 bs)
      = (t <- StdTimeUnmarshal bs ;; Ok (with_prop_Timestamp m t)))
  /\ (forall m,
      CanonicalProposal_Unmarshal m (field_bytes Byte.x3a bs)
      = Ok (with_prop_ChainID m bs))
  /\ (forall m,
      CanonicalVote_Unmarshal m (field_bytes Byte.x22 bs)
      = (b <- CanonicalBlockID_Unmarshal
                match vote_BlockID m with Some b => b | None => CanonicalBlockID_zero end
                bs ;;
         Ok (with_vote_BlockID m (Some b))))
  /\ (forall m,
      CanonicalVote_Unmarshal m (field_bytes Byte.x2a bs)
      = (t <- StdTimeUnmarshal bs ;; Ok (with_vote_Timestamp m t)))
  /\ (forall m,
      CanonicalVote_Unmarshal m (field_bytes Byte.x32 bs)
      = Ok (with_vote_ChainID m bs))
  /\ (forall m,
      CanonicalVote_Unmarshal m (field_bytes Byte.x3a bs)
      = (e <- VoteExtensionToSign_Unmarshal
                match vote_VoteExtension m with
                | Some e => e
                | None => VoteExtensionToSign_zero
                end bs ;;
         Ok (with_vote_VoteExtension m (Some e)))).
Proof.
  intros Hbs.
  assert (Hd : forall tag, len (field_bytes tag bs) <= MaxInt64).
  { intros tag. pose proof (len_field_bytes_le tag bs). lia. }
  repeat apply conj; intros m.
  - apply (Unmarshal_single_delimited CanonicalPartSetHeader_field int (fun z => z)
             Byte.x12 2 (fun _ sub => Ok sub)
             (fun m bs => {| psh_Total := psh_Total m; psh_Hash := bs |}));
      [reflexivity | reflexivity | apply bits_conv_int | apply int_uint64_len | apply Hd].
  - apply (Unmarshal_single_delimited CanonicalBlockID_field int (fun z => z)
             Byte.x0a 1 (fun _ sub => Ok sub)
             (fun m bs => {| bid_Hash := bs; bid_PartSetHeader := bid_PartSetHeader m |}));
      [reflexivity | reflexivity | apply bits_conv_int | apply int_uint64_len | apply Hd].
  - apply (Unmarshal_single_delimited CanonicalBlockID_field int (fun z => z)
             Byte.x12 2
             (fun m sub => CanonicalPartSetHeader_Unmarshal (bid_PartSetHeader m) sub)
             (fun m h => {| bid_Hash := bid_Hash m; bid_PartSetHeader := h |}));
      [reflexivity | reflexivity | apply bits_conv_int | apply int_uint64_len | apply Hd].
  - rewrite (Unmarshal_single_delimited CanonicalProposal_field int (fun z => z)
               Byte.x2a 5 (fun m sub => unmarshal_BlockID (prop_BlockID m) sub)
               with_prop_BlockID);
      [| reflexivity | reflexivity | apply bits_conv_int | apply int_uint64_len | apply Hd].
    unfold unmarshal_BlockID. cbv zeta.
    now destruct (CanonicalBlockID_Unmarshal _ bs).
  - apply (Unmarshal_single_delimited CanonicalProposal_field int (fun z => z)
             Byte.x32 6 (fun _ sub => StdTimeUnmarshal sub) with_prop_Timestamp);
      [reflexivity | reflexivity | apply bits_conv_int | apply int_uint64_len | apply Hd].
  - apply (Unmarshal_single_delimited CanonicalProposal_field uint64 int
             Byte.x3a 7 (fun _ sub => Ok sub) with_prop_ChainID);
      [reflexivity | reflexivity | apply bits_conv_uint64 | apply int_uint64_uint64_len
      | apply Hd].
  - rewrite (Unmarshal_single_delimited CanonicalVote_field int (fun z => z)
               Byte.x22 4 (fun m sub => unmarshal_BlockID (vote_BlockID m) sub)
               with_vote_BlockID);
      [| reflexivity | reflexivity | apply bits_conv_int | apply int_uint64_len | apply Hd].
    unfold unmarshal_BlockID. cbv zeta.
    now destruct (CanonicalBlockID_Unmarshal _ bs).
  - apply (Unmarshal_single_delimited CanonicalVote_field int (fun z => z)
             Byte.x2a 5 (fun _ sub => StdTimeUnmarshal sub) with_vote_Timestamp);
      [reflexivity | reflexivity | apply bits_conv_int | apply int_uint64_len | apply Hd].
  - apply (Unmarshal_single_delimited CanonicalVote_field uint64 int
             Byte.x32 6 (fun _ sub => Ok sub) with_vote_ChainID);
      [reflexivity | reflexivity | apply bits_conv_uint64 | apply int_uint64_uint64_len
      | apply Hd].
  - rewrite (Unmarshal_single_delimited CanonicalVote_field int (fun z => z)
               Byte.x3a 7 (fun m sub => unmarshal_VoteExtension (vote_VoteExtension m) sub)
               with_vote_VoteExtension);
      [| reflexivity | reflexivity | apply bits_conv_int | apply int_uint64_len | apply Hd].
    unfold unmarshal_VoteExtension. cbv zeta.
    now destruct (VoteExtensionToSign_Unmarshal _ bs).
Qed.

(** ** The encoders on a buffer of any size *)

(** X16. [MarshalToSizedBuffer] of each of the four messages, on a buffer
    of at least [Size()] bytes, writes the encoding that [Marshal]
    returns into the last [Size()] bytes of the buffer, leaves the bytes
    before them as they are, and returns [Size()]. *)
Theorem MarshalToSizedBuffer_fills_the_end (dAtA : list byte) :
  let fills (r : result (list byte * Z)) (bs : list byte) :=
    len bs <= len dAtA ->
    r = Ok (firstn (Z.to_nat (len dAtA - len bs)) dAtA ++ bs, len bs) in
  (forall (m : CanonicalPartSetHeader) bs,
      CanonicalPartSetHeader_Marshal m = Ok bs ->
      len bs = CanonicalPartSetHeader_Size m
      /\ fills (CanonicalPartSetHeader_MarshalToSizedBuffer m dAtA) bs)
  /\ (forall (m : CanonicalBlockID) bs,
      CanonicalBlockID_Marshal m = Ok bs ->
      len bs = CanonicalBlockID_Size m
      /\ fills (CanonicalBlockID_MarshalToSizedBuffer m dAtA) bs)
  /\ (forall (m : CanonicalProposal) bs,
      CanonicalProposal_Marshal m = Ok bs ->
      len bs = CanonicalProposal_Size m
      /\ fills (CanonicalProposal_MarshalToSizedBuffer m dAtA) bs)
  /\ (forall (m : CanonicalVote) bs,
      CanonicalVote_Marshal m = Ok bs ->
      len bs = CanonicalVote_Size m
      /\ fills (CanonicalVote_MarshalToSizedBuffer m dAtA) bs).
Proof.
  intros fills. subst fills. cbv beta.
  split; [|split; [|split]]; intros m bs H.
  - rewrite CanonicalPartSetHeader_Marshal_wire in H. injection H as <-.
    split; [apply len_wire_PartSetHeader|]. intros Hl.
    now apply CanonicalPartSetHeader_fills.
  - rewrite CanonicalBlockID_Marshal_wire in H. injection H as <-.
    split; [apply len_wire_BlockID|]. intros Hl. now apply CanonicalBlockID_fills.
  - apply CanonicalProposal_Marshal_Ok_inv in H. destruct H as (ts & Ht & ->).
    split; [now apply len_wire_Proposal|]. intros Hl.
    now apply CanonicalProposal_fills.
  - apply CanonicalVote_Marshal_Ok_inv in H. destruct H as (ts & Ht & ->).
    split; [now apply len_wire_Vote|]. intros Hl. now apply CanonicalVote_fills.
Qed.

(** ** Encodings that carry fields of a later version *)

Lemma Unmarshal_with_unknown_only {M}
  (field : M -> Z -> Z -> list byte -> Z -> Z -> result (M * Z))
  m fieldNum wireType payload :
  (forall m d i j, field m fieldNum wireType d i j = field_default m d i) ->
  payload_of wireType payload -> 1 <= fieldNum <= 2 ^ 31 - 1 ->
  len (varint (tag_value fieldNum wireType) ++ payload) <= MaxInt64 ->
  Unmarshal_with field m (varint (tag_value fieldNum wireType) ++ payload) = Ok m.
Proof.
  intros Hdef Hp Hf Hd. set (d := varint (tag_value fieldNum wireType) ++ payload) in *.
  assert (Hat : at_index d 0 (varint (tag_value fieldNum wireType) ++ payload ++ [])).
  { rewrite app_nil_r. apply at_index_start. }
  unfold Unmarshal_with.
  rewrite (Unmarshal_loop_unknown_complete field (length d) d m 0 fieldNum wireType
             payload []); try assumption; [|intros; apply Hdef].
  rewrite Z.add_0_l. fold d.
  pose proof (payload_of_wireType _ _ Hp) as [Hw _].
  assert (Hr : 0 <= tag_value fieldNum wireType < 2 ^ 64)
    by (rewrite tag_value_plus by lia; lia).
  pose proof (len_varint_pos _ Hr) as Hpos. pose proof (len_nonneg payload) as Hn.
  assert (Hlen : 0 < len d) by (unfold d; rewrite len_app; lia).
  destruct (length d) eqn:E; [unfold len in Hlen; rewrite E in Hlen; lia|].
  apply Unmarshal_loop_at_end.
Qed.

(** X17. A complete field of a number that the message does not know (8
    and above), of wire type 0, 1, 2 or 5, placed after or before the
    encoding of a block id, a proposal or a vote, does not change what is
    decoded: the decoder still gives the message back.  The hypotheses
    on the message are those of the round trip. *)
Theorem unknown_fields_around_an_encoding (fieldNum wireType : Z) (payload : list byte) :
  payload_of wireType payload -> 8 <= fieldNum <= 2 ^ 31 - 1 ->
  let u := varint (tag_value fieldNum wireType) ++ payload in
  (forall (x : CanonicalBlockID) bs,
      wf_BlockID x -> CanonicalBlockID_Marshal x = Ok bs -> len (bs ++ u) <= MaxInt64 ->
      CanonicalBlockID_Unmarshal CanonicalBlockID_zero (bs ++ u) = Ok x
      /\ CanonicalBlockID_Unmarshal CanonicalBlockID_zero (u ++ bs) = Ok x)
  /\ (forall (x : CanonicalProposal) ts bs,
      wf_Proposal x ->
      StdTimeBytes (prop_Timestamp x) = Ok ts ->
      StdTimeUnmarshal ts = Ok (prop_Timestamp x) ->
      CanonicalProposal_Marshal x = Ok bs -> len (bs ++ u) <= MaxInt64 ->
      CanonicalProposal_Unmarshal CanonicalProposal_zero (bs ++ u) = Ok x
      /\ CanonicalProposal_Unmarshal CanonicalProposal_zero (u ++ bs) = Ok x)
  /\ (forall (x : CanonicalVote) ts bs,
      wf_Vote x ->
      StdTimeBytes (vote_Timestamp x) = Ok ts ->
      StdTimeUnmarshal ts = Ok (vote_Timestamp x) ->
      (forall e, vote_VoteExtension x = Some e ->
                 VoteExtensionToSign_Unmarshal VoteExtensionToSign_zero
                   (VoteExtensionToSign_bytes e) = Ok e) ->
      CanonicalVote_Marshal x = Ok bs -> len (bs ++ u) <= MaxInt64 ->
      CanonicalVote_Unmarshal CanonicalVote_zero (bs ++ u) = Ok x
      /\ CanonicalVote_Unmarshal CanonicalVote_zero (u ++ bs) = Ok x).
Proof.
  intros Hp Hf u.
  assert (Haround : forall M (field : M -> Z -> Z -> list byte -> Z -> Z -> result (M * Z))
                      zero x bs,
             embeds field ->
             (forall m d i j, field m fieldNum wireType d i j = field_default m d i) ->
             len (bs ++ u) <= MaxInt64 ->
             Unmarshal_with field zero bs = Ok x ->
             Unmarshal_with field zero (bs ++ u) = Ok x
             /\ Unmarshal_with field zero (u ++ bs) = Ok x).
  { intros M field zero x bs He Hdef Hlen Hrt.
    assert (Hu : forall m, Unmarshal_with field m u = Ok m).
    { intros m. apply Unmarshal_with_unknown_only; try assumption; [lia|].
      rewrite len_app in Hlen. pose proof (len_nonneg bs). fold u. lia. }
    split.
    - apply (Unmarshal_with_app field bs u zero x x He Hlen Hrt (Hu x)).
    - apply (Unmarshal_with_app field u bs zero zero x He); [| apply Hu | exact Hrt].
      rewrite len_app in *. lia. }
  split; [|split].
  - intros x bs Hwf Hm Hlen. rewrite CanonicalBlockID_Marshal_wire in Hm.
    injection Hm as <-.
    apply Haround;
      [apply CanonicalBlockID_field_embeds
      | intros; apply CanonicalBlockID_field_default; lia | exact Hlen |].
    apply CanonicalBlockID_roundtrip; [exact Hwf|].
    rewrite len_app in Hlen. pose proof (len_nonneg u). lia.
  - intros x ts bs Hwf Hts Hrt Hm Hlen.
    rewrite (CanonicalProposal_Marshal_wire x ts Hts) in Hm. injection Hm as <-.
    apply Haround;
      [apply CanonicalProposal_field_embeds
      | intros; apply CanonicalProposal_field_default; lia | exact Hlen |].
    apply CanonicalProposal_roundtrip; try assumption.
    rewrite len_app in Hlen. pose proof (len_nonneg u). lia.
  - intros x ts bs Hwf Hts Hrt Hext Hm Hlen.
    rewrite (CanonicalVote_Marshal_wire x ts Hts) in Hm. injection Hm as <-.
    apply Haround;
      [apply CanonicalVote_field_embeds
      | intros; apply CanonicalVote_field_default; lia | exact Hlen |].
    apply CanonicalVote_roundtrip; try assumption.
    rewrite len_app in Hlen. pose proof (len_nonneg u). lia.
Qed.

(** ** Known fields whose bytes are missing *)

Lemma int_negative n : 2 ^ 63 <= n < 2 ^ 64 -> int n = n - 2 ^ 64.
Proof.
  intros H. unfold int, int64.
  replace (n + 2 ^ 63) with (n - 2 ^ 63 + 1 * 2 ^ 64) by lia.
  rewrite Z.mod_add, Z.mod_small by lia. lia.
Qed.

(** The checks on the length of a length-delimited field, on a buffer that
    holds the tag, the length and what follows. *)
Lemma Unmarshal_delimited_checks {M X}
  (field : M -> Z -> Z -> list byte -> Z -> Z -> result (M * Z))
  conv toInt tag fieldNum (dec : M -> list byte -> result X) (set : M -> X -> M) m n rest :
  (forall m d i j,
      field m fieldNum 2 d i j
      = ('(j, postIndex) <- read_length conv toInt d j ;;
         sub <- slice d j postIndex ;;
         x <- dec m sub ;;
         Ok (set m x, postIndex))) ->
  tag_of tag = Some (fieldNum, 2) ->
  bits_conv conv -> toInt (conv n) = int n ->
  0 <= n < 2 ^ 64 ->
  (2 ^ 63 <= 1 + len (varint n) + n ->
   Unmarshal_with field m (tag :: varint n ++ rest) = Err ErrInvalidLengthCanonical)
  /\ (1 + len (varint n) + n < 2 ^ 63 -> len rest < n ->
      Unmarshal_with field m (tag :: varint n ++ rest) = Err ErrUnexpectedEOF).
Proof.
  intros Hfield Htag Hc Hconv Hn. set (d := tag :: varint n ++ rest).
  assert (Hat : at_index d 0 (tag :: varint n ++ rest)) by apply at_index_start.
  pose proof (at_index_cons _ _ _ _ Hat) as Hat1.
  pose proof (at_index_len _ _ _ Hat) as [_ Hl].
  rewrite len_cons, len_app in Hl.
  pose proof (len_varint_pos n Hn) as Hv1. pose proof (len_varint_le n Hn) as Hv10.
  pose proof (len_nonneg rest) as Hr.
  assert (Hround : Unmarshal_with field m d
                   = ('(j, postIndex) <- read_length conv toInt d (0 + 1) ;;
                      sub <- slice d j postIndex ;;
                      x <- dec m sub ;;
                      '(m, i) <- Ok (set m x, postIndex) ;;
                      Unmarshal_loop field (length d) d m i)).
  { unfold Unmarshal_with. cbn [Unmarshal_loop]. destruct (Z.ltb_spec 0 (len d)); [|lia]. cbv zeta.
    rewrite (read_tag_const d 0 tag _ fieldNum 2 Hat Htag). cbn [bind].
    rewrite Hfield.
    destruct (read_length conv toInt d (0 + 1)) as [[j postIndex]| | |]; cbn [bind];
      try reflexivity.
    destruct (slice d j postIndex) as [sub|e| |]; cbn [bind]; try reflexivity.
    destruct (dec m sub); reflexivity. }
  rewrite Hround. unfold read_length.
  rewrite (read_varint_at conv d (0 + 1) n rest Hc Hn Hat1). cbn [bind]. cbv zeta.
  rewrite Hconv.
  split.
  - intros Hbig. destruct (Z.ltb_spec (int n) 0) as [|Hpos]; [reflexivity|].
    assert (Hsmall : n < 2 ^ 63).
    { destruct (Z.lt_ge_cases n (2 ^ 63)) as [|Hge]; [assumption|].
      rewrite int_negative in Hpos by lia. lia. }
    rewrite (int_small n) by (unfold is_int64, MinInt64, MaxInt64; lia).
    rewrite (int_negative (0 + 1 + len (varint n) + n)) by lia.
    destruct (Z.ltb_spec (0 + 1 + len (varint n) + n - 2 ^ 64) 0); [reflexivity | lia].
  - intros Hfit Hshort.
    rewrite (int_small n) by (unfold is_int64, MinInt64, MaxInt64; lia).
    destruct (Z.ltb_spec n 0); [lia|].
    rewrite (int_small (0 + 1 + len (varint n) + n))
      by (unfold is_int64, MinInt64, MaxInt64; lia).
    destruct (Z.ltb_spec (0 + 1 + len (varint n) + n) 0); [lia|].
    destruct (Z.ltb_spec (len d) (0 + 1 + len (varint n) + n)); [reflexivity | lia].
Qed.

(** The check on the eight bytes of a fixed-width field. *)
Lemma Unmarshal_fixed64_checks {M}
  (field : M -> Z -> Z -> list byte -> Z -> Z -> result (M * Z))
  tag fieldNum (set : M -> Z -> M) m rest :
  (forall m d i j,
      field m fieldNum 1 d i j = ('(v, j) <- read_fixed64 d j ;; Ok (set m v, j))) ->
  tag_of tag = Some (fieldNum, 1) ->
  len rest < 8 ->
  Unmarshal_with field m (tag :: rest) = Err ErrUnexpectedEOF.
Proof.
  intros Hfield Htag Hshort. set (d := tag :: rest).
  assert (Hat : at_index d 0 (tag :: rest)) by apply at_index_start.
  pose proof (at_index_len _ _ _ Hat) as [_ Hl]. rewrite len_cons in Hl.
  pose proof (len_nonneg rest) as Hr.
  unfold Unmarshal_with. cbn [Unmarshal_loop]. destruct (Z.ltb_spec 0 (len d)); [|lia]. cbv zeta.
  rewrite (read_tag_const d 0 tag _ fieldNum 1 Hat Htag). cbn [bind].
  rewrite Hfield. unfold read_fixed64.
  destruct (Z.ltb_spec (len d) (0 + 1 + 8)); [reflexivity | lia].
Qed.

(** X18. A field of the message that declares more bytes than the buffer
    holds is an error, for every receiver.  For a length-delimited field
    (the hashes, the nested messages, the timestamp, the chain id) of
    declared length [n]: when the end of the payload, the tag and the
    length included, does not fit [int], and so when [n] itself is
    negative as an [int], the error is the invalid-length one; otherwise,
    when fewer than [n] bytes follow, it is the unexpected-end one.  A
    height or a round followed by fewer than eight bytes is the
    unexpected-end error. *)
Theorem known_fields_check_their_length (n : Z) (rest : list byte) :
  0 <= n < 2 ^ 64 ->
  let fail (e : error) :=
    (forall m,
        CanonicalPartSetHeader_Unmarshal m (Byte.x12 :: varint n ++ rest) = Err e)
    /\ (forall tag m, In tag [Byte.x0a; Byte.x12] ->
                      CanonicalBlockID_Unmarshal m (tag :: varint n ++ rest) = Err e)
    /\ (forall tag m, In tag [Byte.x2a; Byte.x32; Byte.x3a] ->
                      CanonicalProposal_Unmarshal m (tag :: varint n ++ rest) = Err e)
    /\ (forall tag m, In tag [Byte.x22; Byte.x2a; Byte.x32; Byte.x3a] ->
                      CanonicalVote_Unmarshal m (tag :: varint n ++ rest) = Err e) in
  (2 ^ 63 <= 1 + len (varint n) + n -> fail ErrInvalidLengthCanonical)
  /\ (1 + len (varint n) + n < 2 ^ 63 -> len rest < n -> fail ErrUnexpectedEOF)
  /\ (len rest < 8 ->
      forall tag, In tag [Byte.x11; Byte.x19] ->
        (forall m, CanonicalProposal_Unmarshal m (tag :: rest) = Err ErrUnexpectedEOF)
        /\ (forall m, CanonicalVote_Unmarshal m (tag :: rest) = Err ErrUnexpectedEOF)).
Proof.
  intros Hn.
  assert (Hint : (fun z => z) (int n) = int n) by reflexivity.
  assert (Huint : int (uint64 n) = int n)
    by (unfold uint64; rewrite Z.mod_small by lia; reflexivity).
  pose proof (Unmarshal_delimited_checks CanonicalPartSetHeader_field int (fun z => z)
                Byte.x12 2 (fun _ sub => Ok sub)
                (fun m bs => {| psh_Total := psh_Total m; psh_Hash := bs |}))
    as Hh2.
  pose proof (Unmarshal_delimited_checks CanonicalBlockID_field int (fun z => z)
                Byte.x0a 1 (fun _ sub => Ok sub)
                (fun m bs => {| bid_Hash := bs; bid_PartSetHeader := bid_PartSetHeader m |}))
    as Hb1.
  pose proof (Unmarshal_delimited_checks CanonicalBlockID_field int (fun z => z)
                Byte.x12 2
                (fun m sub => CanonicalPartSetHeader_Unmarshal (bid_PartSetHeader m) sub)
                (fun m h => {| bid_Hash := bid_Hash m; bid_PartSetHeader := h |}))
    as Hb2.
  pose proof (Unmarshal_delimited_checks CanonicalProposal_field int (fun z => z)
                Byte.x2a 5 (fun m sub => unmarshal_BlockID (prop_BlockID m) sub)
                with_prop_BlockID) as Hp5.
  pose proof (Unmarshal_delimited_checks CanonicalProposal_field int (fun z => z)
                Byte.x32 6 (fun _ sub => StdTimeUnmarshal sub) with_prop_Timestamp) as Hp6.
  pose proof (Unmarshal_delimited_checks CanonicalProposal_field uint64 int
                Byte.x3a 7 (fun _ sub => Ok sub) with_prop_ChainID) as Hp7.
  pose proof (Unmarshal_delimited_checks CanonicalVote_field int (fun z => z)
                Byte.x22 4 (fun m sub => unmarshal_BlockID (vote_BlockID m) sub)
                with_vote_BlockID) as Hv4.
  pose proof (Unmarshal_delimited_checks CanonicalVote_field int (fun z => z)
                Byte.x2a 5 (fun _ sub => StdTimeUnmarshal sub) with_vote_Timestamp) as Hv5.
  pose proof (Unmarshal_delimited_checks CanonicalVote_field uint64 int
                Byte.x32 6 (fun _ sub => Ok sub) with_vote_ChainID) as Hv6.
  pose proof (Unmarshal_delimited_checks CanonicalVote_field int (fun z => z)
                Byte.x3a 7
                (fun m sub => unmarshal_VoteExtension (vote_VoteExtension m) sub)
                with_vote_VoteExtension) as Hv7.
  cbv zeta. split; [|split].
  - intros Hbig. repeat apply conj.
    + intros m. apply Hh2; try reflexivity; try assumption; apply bits_conv_int.
    + intros tag m [<-|[<-|[]]];
        [apply Hb1 | apply Hb2]; try reflexivity; try assumption; apply bits_conv_int.
    + intros tag m [<-|[<-|[<-|[]]]];
        [apply Hp5 | apply Hp6 | apply Hp7]; try reflexivity; try assumption;
        first [apply bits_conv_int | apply bits_conv_uint64].
    + intros tag m [<-|[<-|[<-|[<-|[]]]]];
        [apply Hv4 | apply Hv5 | apply Hv6 | apply Hv7];
        try reflexivity; try assumption;
        first [apply bits_conv_int | apply bits_conv_uint64].
  - intros Hfit Hshort. repeat apply conj.
    + intros m. apply Hh2; try reflexivity; try assumption; apply bits_conv_int.
    + intros tag m [<-|[<-|[]]];
        [apply Hb1 | apply Hb2]; try reflexivity; try assumption; apply bits_conv_int.
    + intros tag m [<-|[<-|[<-|[]]]];
        [apply Hp5 | apply Hp6 | apply Hp7]; try reflexivity; try assumption;
        first [apply bits_conv_int | apply bits_conv_uint64].
    + intros tag m [<-|[<-|[<-|[<-|[]]]]];
        [apply Hv4 | apply Hv5 | apply Hv6 | apply Hv7];
        try reflexivity; try assumption;
        first [apply bits_conv_int | apply bits_conv_uint64].
  - intros Hshort tag [<-|[<-|[]]]; split; intros m.
    + apply (Unmarshal_fixed64_checks CanonicalProposal_field Byte.x11 2 with_prop_Height);
        [reflexivity | reflexivity | exact Hshort].
    + apply (Unmarshal_fixed64_checks CanonicalVote_field Byte.x11 2 with_vote_Height);
        [reflexivity | reflexivity | exact Hshort].
    + apply (Unmarshal_fixed64_checks CanonicalProposal_field Byte.x19 3 with_prop_Round);
        [reflexivity | reflexivity | exact Hshort].
    + apply (Unmarshal_fixed64_checks CanonicalVote_field Byte.x19 3 with_vote_Round);
        [reflexivity | reflexivity | exact Hshort].
Qed.

(** ** An unknown length-delimited field, whatever the form of its varints *)

Lemma index_skipn d i0 i :
  0 <= i0 -> 0 <= i -> i0 + i < len d ->
  index (skipn (Z.to_nat i0) d) i = index d (i0 + i).
Proof.
  intros H0 Hi Hl.
  pose proof (index_embed (firstn (Z.to_nat i0) d) (skipn (Z.to_nat i0) d) [] i) as E.
  rewrite app_nil_r, firstn_skipn, len_firstn in E by lia.
  symmetry. apply E. rewrite len_skipn by lia. lia.
Qed.

(** A varint loop on [dAtA[i0:]] reads what the loop on [dAtA] reads from
    [i0] on. *)
Lemma varint_loop_skipn conv d i0 :
  0 <= i0 ->
  forall fuel shift acc i v j,
    0 <= i -> varint_loop conv d fuel shift acc (i0 + i) = Ok (v, j) ->
    varint_loop conv (skipn (Z.to_nat i0) d) fuel shift acc i = Ok (v, j - i0).
Proof.
  intros H0. induction fuel as [|fuel IH]; intros shift acc i v j Hi H; [discriminate|].
  cbn [varint_loop] in *.
  destruct (64 <=? shift); [discriminate|].
  destruct (Z.leb_spec (len d) (i0 + i)); [discriminate|].
  rewrite len_skipn by lia.
  destruct (Z.leb_spec (len d - i0) i); [lia|].
  rewrite index_skipn by lia.
  destruct (index d (i0 + i)) as [b| | |]; try discriminate.
  cbn [bind] in *. cbv zeta in *.
  destruct (byte.unsigned b <? 128).
  - injection H as <- <-. apply Ok_pair_eq; [reflexivity | lia].
  - apply IH; [lia|]. replace (i0 + (i + 1)) with (i0 + i + 1) by lia. exact H.
Qed.

Lemma read_varint_skipn conv d i0 i v j :
  0 <= i0 <= i -> read_varint conv d i = Ok (v, j) ->
  read_varint conv (skipn (Z.to_nat i0) d) (i - i0) = Ok (v, j - i0).
Proof.
  intros Hi H. apply varint_loop_skipn; [lia | lia|].
  replace (i0 + (i - i0)) with i by lia. exact H.
Qed.

Lemma read_varint_Ok_range conv d i v j :
  read_varint conv d i = Ok (v, j) -> 0 <= i /\ i < j <= len d.
Proof.
  intros H. destruct (Z.lt_ge_cases i 0) as [Hneg|Hpos].
  - rewrite read_varint_negative in H by exact Hneg. discriminate.
  - pose proof (read_varint_advances conv d i Hpos) as Ha. rewrite H in Ha.
    cbn [advances] in Ha. lia.
Qed.

(** The default case of a decoding round on a field of wire type 2: [wire]
    is the tag and [L] the length that the loops read, [i2] the index after
    the length. *)
Lemma skip_unknown_delimited d i wire i1 L i2 :
  len d <= MaxInt64 ->
  read_varint uint64 d i = Ok (wire, i1) -> int (Z.land wire 7) = 2 ->
  read_varint int d i1 = Ok (L, i2) ->
  skip_unknown d i
  = if (L <? 0) || (MaxInt64 <? i2 + L) then Err ErrInvalidLengthCanonical
    else if len d <? i2 + L then Err ErrUnexpectedEOF
    else Ok (i2 + L).
Proof.
  intros Hd Hw Hwt HL.
  destruct (read_varint_Ok_range _ _ _ _ _ Hw) as [Hi Hi1].
  destruct (read_varint_Ok_range _ _ _ _ _ HL) as [_ Hi2].
  pose proof (int_range L) as Hr.
  rewrite (read_varint_image int d i1 L i2 bits_conv_int HL) in Hr.
  unfold is_int64, MinInt64, MaxInt64 in Hr. unfold MaxInt64 in *.
  unfold skip_unknown. cbv zeta.
  rewrite (slice_from_at d i _ (at_index_skipn d i ltac:(lia))). cbn [bind].
  set (s := skipn (Z.to_nat i) d).
  assert (Hs : len s = len d - i) by (apply len_skipn; lia).
  assert (Hskip : skipCanonical s
                  = if L <? 0 then Err ErrInvalidLengthCanonical
                    else if int (i2 - i + L) <? 0 then Err ErrInvalidLengthCanonical
                    else Ok (int (i2 - i + L))).
  { unfold skipCanonical.
    rewrite (skip_loop_round (length s) s 0 0 wire (i1 - i)); [| lia |].
    - rewrite Hwt. cbn [skip_field].
      pose proof (read_varint_skipn int d i i1 L i2 ltac:(lia) HL) as HL'.
      fold s in HL'. rewrite HL'. cbn [bind].
      destruct (L <? 0); [reflexivity|]. cbn [bind].
      destruct (int (i2 - i + L) <? 0); reflexivity.
    - pose proof (read_varint_skipn uint64 d i i wire i1 ltac:(lia) Hw) as Hw'.
      rewrite Z.sub_diag in Hw'. exact Hw'. }
  rewrite Hskip.
  destruct (Z.ltb_spec L 0) as [Hneg|Hpos]; [reflexivity|]. cbn [orb].
  destruct (Z.le_gt_cases (i2 - i + L) (2 ^ 63 - 1)) as [Hfit|Hbig].
  - rewrite (int_small (i2 - i + L)) by (unfold is_int64, MinInt64, MaxInt64; lia).
    destruct (Z.ltb_spec (i2 - i + L) 0); [lia|]. cbn [bind].
    destruct (Z.ltb_spec (i2 - i + L) 0); [lia|]. cbn [orb].
    replace (i + (i2 - i + L)) with (i2 + L) by lia.
    destruct (Z.ltb_spec (2 ^ 63 - 1) (i2 + L)) as [Hover|Hin].
    + rewrite (int_negative (i2 + L)) by lia.
      destruct (Z.ltb_spec (i2 + L - 2 ^ 64) 0); [reflexivity | lia].
    + rewrite (int_small (i2 + L)) by (unfold is_int64, MinInt64, MaxInt64; lia).
      destruct (Z.ltb_spec (i2 + L) 0); [lia | reflexivity].
  - rewrite (int_negative (i2 - i + L)) by lia.
    destruct (Z.ltb_spec (i2 - i + L - 2 ^ 64) 0); [|lia]. cbn [bind].
    destruct (Z.ltb_spec (2 ^ 63 - 1) (i2 + L)); [reflexivity | lia].
Qed.

Lemma Unmarshal_loop_unknown_delimited {M}
  (field : M -> Z -> Z -> list byte -> Z -> Z -> result (M * Z))
  fuel d m i fieldNum i1 L i2 :
  (forall m j, field m fieldNum 2 d i j = field_default m d i) ->
  len d <= MaxInt64 ->
  read_tag d i = Ok (fieldNum, 2, i1) -> read_varint int d i1 = Ok (L, i2) ->
  Unmarshal_loop field (S fuel) d m i
  = if (L <? 0) || (MaxInt64 <? i2 + L) then Err ErrInvalidLengthCanonical
    else if len d <? i2 + L then Err ErrUnexpectedEOF
    else Unmarshal_loop field fuel d m (i2 + L).
Proof.
  intros Hdef Hd Htag HL.
  assert (Hw : exists wire, read_varint uint64 d i = Ok (wire, i1)
                            /\ int (Z.land wire 7) = 2).
  { unfold read_tag in Htag.
    destruct (read_varint uint64 d i) as [[wire j]| | |]; try discriminate.
    cbn [bind] in Htag. cbv zeta in Htag.
    destruct (int (Z.land wire 7) =? 4); [discriminate|].
    destruct (int32 (Z.shiftr wire 3) <=? 0); [discriminate|].
    injection Htag as _ Hwt <-. now exists wire. }
  destruct Hw as (wire & Hw & Hwt).
  destruct (read_varint_Ok_range _ _ _ _ _ Hw) as [Hi Hi1].
  cbn [Unmarshal_loop]. destruct (Z.ltb_spec i (len d)); [|lia]. cbv zeta.
  rewrite Htag. cbn [bind]. rewrite Hdef. unfold field_default.
  rewrite (skip_unknown_delimited d i wire i1 L i2 Hd Hw Hwt HL).
  destruct ((L <? 0) || (MaxInt64 <? i2 + L)); [reflexivity|].
  destruct (len d <? i2 + L); reflexivity.
Qed.

(** C7, as amended.  A decoding round of one of the four [Unmarshal]
    methods stands at index [i] of the buffer, at a field of wire type 2
    whose number is no case of the switch (field number 99, say): the
    loop of the tag reads the field number and stops at [i1], and the
    loop of the length reads [L] and stops at [i2].  The varints have any
    form that the loops accept, and [L] is the length as the loop
    accumulates it in an [int]: the low 64 bits of the varint, signed.
    [skipCanonical] runs its own loops on [dAtA[i:]], and they read the
    same bytes.  With [i2 + L] the end offset of the field, the outcome
    is one of three.  When [L] is not negative and the end offset fits
    [int] and lies beyond the buffer, the method returns the
    unexpected-end error: no read out of range, and no other error.
    When [L] is negative or the end offset does not fit [int], it
    returns the invalid-length error.  When the field ends inside the
    buffer the round goes on after the field with the receiver as it is,
    and a buffer that ends with the field is decoded into the receiver
    unchanged. *)
Theorem unknown_field_longer_than_buffer (d : list byte) (i fieldNum i1 L i2 : Z) :
  len d <= MaxInt64 ->
  read_tag d i = Ok (fieldNum, 2, i1) ->
  read_varint int d i1 = Ok (L, i2) ->
  let outcome (M : Type) (field : M -> Z -> Z -> list byte -> Z -> Z -> result (M * Z))
        (unmarshal : M -> list byte -> result M) :=
    (0 <= L -> i2 + L <= MaxInt64 -> len d < i2 + L ->
     (forall fuel m, Unmarshal_loop field (S fuel) d m i = Err ErrUnexpectedEOF)
     /\ (i = 0 -> forall m, unmarshal m d = Err ErrUnexpectedEOF))
    /\ (L < 0 \/ MaxInt64 < i2 + L ->
        (forall fuel m,
            Unmarshal_loop field (S fuel) d m i = Err ErrInvalidLengthCanonical)
        /\ (i = 0 -> forall m, unmarshal m d = Err ErrInvalidLengthCanonical))
    /\ (0 <= L -> i2 + L <= len d ->
        (forall fuel m,
            Unmarshal_loop field (S fuel) d m i = Unmarshal_loop field fuel d m (i2 + L))
        /\ (i = 0 -> i2 + L = len d -> forall m, unmarshal m d = Ok m)) in
  (3 <= fieldNum ->
   outcome CanonicalPartSetHeader CanonicalPartSetHeader_field
     CanonicalPartSetHeader_Unmarshal
   /\ outcome CanonicalBlockID CanonicalBlockID_field CanonicalBlockID_Unmarshal)
  /\ (8 <= fieldNum ->
      outcome CanonicalProposal CanonicalProposal_field CanonicalProposal_Unmarshal
      /\ outcome CanonicalVote CanonicalVote_field CanonicalVote_Unmarshal).
Proof.
  intros Hd Htag HL.
  destruct (read_varint_Ok_range _ _ _ _ _ HL) as [_ Hi2].
  assert (Hout : forall M (field : M -> Z -> Z -> list byte -> Z -> Z -> result (M * Z))
                   (unmarshal : M -> list byte -> result M),
             (forall m, unmarshal m d = Unmarshal_with field m d) ->
             (forall m j, field m fieldNum 2 d i j = field_default m d i) ->
             (0 <= L -> i2 + L <= MaxInt64 -> len d < i2 + L ->
              (forall fuel m, Unmarshal_loop field (S fuel) d m i = Err ErrUnexpectedEOF)
              /\ (i = 0 -> forall m, unmarshal m d = Err ErrUnexpectedEOF))
             /\ (L < 0 \/ MaxInt64 < i2 + L ->
                 (forall fuel m,
                     Unmarshal_loop field (S fuel) d m i = Err ErrInvalidLengthCanonical)
                 /\ (i = 0 -> forall m, unmarshal m d = Err ErrInvalidLengthCanonical))
             /\ (0 <= L -> i2 + L <= len d ->
                 (forall fuel m,
                     Unmarshal_loop field (S fuel) d m i
                     = Unmarshal_loop field fuel d m (i2 + L))
                 /\ (i = 0 -> i2 + L = len d -> forall m, unmarshal m d = Ok m))).
  { intros M field unmarshal Hun Hdef.
    assert (Hround := fun fuel m =>
              Unmarshal_loop_unknown_delimited field fuel d m i fieldNum i1 L i2
                Hdef Hd Htag HL).
    split; [|split].
    - intros HL0 Hfit Hlong.
      assert (Hr : forall fuel m,
                 Unmarshal_loop field (S fuel) d m i = Err ErrUnexpectedEOF).
      { intros fuel m. rewrite Hround.
        destruct (Z.ltb_spec L 0); [lia|].
        destruct (Z.ltb_spec MaxInt64 (i2 + L)); [lia|]. cbn [orb].
        destruct (Z.ltb_spec (len d) (i2 + L)); [reflexivity | lia]. }
      split; [exact Hr|]. intros -> m. rewrite Hun. apply Hr.
    - intros Hbad.
      assert (Hr : forall fuel m,
                 Unmarshal_loop field (S fuel) d m i = Err ErrInvalidLengthCanonical).
      { intros fuel m. rewrite Hround.
        destruct (Z.ltb_spec L 0); [reflexivity|].
        destruct (Z.ltb_spec MaxInt64 (i2 + L)); [reflexivity | lia]. }
      split; [exact Hr|]. intros -> m. rewrite Hun. apply Hr.
    - intros HL0 Hin.
      assert (Hr : forall fuel m,
                 Unmarshal_loop field (S fuel) d m i
                 = Unmarshal_loop field fuel d m (i2 + L)).
      { intros fuel m. rewrite Hround.
        destruct (Z.ltb_spec L 0); [lia|].
        destruct (Z.ltb_spec MaxInt64 (i2 + L)); [lia|]. cbn [orb].
        destruct (Z.ltb_spec (len d) (i2 + L)); [lia | reflexivity]. }
      split; [exact Hr|]. intros -> Hend m. rewrite Hun. unfold Unmarshal_with.
      rewrite Hr, Hend.
      pose proof (read_tag_advances d 0 ltac:(lia)) as Ha. rewrite Htag in Ha.
      cbn [advances] in Ha.
      destruct (length d) eqn:E; [unfold len in Ha; rewrite E in Ha; lia|].
      apply Unmarshal_loop_at_end. }
  cbv zeta. split; intros Hf; split; apply Hout; try reflexivity; intros m j.
  - apply CanonicalPartSetHeader_field_default. lia.
  - apply CanonicalBlockID_field_default. lia.
  - apply CanonicalProposal_field_default. lia.
  - apply CanonicalVote_field_default. lia.
Qed.
End Canonical.

(** * The theorems on concrete messages

    The codecs of the section are instantiated with the timestamp and the
    extension modelled above; the values are those of the examples of the
    specification. *)

Local Abbreviation Proposal_Marshal := (CanonicalProposal_Marshal Timestamp Timestamp_bytes).
Local Abbreviation Proposal_Size := (CanonicalProposal_Size Timestamp Timestamp_bytes).
Local Abbreviation Proposal_Unmarshal :=
  (CanonicalProposal_Unmarshal Timestamp Timestamp_Unmarshal).
Local Abbreviation Proposal_zero := (CanonicalProposal_zero Timestamp Timestamp_zero).
Local Abbreviation Vote_Marshal :=
  (CanonicalVote_Marshal Timestamp Timestamp_bytes Extension Extension_bytes).
Local Abbreviation Vote_Size :=
  (CanonicalVote_Size Timestamp Timestamp_bytes Extension Extension_bytes).
Local Abbreviation Vote_Unmarshal :=
  (CanonicalVote_Unmarshal Timestamp Timestamp_Unmarshal Extension Extension_Unmarshal
     Extension_zero).
Local Abbreviation Vote_zero := (CanonicalVote_zero Timestamp Extension Timestamp_zero).

(** 2024-01-01T00:00:00Z. *)
Local Abbreviation ex_time := {| ts_Seconds := 1704067200; ts_Nanos := 0 |}.

(** Its encoding: the seconds under tag 1. *)
Local Abbreviation ex_time_bytes :=
  [Byte.x08; Byte.x80; Byte.x81; Byte.xc8; Byte.xac; Byte.x06].

(** The chain id "test-chain". *)
Local Abbreviation ex_chain :=
  [Byte.x74; Byte.x65; Byte.x73; Byte.x74; Byte.x2d;
   Byte.x63; Byte.x68; Byte.x61; Byte.x69; Byte.x6e].

Local Abbreviation ex_block :=
  {| bid_Hash := repeat Byte.x00 32;
     bid_PartSetHeader := {| psh_Total := 1; psh_Hash := repeat Byte.x00 32 |} |}.

(** A precommit (type 2) without a vote extension. *)
Local Abbreviation ex_vote :=
  {| vote_Type := 2; vote_Height := 12345; vote_Round := 2;
     vote_BlockID := Some ex_block; vote_Timestamp := ex_time;
     vote_ChainID := ex_chain; vote_VoteExtension := @None Extension |}.

Local Abbreviation ex_extension := [Byte.xca; Byte.xfe].

Local Abbreviation ex_vote_extended :=
  {| vote_Type := 2; vote_Height := 12345; vote_Round := 2;
     vote_BlockID := Some ex_block; vote_Timestamp := ex_time;
     vote_ChainID := ex_chain; vote_VoteExtension := Some (ex_extension : Extension) |}.

(** A proposal (type 32) with no proof-of-lock round. *)
Local Abbreviation ex_proposal :=
  {| prop_Type := 32; prop_Height := 12345; prop_Round := 2; prop_POLRound := -1;
     prop_BlockID := Some ex_block; prop_Timestamp := ex_time; prop_ChainID := ex_chain |}.

(** The proposal of the presence rule. *)
Local Abbreviation ex_bare_proposal :=
  {| prop_Type := 0; prop_Height := 0; prop_Round := 0; prop_POLRound := 0;
     prop_BlockID := None; prop_Timestamp := Timestamp_zero; prop_ChainID := ex_chain |}.

Ltac by_computation :=
  vm_compute;
  repeat match goal with
    | |- _ /\ _ => split
    | |- _ = _ => reflexivity
    | |- _ <> _ => discriminate
    | |- _ -> False => discriminate
    | |- True => exact I
    end.

Lemma decode_encode_roundtrip_witness :
  (bs <- CanonicalBlockID_Marshal ex_block ;;
   CanonicalBlockID_Unmarshal CanonicalBlockID_zero bs) = Ok ex_block
  /\ (bs <- Proposal_Marshal ex_proposal ;; Proposal_Unmarshal Proposal_zero bs)
     = Ok ex_proposal
  /\ (bs <- Vote_Marshal ex_vote_extended ;; Vote_Unmarshal Vote_zero bs)
     = Ok ex_vote_extended.
Proof.
  destruct (decode_encode_roundtrip Timestamp Timestamp_bytes Timestamp_Unmarshal
              Extension Extension_bytes Extension_Unmarshal Extension_zero Timestamp_zero)
    as (Hb & Hp & Hv).
  split; [|split].
  - apply Hb; by_computation.
  - apply (Hp ex_proposal ex_time_bytes); by_computation.
  - apply (Hv ex_vote_extended ex_time_bytes); try by_computation.
    intros e He. reflexivity.
Defined.

(** A proposal that has only a pol_round, of value -1. *)
Local Abbreviation ex_pol_proposal :=
  {| prop_Type := 0; prop_Height := 0; prop_Round := 0; prop_POLRound := -1;
     prop_BlockID := None; prop_Timestamp := Timestamp_zero; prop_ChainID := [] |}.

Local Abbreviation ex_pol_bytes :=
  [Byte.x20; Byte.xff; Byte.xff; Byte.xff; Byte.xff; Byte.xff;
   Byte.xff; Byte.xff; Byte.xff; Byte.xff; Byte.x01; Byte.x32; Byte.x00].

Lemma pol_round_plain_varint_witness :
  Proposal_Marshal ex_pol_proposal = Ok ex_pol_bytes
  /\ (exists rest, ex_pol_bytes = (Byte.x20 :: varint (uint64 (-1))) ++ rest)
  /\ (bs <- Proposal_Marshal ex_proposal ;; Proposal_Unmarshal Proposal_zero bs)
     = Ok ex_proposal.
Proof.
  destruct (pol_round_plain_varint Timestamp Timestamp_bytes Timestamp_Unmarshal
              Timestamp_zero) as (Hlayout & _ & Hrt).
  split; [reflexivity | split].
  - exact (Hlayout ex_pol_proposal ex_pol_bytes eq_refl).
  - apply (Hrt ex_proposal ex_time_bytes); by_computation.
Defined.

(** The encoder does not apply the zig-zag mapping: the proposal with only
    pol_round -1 takes the ten bytes of the two's complement value where
    the mapping would give the single byte 01, and the decoder reads that
    byte as pol_round 1. *)
Lemma pol_round_zigzag_counterexample :
  Proposal_Marshal ex_pol_proposal = Ok ex_pol_bytes
  /\ field_varint (byte.of_Z (tag_value 4 0)) (zigzag64 (-1)) = [Byte.x20; Byte.x01]
  /\ ex_pol_bytes <> field_varint (byte.of_Z (tag_value 4 0)) (zigzag64 (-1))
                     ++ [Byte.x32; Byte.x00]
  /\ Proposal_Unmarshal Proposal_zero [Byte.x20; Byte.x01; Byte.x32; Byte.x00]
     = Ok {| prop_Type := 0; prop_Height := 0; prop_Round := 0; prop_POLRound := 1;
             prop_BlockID := None; prop_Timestamp := Timestamp_zero;
             prop_ChainID := [] |}.
Proof.
  by_computation.
Qed.

Lemma always_and_conditionally_emitted_fields_witness :
  CanonicalPartSetHeader_Marshal CanonicalPartSetHeader_zero = Ok []
  /\ CanonicalBlockID_Marshal CanonicalBlockID_zero = Ok [Byte.x12; Byte.x00]
  /\ Proposal_Marshal Proposal_zero = Ok [Byte.x32; Byte.x00]
  /\ Vote_Marshal Vote_zero = Ok [Byte.x2a; Byte.x00].
Proof.
  destruct (always_and_conditionally_emitted_fields Timestamp Timestamp_bytes
              Extension Extension_bytes) as (Hh & Hb & Hp & Hv).
  split; [|split; [|split]].
  - exact (Hh CanonicalPartSetHeader_zero).
  - exact (Hb CanonicalBlockID_zero [] eq_refl).
  - exact (Hp Proposal_zero [] eq_refl).
  - exact (Hv Vote_zero [] eq_refl).
Defined.

Local Abbreviation ex_vote_zero_extended :=
  {| vote_Type := 0; vote_Height := 0; vote_Round := 0; vote_BlockID := None;
     vote_Timestamp := Timestamp_zero; vote_ChainID := [];
     vote_VoteExtension := Some (ex_extension : Extension) |}.

Lemma vote_extension_changes_length_witness :
  Vote_Marshal Vote_zero = Ok [Byte.x2a; Byte.x00]
  /\ Vote_Marshal ex_vote_zero_extended
     = Ok [Byte.x2a; Byte.x00; Byte.x3a; Byte.x02; Byte.xca; Byte.xfe]
  /\ len [Byte.x2a; Byte.x00; Byte.x3a; Byte.x02; Byte.xca; Byte.xfe]
     = len [Byte.x2a; Byte.x00] + 1 + 1 + 2
  /\ len [Byte.x2a; Byte.x00]
     <> len [Byte.x2a; Byte.x00; Byte.x3a; Byte.x02; Byte.xca; Byte.xfe]
  /\ [Byte.x2a; Byte.x00]
     <> [Byte.x2a; Byte.x00; Byte.x3a; Byte.x02; Byte.xca; Byte.xfe].
Proof.
  split; [reflexivity | split; [reflexivity|]].
  exact (vote_extension_changes_length Timestamp Timestamp_bytes Extension Extension_bytes
           Vote_zero ex_extension _ _ eq_refl eq_refl eq_refl).
Defined.

Lemma Proposal_presence_rule_witness :
  Timestamp_bytes Timestamp_zero = Ok []
  /\ ex_chain <> []
  /\ Proposal_Marshal ex_bare_proposal
     = Ok (Byte.x32 :: Byte.x00 :: Byte.x3a :: Byte.x0a :: ex_chain).
Proof.
  assert (Hc : ex_chain <> []) by discriminate.
  split; [reflexivity | split; [exact Hc|]].
  exact (Proposal_presence_rule Timestamp Timestamp_bytes Timestamp_zero [] ex_chain
           eq_refl Hc).
Defined.

(** A proposal and a vote of height -1 and round 3. *)
Local Abbreviation ex_low_proposal :=
  {| prop_Type := 0; prop_Height := -1; prop_Round := 3; prop_POLRound := 0;
     prop_BlockID := None; prop_Timestamp := Timestamp_zero; prop_ChainID := [] |}.

Local Abbreviation ex_low_vote :=
  {| vote_Type := 0; vote_Height := -1; vote_Round := 3; vote_BlockID := None;
     vote_Timestamp := Timestamp_zero; vote_ChainID := [];
     vote_VoteExtension := @None Extension |}.

Local Abbreviation ex_low_fields :=
  ((Byte.x11 :: repeat Byte.xff 8) ++ (Byte.x19 :: Byte.x03 :: repeat Byte.x00 7)).

Lemma height_round_fixed64_witness :
  Proposal_Marshal ex_low_proposal = Ok (ex_low_fields ++ [Byte.x32; Byte.x00])
  /\ Vote_Marshal ex_low_vote = Ok (ex_low_fields ++ [Byte.x2a; Byte.x00])
  /\ (exists rest, ex_low_fields ++ [Byte.x32; Byte.x00] = ex_low_fields ++ rest)
  /\ (exists rest, ex_low_fields ++ [Byte.x2a; Byte.x00] = ex_low_fields ++ rest).
Proof.
  pose proof (height_round_fixed64 Timestamp Timestamp_bytes Extension Extension_bytes)
    as H.
  cbv zeta in H. destruct H as (_ & Hp & Hv).
  split; [reflexivity | split; [reflexivity | split]].
  - exact (Hp ex_low_proposal _ eq_refl).
  - exact (Hv ex_low_vote _ eq_refl).
Defined.

(** Field 99 of wire type 2 that declares five bytes where two remain. *)
Local Abbreviation ex_truncated := [Byte.x9a; Byte.x06; Byte.x05; Byte.x01; Byte.x02].

(** The same field with the length 5 written on two bytes. *)
Local Abbreviation ex_truncated_long :=
  [Byte.x9a; Byte.x06; Byte.x85; Byte.x00; Byte.x01; Byte.x02].

(** Field 99 of wire type 2 whose length has ten bytes, the last one 02:
    the loop shifts that byte out of the [int] and reads the length 0. *)
Local Abbreviation ex_wrapped :=
  (Byte.x9a :: Byte.x06 :: repeat Byte.x80 9 ++ [Byte.x02]).

(** Field 99 of wire type 2 that declares 2^63 - 1 bytes: the end offset
    of the field wraps around, and every decoder answers with the
    invalid-length error, not with the unexpected-end error. *)
Local Abbreviation ex_huge :=
  [Byte.x9a; Byte.x06; Byte.xff; Byte.xff; Byte.xff; Byte.xff; Byte.xff;
   Byte.xff; Byte.xff; Byte.xff; Byte.x7f].

Lemma unknown_field_longer_than_buffer_witness :
  (CanonicalPartSetHeader_Unmarshal CanonicalPartSetHeader_zero ex_truncated
   = Err ErrUnexpectedEOF
   /\ CanonicalBlockID_Unmarshal CanonicalBlockID_zero ex_truncated = Err ErrUnexpectedEOF
   /\ Proposal_Unmarshal Proposal_zero ex_truncated = Err ErrUnexpectedEOF
   /\ Vote_Unmarshal Vote_zero ex_truncated = Err ErrUnexpectedEOF)
  /\ (read_varint int ex_truncated_long 2 = Ok (5, 4)
      /\ Vote_Unmarshal Vote_zero ex_truncated_long = Err ErrUnexpectedEOF)
  /\ (read_varint int ex_huge 2 = Ok (MaxInt64, 11)
      /\ CanonicalPartSetHeader_Unmarshal CanonicalPartSetHeader_zero ex_huge
         = Err ErrInvalidLengthCanonical
      /\ CanonicalBlockID_Unmarshal CanonicalBlockID_zero ex_huge
         = Err ErrInvalidLengthCanonical
      /\ Proposal_Unmarshal Proposal_zero ex_huge = Err ErrInvalidLengthCanonical
      /\ Vote_Unmarshal Vote_zero ex_huge = Err ErrInvalidLengthCanonical)
  /\ (read_varint int ex_wrapped 2 = Ok (0, 12)
      /\ Proposal_Unmarshal ex_proposal ex_wrapped = Ok ex_proposal).
Proof.
  pose proof (unknown_field_longer_than_buffer Timestamp Timestamp_bytes
                Timestamp_Unmarshal Extension Extension_bytes Extension_Unmarshal
                Extension_zero Timestamp_zero) as T.
  assert (R3 : 3 <= 99) by lia. assert (R8 : 8 <= 99) by lia.
  split; [|split; [|split]].
  - assert (Hd : len ex_truncated <= MaxInt64) by discriminate.
    assert (Hfit : 3 + 5 <= MaxInt64) by discriminate.
    assert (Hlong : len ex_truncated < 3 + 5) by reflexivity.
    pose proof (T ex_truncated 0 99 2 5 3 Hd eq_refl eq_refl) as H.
    cbv zeta in H. destruct H as (H3 & H8).
    destruct (H3 R3) as ((Hh & _) & (Hb & _)). destruct (H8 R8) as ((Hp & _) & (Hv & _)).
    destruct (Hh ltac:(lia) Hfit Hlong) as (_ & Hh0).
    destruct (Hb ltac:(lia) Hfit Hlong) as (_ & Hb0).
    destruct (Hp ltac:(lia) Hfit Hlong) as (_ & Hp0).
    destruct (Hv ltac:(lia) Hfit Hlong) as (_ & Hv0).
    repeat apply conj; [apply Hh0 | apply Hb0 | apply Hp0 | apply Hv0]; reflexivity.
  - assert (Hd : len ex_truncated_long <= MaxInt64) by discriminate.
    assert (Hfit : 4 + 5 <= MaxInt64) by discriminate.
    assert (Hlong : len ex_truncated_long < 4 + 5) by reflexivity.
    pose proof (T ex_truncated_long 0 99 2 5 4 Hd eq_refl eq_refl) as H.
    cbv zeta in H. destruct H as (_ & H8).
    destruct (H8 R8) as (_ & (Hv & _)).
    destruct (Hv ltac:(lia) Hfit Hlong) as (_ & Hv0).
    split; [reflexivity | apply Hv0; reflexivity].
  - assert (Hd : len ex_huge <= MaxInt64) by discriminate.
    assert (Hover : MaxInt64 < 0 \/ MaxInt64 < 11 + MaxInt64) by (right; reflexivity).
    assert (Hlen : read_varint int ex_huge 2 = Ok (MaxInt64, 11))
      by (vm_compute; reflexivity).
    pose proof (T ex_huge 0 99 2 MaxInt64 11 Hd eq_refl Hlen) as H.
    cbv zeta in H. destruct H as (H3 & H8).
    destruct (H3 R3) as ((_ & Hh & _) & (_ & Hb & _)).
    destruct (H8 R8) as ((_ & Hp & _) & (_ & Hv & _)).
    destruct (Hh Hover) as (_ & Hh0). destruct (Hb Hover) as (_ & Hb0).
    destruct (Hp Hover) as (_ & Hp0). destruct (Hv Hover) as (_ & Hv0).
    split; [exact Hlen|].
    repeat apply conj; [apply Hh0 | apply Hb0 | apply Hp0 | apply Hv0]; reflexivity.
  - assert (Hd : len ex_wrapped <= MaxInt64) by discriminate.
    assert (Hlen : read_varint int ex_wrapped 2 = Ok (0, 12))
      by (vm_compute; reflexivity).
    assert (Htag : read_tag ex_wrapped 0 = Ok (99, 2, 2)) by (vm_compute; reflexivity).
    pose proof (T ex_wrapped 0 99 2 0 12 Hd Htag Hlen) as H.
    cbv zeta in H. destruct H as (_ & H8).
    destruct (H8 R8) as ((_ & _ & Hp) & _).
    destruct Hp as (_ & Hp0); [lia | vm_compute; discriminate |].
    split; [exact Hlen | apply Hp0; reflexivity].
Defined.

Lemma unknown_field_huge_length_counterexample :
  read_tag ex_huge 0 = Ok (99, 2, 2)
  /\ read_varint int ex_huge 2 = Ok (MaxInt64, 11)
  /\ len ex_huge - 11 < MaxInt64
  /\ skipCanonical ex_huge = Err ErrInvalidLengthCanonical
  /\ CanonicalPartSetHeader_Unmarshal CanonicalPartSetHeader_zero ex_huge
     = Err ErrInvalidLengthCanonical
  /\ CanonicalBlockID_Unmarshal CanonicalBlockID_zero ex_huge
     = Err ErrInvalidLengthCanonical
  /\ Proposal_Unmarshal Proposal_zero ex_huge = Err ErrInvalidLengthCanonical
  /\ Vote_Unmarshal Vote_zero ex_huge = Err ErrInvalidLengthCanonical
  /\ Err ErrInvalidLengthCanonical <> @Err Z ErrUnexpectedEOF.
Proof.
  by_computation.
Qed.

Lemma varint_overflow_and_truncation_witness :
  (read_varint uint64 (repeat Byte.xff 10 ++ [Byte.x01]) 0 = Err ErrIntOverflowCanonical
   /\ skip_varint_loop (repeat Byte.xff 10 ++ [Byte.x01]) 11 0 0
      = Err ErrIntOverflowCanonical)
  /\ (read_varint uint64 [Byte.x08; Byte.x80; Byte.x80] 1 = Err ErrUnexpectedEOF
      /\ skip_varint_loop [Byte.x08; Byte.x80; Byte.x80] 11 0 1 = Err ErrUnexpectedEOF)
  /\ (skipCanonical (repeat Byte.xff 10) = Err ErrIntOverflowCanonical
      /\ Vote_Unmarshal Vote_zero (repeat Byte.xff 10) = Err ErrIntOverflowCanonical)
  /\ (skipCanonical [Byte.x80; Byte.x80] = Err ErrUnexpectedEOF
      /\ Proposal_Unmarshal Proposal_zero [Byte.x80; Byte.x80] = Err ErrUnexpectedEOF).
Proof.
  destruct (varint_overflow_and_truncation Timestamp Timestamp_Unmarshal
              Extension Extension_Unmarshal Extension_zero) as (Ho & Ht & Hdo & Hdt).
  split; [|split; [|split]].
  - apply (Ho uint64 _ 0 (repeat Byte.xff 10) [Byte.x01]);
      [exists []; split; reflexivity | reflexivity | reflexivity].
  - apply (Ht uint64 _ 1 [Byte.x80; Byte.x80]);
      [exists [Byte.x08]; split; reflexivity | cbn; lia | reflexivity].
  - destruct (Hdo (repeat Byte.xff 10) [] CanonicalPartSetHeader_zero
                CanonicalBlockID_zero Proposal_zero Vote_zero eq_refl eq_refl)
      as (Hs & _ & _ & _ & Hv).
    split; [exact Hs | exact Hv].
  - assert (Hn : (0 < length [Byte.x80; Byte.x80] < 10)%nat) by (cbn; lia).
    destruct (Hdt [Byte.x80; Byte.x80] CanonicalPartSetHeader_zero
                CanonicalBlockID_zero Proposal_zero Vote_zero Hn eq_refl)
      as (Hs & _ & _ & Hp & _).
    split; [exact Hs | exact Hp].
Defined.


Local Abbreviation ex_header := {| psh_Total := 1; psh_Hash := [Byte.xab] |}.


(** * Examples *)

(** The varint of 300 is ac 02, written backwards from the offset and read
    forwards. *)
Example encodeVarintCanonical_300 :
  encodeVarintCanonical [Byte.x00; Byte.x00; Byte.x00] 3 300
  = Ok ([Byte.x00; Byte.xac; Byte.x02], 1)
  /\ read_varint uint64 [Byte.x00; Byte.xac; Byte.x02] 1 = Ok (300, 3).
Proof. by_computation. Qed.

(** The precommit of height 12345 and round 2 for the block with 32 zero
    bytes of hash and one part, at 2024-01-01T00:00:00Z on "test-chain",
    is decoded from its 114 bytes unchanged, and the same vote of round 3
    has another encoding. *)
Example precommit_roundtrip :
  (bs <- Vote_Marshal ex_vote ;; Vote_Unmarshal Vote_zero bs) = Ok ex_vote
  /\ (bs <- Vote_Marshal ex_vote ;; Ok (len bs)) = Ok 114
  /\ Vote_Marshal ex_vote
     <> Vote_Marshal
          {| vote_Type := 2; vote_Height := 12345; vote_Round := 3;
             vote_BlockID := Some ex_block; vote_Timestamp := ex_time;
             vote_ChainID := ex_chain; vote_VoteExtension := @None Extension |}.
Proof.
  split; [vm_compute; reflexivity | split; [vm_compute; reflexivity|]].
  vm_compute. intros H. congruence.
Qed.

(** * The further properties on concrete messages *)

(** ** The timestamp codec of the examples returns *)

Lemma Timestamp_field_default m fieldNum wireType d pre i :
  3 <= fieldNum -> Timestamp_field m fieldNum wireType d pre i = field_default m d pre.
Proof.
  intros H. unfold Timestamp_field.
  destruct fieldNum as [|p|p]; try lia.
  destruct p as [p|[p|p|]|]; try reflexivity; lia.
Qed.

Lemma Timestamp_field_advances m fieldNum wireType d pre i :
  len d <= MaxInt64 -> 1 <= fieldNum -> 0 <= pre < i -> i <= len d ->
  advances pre (len d) (Timestamp_field m fieldNum wireType d pre i).
Proof.
  intros Hd Hf Hi Hl.
  assert (Hcases : fieldNum = 1 \/ fieldNum = 2 \/ 3 <= fieldNum) by lia.
  destruct Hcases as [->|[->|H3]].
  - cbn [Timestamp_field]. destruct (negb (wireType =? 0)); [exact I|].
    now apply (case_varint_advances Timestamp Timestamp_bytes Timestamp_Unmarshal
                 Extension Extension_bytes Extension_Unmarshal Extension_zero
                 Timestamp_zero int64
                 (fun v => {| ts_Seconds := v; ts_Nanos := ts_Nanos m |})).
  - cbn [Timestamp_field]. destruct (negb (wireType =? 0)); [exact I|].
    now apply (case_varint_advances Timestamp Timestamp_bytes Timestamp_Unmarshal
                 Extension Extension_bytes Extension_Unmarshal Extension_zero
                 Timestamp_zero int32
                 (fun v => {| ts_Seconds := ts_Seconds m; ts_Nanos := v |})).
  - rewrite Timestamp_field_default by exact H3.
    apply (field_default_advances Timestamp Timestamp_bytes Timestamp_Unmarshal
             Extension Extension_bytes Extension_Unmarshal Extension_zero
             Timestamp_zero); lia.
Qed.

Lemma Timestamp_Unmarshal_returns d :
  len d <= MaxInt64 -> returns (Timestamp_Unmarshal d).
Proof.
  intros Hd. unfold Timestamp_Unmarshal.
  assert (H : returns (Unmarshal_with Timestamp_field Timestamp_zero d)).
  { apply (Unmarshal_with_returns Timestamp Timestamp_bytes Timestamp_Unmarshal
             Extension Extension_bytes Extension_Unmarshal Extension_zero
             Timestamp_zero).
    intros. now apply Timestamp_field_advances. }
  destruct (Unmarshal_with Timestamp_field Timestamp_zero d) as [t| | |];
    cbn [bind returns] in *; try tauto.
  now destruct (Timestamp_valid t).
Qed.

(** ** The values *)

(** A slice of length 2 and capacity 7. *)
Local Abbreviation ex_buffer :=
  {| visible := [Byte.x00; Byte.x00];
     spare := [Byte.x00; Byte.x00; Byte.x00; Byte.xee; Byte.xee] |}.

(** The encoding of the part-set header of total 1 and hash ab. *)
Local Abbreviation ex_header_bytes := [Byte.x08; Byte.x01; Byte.x12; Byte.x01; Byte.xab].

(** Field 99 of wire type 2 with the payload 01 02. *)
Local Abbreviation ex_unknown := [Byte.x9a; Byte.x06; Byte.x02; Byte.x01; Byte.x02].

Local Abbreviation ex_payload :=
  (varint (uint64 (len [Byte.x01; Byte.x02])) ++ [Byte.x01; Byte.x02]).

(** A timestamp out of range: its nanoseconds are negative. *)
Local Abbreviation ex_bad_time := {| ts_Seconds := 0; ts_Nanos := -1 |}.

Local Abbreviation ex_bad_proposal :=
  {| prop_Type := 32; prop_Height := 12345; prop_Round := 2; prop_POLRound := -1;
     prop_BlockID := Some ex_block; prop_Timestamp := ex_bad_time;
     prop_ChainID := ex_chain |}.

Local Abbreviation ex_small_block := {| bid_Hash := [Byte.xcd]; bid_PartSetHeader := ex_header |}.

Local Abbreviation ex_small_block_bytes :=
  [Byte.x0a; Byte.x01; Byte.xcd; Byte.x12; Byte.x05;
   Byte.x08; Byte.x01; Byte.x12; Byte.x01; Byte.xab].

Local Abbreviation ex_bare_proposal_bytes :=
  (Byte.x32 :: Byte.x00 :: Byte.x3a :: Byte.x0a :: ex_chain).

Local Abbreviation ex_vote_zero_extended_bytes :=
  [Byte.x2a; Byte.x00; Byte.x3a; Byte.x02; Byte.xca; Byte.xfe].

(** ** The witnesses *)

Lemma sovCanonical_least_witness :
  (sovCanonical 300 <= 2 <-> 300 < 2 ^ (7 * 2)) /\ 1 <= sovCanonical 300 <= 10.
Proof. apply sovCanonical_least; lia. Defined.

Lemma encodeVarintCanonical_writes_witness :
  (exists pre mid post,
      [Byte.xee; Byte.x00; Byte.x00; Byte.xee] = pre ++ mid ++ post
      /\ len pre = 3 - sovCanonical 300 /\ len mid = sovCanonical 300
      /\ encodeVarintCanonical [Byte.xee; Byte.x00; Byte.x00; Byte.xee] 3 300
         = Ok (pre ++ varint 300 ++ post, 3 - sovCanonical 300)
      /\ read_varint uint64 (pre ++ varint 300 ++ post) (3 - sovCanonical 300)
         = Ok (300, 3))
  /\ encodeVarintCanonical [Byte.xee; Byte.x00; Byte.x00; Byte.xee] 1 300 = Panic
  /\ encodeVarintCanonical [Byte.xee; Byte.x00; Byte.x00; Byte.xee] 5 300 = Panic.
Proof.
  assert (R : 0 <= 300 < 2 ^ 64) by lia.
  split; [|split].
  - apply (encodeVarintCanonical_writes [Byte.xee; Byte.x00; Byte.x00; Byte.xee] 3 300 R).
    by_computation.
  - apply (encodeVarintCanonical_writes [Byte.xee; Byte.x00; Byte.x00; Byte.xee] 1 300 R).
    left. reflexivity.
  - apply (encodeVarintCanonical_writes [Byte.xee; Byte.x00; Byte.x00; Byte.xee] 5 300 R).
    right. reflexivity.
Defined.

Lemma sozCanonical_is_the_zigzag_size_witness :
  sozCanonical (uint64 (-3)) = sovCanonical 5
  /\ sozCanonical (uint64 (-3)) = 1
  /\ sovCanonical (uint64 (-3)) = 10.
Proof.
  assert (R : is_int64 (-3)) by (unfold is_int64, MinInt64, MaxInt64; lia).
  destruct (sozCanonical_is_the_zigzag_size (-3) R) as (H & H1 & H10).
  split; [exact H | split; [apply H1; lia | apply H10; lia]].
Defined.

Lemma PartSetHeader_decode_encode_witness :
  (bs <- CanonicalPartSetHeader_Marshal {| psh_Total := 0; psh_Hash := [Byte.xab] |} ;;
   CanonicalPartSetHeader_Unmarshal {| psh_Total := 7; psh_Hash := [Byte.xcd] |} bs)
  = Ok {| psh_Total := 7; psh_Hash := [Byte.xab] |}
  /\ (bs <- CanonicalPartSetHeader_Marshal ex_header ;;
      CanonicalPartSetHeader_Unmarshal CanonicalPartSetHeader_zero bs) = Ok ex_header.
Proof.
  split.
  - apply (PartSetHeader_decode_encode {| psh_Total := 0; psh_Hash := [Byte.xab] |}
             {| psh_Total := 7; psh_Hash := [Byte.xcd] |}); by_computation.
  - apply (PartSetHeader_decode_encode ex_header CanonicalPartSetHeader_zero);
      by_computation.
Defined.

Lemma Marshal_fails_as_the_timestamp_witness :
  Timestamp_bytes ex_bad_time = Err ErrForeign
  /\ Proposal_Marshal ex_bad_proposal = Err ErrForeign
  /\ returns (Vote_Marshal ex_vote).
Proof.
  destruct (Marshal_fails_as_the_timestamp Timestamp Timestamp_bytes Extension
              Extension_bytes) as (Hp & _ & _ & Hv).
  split; [reflexivity | split].
  - apply Hp. reflexivity.
  - apply Hv. exact I.
Defined.

Lemma Marshal_injective_witness :
  CanonicalPartSetHeader_Marshal ex_header = Ok ex_header_bytes
  /\ ex_header = ex_header
  /\ Proposal_Marshal ex_bare_proposal = Ok ex_bare_proposal_bytes
  /\ ex_bare_proposal = ex_bare_proposal
  /\ Vote_Marshal ex_vote_zero_extended = Ok ex_vote_zero_extended_bytes
  /\ ex_vote_zero_extended = ex_vote_zero_extended.
Proof.
  destruct (Marshal_injective Timestamp Timestamp_bytes Timestamp_Unmarshal
              Extension Extension_bytes Extension_Unmarshal Extension_zero Timestamp_zero)
    as (Hh & _ & Hp & Hv).
  assert (Ht : forall ts, Timestamp_bytes Timestamp_zero = Ok ts ->
                          Timestamp_Unmarshal ts = Ok Timestamp_zero).
  { intros ts H. vm_compute in H. injection H as <-. reflexivity. }
  split; [reflexivity | split; [|split; [reflexivity | split; [|split; [reflexivity|]]]]].
  - apply Hh; by_computation.
  - apply (Hp ex_bare_proposal ex_bare_proposal ex_bare_proposal_bytes);
      [by_computation | by_computation | discriminate | exact Ht | exact Ht
      | reflexivity | reflexivity].
  - apply (Hv ex_vote_zero_extended ex_vote_zero_extended ex_vote_zero_extended_bytes);
      [by_computation | by_computation | discriminate | exact Ht | exact Ht
      | intros e _; reflexivity | reflexivity | reflexivity].
Defined.

Lemma tags_are_validated_witness :
  CanonicalPartSetHeader_Unmarshal ex_header [Byte.x0c; Byte.x01]
  = Err ErrEndGroupForNonGroup
  /\ Vote_Unmarshal Vote_zero [Byte.x0c; Byte.x01] = Err ErrEndGroupForNonGroup
  /\ CanonicalBlockID_Unmarshal ex_small_block [Byte.x02; Byte.x00]
     = Err (ErrIllegalTag 0 2)
  /\ Proposal_Unmarshal Proposal_zero [Byte.x02; Byte.x00] = Err (ErrIllegalTag 0 2).
Proof.
  pose proof (tags_are_validated Timestamp Timestamp_Unmarshal Extension
                Extension_Unmarshal Extension_zero 12 [Byte.x01] ltac:(lia)) as H12.
  pose proof (tags_are_validated Timestamp Timestamp_Unmarshal Extension
                Extension_Unmarshal Extension_zero 2 [Byte.x00] ltac:(lia)) as H2.
  cbv zeta in H12, H2.
  destruct H12 as (Hend & _). destruct H2 as (_ & Hill).
  destruct (Hend eq_refl ex_header CanonicalBlockID_zero Proposal_zero Vote_zero)
    as (Hh & _ & _ & Hv).
  assert (Hne : Z.land 2 7 <> 4) by discriminate.
  assert (Hle : int32 (Z.shiftr 2 3) <= 0) by discriminate.
  destruct (Hill Hne Hle CanonicalPartSetHeader_zero ex_small_block Proposal_zero Vote_zero)
    as (_ & Hb & Hp & _).
  repeat split; assumption.
Defined.

Lemma wrong_wire_type_is_an_error_witness :
  CanonicalPartSetHeader_Unmarshal ex_header [Byte.x0a; Byte.x00]
  = Err (ErrWrongWireType 2 1)
  /\ Vote_Unmarshal Vote_zero [Byte.x10; Byte.x05] = Err (ErrWrongWireType 0 2).
Proof.
  split.
  - pose proof (wrong_wire_type_is_an_error Timestamp Timestamp_Unmarshal Extension
                  Extension_Unmarshal Extension_zero 1 2 0 [Byte.x00]) as H.
    cbv zeta in H. destruct H as (Hh & _); [lia | lia | lia |].
    apply Hh. left. reflexivity.
  - pose proof (wrong_wire_type_is_an_error Timestamp Timestamp_Unmarshal Extension
                  Extension_Unmarshal Extension_zero 2 0 1 [Byte.x05]) as H.
    cbv zeta in H. destruct H as (_ & _ & _ & Hv); [lia | lia | lia |].
    apply Hv. right. left. reflexivity.
Defined.

Lemma unknown_fields_are_skipped_witness :
  payload_of 2 ex_payload
  /\ CanonicalPartSetHeader_Unmarshal ex_header ex_unknown = Ok ex_header
  /\ CanonicalBlockID_Unmarshal ex_small_block ex_unknown = Ok ex_small_block
  /\ Proposal_Unmarshal ex_proposal ex_unknown = Ok ex_proposal
  /\ Vote_Unmarshal ex_vote ex_unknown = Ok ex_vote.
Proof.
  assert (Hp : payload_of 2 ex_payload) by exact (payload_delimited [Byte.x01; Byte.x02]).
  assert (Hat : at_index ex_unknown 0 (varint (tag_value 99 2) ++ ex_payload ++ []))
    by (exists []; split; reflexivity).
  assert (Hd : len ex_unknown <= MaxInt64) by discriminate.
  pose proof (unknown_fields_are_skipped Timestamp Timestamp_Unmarshal Extension
                Extension_Unmarshal Extension_zero ex_unknown 0 99 2 ex_payload []
                Hp Hd Hat) as H.
  cbv zeta in H. destruct H as (H3 & H8).
  destruct (H3 ltac:(lia)) as (_ & Hw3). destruct (H8 ltac:(lia)) as (_ & Hw8).
  destruct (Hw3 eq_refl eq_refl ex_header ex_small_block) as (Hh & Hb).
  destruct (Hw8 eq_refl eq_refl ex_proposal ex_vote) as (Hpr & Hv).
  repeat split; assumption.
Defined.

Lemma MarshalTo_writes_Marshal_witness :
  CanonicalPartSetHeader_Marshal ex_header = Ok ex_header_bytes
  /\ (exists b',
         CanonicalPartSetHeader_MarshalTo ex_header ex_buffer
         = Ok (b', CanonicalPartSetHeader_Size ex_header)
         /\ backing b'
            = ex_header_bytes
              ++ skipn (Z.to_nat (CanonicalPartSetHeader_Size ex_header)) (backing ex_buffer)
         /\ len (visible b') = len (visible ex_buffer))
  /\ CanonicalBlockID_MarshalTo ex_small_block ex_buffer = Panic.
Proof.
  pose proof (MarshalTo_writes_Marshal Timestamp Timestamp_bytes Extension Extension_bytes
                ex_buffer) as H.
  cbv zeta in H. destruct H as (Hh & Hb & _).
  split; [reflexivity | split].
  - apply (Hh ex_header ex_header_bytes eq_refl). discriminate.
  - apply (Hb ex_small_block ex_small_block_bytes eq_refl). reflexivity.
Defined.

Lemma XXX_Marshal_needs_exact_capacity_witness :
  CanonicalPartSetHeader_Marshal ex_header = Ok ex_header_bytes
  /\ CanonicalPartSetHeader_XXX_Marshal ex_header (fun _ _ => Err ErrForeign)
       {| visible := []; spare := repeat Byte.x00 5 |} false
     = Ok ex_header_bytes
  /\ CanonicalPartSetHeader_XXX_Marshal ex_header (fun _ _ => Err ErrForeign)
       ex_buffer false
     = Ok [Byte.x00; Byte.x00; Byte.x08; Byte.x01; Byte.x12].
Proof.
  split; [reflexivity | split].
  - pose proof (XXX_Marshal_needs_exact_capacity Timestamp Timestamp_bytes Extension
                  Extension_bytes (fun _ _ => Err ErrForeign)
                  {| visible := []; spare := repeat Byte.x00 5 |}) as H.
    cbv zeta in H. destruct H as (Hh & _).
    apply (Hh ex_header ex_header_bytes eq_refl). reflexivity.
  - pose proof (XXX_Marshal_needs_exact_capacity Timestamp Timestamp_bytes Extension
                  Extension_bytes (fun _ _ => Err ErrForeign) ex_buffer) as H.
    cbv zeta in H. destruct H as (Hh & _).
    apply (Hh ex_header ex_header_bytes eq_refl). discriminate.
Defined.

Lemma decoders_return_on_every_input_witness :
  returns (skipCanonical ex_truncated)
  /\ returns (CanonicalPartSetHeader_Unmarshal ex_header ex_truncated)
  /\ returns (CanonicalBlockID_Unmarshal ex_small_block ex_truncated)
  /\ returns (Proposal_Unmarshal ex_proposal ex_truncated)
  /\ returns (Vote_Unmarshal ex_vote ex_truncated).
Proof.
  assert (Hd : len ex_truncated <= MaxInt64) by discriminate.
  destruct (decoders_return_on_every_input Timestamp Timestamp_bytes Timestamp_Unmarshal
              Extension Extension_bytes Extension_Unmarshal Extension_zero Timestamp_zero
              ex_truncated Hd) as ((Hs & _) & Hh & Hb & Hp & Hv).
  assert (Ht : forall bs, len bs <= len ex_truncated -> returns (Timestamp_Unmarshal bs)).
  { intros bs Hbs. apply Timestamp_Unmarshal_returns. lia. }
  repeat apply conj.
  - exact Hs.
  - apply Hh.
  - apply Hb.
  - apply Hp. exact Ht.
  - apply Hv; [exact Ht | intros e bs _; exact I].
Defined.

Lemma Unmarshal_of_a_concatenation_witness :
  CanonicalPartSetHeader_Unmarshal CanonicalPartSetHeader_zero
    ([Byte.x08; Byte.x07] ++ ex_header_bytes) = Ok ex_header
  /\ Vote_Unmarshal Vote_zero ([Byte.x08; Byte.x01] ++ [Byte.x08; Byte.x02])
     = Ok (with_vote_Type Timestamp Extension Vote_zero 2).
Proof.
  split.
  - assert (Hd : len ([Byte.x08; Byte.x07] ++ ex_header_bytes) <= MaxInt64) by discriminate.
    destruct (Unmarshal_of_a_concatenation Timestamp Timestamp_bytes Timestamp_Unmarshal
                Extension Extension_bytes Extension_Unmarshal Extension_zero Timestamp_zero
                [Byte.x08; Byte.x07] ex_header_bytes Hd) as (Hh & _).
    apply (Hh CanonicalPartSetHeader_zero {| psh_Total := 7; psh_Hash := [] |});
      reflexivity.
  - assert (Hd : len ([Byte.x08; Byte.x01] ++ [Byte.x08; Byte.x02]) <= MaxInt64)
      by discriminate.
    destruct (Unmarshal_of_a_concatenation Timestamp Timestamp_bytes Timestamp_Unmarshal
                Extension Extension_bytes Extension_Unmarshal Extension_zero Timestamp_zero
                [Byte.x08; Byte.x01] [Byte.x08; Byte.x02] Hd) as (_ & _ & _ & Hv).
    apply (Hv Vote_zero (with_vote_Type Timestamp Extension Vote_zero 1)); reflexivity.
Defined.

Lemma varint_fields_are_wrapped_witness :
  CanonicalPartSetHeader_Unmarshal ex_header (field_varint Byte.x08 (2 ^ 32 + 5))
  = Ok {| psh_Total := 5; psh_Hash := [Byte.xab] |}
  /\ Vote_Unmarshal Vote_zero (field_varint Byte.x08 (2 ^ 32 - 1))
     = Ok (with_vote_Type Timestamp Extension Vote_zero (-1)).
Proof.
  split.
  - destruct (varint_fields_are_wrapped Timestamp Timestamp_Unmarshal Extension
                Extension_Unmarshal Extension_zero (2 ^ 32 + 5) ltac:(lia)) as (Hh & _).
    exact (Hh ex_header).
  - destruct (varint_fields_are_wrapped Timestamp Timestamp_Unmarshal Extension
                Extension_Unmarshal Extension_zero (2 ^ 32 - 1) ltac:(lia))
      as (_ & _ & _ & Hv).
    exact (Hv Vote_zero).
Defined.

Lemma delimited_fields_replace_or_merge_witness :
  CanonicalBlockID_Unmarshal ex_small_block (field_bytes Byte.x12 [Byte.x08; Byte.x07])
  = Ok {| bid_Hash := [Byte.xcd];
          bid_PartSetHeader := {| psh_Total := 7; psh_Hash := [Byte.xab] |} |}
  /\ Proposal_Unmarshal Proposal_zero (field_bytes Byte.x32 [Byte.x10; Byte.x01])
     = Ok (with_prop_Timestamp Timestamp Proposal_zero {| ts_Seconds := 0; ts_Nanos := 1 |})
  /\ Vote_Unmarshal Vote_zero (field_bytes Byte.x32 ex_chain)
     = Ok (with_vote_ChainID Timestamp Extension Vote_zero ex_chain).
Proof.
  split; [|split].
  - assert (Hd : len [Byte.x08; Byte.x07] + 11 <= MaxInt64) by discriminate.
    destruct (delimited_fields_replace_or_merge Timestamp Timestamp_Unmarshal Extension
                Extension_Unmarshal Extension_zero [Byte.x08; Byte.x07] Hd)
      as (_ & _ & Hb & _).
    exact (Hb ex_small_block).
  - assert (Hd : len [Byte.x10; Byte.x01] + 11 <= MaxInt64) by discriminate.
    destruct (delimited_fields_replace_or_merge Timestamp Timestamp_Unmarshal Extension
                Extension_Unmarshal Extension_zero [Byte.x10; Byte.x01] Hd)
      as (_ & _ & _ & _ & Hp & _).
    exact (Hp Proposal_zero).
  - assert (Hd : len ex_chain + 11 <= MaxInt64) by discriminate.
    destruct (delimited_fields_replace_or_merge Timestamp Timestamp_Unmarshal Extension
                Extension_Unmarshal Extension_zero ex_chain Hd)
      as (_ & _ & _ & _ & _ & _ & _ & _ & Hv & _).
    exact (Hv Vote_zero).
Defined.

Lemma MarshalToSizedBuffer_fills_the_end_witness :
  CanonicalPartSetHeader_Marshal ex_header = Ok ex_header_bytes
  /\ len ex_header_bytes = CanonicalPartSetHeader_Size ex_header
  /\ CanonicalPartSetHeader_MarshalToSizedBuffer ex_header (repeat Byte.xee 7)
     = Ok ([Byte.xee; Byte.xee] ++ ex_header_bytes, 5).
Proof.
  pose proof (MarshalToSizedBuffer_fills_the_end Timestamp Timestamp_bytes Extension
                Extension_bytes (repeat Byte.xee 7)) as H.
  cbv zeta in H. destruct H as (Hh & _).
  destruct (Hh ex_header ex_header_bytes eq_refl) as (Hlen & Hfill).
  split; [reflexivity | split; [exact Hlen|]].
  apply Hfill. discriminate.
Defined.

Lemma unknown_fields_around_an_encoding_witness :
  payload_of 2 ex_payload
  /\ CanonicalBlockID_Unmarshal CanonicalBlockID_zero (ex_small_block_bytes ++ ex_unknown)
     = Ok ex_small_block
  /\ Proposal_Unmarshal Proposal_zero (ex_unknown ++ ex_bare_proposal_bytes)
     = Ok ex_bare_proposal
  /\ Vote_Unmarshal Vote_zero (ex_vote_zero_extended_bytes ++ ex_unknown)
     = Ok ex_vote_zero_extended.
Proof.
  assert (Hp : payload_of 2 ex_payload) by exact (payload_delimited [Byte.x01; Byte.x02]).
  pose proof (unknown_fields_around_an_encoding Timestamp Timestamp_bytes
                Timestamp_Unmarshal Extension Extension_bytes Extension_Unmarshal
                Extension_zero Timestamp_zero 99 2 ex_payload Hp ltac:(lia)) as H.
  cbv zeta in H. destruct H as (Hb & Hpr & Hv).
  split; [exact Hp | split; [|split]].
  - apply (Hb ex_small_block ex_small_block_bytes); by_computation.
  - apply (Hpr ex_bare_proposal [] ex_bare_proposal_bytes); by_computation.
  - apply (Hv ex_vote_zero_extended [] ex_vote_zero_extended_bytes); try by_computation.
    intros e _. reflexivity.
Defined.

Lemma known_fields_check_their_length_witness :
  CanonicalPartSetHeader_Unmarshal ex_header [Byte.x12; Byte.x05; Byte.x01]
  = Err ErrUnexpectedEOF
  /\ Vote_Unmarshal ex_vote (Byte.x32 :: varint (2 ^ 64 - 1) ++ [Byte.x01])
     = Err ErrInvalidLengthCanonical
  /\ Proposal_Unmarshal ex_proposal [Byte.x11; Byte.x01; Byte.x02] = Err ErrUnexpectedEOF.
Proof.
  pose proof (known_fields_check_their_length Timestamp Timestamp_Unmarshal Extension
                Extension_Unmarshal Extension_zero 5 [Byte.x01] ltac:(lia)) as H5.
  pose proof (known_fields_check_their_length Timestamp Timestamp_Unmarshal Extension
                Extension_Unmarshal Extension_zero (2 ^ 64 - 1) [Byte.x01] ltac:(lia))
    as Hbig.
  pose proof (known_fields_check_their_length Timestamp Timestamp_Unmarshal Extension
                Extension_Unmarshal Extension_zero 0 [Byte.x01; Byte.x02] ltac:(lia))
    as H8.
  cbv zeta in H5, Hbig, H8.
  destruct H5 as (_ & Heof & _). destruct Hbig as (Hinv & _). destruct H8 as (_ & _ & Hfix).
  split; [|split].
  - destruct Heof as (Hh & _); [reflexivity | reflexivity |]. exact (Hh ex_header).
  - destruct Hinv as (_ & _ & _ & Hv); [discriminate|].
    apply (Hv Byte.x32 ex_vote). right. right. left. reflexivity.
  - destruct (Hfix eq_refl Byte.x11 (or_introl eq_refl)) as (Hp & _).
    exact (Hp ex_proposal).
Defined.
